(** * opess: the chess rules core, embedded from the TypeScript sources

    The development follows the source modules one by one:
    [Board] (lib/chess/board.ts), [PieceId] (lib/chess/piece.ts),
    lib/chess/moves.ts, lib/chess/fen.ts, lib/chess/algebraic.ts and
    [Pgn] (lib/chess/pgn.ts).

    Conventions of the embedding:
    - the string-literal union types [BoardFile], [BoardRank], [PieceId],
      [PlayerColor] are inductive types, with the character each value is
      in the source;
    - [PositionStr], the template type of a file character followed by a rank
      character, is identified with [Position];
    - a [BoardMap] is a JavaScript [Map]: an association list in insertion
      order, [set] overwriting in place or appending, [delete] removing;
    - a JavaScript number that holds an integer is the [Z] of its value;
      indexes, columns and line counts stay far below 2^53, where the
      arithmetic of doubles is exact; the two counters of a position can be
      any double, and what the code computes with them is written with the
      rounding of doubles ([Js.toDouble]), [Js.INFINITY] standing for
      Infinity;
    - a function that can [throw] returns a [completion];
      the two-slot [Either] tuples are a sum type;
    - [console.log] and [console.error] calls are not modelled. *)

From Stdlib Require Import ZArith List String Ascii Bool Lia.
Import ListNotations.

Local Open Scope string_scope.
Local Open Scope Z_scope.

Set Implicit Arguments.

(* ------------------------------------------------------------------ *)
(** ** JavaScript odds and ends *)

Module Js.

(** [arr[i]] for a number [i]: [undefined] outside the array. *)
Definition arrayGet {A : Type} (l : list A) (i : Z) : option A :=
  if i <? 0 then None else nth_error l (Z.to_nat i).

Fixpoint indexOfFrom {A : Type} (eqb : A -> A -> bool) (x : A) (l : list A) (i : Z) : Z :=
  match l with
  | [] => -1
  | y :: l' => if eqb y x then i else indexOfFrom eqb x l' (i + 1)
  end.

(** [arr.indexOf(x)] *)
Definition indexOf {A : Type} (eqb : A -> A -> bool) (l : list A) (x : A) : Z :=
  indexOfFrom eqb x l 0.

Definition isSome {A : Type} (o : option A) : bool :=
  match o with Some _ => true | None => false end.

(** [a ?? b] *)
Definition nullish {A : Type} (o : option A) (d : A) : A :=
  match o with Some a => a | None => d end.

Definition isUpperChar (c : ascii) : bool :=
  let n := nat_of_ascii c in (Nat.leb 65 n && Nat.leb n 90)%bool.

Definition isLowerChar (c : ascii) : bool :=
  let n := nat_of_ascii c in (Nat.leb 97 n && Nat.leb n 122)%bool.

Definition toLowerCaseChar (c : ascii) : ascii :=
  if isUpperChar c then ascii_of_nat (nat_of_ascii c + 32) else c.

Definition toUpperCaseChar (c : ascii) : ascii :=
  if isLowerChar c then ascii_of_nat (nat_of_ascii c - 32) else c.

(** [s[i]] for a string: [undefined] past the end. *)
Definition charAt (s : string) (i : nat) : option ascii := String.get i s.

Definition optCharEqb (o : option ascii) (c : ascii) : bool :=
  match o with Some d => Ascii.eqb d c | None => false end.

(** [s.slice(a, b)] for [0 <= a], [0 <= b]. *)
Definition slice (s : string) (a b : nat) : string := String.substring a (b - a) s.

Fixpoint includesChar (s : string) (c : ascii) : bool :=
  match s with
  | EmptyString => false
  | String d s' => (Ascii.eqb d c || includesChar s' c)%bool
  end.

Fixpoint splitAux (sep : ascii) (s : string) (cur : string) : list string :=
  match s with
  | EmptyString => [cur]
  | String c s' =>
      if Ascii.eqb c sep then cur :: splitAux sep s' EmptyString
      else splitAux sep s' (cur ++ String c EmptyString)
  end.

(** [s.split(sep)] for a one-character separator. *)
Definition split (s : string) (sep : ascii) : list string := splitAux sep s EmptyString.

Fixpoint join (sep : string) (l : list string) : string :=
  match l with
  | [] => EmptyString
  | [s] => s
  | s :: l' => s ++ sep ++ join sep l'
  end.

Definition isDigitChar (c : ascii) : bool :=
  let n := nat_of_ascii c in (Nat.leb 48 n && Nat.leb n 57)%bool.

Definition digitValue (c : ascii) : Z := Z.of_nat (nat_of_ascii c) - 48.

(** The white space that [trim] and [parseInt] strip (the ASCII part). *)
Definition isJsSpace (c : ascii) : bool :=
  let n := nat_of_ascii c in
  (Nat.eqb n 32 || (Nat.leb 9 n && Nat.leb n 13))%bool.

Fixpoint trimStart (s : string) : string :=
  match s with
  | EmptyString => EmptyString
  | String c s' => if isJsSpace c then trimStart s' else s
  end.

Fixpoint revString (s acc : string) : string :=
  match s with
  | EmptyString => acc
  | String c s' => revString s' (String c acc)
  end.

Definition trim (s : string) : string :=
  revString (trimStart (revString (trimStart s) EmptyString)) EmptyString.

(** *** Numbers

    JavaScript numbers are binary64 doubles.  Every integer up to 2^53 in
    absolute value is a double; beyond, the doubles are the integers with a
    significand of 53 bits; a result beyond the largest double is Infinity,
    for which [INFINITY] stands: 2^1024, which no finite double reaches. *)
Definition INFINITY : Z := 2 ^ 1024.

(** The double that an exact integer result is rounded to: the nearest one,
    a tie going to the even significand, Infinity from 2^1024 - 2^970 on. *)
Definition toDouble (z : Z) : Z :=
  let a := Z.abs z in
  if a <? 2 ^ 53 then z
  else
    let e := Z.log2 a - 52 in
    let q := a / 2 ^ e in
    let r := a mod 2 ^ e in
    let half := 2 ^ (e - 1) in
    let q := if ((half <? r) || ((r =? half) && Z.odd q))%bool then q + 1 else q in
    let v := q * 2 ^ e in
    Z.sgn z * (if INFINITY <=? v then INFINITY else v).

(** [x + y] on two numbers that hold integers. *)
Definition plus (x y : Z) : Z := toDouble (x + y).

Fixpoint digitsPrefix (s : string) (acc : option Z) : option Z :=
  match s with
  | EmptyString => acc
  | String c s' =>
      if isDigitChar c
      then digitsPrefix s' (Some (10 * match acc with Some a => a | None => 0 end + digitValue c))
      else acc
  end.

(** [parseInt(s, 10)]; [None] is [NaN].  The integer that the digits write
    is rounded to a double (no digit is dropped before the rounding, which
    the language leaves to the engine after the twentieth). *)
Definition parseInt (s : string) : option Z :=
  option_map toDouble
    match trimStart s with
    | String "-" s' => option_map Z.opp (digitsPrefix s' None)
    | String "+" s' => digitsPrefix s' None
    | s' => digitsPrefix s' None
    end.

Definition digitChar (d : Z) : ascii := ascii_of_nat (Z.to_nat d + 48).

Fixpoint natToStringAux (fuel : nat) (n : Z) (acc : string) : string :=
  match fuel with
  | O => acc
  | S k =>
      let acc' := String (digitChar (n mod 10)) acc in
      if n / 10 =? 0 then acc' else natToStringAux k (n / 10) acc'
  end.

(** The decimal digits of an integer that is not negative. *)
Definition decimal (n : Z) : string :=
  natToStringAux (S (Z.to_nat (Z.log2 n))) n EmptyString.

Fixpoint zeros (n : nat) : string :=
  match n with
  | O => EmptyString
  | S k => String "0" (zeros k)
  end.

(** The shortest decimal that is rounded to the double [x]: the pair
    [(s, p)] of the integer [s * 10 ^ p] with the most zeros at its end, for
    [p] from the given one down (the number of digits of [x] is where the
    search starts); of two such integers the one nearer to [x], and the one
    with [s] even when they are as near. *)
Fixpoint shortestFrom (p : nat) (x : Z) : Z * Z :=
  match p with
  | O => (x, 0)
  | S k =>
      let unit := 10 ^ Z.of_nat (S k) in
      let lo := x / unit in
      let hi := lo + 1 in
      let okLo := ((0 <? lo) && (toDouble (lo * unit) =? x))%bool in
      let okHi := toDouble (hi * unit) =? x in
      if (okLo && okHi)%bool then
        if ((x - lo * unit <? hi * unit - x)
            || ((x - lo * unit =? hi * unit - x) && Z.even lo))%bool
        then (lo, Z.of_nat (S k)) else (hi, Z.of_nat (S k))
      else if okLo then (lo, Z.of_nat (S k))
      else if okHi then (hi, Z.of_nat (S k))
      else shortestFrom k x
  end.

(** The text of a number that is not negative: its own digits below 2^53,
    where every integer is a double; the digits of the shortest decimal
    followed by its zeros below 10^21; the exponent notation from there
    on. *)
Definition unsignedToString (a : Z) : string :=
  if INFINITY <=? a then "Infinity"
  else if a <? 2 ^ 53 then decimal a
  else
    let '(s, p) := shortestFrom (String.length (decimal a)) a in
    let digits := decimal s in
    let n := Z.of_nat (String.length digits) + p in
    if n <=? 21 then digits ++ zeros (Z.to_nat p)
    else
      match digits with
      | EmptyString => EmptyString
      | String d EmptyString => String d ("e+" ++ decimal (n - 1))
      | String d rest => String d ("." ++ rest ++ "e+" ++ decimal (n - 1))
      end.

(** The text of a number that holds an integer, as string concatenation and
    template literals produce it. *)
Definition numberToString (n : Z) : string :=
  if n <? 0 then String "-" (unsignedToString (- n)) else unsignedToString n.

End Js.

(* ------------------------------------------------------------------ *)
(** ** lib/chess/board.ts, first part: squares and colours *)

Module Board.

Inductive BoardRank := R1 | R2 | R3 | R4 | R5 | R6 | R7 | R8.
Inductive BoardFile := Fa | Fb | Fc | Fd | Fe | Ff | Fg | Fh.

Definition BOARD_RANKS : list BoardRank := [R1; R2; R3; R4; R5; R6; R7; R8].
Definition BOARD_FILES : list BoardFile := [Fa; Fb; Fc; Fd; Fe; Ff; Fg; Fh].

Definition rankChar (r : BoardRank) : ascii :=
  match r with
  | R1 => "1" | R2 => "2" | R3 => "3" | R4 => "4"
  | R5 => "5" | R6 => "6" | R7 => "7" | R8 => "8"
  end%char.

Definition fileChar (f : BoardFile) : ascii :=
  match f with
  | Fa => "a" | Fb => "b" | Fc => "c" | Fd => "d"
  | Fe => "e" | Ff => "f" | Fg => "g" | Fh => "h"
  end%char.

Definition rank_eqb (a b : BoardRank) : bool := Ascii.eqb (rankChar a) (rankChar b).
Definition file_eqb (a b : BoardFile) : bool := Ascii.eqb (fileChar a) (fileChar b).

Inductive PlayerColor := WHITE | BLACK.

Definition color_eqb (a b : PlayerColor) : bool :=
  match a, b with
  | WHITE, WHITE | BLACK, BLACK => true
  | _, _ => false
  end.

Module InitialRank.
Definition WHITE : BoardRank := R1.
Definition BLACK : BoardRank := R8.
End InitialRank.

Module PromotionRank.
Definition WHITE : BoardRank := R8.
Definition BLACK : BoardRank := R1.
End PromotionRank.

Module EnPassantRank.
Definition WHITE : BoardRank := R3.
Definition BLACK : BoardRank := R6.
End EnPassantRank.

Record Position := make { file : BoardFile; rank : BoardRank }.

(** The two-character code of a square. *)
Definition PositionStr := Position.

Definition equals (p other : Position) : bool :=
  (file_eqb p.(file) other.(file) && rank_eqb p.(rank) other.(rank))%bool.

Definition fileIndex (p : Position) : Z := Js.indexOf file_eqb BOARD_FILES p.(file).
Definition rankIndex (p : Position) : Z := Js.indexOf rank_eqb BOARD_RANKS p.(rank).

Definition toString (p : Position) : string :=
  String (fileChar p.(file)) (String (rankChar p.(rank)) EmptyString).

(** [isBoardRank] and [isBoardFile] on one character: the value it denotes. *)
Definition isBoardRank (c : option ascii) : option BoardRank :=
  match c with
  | Some c => find (fun r => Ascii.eqb (rankChar r) c) BOARD_RANKS
  | None => None
  end.

Definition isBoardFile (c : option ascii) : option BoardFile :=
  match c with
  | Some c => find (fun f => Ascii.eqb (fileChar f) c) BOARD_FILES
  | None => None
  end.

(** [isPositionStr] followed by [Position.fromStr]: [Position.parse]. *)
Definition parse (pos : string) : option Position :=
  if negb (Nat.eqb (String.length pos) 2) then None
  else
    match isBoardFile (Js.charAt pos 0), isBoardRank (Js.charAt pos 1) with
    | Some f, Some r => Some (make f r)
    | _, _ => None
    end.

Definition prevBoardRank (r : BoardRank) : option BoardRank :=
  let index := Js.indexOf rank_eqb BOARD_RANKS r in
  if 0 <? index then Js.arrayGet BOARD_RANKS (index - 1) else None.

Definition nextBoardRank (r : BoardRank) : option BoardRank :=
  let index := Js.indexOf rank_eqb BOARD_RANKS r in
  if index <? Z.of_nat (List.length BOARD_RANKS) - 1
  then Js.arrayGet BOARD_RANKS (index + 1) else None.

Record CastlingRights := {
  whiteKingSide : bool;
  whiteQueenSide : bool;
  blackKingSide : bool;
  blackQueenSide : bool
}.

(** *** BoardMap: a [Map] keyed by square, in insertion order *)

Definition BoardMap (T : Type) := list (PositionStr * T).

Section BoardMapOps.
Variable T : Type.

Fixpoint get (m : BoardMap T) (k : PositionStr) : option T :=
  match m with
  | [] => None
  | (k', v) :: m' => if equals k' k then Some v else get m' k
  end.

Definition has (m : BoardMap T) (k : PositionStr) : bool := Js.isSome (get m k).

Fixpoint set (m : BoardMap T) (k : PositionStr) (v : T) : BoardMap T :=
  match m with
  | [] => [(k, v)]
  | (k', v') :: m' => if equals k' k then (k', v) :: m' else (k', v') :: set m' k v
  end.

Fixpoint delete (m : BoardMap T) (k : PositionStr) : BoardMap T :=
  match m with
  | [] => []
  | (k', v') :: m' => if equals k' k then delete m' k else (k', v') :: delete m' k
  end.

Definition size (m : BoardMap T) : Z := Z.of_nat (List.length m).

Definition clone (m : BoardMap T) : BoardMap T := m.

Variable eqb : T -> T -> bool.

Fixpoint findPositionFor (m : BoardMap T) (value : T) : option PositionStr :=
  match m with
  | [] => None
  | (k, v) :: m' => if eqb v value then Some k else findPositionFor m' value
  end.

Definition optEqb (o : option T) (value : T) : bool :=
  match o with Some v => eqb v value | None => false end.

(** The loop over the ranks of [findPieceOnFile]. *)
Fixpoint findOnRanks (m : BoardMap T) (piece : T) (f : BoardFile) (ranks : list BoardRank)
  : option PositionStr :=
  match ranks with
  | [] => None
  | r :: ranks' =>
      if optEqb (get m (make f r)) piece then Some (make f r)
      else findOnRanks m piece f ranks'
  end.

Definition findPieceOnFile (m : BoardMap T) (piece : T) (f : BoardFile) : option PositionStr :=
  findOnRanks m piece f BOARD_RANKS.

End BoardMapOps.

End Board.
Import Board.

(* ------------------------------------------------------------------ *)
(** ** lib/chess/piece.ts *)

Module PieceId.

Inductive PieceId :=
| BLACK_PAWN | WHITE_PAWN
| BLACK_KING | WHITE_KING
| BLACK_QUEEN | WHITE_QUEEN
| BLACK_ROOK | WHITE_ROOK
| BLACK_BISHOP | WHITE_BISHOP
| BLACK_KNIGHT | WHITE_KNIGHT.

(** The FEN letter that a piece is in the source. *)
Definition char (p : PieceId) : ascii :=
  match p with
  | BLACK_PAWN => "p" | WHITE_PAWN => "P"
  | BLACK_KING => "k" | WHITE_KING => "K"
  | BLACK_QUEEN => "q" | WHITE_QUEEN => "Q"
  | BLACK_ROOK => "r" | WHITE_ROOK => "R"
  | BLACK_BISHOP => "b" | WHITE_BISHOP => "B"
  | BLACK_KNIGHT => "n" | WHITE_KNIGHT => "N"
  end%char.

Definition eqb (a b : PieceId) : bool := Ascii.eqb (char a) (char b).

Definition VALID_PIECES : list PieceId :=
  [BLACK_PAWN; WHITE_PAWN; BLACK_KING; WHITE_KING; BLACK_QUEEN; WHITE_QUEEN;
   BLACK_ROOK; WHITE_ROOK; BLACK_BISHOP; WHITE_BISHOP; BLACK_KNIGHT; WHITE_KNIGHT].

(** [isPiece] on one character, with the piece it is ([parse]). *)
Definition parse (c : ascii) : option PieceId :=
  find (fun p => Ascii.eqb (char p) c) VALID_PIECES.

Definition isPiece (c : ascii) : bool := Js.isSome (parse c).

Definition isPawn (p : PieceId) : bool := (eqb p BLACK_PAWN || eqb p WHITE_PAWN)%bool.
Definition isKing (p : PieceId) : bool := (eqb p BLACK_KING || eqb p WHITE_KING)%bool.

Definition getColor (p : PieceId) : PlayerColor :=
  if Ascii.eqb (char p) (Js.toLowerCaseChar (char p)) then BLACK else WHITE.

Definition isWhite (p : PieceId) : bool :=
  (eqb p WHITE_PAWN || eqb p WHITE_KING || eqb p WHITE_QUEEN
   || eqb p WHITE_ROOK || eqb p WHITE_BISHOP || eqb p WHITE_KNIGHT)%bool.

Definition isBlack (p : PieceId) : bool :=
  (eqb p BLACK_PAWN || eqb p BLACK_KING || eqb p BLACK_QUEEN
   || eqb p BLACK_ROOK || eqb p BLACK_BISHOP || eqb p BLACK_KNIGHT)%bool.

(** The eight values of the type [PromotionPieceId]. *)
Inductive PromotionPieceId :=
| PROMO_BLACK_QUEEN | PROMO_BLACK_ROOK | PROMO_BLACK_BISHOP | PROMO_BLACK_KNIGHT
| PROMO_WHITE_QUEEN | PROMO_WHITE_ROOK | PROMO_WHITE_BISHOP | PROMO_WHITE_KNIGHT.

Definition ofPromotion (q : PromotionPieceId) : PieceId :=
  match q with
  | PROMO_BLACK_QUEEN => BLACK_QUEEN | PROMO_BLACK_ROOK => BLACK_ROOK
  | PROMO_BLACK_BISHOP => BLACK_BISHOP | PROMO_BLACK_KNIGHT => BLACK_KNIGHT
  | PROMO_WHITE_QUEEN => WHITE_QUEEN | PROMO_WHITE_ROOK => WHITE_ROOK
  | PROMO_WHITE_BISHOP => WHITE_BISHOP | PROMO_WHITE_KNIGHT => WHITE_KNIGHT
  end.

Definition promotionEqb (a b : PromotionPieceId) : bool := eqb (ofPromotion a) (ofPromotion b).

End PieceId.
Import PieceId.

(* ------------------------------------------------------------------ *)
(** ** Results: thrown errors and the two-slot [Either] *)

(** What the sources [throw]; each constructor is one [throw] statement. *)
Inductive Exception :=
| NoPieceAtPosition (pos : Position)
| AllowedMovesAlreadyCalculated
| PieceDoesNotMatchMove (pos : Position) (p : PieceId)
| FenMustContainPlacement
| FenMustContain8Rows
| FenInvalidPieceId (c : ascii)
| FenInvalidColumnIndex (colIndex : Z)
| FenInvalidRowIndex (rowIndex : Z)
| FenInvalidEnPassantTarget
| FenInvalidHalfMoveClock
| FenInvalidFullMoveNumber
| PgnUnmatchedClosingParenthesis (line lineOffset : Z)
| PgnUnmatchedClosingBracket (line lineOffset : Z)
| PgnFailedWhiteMove (line lineOffset : Z)
| PgnFailedMove (line lineOffset : Z)
| PgnFailedBlackMove (line lineOffset : Z)
| PgnExpectedBlackMoveOrEnd (line lineOffset : Z)
| PgnUnmatchedOpeningParenthesis
| PgnUnmatchedOpeningBracket.

Inductive completion (A : Type) :=
| Normal (a : A)
| Throw (e : Exception).
Arguments Normal {A} a.
Arguments Throw {A} e.

Definition bindC {A B : Type} (c : completion A) (k : A -> completion B) : completion B :=
  match c with
  | Normal a => k a
  | Throw e => Throw e
  end.

Notation "'let*' x ':=' c 'in' k" := (bindC c (fun x => k))
  (at level 10, x pattern, c at level 100, k at level 200).

(** [Either<T, E>]: the tuple [[value]] or [[, error]]. *)
Inductive Either (T E : Type) :=
| Value (v : T)
| Error (e : E).
Arguments Value {T E} v.
Arguments Error {T E} e.

(* ------------------------------------------------------------------ *)
(** ** lib/chess/moves.ts: the [Move] record; board.ts: [BoardInfo] *)

Inductive CastlingSide := KingSide | QueenSide.

Record Move := {
  from : Position;
  to : Position;
  algebraic : string;
  piece : PieceId;
  turn : PlayerColor;
  isCapture : bool;
  castling : option CastlingSide;
  isEnPassantCapture : bool;
  promotion : option PromotionPieceId;
  comment : option string
}.

Inductive MoveError :=
| notYourTurn
| captureOwnPiece
| invalidPieceMove (p : PieceId).

Record BoardInfo := {
  pieces : BoardMap PieceId;
  turnColor : PlayerColor;
  canCastle : CastlingRights;
  enPassantTarget : option Position;
  halfMoveClock : Z;
  fullMoveNumber : Z;
  allowedMoves : BoardMap (list Position);
  moves : list Move
}.

Definition newBoardInfo : BoardInfo :=
  {| pieces := [];
     turnColor := WHITE;
     canCastle := {| whiteKingSide := true; whiteQueenSide := true;
                     blackKingSide := true; blackQueenSide := true |};
     enPassantTarget := None;
     halfMoveClock := 0;
     fullMoveNumber := 0;
     allowedMoves := [];
     moves := [] |}.

Definition withPieces (b : BoardInfo) (p : BoardMap PieceId) : BoardInfo :=
  {| pieces := p; turnColor := b.(turnColor); canCastle := b.(canCastle);
     enPassantTarget := b.(enPassantTarget); halfMoveClock := b.(halfMoveClock);
     fullMoveNumber := b.(fullMoveNumber); allowedMoves := b.(allowedMoves);
     moves := b.(moves) |}.

Definition withTurnColor (b : BoardInfo) (c : PlayerColor) : BoardInfo :=
  {| pieces := b.(pieces); turnColor := c; canCastle := b.(canCastle);
     enPassantTarget := b.(enPassantTarget); halfMoveClock := b.(halfMoveClock);
     fullMoveNumber := b.(fullMoveNumber); allowedMoves := b.(allowedMoves);
     moves := b.(moves) |}.

Definition withCanCastle (b : BoardInfo) (c : CastlingRights) : BoardInfo :=
  {| pieces := b.(pieces); turnColor := b.(turnColor); canCastle := c;
     enPassantTarget := b.(enPassantTarget); halfMoveClock := b.(halfMoveClock);
     fullMoveNumber := b.(fullMoveNumber); allowedMoves := b.(allowedMoves);
     moves := b.(moves) |}.

Definition withEnPassantTarget (b : BoardInfo) (e : option Position) : BoardInfo :=
  {| pieces := b.(pieces); turnColor := b.(turnColor); canCastle := b.(canCastle);
     enPassantTarget := e; halfMoveClock := b.(halfMoveClock);
     fullMoveNumber := b.(fullMoveNumber); allowedMoves := b.(allowedMoves);
     moves := b.(moves) |}.

Definition withHalfMoveClock (b : BoardInfo) (n : Z) : BoardInfo :=
  {| pieces := b.(pieces); turnColor := b.(turnColor); canCastle := b.(canCastle);
     enPassantTarget := b.(enPassantTarget); halfMoveClock := n;
     fullMoveNumber := b.(fullMoveNumber); allowedMoves := b.(allowedMoves);
     moves := b.(moves) |}.

Definition withAllowedMoves (b : BoardInfo) (a : BoardMap (list Position)) : BoardInfo :=
  {| pieces := b.(pieces); turnColor := b.(turnColor); canCastle := b.(canCastle);
     enPassantTarget := b.(enPassantTarget); halfMoveClock := b.(halfMoveClock);
     fullMoveNumber := b.(fullMoveNumber); allowedMoves := a;
     moves := b.(moves) |}.

Definition withAlgebraic (m : Move) (s : string) : Move :=
  {| from := m.(from); to := m.(to); algebraic := s; piece := m.(piece);
     turn := m.(turn); isCapture := m.(isCapture); castling := m.(castling);
     isEnPassantCapture := m.(isEnPassantCapture); promotion := m.(promotion);
     comment := m.(comment) |}.

Definition withPromotion (m : Move) (q : option PromotionPieceId) : Move :=
  {| from := m.(from); to := m.(to); algebraic := m.(algebraic); piece := m.(piece);
     turn := m.(turn); isCapture := m.(isCapture); castling := m.(castling);
     isEnPassantCapture := m.(isEnPassantCapture); promotion := q;
     comment := m.(comment) |}.

Definition withComment (m : Move) (c : option string) : Move :=
  {| from := m.(from); to := m.(to); algebraic := m.(algebraic); piece := m.(piece);
     turn := m.(turn); isCapture := m.(isCapture); castling := m.(castling);
     isEnPassantCapture := m.(isEnPassantCapture); promotion := m.(promotion);
     comment := c |}.

(* ------------------------------------------------------------------ *)
(** ** lib/chess/algebraic.ts: the encoder, which [calculateMove] calls *)

Definition KING_SIDE_CASTLING_STR : string := "O-O".
Definition QUEEN_SIDE_CASTLING_STR : string := "O-O-O".

Definition charStr (c : ascii) : string := String c EmptyString.

Definition moveToAlgebraic (move : Move) : string :=
  match move.(castling) with
  | Some side => match side with KingSide => "O-O" | QueenSide => "O-O-O" end
  | None =>
      let notation := EmptyString in
      let isPawn := PieceId.isPawn move.(piece) in
      let notation := if negb isPawn then notation ++ charStr (PieceId.char move.(piece)) else notation in
      let notation := if (move.(isCapture) && isPawn)%bool
                      then notation ++ charStr (fileChar move.(from).(file)) else notation in
      let notation := if move.(isCapture) then notation ++ "x" else notation in
      let notation := notation ++ Board.toString move.(to) in
      let notation := match move.(promotion) with
                      | Some q => notation ++ "=" ++ charStr (Js.toUpperCaseChar (PieceId.char (ofPromotion q)))
                      | None => notation
                      end in
      notation
  end%string.

(* ------------------------------------------------------------------ *)
(** ** lib/chess/moves.ts: shape rules *)

(** The loops of [getPositionsBetween] step an index from the origin towards
    the destination until it is equal to the destination's.  On two different
    squares of one line that takes at most six steps, so the loops are run
    on eight units of fuel.  On [from = to] the source loop does not end;
    [calculateMove] answers [captureOwnPiece] before any shape rule then
    (lemmas [getPositionsBetween_fuel] and [calculateMove_same_square]
    below). *)
Definition LINE_FUEL : nat := 8.

Fixpoint horizontalBetween (fuel : nat) (i toFileIdx step : Z) (fromRank : BoardRank)
  : list PositionStr :=
  match fuel with
  | O => []
  | S k =>
      if i =? toFileIdx then []
      else match Js.arrayGet BOARD_FILES i with
           | None => horizontalBetween k (i + step) toFileIdx step fromRank
           | Some f => make f fromRank :: horizontalBetween k (i + step) toFileIdx step fromRank
           end
  end.

Fixpoint verticalBetween (fuel : nat) (i toRankIdx step : Z) (fromFile : BoardFile)
  : list PositionStr :=
  match fuel with
  | O => []
  | S k =>
      if i =? toRankIdx then []
      else match Js.arrayGet BOARD_RANKS i with
           | None => verticalBetween k (i + step) toRankIdx step fromFile
           | Some r => make fromFile r :: verticalBetween k (i + step) toRankIdx step fromFile
           end
  end.

Fixpoint diagonalBetween (fuel : nat) (f r toFileIdx toRankIdx fileStep rankStep : Z)
  : list PositionStr :=
  match fuel with
  | O => []
  | S k =>
      if (negb (f =? toFileIdx) && negb (r =? toRankIdx))%bool then
        match Js.arrayGet BOARD_FILES f, Js.arrayGet BOARD_RANKS r with
        | Some nextFile, Some nextRank =>
            make nextFile nextRank
              :: diagonalBetween k (f + fileStep) (r + rankStep) toFileIdx toRankIdx fileStep rankStep
        | _, _ => diagonalBetween k (f + fileStep) (r + rankStep) toFileIdx toRankIdx fileStep rankStep
        end
      else []
  end.

Definition getPositionsBetween (from to : Position) : list PositionStr :=
  let fromFileIdx := fileIndex from in
  let toFileIdx := fileIndex to in
  let fromRankIdx := rankIndex from in
  let toRankIdx := rankIndex to in
  if fromRankIdx =? toRankIdx then
    let step := if fromFileIdx <? toFileIdx then 1 else -1 in
    horizontalBetween LINE_FUEL (fromFileIdx + step) toFileIdx step from.(rank)
  else if fromFileIdx =? toFileIdx then
    let step := if fromRankIdx <? toRankIdx then 1 else -1 in
    verticalBetween LINE_FUEL (fromRankIdx + step) toRankIdx step from.(file)
  else if Z.abs (fromFileIdx - toFileIdx) =? Z.abs (fromRankIdx - toRankIdx) then
    let fileStep := if fromFileIdx <? toFileIdx then 1 else -1 in
    let rankStep := if fromRankIdx <? toRankIdx then 1 else -1 in
    diagonalBetween LINE_FUEL (fromFileIdx + fileStep) (fromRankIdx + rankStep)
      toFileIdx toRankIdx fileStep rankStep
  else [].

Definition isPathClear (from to : Position) (board : BoardMap PieceId) : bool :=
  forallb (fun pos => negb (has board pos)) (getPositionsBetween from to).

Definition isValidPawnMove (from to : Position) (piece : PieceId)
  (board : BoardMap PieceId) (enPassantTarget : option Position) : bool :=
  let fromFileIdx := fileIndex from in
  let toFileIdx := fileIndex to in
  let fromRankIdx := rankIndex from in
  let toRankIdx := rankIndex to in
  let isWhite := PieceId.isWhite piece in
  let direction := if isWhite then 1 else -1 in
  if file_eqb from.(file) to.(file) then
    if toRankIdx - fromRankIdx =? direction then negb (has board to)
    else
      let startRank := if isWhite then R2 else R7 in
      if (rank_eqb from.(rank) startRank && (toRankIdx - fromRankIdx =? 2 * direction))%bool
      then (negb (has board to) && isPathClear from to board)%bool
      else false
  else if ((Z.abs (toFileIdx - fromFileIdx) =? 1) && (toRankIdx - fromRankIdx =? direction))%bool
  then (has board to
        || match enPassantTarget with Some e => equals e to | None => false end)%bool
  else false.

Definition isValidKnightMove (from to : Position) : bool :=
  let fileDiff := Z.abs (fileIndex to - fileIndex from) in
  let rankDiff := Z.abs (rankIndex to - rankIndex from) in
  (((fileDiff =? 2) && (rankDiff =? 1)) || ((fileDiff =? 1) && (rankDiff =? 2)))%bool.

Definition isValidBishopMove (from to : Position) (board : BoardMap PieceId) : bool :=
  let fileDiff := Z.abs (fileIndex to - fileIndex from) in
  let rankDiff := Z.abs (rankIndex to - rankIndex from) in
  ((fileDiff =? rankDiff) && isPathClear from to board)%bool.

Definition isValidRookMove (from to : Position) (board : BoardMap PieceId) : bool :=
  ((file_eqb from.(file) to.(file) || rank_eqb from.(rank) to.(rank))
   && isPathClear from to board)%bool.

Definition isValidQueenMove (from to : Position) (board : BoardMap PieceId) : bool :=
  (isValidBishopMove from to board || isValidRookMove from to board)%bool.

Definition isValidKingMove (from to : Position) (piece : PieceId)
  (board : BoardMap PieceId) (castling : CastlingRights) : bool * option CastlingSide :=
  let fileDiff := Z.abs (fileIndex to - fileIndex from) in
  let rankDiff := Z.abs (rankIndex to - rankIndex from) in
  if ((fileDiff <=? 1) && (rankDiff <=? 1))%bool then (true, None)
  else
    let isWhite := PieceId.isWhite piece in
    if ((rankDiff =? 0)
        && rank_eqb from.(rank) (if isWhite then InitialRank.WHITE else InitialRank.BLACK)
        && file_eqb from.(file) Fe
        && isPathClear from to board)%bool
    then
      if (file_eqb to.(file) Fg
          && ((isWhite && castling.(whiteKingSide))
              || (negb isWhite && castling.(blackKingSide))))%bool
      then (true, Some KingSide)
      else if (file_eqb to.(file) Fc
               && ((isWhite && castling.(whiteQueenSide))
                   || (negb isWhite && castling.(blackQueenSide))))%bool
      then (true, Some QueenSide)
      else (false, None)
    else (false, None).

(** *** calculateMove *)

Definition calculateMove (board : BoardInfo) (from to : Position)
  (promotionPiece : option PromotionPieceId) (ignoreAllowed : bool)
  : completion (Either Move MoveError) :=
  match get board.(pieces) from with
  | None => Throw (NoPieceAtPosition from)
  | Some piece =>
      let pieceColor := PieceId.getColor piece in
      if negb (color_eqb pieceColor board.(turnColor)) then Normal (Error notYourTurn)
      else
        let targetPiece := get board.(pieces) to in
        if match targetPiece with
           | Some tp => color_eqb pieceColor (PieceId.getColor tp)
           | None => false
           end
        then Normal (Error captureOwnPiece)
        else
          let allowed := get board.(allowedMoves) from in
          if (negb ignoreAllowed
              && negb match allowed with
                      | Some l => existsb (fun m => String.eqb (Board.toString m) (Board.toString to)) l
                      | None => false
                      end)%bool
          then Normal (Error (invalidPieceMove piece))
          else
            let '(isValid, castling, isEnPassantCapture) :=
              match piece with
              | BLACK_PAWN | WHITE_PAWN =>
                  let isValid := isValidPawnMove from to piece board.(pieces) board.(enPassantTarget) in
                  (isValid, None,
                   (isValid && match board.(enPassantTarget) with
                               | Some e => equals e to
                               | None => false
                               end)%bool)
              | BLACK_KNIGHT | WHITE_KNIGHT => (isValidKnightMove from to, None, false)
              | BLACK_BISHOP | WHITE_BISHOP => (isValidBishopMove from to board.(pieces), None, false)
              | BLACK_ROOK | WHITE_ROOK => (isValidRookMove from to board.(pieces), None, false)
              | BLACK_QUEEN | WHITE_QUEEN => (isValidQueenMove from to board.(pieces), None, false)
              | BLACK_KING | WHITE_KING =>
                  let result := isValidKingMove from to piece board.(pieces) board.(canCastle) in
                  (fst result, snd result, false)
              end in
            if negb isValid then Normal (Error (invalidPieceMove piece))
            else
              let promotion :=
                if (PieceId.eqb piece BLACK_PAWN && rank_eqb to.(rank) PromotionRank.BLACK)%bool
                then Some PROMO_BLACK_QUEEN
                else if (PieceId.eqb piece WHITE_PAWN && rank_eqb to.(rank) PromotionRank.WHITE)%bool
                then Some PROMO_WHITE_QUEEN
                else None in
              let move :=
                {| from := from; to := to; piece := piece; turn := pieceColor;
                   algebraic := EmptyString;
                   isCapture := (Js.isSome targetPiece || isEnPassantCapture)%bool;
                   castling := castling;
                   isEnPassantCapture := isEnPassantCapture;
                   promotion := match promotion with
                                | Some q => Some (Js.nullish promotionPiece q)
                                | None => None
                                end;
                   comment := None |} in
              Normal (Value (withAlgebraic move (moveToAlgebraic move)))
  end.

(** *** fillAllowedMoves *)

(** The 64 destinations in the order of the two nested loops. *)
Definition allSquares : list Position :=
  flat_map (fun f => map (fun r => make f r) BOARD_RANKS) BOARD_FILES.

(** The scan of the opposing pieces: can one of them reach [kingPos]? *)
Fixpoint scanOpponents (tempBoard : BoardInfo) (turn : PlayerColor) (kingPos : PositionStr)
  (entries : list (PositionStr * PieceId)) : completion bool :=
  match entries with
  | [] => Normal false
  | (opPosStr, opPiece) :: rest =>
      if color_eqb (PieceId.getColor opPiece) turn
      then scanOpponents tempBoard turn kingPos rest
      else
        let* r := calculateMove (withTurnColor tempBoard (PieceId.getColor opPiece))
                    opPosStr kingPos None true in
        match r with
        | Value _ => Normal true
        | Error _ => scanOpponents tempBoard turn kingPos rest
        end
  end.

(** The board on which a trial move is played. *)
Definition tempBoardAfter (board : BoardInfo) (from to : Position) (piece : PieceId)
  (move : Move) : BoardInfo :=
  let tempPieces := clone board.(pieces) in
  let tempPieces := delete tempPieces from in
  let tempPieces :=
    if move.(isEnPassantCapture)
    then delete tempPieces (make to.(file) from.(rank))
    else tempPieces in
  let tempPieces :=
    set tempPieces to (match move.(promotion) with
                       | Some q => ofPromotion q
                       | None => piece
                       end) in
  withAllowedMoves (withPieces board tempPieces) [].

(** The body of the two destination loops: is [to] pushed on [possibleMoves]? *)
Definition isPossibleMove (board : BoardInfo) (from : Position) (piece : PieceId)
  (to : Position) : completion bool :=
  let* r := calculateMove board from to None true in
  match r with
  | Error _ => Normal false
  | Value move =>
      let tempBoard := tempBoardAfter board from to piece move in
      let kingPiece :=
        if color_eqb board.(turnColor) WHITE then WHITE_KING else BLACK_KING in
      match findPositionFor PieceId.eqb tempBoard.(pieces) kingPiece with
      | None => Normal false
      | Some kingPos =>
          let* isKingInCheck :=
            scanOpponents tempBoard board.(turnColor) kingPos tempBoard.(pieces) in
          Normal (negb isKingInCheck)
      end
  end.

Fixpoint possibleMovesFrom (board : BoardInfo) (from : Position) (piece : PieceId)
  (squares : list Position) : completion (list Position) :=
  match squares with
  | [] => Normal []
  | to :: rest =>
      let* ok := isPossibleMove board from piece to in
      let* more := possibleMovesFrom board from piece rest in
      Normal (if ok then to :: more else more)
  end.

(** The loop over the pieces; [board.allowedMoves] is filled as it goes. *)
Fixpoint fillLoop (board : BoardInfo) (entries : list (PositionStr * PieceId))
  : completion BoardInfo :=
  match entries with
  | [] => Normal board
  | (posStr, piece) :: rest =>
      if negb (color_eqb (PieceId.getColor piece) board.(turnColor))
      then fillLoop board rest
      else
        let* possibleMoves := possibleMovesFrom board posStr piece allSquares in
        if 0 <? Z.of_nat (List.length possibleMoves)
        then fillLoop (withAllowedMoves board (set board.(allowedMoves) posStr possibleMoves)) rest
        else fillLoop board rest
  end.

Definition fillAllowedMoves (board : BoardInfo) : completion BoardInfo :=
  if 0 <? size board.(allowedMoves) then Throw AllowedMovesAlreadyCalculated
  else fillLoop board board.(pieces).

(** *** applyMove *)

Definition applyCastlingMove (newBoard : BoardInfo) (move : Move) : BoardInfo :=
  let isWhiteMove := color_eqb move.(turn) WHITE in
  let rank := if isWhiteMove then R1 else R8 in
  let king := if isWhiteMove then WHITE_KING else BLACK_KING in
  let rook := if isWhiteMove then WHITE_ROOK else BLACK_ROOK in
  let cleared (c : CastlingRights) :=
    if isWhiteMove
    then {| whiteKingSide := false; whiteQueenSide := false;
            blackKingSide := c.(blackKingSide); blackQueenSide := c.(blackQueenSide) |}
    else {| whiteKingSide := c.(whiteKingSide); whiteQueenSide := c.(whiteQueenSide);
            blackKingSide := false; blackQueenSide := false |} in
  match move.(castling) with
  | Some KingSide =>
      let p := delete newBoard.(pieces) (make Fe rank) in
      let p := delete p (make Fh rank) in
      let p := set p (make Fg rank) king in
      let p := set p (make Ff rank) rook in
      withCanCastle (withPieces newBoard p) (cleared newBoard.(canCastle))
  | Some QueenSide =>
      let p := delete newBoard.(pieces) (make Fe rank) in
      let p := delete p (make Fa rank) in
      let p := set p (make Fc rank) king in
      let p := set p (make Fd rank) rook in
      withCanCastle (withPieces newBoard p) (cleared newBoard.(canCastle))
  | None => newBoard
  end.

Definition updateCastlingRights (castling : CastlingRights) (move : Move) : CastlingRights :=
  if PieceId.eqb move.(piece) BLACK_KING then
    {| whiteKingSide := castling.(whiteKingSide); whiteQueenSide := castling.(whiteQueenSide);
       blackKingSide := false; blackQueenSide := false |}
  else if PieceId.eqb move.(piece) WHITE_KING then
    {| whiteKingSide := false; whiteQueenSide := false;
       blackKingSide := castling.(blackKingSide); blackQueenSide := castling.(blackQueenSide) |}
  else if PieceId.eqb move.(piece) BLACK_ROOK then
    {| whiteKingSide := castling.(whiteKingSide); whiteQueenSide := castling.(whiteQueenSide);
       blackKingSide := if equals move.(from) (make Fh R8) then false else castling.(blackKingSide);
       blackQueenSide := if equals move.(from) (make Fa R8) then false else castling.(blackQueenSide) |}
  else if PieceId.eqb move.(piece) WHITE_ROOK then
    {| whiteKingSide := if equals move.(from) (make Fh R1) then false else castling.(whiteKingSide);
       whiteQueenSide := if equals move.(from) (make Fa R1) then false else castling.(whiteQueenSide);
       blackKingSide := castling.(blackKingSide); blackQueenSide := castling.(blackQueenSide) |}
  else castling.

Definition optPieceEqb (o : option PieceId) (p : PieceId) : bool :=
  match o with Some q => PieceId.eqb q p | None => false end.

Definition applyMove (board : BoardInfo) (move : Move) : completion BoardInfo :=
  let isWhiteMove := color_eqb board.(turnColor) WHITE in
  let newBoard :=
    {| pieces := clone board.(pieces);
       turnColor := if isWhiteMove then BLACK else WHITE;
       canCastle := board.(canCastle);
       enPassantTarget := None;
       halfMoveClock := Js.plus board.(halfMoveClock) 1;
       fullMoveNumber := if isWhiteMove then board.(fullMoveNumber)
                         else Js.plus board.(fullMoveNumber) 1;
       allowedMoves := [];
       moves := board.(moves) ++ [move] |} in
  if negb (optPieceEqb (get board.(pieces) move.(from)) move.(piece))
  then Throw (PieceDoesNotMatchMove move.(from) move.(piece))
  else
    match move.(castling) with
    | Some _ => fillAllowedMoves (applyCastlingMove newBoard move)
    | None =>
        let p := delete newBoard.(pieces) move.(from) in
        let p := if move.(isEnPassantCapture)
                 then delete p (make move.(to).(file) move.(from).(rank))
                 else p in
        let p := match move.(promotion) with
                 | Some promotedPiece => set p move.(to) (ofPromotion promotedPiece)
                 | None => set p move.(to) move.(piece)
                 end in
        let newBoard := withPieces newBoard p in
        let newBoard := withCanCastle newBoard (updateCastlingRights newBoard.(canCastle) move) in
        let isPawnMove := PieceId.isPawn move.(piece) in
        let newBoard := if (isPawnMove || move.(isCapture))%bool
                        then withHalfMoveClock newBoard 0 else newBoard in
        let newBoard :=
          if (isPawnMove
              && (Z.abs (rankIndex move.(from) - rankIndex move.(to)) =? 2))%bool
          then
            let rank := if isWhiteMove then EnPassantRank.WHITE else EnPassantRank.BLACK in
            withEnPassantTarget newBoard (Some (make move.(from).(file) rank))
          else newBoard in
        fillAllowedMoves newBoard
    end.

(* ------------------------------------------------------------------ *)
(** ** lib/chess/fen.ts *)

(** Modelled from the spec: [isNumberChar] of [$lib/number], which fen.ts
    imports, is not among the sources.  The spec speaks of "digit run-length
    gaps"; pgn.ts declares a function of the same name as
    [char >= '0' && char <= '9'], and that is the definition taken here. *)
Definition isNumberChar (c : ascii) : bool := Js.isDigitChar c.

Definition INITIAL_FEN : string :=
  "rnbqkbnr/pppppppp/8/8/8/8/PPPPPPPP/RNBQKBNR w KQkq - 0 1".

(** [Number(char)] on one character; [None] is [NaN]. *)
Definition numberOfChar (c : ascii) : option Z :=
  if Js.isDigitChar c then Some (Js.digitValue c)
  else if Js.isJsSpace c then Some 0
  else None.

Fixpoint validateRow (row : string) (sum : Z) : option Z :=
  match row with
  | EmptyString => Some sum
  | String c rest =>
      match numberOfChar c with
      | Some n => validateRow rest (sum + n)
      | None =>
          if negb (PieceId.isPiece (Js.toLowerCaseChar c)) then None
          else validateRow rest (sum + 1)
      end
  end.

Definition validateFen (fen : string) : bool :=
  if String.eqb fen EmptyString then false
  else
    let fenParts := Js.split fen " " in
    if negb (Nat.eqb (List.length fenParts) 6) then false
    else
      let piecePlacement := nth 0 fenParts EmptyString in
      if String.eqb piecePlacement EmptyString then false
      else
        let rows := Js.split piecePlacement "/" in
        if negb (Nat.eqb (List.length rows) 8) then false
        else
          forallb (fun row => match validateRow row 0 with
                              | Some sum => sum =? 8
                              | None => false
                              end) rows.

(** One rank of [boardToFen]: the loop over the files. *)
Fixpoint fenRowLoop (ps : BoardMap PieceId) (row : BoardRank) (cols : list BoardFile)
  (rowStr : string) (emptyCount : Z) : string * Z :=
  match cols with
  | [] => (rowStr, emptyCount)
  | col :: rest =>
      match get ps (make col row) with
      | Some piece =>
          let rowStr := if 0 <? emptyCount
                        then (rowStr ++ Js.numberToString emptyCount)%string else rowStr in
          let emptyCount := if 0 <? emptyCount then 0 else emptyCount in
          fenRowLoop ps row rest (rowStr ++ charStr (PieceId.char piece))%string emptyCount
      | None => fenRowLoop ps row rest rowStr (emptyCount + 1)
      end
  end.

Definition fenRow (ps : BoardMap PieceId) (row : BoardRank) : string :=
  let '(rowStr, emptyCount) := fenRowLoop ps row BOARD_FILES EmptyString 0 in
  if 0 <? emptyCount then (rowStr ++ Js.numberToString emptyCount)%string else rowStr.

(** The value of a [PlayerColor]: the strings ['white'] and ['black']. *)
Definition colorString (c : PlayerColor) : string :=
  match c with WHITE => "white" | BLACK => "black" end.

Definition boardToFen (fen : BoardInfo) : string :=
  let rows := map (fenRow fen.(pieces)) (rev BOARD_RANKS) in
  let placement := Js.join "/" rows in
  let turn := colorString fen.(turnColor) in
  let castling := EmptyString in
  let castling := if fen.(canCastle).(whiteKingSide) then castling ++ "K" else castling in
  let castling := if fen.(canCastle).(whiteQueenSide) then castling ++ "Q" else castling in
  let castling := if fen.(canCastle).(blackKingSide) then castling ++ "k" else castling in
  let castling := if fen.(canCastle).(blackQueenSide) then castling ++ "q" else castling in
  let castling := if String.eqb castling EmptyString then "-" else castling in
  let enPassant := match fen.(enPassantTarget) with
                   | Some pos => Board.toString pos
                   | None => "-"
                   end in
  let halfMove := fen.(halfMoveClock) in
  let fullMove := fen.(fullMoveNumber) in
  (placement ++ " " ++ turn ++ " " ++ castling ++ " " ++ enPassant ++ " "
   ++ Js.numberToString halfMove ++ " " ++ Js.numberToString fullMove)%string.

(** The loop over the characters of one rank in [parseFen]. *)
Fixpoint parseFenRow (rowStr : string) (rowIndex colIndex : Z) (ps : BoardMap PieceId)
  : completion (BoardMap PieceId) :=
  match rowStr with
  | EmptyString => Normal ps
  | String char rest =>
      if isNumberChar char
      then parseFenRow rest rowIndex (colIndex + Js.digitValue char) ps
      else
        match PieceId.parse char with
        | None => Throw (FenInvalidPieceId char)
        | Some piece =>
            match Js.arrayGet BOARD_FILES colIndex with
            | None => Throw (FenInvalidColumnIndex colIndex)
            | Some col =>
                match Js.arrayGet BOARD_RANKS rowIndex with
                | None => Throw (FenInvalidRowIndex rowIndex)
                | Some row => parseFenRow rest rowIndex (colIndex + 1) (set ps (make col row) piece)
                end
            end
        end
  end.

(** The loop [for (rowIndex = fenRows.length - 1; rowIndex >= 0; rowIndex--)];
    [n] is [rowIndex + 1]. *)
Fixpoint parseFenRows (fenRows : list string) (n : nat) (ps : BoardMap PieceId)
  : completion (BoardMap PieceId) :=
  match n with
  | O => Normal ps
  | S rowIndex =>
      let rowStr := nth rowIndex fenRows EmptyString in
      let* ps := parseFenRow rowStr (Z.of_nat rowIndex) 0 ps in
      parseFenRows fenRows rowIndex ps
  end.

Definition parseFen (fen : string) : completion BoardInfo :=
  let fenParts := Js.split fen " " in
  if Nat.ltb (List.length fenParts) 1 then Throw FenMustContainPlacement
  else
    let piecePlacement := nth 0 fenParts EmptyString in
    let turnStr := Js.nullish (nth_error fenParts 1) "w" in
    let castlingRightsStr := Js.nullish (nth_error fenParts 2) "-" in
    let enPassantTargetStr := Js.nullish (nth_error fenParts 3) "-" in
    let halfMoveClockStr := Js.nullish (nth_error fenParts 4) "0" in
    let fullMoveNumberStr := Js.nullish (nth_error fenParts 5) "1" in
    let fenRows := Js.split piecePlacement "/" in
    if negb (Nat.eqb (List.length fenRows) 8) then Throw FenMustContain8Rows
    else
      let fenRows := rev fenRows in
      let* ps := parseFenRows fenRows (List.length fenRows) [] in
      let turnColor := if String.eqb turnStr "w" then WHITE else BLACK in
      let canCastle :=
        {| whiteKingSide := Js.includesChar castlingRightsStr "K";
           whiteQueenSide := Js.includesChar castlingRightsStr "Q";
           blackKingSide := Js.includesChar castlingRightsStr "k";
           blackQueenSide := Js.includesChar castlingRightsStr "q" |} in
      let* enPassantTarget :=
        if negb (String.eqb enPassantTargetStr "-") then
          match Board.parse enPassantTargetStr with
          | None => Throw FenInvalidEnPassantTarget
          | Some pos => Normal (Some pos)
          end
        else Normal None in
      match Js.parseInt halfMoveClockStr with
      | None => Throw FenInvalidHalfMoveClock
      | Some halfMoveClock =>
          if halfMoveClock <? 0 then Throw FenInvalidHalfMoveClock
          else
            match Js.parseInt fullMoveNumberStr with
            | None => Throw FenInvalidFullMoveNumber
            | Some fullMoveNumber =>
                if fullMoveNumber <? 1 then Throw FenInvalidFullMoveNumber
                else
                  let board :=
                    {| pieces := ps; turnColor := turnColor; canCastle := canCastle;
                       enPassantTarget := enPassantTarget;
                       halfMoveClock := halfMoveClock; fullMoveNumber := fullMoveNumber;
                       allowedMoves := []; moves := [] |} in
                  fillAllowedMoves board
            end
      end.

(* ------------------------------------------------------------------ *)
(** ** lib/chess/algebraic.ts: the decoder *)

Inductive AlgebraicMoveError :=
| moveError (e : MoveError)
| invalidAlgebraicNotation (algebraic : string)
| ambiguousAlgebraicNotation (algebraic : string) (p : PieceId).

Definition ALGEBRAIC_CHECK_CHAR : ascii := "+".
Definition ALGEBRAIC_CHECKMATE_CHAR : ascii := "#".
Definition ALGEBRAIC_PROMOTION_CHAR : ascii := "=".
Definition ALGEBRAIC_CAPTURE_CHAR : ascii := "x".

Module AlgebraicPieceChar.
Inductive t := KNIGHT | BISHOP | ROOK | QUEEN | KING.
Definition char (c : t) : ascii :=
  match c with
  | KNIGHT => "N" | BISHOP => "B" | ROOK => "R" | QUEEN => "Q" | KING => "K"
  end%char.
End AlgebraicPieceChar.
Import AlgebraicPieceChar(KNIGHT, BISHOP, ROOK, QUEEN, KING).

Definition algebraicPieceCharToPieceId (pieceChar : AlgebraicPieceChar.t) (isWhite : bool)
  : PieceId :=
  match pieceChar with
  | KNIGHT => if isWhite then WHITE_KNIGHT else BLACK_KNIGHT
  | BISHOP => if isWhite then WHITE_BISHOP else BLACK_BISHOP
  | ROOK => if isWhite then WHITE_ROOK else BLACK_ROOK
  | QUEEN => if isWhite then WHITE_QUEEN else BLACK_QUEEN
  | KING => if isWhite then WHITE_KING else BLACK_KING
  end.

(** [desired && value !== desired] *)
Definition fileMismatch (desiredFile : option BoardFile) (f : BoardFile) : bool :=
  match desiredFile with Some d => negb (file_eqb f d) | None => false end.

Definition rankMismatch (desiredRank : option BoardRank) (r : BoardRank) : bool :=
  match desiredRank with Some d => negb (rank_eqb r d) | None => false end.

Definition inBounds (fileIdx rankIdx : Z) : bool :=
  negb ((fileIdx <? 0) || (Z.of_nat (List.length BOARD_FILES) <=? fileIdx)
        || (rankIdx <? 0) || (Z.of_nat (List.length BOARD_RANKS) <=? rankIdx))%bool.

(** The loop body shared by the knight and the king searches: one offset. *)
Definition offsetCandidate (origin : Position) (board : BoardInfo) (wanted : PieceId)
  (desiredFile : option BoardFile) (desiredRank : option BoardRank) (d : Z * Z)
  : list Position :=
  let fileIdx := fileIndex origin + fst d in
  let rankIdx := rankIndex origin + snd d in
  if negb (inBounds fileIdx rankIdx) then []
  else
    match Js.arrayGet BOARD_FILES fileIdx, Js.arrayGet BOARD_RANKS rankIdx with
    | Some f, Some r =>
        if fileMismatch desiredFile f then []
        else if rankMismatch desiredRank r then []
        else
          let pos := make f r in
          if optPieceEqb (get board.(pieces) pos) wanted then [pos] else []
    | _, _ => []
    end.

Definition knightOffsets : list (Z * Z) :=
  [(2, 1); (1, 2); (-1, 2); (-2, 1); (-2, -1); (-1, -2); (1, -2); (2, -1)].

Definition getPossibleKnightFromPositions (origin : Position) (board : BoardInfo)
  (desiredFile : option BoardFile) (desiredRank : option BoardRank) : list Position :=
  let isWhiteTurn := color_eqb board.(turnColor) WHITE in
  let knightPiece := if isWhiteTurn then WHITE_KNIGHT else BLACK_KNIGHT in
  flat_map (offsetCandidate origin board knightPiece desiredFile desiredRank) knightOffsets.

(** The [while] loop of the bishop and the rook searches, one direction: a
    ray leaves the board within eight steps, which is the fuel given
    (lemma [castRay_fuel] below). *)
Fixpoint castRay (fuel : nat) (fileIdx rankIdx dFile dRank : Z) (board : BoardInfo)
  (wanted : PieceId) (desiredFile : option BoardFile) (desiredRank : option BoardRank)
  : list Position :=
  match fuel with
  | O => []
  | S k =>
      if inBounds fileIdx rankIdx then
        match Js.arrayGet BOARD_FILES fileIdx, Js.arrayGet BOARD_RANKS rankIdx with
        | Some f, Some r =>
            if fileMismatch desiredFile f
            then castRay k (fileIdx + dFile) (rankIdx + dRank) dFile dRank board wanted desiredFile desiredRank
            else if rankMismatch desiredRank r
            then castRay k (fileIdx + dFile) (rankIdx + dRank) dFile dRank board wanted desiredFile desiredRank
            else
              let pos := make f r in
              let pieceAtPos := get board.(pieces) pos in
              let found := if optPieceEqb pieceAtPos wanted then [pos] else [] in
              if Js.isSome pieceAtPos then found
              else found ++ castRay k (fileIdx + dFile) (rankIdx + dRank) dFile dRank board wanted desiredFile desiredRank
        | _, _ => []
        end
      else []
  end.

Definition castRays (directions : list (Z * Z)) (origin : Position) (board : BoardInfo)
  (wanted : PieceId) (desiredFile : option BoardFile) (desiredRank : option BoardRank)
  : list Position :=
  flat_map (fun d => castRay LINE_FUEL (fileIndex origin + fst d) (rankIndex origin + snd d)
                       (fst d) (snd d) board wanted desiredFile desiredRank) directions.

Definition bishopDirections : list (Z * Z) := [(1, 1); (1, -1); (-1, 1); (-1, -1)].
Definition rookDirections : list (Z * Z) := [(1, 0); (-1, 0); (0, 1); (0, -1)].

Definition getPossibleBishopFromPositions (origin : Position) (board : BoardInfo)
  (desiredFile : option BoardFile) (desiredRank : option BoardRank)
  (lookupPieceId : option PieceId) : list Position :=
  let isWhiteTurn := color_eqb board.(turnColor) WHITE in
  let bishop := Js.nullish lookupPieceId (if isWhiteTurn then WHITE_BISHOP else BLACK_BISHOP) in
  castRays bishopDirections origin board bishop desiredFile desiredRank.

Definition getPossibleRookFromPositions (origin : Position) (board : BoardInfo)
  (desiredFile : option BoardFile) (desiredRank : option BoardRank)
  (lookupPieceId : option PieceId) : list Position :=
  let isWhiteTurn := color_eqb board.(turnColor) WHITE in
  let rook := Js.nullish lookupPieceId (if isWhiteTurn then WHITE_ROOK else BLACK_ROOK) in
  castRays rookDirections origin board rook desiredFile desiredRank.

Definition getPossibleQueenFromPositions (origin : Position) (board : BoardInfo)
  (desiredFile : option BoardFile) (desiredRank : option BoardRank) : list Position :=
  let isWhiteTurn := color_eqb board.(turnColor) WHITE in
  let queen := if isWhiteTurn then WHITE_QUEEN else BLACK_QUEEN in
  getPossibleRookFromPositions origin board desiredFile desiredRank (Some queen)
  ++ getPossibleBishopFromPositions origin board desiredFile desiredRank (Some queen).

Definition kingOffsets : list (Z * Z) :=
  [(1, 0); (1, 1); (0, 1); (-1, 1); (-1, 0); (-1, -1); (0, -1); (1, -1)].

Definition getPossibleKingFromPositions (origin : Position) (board : BoardInfo)
  (desiredFile : option BoardFile) (desiredRank : option BoardRank) : list Position :=
  let isWhiteTurn := color_eqb board.(turnColor) WHITE in
  let king := if isWhiteTurn then WHITE_KING else BLACK_KING in
  flat_map (offsetCandidate origin board king desiredFile desiredRank) kingOffsets.

Definition getPossibleMovePositionsByAlgebraic (origin : Position) (board : BoardInfo)
  (pieceChar : AlgebraicPieceChar.t)
  (desiredFile : option BoardFile) (desiredRank : option BoardRank) : list Position :=
  match pieceChar with
  | KNIGHT => getPossibleKnightFromPositions origin board desiredFile desiredRank
  | BISHOP => getPossibleBishopFromPositions origin board desiredFile desiredRank None
  | ROOK => getPossibleRookFromPositions origin board desiredFile desiredRank None
  | QUEEN => getPossibleQueenFromPositions origin board desiredFile desiredRank
  | KING => getPossibleKingFromPositions origin board desiredFile desiredRank
  end.

(** The result of a [tryParse...] function: [None] is [null]. *)
Definition TryResult := completion (option (Either Move AlgebraicMoveError)).

Definition liftMoveResult (r : completion (Either Move MoveError)) : TryResult :=
  let* e := r in
  match e with
  | Value m => Normal (Some (Value m))
  | Error err => Normal (Some (Error (moveError err)))
  end.

(** The source's locals [isCapture] and [piece] are [captureMarked] and
    [wanted] here, the fields of [Move] keeping their names. *)
Definition tryParseAlgebraicMoveByChar (algebraic : string) (board : BoardInfo)
  (pieceChar : AlgebraicPieceChar.t) : TryResult :=
  if negb (Js.optCharEqb (Js.charAt algebraic 0) (AlgebraicPieceChar.char pieceChar))
  then Normal None
  else
    let offset := 1%nat in
    let fromFile :=
      match isBoardFile (Js.charAt algebraic offset) with
      | Some f =>
          if (Js.isSome (isBoardFile (Js.charAt algebraic (offset + 1)))
              || Js.isSome (isBoardFile (Js.charAt algebraic (offset + 2))))%bool
          then Some f else None
      | None => None
      end in
    let offset := if Js.isSome fromFile then (offset + 1)%nat else offset in
    let fromRank :=
      match isBoardRank (Js.charAt algebraic offset) with
      | Some r =>
          if (Js.isSome (isBoardFile (Js.charAt algebraic (offset + 1)))
              || Js.isSome (isBoardFile (Js.charAt algebraic (offset + 2))))%bool
          then Some r else None
      | None => None
      end in
    let offset := if Js.isSome fromRank then (offset + 1)%nat else offset in
    if (match pieceChar with KING => true | _ => false end
        && Js.isSome fromFile && Js.isSome fromRank)%bool
    then Normal (Some (Error (invalidAlgebraicNotation algebraic)))
    else
      let captureMarked := Js.optCharEqb (Js.charAt algebraic offset) ALGEBRAIC_CAPTURE_CHAR in
      let offset := if captureMarked then (offset + 1)%nat else offset in
      let toFile := Js.charAt algebraic offset in
      let toRank := Js.charAt algebraic (offset + 1) in
      let offset := (offset + 2)%nat in
      match isBoardFile toFile, isBoardRank toRank with
      | Some toFile, Some toRank =>
          let hasCheckOrMate :=
            (Js.optCharEqb (Js.charAt algebraic offset) ALGEBRAIC_CHECK_CHAR
             || Js.optCharEqb (Js.charAt algebraic offset) ALGEBRAIC_CHECKMATE_CHAR)%bool in
          let offset := if hasCheckOrMate then (offset + 1)%nat else offset in
          let expectedLength := offset in
          if negb (Nat.eqb (String.length algebraic) expectedLength)
          then Normal (Some (Error (invalidAlgebraicNotation algebraic)))
          else
            let to := make toFile toRank in
            let fromPositions :=
              getPossibleMovePositionsByAlgebraic to board pieceChar fromFile fromRank in
            let isWhite := color_eqb board.(turnColor) WHITE in
            let wanted := algebraicPieceCharToPieceId pieceChar isWhite in
            if Nat.ltb 1 (List.length fromPositions)
            then Normal (Some (Error (ambiguousAlgebraicNotation algebraic wanted)))
            else
              match fromPositions with
              | [] => Normal (Some (Error (moveError (invalidPieceMove wanted))))
              | from :: _ =>
                  let* r := calculateMove board from to None false in
                  match r with
                  | Error err => Normal (Some (Error (moveError err)))
                  | Value move =>
                      if (captureMarked && negb move.(isCapture))%bool
                      then Normal (Some (Error (invalidAlgebraicNotation algebraic)))
                      else if negb (PieceId.eqb move.(piece) wanted)
                      then Normal (Some (Error (moveError (invalidPieceMove wanted))))
                      else Normal (Some (Value move))
                  end
              end
      | _, _ => Normal (Some (Error (invalidAlgebraicNotation algebraic)))
      end.

Definition isAlgebraicPromotionPieceChar (c : option ascii) : bool :=
  (Js.optCharEqb c "Q" || Js.optCharEqb c "R" || Js.optCharEqb c "B" || Js.optCharEqb c "N")%bool.

(** The cast [(isWhite ? promotionChar : promotionChar.toLowerCase()) as
    PromotionPieceId] on a character that passed [isAlgebraicPromotionPieceChar]. *)
Definition promotionOfChar (c : option ascii) (isWhite : bool) : option PromotionPieceId :=
  if Js.optCharEqb c "Q" then Some (if isWhite then PROMO_WHITE_QUEEN else PROMO_BLACK_QUEEN)
  else if Js.optCharEqb c "R" then Some (if isWhite then PROMO_WHITE_ROOK else PROMO_BLACK_ROOK)
  else if Js.optCharEqb c "B" then Some (if isWhite then PROMO_WHITE_BISHOP else PROMO_BLACK_BISHOP)
  else if Js.optCharEqb c "N" then Some (if isWhite then PROMO_WHITE_KNIGHT else PROMO_BLACK_KNIGHT)
  else None.

Definition tryParseAlgebraicPawnMove (algebraic : string) (board : BoardInfo) : TryResult :=
  let captureMarked := Js.optCharEqb (Js.charAt algebraic 1) ALGEBRAIC_CAPTURE_CHAR in
  let fromCaptureFile := if captureMarked then isBoardFile (Js.charAt algebraic 0) else None in
  if (captureMarked && negb (Js.isSome fromCaptureFile))%bool then Normal None
  else
    let offset := if captureMarked then 2%nat else 0%nat in
    let toFile := Js.charAt algebraic offset in
    let toRank := Js.charAt algebraic (offset + 1) in
    let offset := (offset + 2)%nat in
    match isBoardFile toFile, isBoardRank toRank with
    | Some toFile, Some toRank =>
        let isWhite := color_eqb board.(turnColor) WHITE in
        let hasPromotion := Js.optCharEqb (Js.charAt algebraic offset) ALGEBRAIC_PROMOTION_CHAR in
        let promotionChar := Js.charAt algebraic (offset + 1) in
        if (hasPromotion && negb (isAlgebraicPromotionPieceChar promotionChar))%bool
        then Normal (Some (Error (invalidAlgebraicNotation algebraic)))
        else
          let promotionPiece := if hasPromotion then promotionOfChar promotionChar isWhite else None in
          let offset := if hasPromotion then (offset + 2)%nat else offset in
          let hasCheckOrMate :=
            (Js.optCharEqb (Js.charAt algebraic offset) ALGEBRAIC_CHECK_CHAR
             || Js.optCharEqb (Js.charAt algebraic offset) ALGEBRAIC_CHECKMATE_CHAR)%bool in
          let offset := if hasCheckOrMate then (offset + 1)%nat else offset in
          let expectedLength := offset in
          if negb (Nat.eqb (String.length algebraic) expectedLength)
          then Normal (Some (Error (invalidAlgebraicNotation algebraic)))
          else
            let pawn := if isWhite then WHITE_PAWN else BLACK_PAWN in
            match (if isWhite then prevBoardRank toRank else nextBoardRank toRank) with
            | None => Normal (Some (Error (moveError (invalidPieceMove pawn))))
            | Some prevRank =>
                let to := make toFile toRank in
                let fromFile := match fromCaptureFile with Some f => f | None => toFile end in
                let from := make fromFile prevRank in
                let pawnTwoStepRank := if isWhite then R4 else R5 in
                let resolved :=
                  if negb (optPieceEqb (get board.(pieces) from) pawn) then
                    if rank_eqb to.(rank) pawnTwoStepRank then
                      let pawnStartRank := if isWhite then R2 else R7 in
                      Some (make fromFile pawnStartRank)
                    else None
                  else Some from in
                match resolved with
                | None => Normal (Some (Error (moveError (invalidPieceMove pawn))))
                | Some from =>
                    let* r := calculateMove board from to None true in
                    match r with
                    | Error err => Normal (Some (Error (moveError err)))
                    | Value move =>
                        if negb (PieceId.eqb move.(piece) pawn)
                        then Normal (Some (Error (moveError (invalidPieceMove pawn))))
                        else Normal (Some (Value (withPromotion move promotionPiece)))
                    end
                end
            end
    | _, _ => Normal None
    end.

Definition tryParseAlgebraicCastlingMove (algebraic : string) (board : BoardInfo) : TryResult :=
  let isWhite := color_eqb board.(turnColor) WHITE in
  let kingFrom := if isWhite then make Fe R1 else make Fe R8 in
  let kingSideTo := if isWhite then make Fg R1 else make Fg R8 in
  let queenSideTo := if isWhite then make Fc R1 else make Fc R8 in
  let isCheckOrMateAt (i : nat) :=
    (Js.optCharEqb (Js.charAt algebraic i) ALGEBRAIC_CHECK_CHAR
     || Js.optCharEqb (Js.charAt algebraic i) ALGEBRAIC_CHECKMATE_CHAR)%bool in
  if String.eqb algebraic KING_SIDE_CASTLING_STR
  then liftMoveResult (calculateMove board kingFrom kingSideTo None true)
  else if (Nat.eqb (String.length algebraic) (String.length KING_SIDE_CASTLING_STR + 1)
           && String.eqb (Js.slice algebraic 0 (String.length KING_SIDE_CASTLING_STR))
                KING_SIDE_CASTLING_STR)%bool
  then
    if negb (isCheckOrMateAt (String.length KING_SIDE_CASTLING_STR))
    then Normal (Some (Error (invalidAlgebraicNotation algebraic)))
    else liftMoveResult (calculateMove board kingFrom kingSideTo None true)
  else if String.eqb algebraic QUEEN_SIDE_CASTLING_STR
  then liftMoveResult (calculateMove board kingFrom queenSideTo None true)
  else if (Nat.eqb (String.length algebraic) (String.length QUEEN_SIDE_CASTLING_STR + 1)
           && String.eqb (Js.slice algebraic 0 (String.length QUEEN_SIDE_CASTLING_STR))
                QUEEN_SIDE_CASTLING_STR)%bool
  then
    if negb (isCheckOrMateAt (String.length QUEEN_SIDE_CASTLING_STR))
    then Normal (Some (Error (invalidAlgebraicNotation algebraic)))
    else liftMoveResult (calculateMove board kingFrom queenSideTo None true)
  else Normal None.

(** The chain of [??]: the first attempt that is not [null]. *)
Fixpoint firstNonNull (attempts : list (unit -> TryResult)) : TryResult :=
  match attempts with
  | [] => Normal None
  | attempt :: rest =>
      let* r := attempt tt in
      match r with
      | Some e => Normal (Some e)
      | None => firstNonNull rest
      end
  end.

Definition calculateMoveFromAlgebraic (board : BoardInfo) (algebraic : string)
  : completion (Either Move AlgebraicMoveError) :=
  if Nat.ltb (String.length algebraic) 2
  then Normal (Error (invalidAlgebraicNotation algebraic))
  else
    let* r := firstNonNull
                [ (fun _ => tryParseAlgebraicCastlingMove algebraic board);
                  (fun _ => tryParseAlgebraicMoveByChar algebraic board KNIGHT);
                  (fun _ => tryParseAlgebraicMoveByChar algebraic board BISHOP);
                  (fun _ => tryParseAlgebraicMoveByChar algebraic board ROOK);
                  (fun _ => tryParseAlgebraicMoveByChar algebraic board QUEEN);
                  (fun _ => tryParseAlgebraicMoveByChar algebraic board KING);
                  (fun _ => tryParseAlgebraicPawnMove algebraic board) ] in
    match r with
    | Some (Error err) => Normal (Error err)
    | Some (Value move) => Normal (Value move)
    | None => Normal (Error (invalidAlgebraicNotation algebraic))
    end.

(* ------------------------------------------------------------------ *)
(** ** lib/chess/pgn.ts *)

Module Pgn.

(** The fields of the class [PGNParser]. *)
Record PGNParser := {
  pgn : string;
  offset : nat;
  line : Z;
  lineOffset : Z;
  tags : list (string * string)
}.

Definition withTags (p : PGNParser) (t : list (string * string)) : PGNParser :=
  {| pgn := p.(pgn); offset := p.(offset); line := p.(line);
     lineOffset := p.(lineOffset); tags := t |}.

(** The double-quote character. *)
Definition DOUBLE_QUOTE : ascii := "034".

Definition isWhiteSpace (c : ascii) : bool :=
  (Ascii.eqb c " " || Ascii.eqb c "010" || Ascii.eqb c "013")%bool.

Definition peekChar (p : PGNParser) : option ascii :=
  if Nat.leb (String.length p.(pgn)) p.(offset) then None
  else Js.charAt p.(pgn) p.(offset).

Definition consumeChar (p : PGNParser) : option ascii * PGNParser :=
  match peekChar p with
  | None => (None, p)
  | Some c =>
      let isNewline := Ascii.eqb c "010" in
      (Some c,
       {| pgn := p.(pgn);
          offset := S p.(offset);
          line := if isNewline then p.(line) + 1 else p.(line);
          lineOffset := (if isNewline then 0 else p.(lineOffset)) + 1;
          tags := p.(tags) |})
  end.

Definition hasMoreChars (p : PGNParser) : bool :=
  Nat.ltb p.(offset) (String.length p.(pgn)).

(** Every loop of the parser consumes one character per turn, so the number
    of characters left (and one more turn to see the end) is fuel enough. *)
Definition fuelOf (p : PGNParser) : nat := S (String.length p.(pgn) - p.(offset)).

Fixpoint skipWhitespaceLoop (fuel : nat) (p : PGNParser) : PGNParser :=
  match fuel with
  | O => p
  | S k =>
      match peekChar p with
      | None => p
      | Some c => if isWhiteSpace c then skipWhitespaceLoop k (snd (consumeChar p)) else p
      end
  end.

Definition skipWhitespace (p : PGNParser) : PGNParser := skipWhitespaceLoop (fuelOf p) p.

Fixpoint consumeUntilWhiteSpaceLoop (fuel : nat) (str : string) (p : PGNParser)
  : string * PGNParser :=
  match fuel with
  | O => (str, p)
  | S k =>
      match peekChar p with
      | None => (str, p)
      | Some c =>
          if isWhiteSpace c then (str, p)
          else consumeUntilWhiteSpaceLoop k (str ++ charStr c)%string (snd (consumeChar p))
      end
  end.

Definition consumeUntilWhiteSpace (p : PGNParser) : option string * PGNParser :=
  let '(str, p) := consumeUntilWhiteSpaceLoop (fuelOf p) EmptyString p in
  if Nat.eqb (String.length str) 0 then (None, p) else (Some str, p).

Fixpoint skipToCharLoop (fuel : nat) (target : ascii) (p : PGNParser) : bool * PGNParser :=
  match fuel with
  | O => (false, p)
  | S k =>
      match consumeChar p with
      | (None, p) => (false, p)
      | (Some c, p) => if Ascii.eqb c target then (true, p) else skipToCharLoop k target p
      end
  end.

Definition skipToChar (target : ascii) (p : PGNParser) : bool * PGNParser :=
  skipToCharLoop (fuelOf p) target p.

Fixpoint setTag (t : list (string * string)) (k v : string) : list (string * string) :=
  match t with
  | [] => [(k, v)]
  | (k', v') :: t' => if String.eqb k' k then (k', v) :: t' else (k', v') :: setTag t' k v
  end.

Fixpoint getTag (t : list (string * string)) (k : string) : option string :=
  match t with
  | [] => None
  | (k', v) :: t' => if String.eqb k' k then Some v else getTag t' k
  end.

Fixpoint parseMetadataLoop (fuel : nat) (p : PGNParser) : PGNParser :=
  match fuel with
  | O => p
  | S k =>
      if Js.optCharEqb (peekChar p) "[" then
        let p := snd (consumeChar p) in
        let tagStart := p.(offset) in
        let p := snd (skipToChar DOUBLE_QUOTE p) in
        let p := snd (consumeChar p) in
        let tagEnd := p.(offset) in
        let tagName := Js.trim (Js.slice p.(pgn) (tagStart + 1) tagEnd) in
        let valueStart := p.(offset) in
        let p := snd (skipToChar DOUBLE_QUOTE p) in
        let valueEnd := (p.(offset) - 1)%nat in
        let tagValue := Js.trim (Js.slice p.(pgn) valueStart valueEnd) in
        let p := withTags p (setTag p.(tags) tagName tagValue) in
        let p := snd (skipToChar "]" p) in
        let p := skipWhitespace p in
        parseMetadataLoop k p
      else p
  end.

Definition parseMetadata (p : PGNParser) : PGNParser :=
  let p := withTags p [] in
  let p := skipWhitespace p in
  parseMetadataLoop (fuelOf p) p.

(** The [for] loop of [parseMoveNumber]: [None] is the early [return null]. *)
Fixpoint parseMoveNumberLoop (fuel : nat) (numberStr : string) (p : PGNParser)
  : option string * PGNParser :=
  match fuel with
  | O => (Some numberStr, p)
  | S k =>
      match peekChar p with
      | None => (Some numberStr, p)
      | Some c =>
          if Ascii.eqb c "." then (Some numberStr, snd (consumeChar p))
          else if negb (isNumberChar c) then (None, p)
          else parseMoveNumberLoop k (numberStr ++ charStr c)%string (snd (consumeChar p))
      end
  end.

Definition parseMoveNumber (p : PGNParser) : option Z * PGNParser :=
  let p := skipWhitespace p in
  match parseMoveNumberLoop (fuelOf p) EmptyString p with
  | (None, p) => (None, p)
  | (Some numberStr, p) =>
      if Nat.eqb (String.length numberStr) 0 then (None, p)
      else (Js.parseInt numberStr, p)
  end.

Definition maybeParseMoveComment (p : PGNParser) : option string * PGNParser :=
  let p := skipWhitespace p in
  if negb (Js.optCharEqb (peekChar p) "{") then (None, p)
  else
    let commentStart := (p.(offset) + 1)%nat in
    let '(commentEndFound, p) := skipToChar "}" p in
    if negb commentEndFound then (None, p)
    else
      let commentEnd := (p.(offset) - 1)%nat in
      (Some (Js.trim (Js.slice p.(pgn) commentStart commentEnd)), p).

(** [Either<Move, AlgebraicMoveError | null>] *)
Definition parsePieceMove (p : PGNParser) (board : BoardInfo)
  : completion (Either Move (option AlgebraicMoveError) * PGNParser) :=
  let p := skipWhitespace p in
  match consumeUntilWhiteSpace p with
  | (None, p) => Normal (Error None, p)
  | (Some moveStr, p) =>
      let* r := calculateMoveFromAlgebraic board moveStr in
      match r with
      | Error err => Normal (Error (Some err), p)
      | Value move =>
          let '(comment, p) := maybeParseMoveComment p in
          Normal (Value (withComment move comment), p)
      end
  end.

Inductive CommentMode := lineComment | multilineComment.

(** The state of the [while] loop of [parse]. *)
Record LoopState := {
  stParser : PGNParser;
  stBoard : BoardInfo;
  stComment : option CommentMode;
  stVariationLevel : Z
}.

Definition locate {A : Type} (k : Z -> Z -> Exception) (p : PGNParser) : completion A :=
  Throw (k p.(line) p.(lineOffset)).

(** The [while (this.hasMoreChars())] loop; [None] when the fuel is used up. *)
Fixpoint parseLoop (fuel : nat) (p : PGNParser) (board : BoardInfo)
  (comment : option CommentMode) (variationLevel : Z) : option (completion LoopState) :=
  let finish := Some (Normal {| stParser := p; stBoard := board; stComment := comment;
                                stVariationLevel := variationLevel |}) in
  match fuel with
  | O => None
  | S k =>
      if negb (hasMoreChars p) then finish
      else
        let char := Js.charAt p.(pgn) p.(offset) in
        match comment with
        | Some mode =>
            let comment :=
              match mode with
              | lineComment => if Js.optCharEqb char "010" then None else comment
              | multilineComment => if Js.optCharEqb char "}" then None else comment
              end in
            parseLoop k (snd (consumeChar p)) board comment variationLevel
        | None =>
            if Js.optCharEqb char "(" then
              parseLoop k (snd (consumeChar p)) board comment (variationLevel + 1)
            else if ((0 <? variationLevel) && Js.optCharEqb char ")")%bool then
              parseLoop k (snd (consumeChar p)) board comment (variationLevel - 1)
            else if Js.optCharEqb char "{" then
              parseLoop k (snd (consumeChar p)) board (Some multilineComment) variationLevel
            else if Js.optCharEqb char ";" then
              parseLoop k (snd (consumeChar p)) board (Some lineComment) variationLevel
            else if Js.optCharEqb char ")" then
              Some (locate PgnUnmatchedClosingParenthesis p)
            else if Js.optCharEqb char "}" then
              Some (locate PgnUnmatchedClosingBracket p)
            else if (Js.optCharEqb char "." || Js.optCharEqb char " "
                     || Js.optCharEqb char "010" || Js.optCharEqb char "013")%bool then
              parseLoop k (snd (consumeChar p)) board comment variationLevel
            else
              match parseMoveNumber p with
              | (None, p) =>
                  Some (Normal {| stParser := p; stBoard := board; stComment := comment;
                                  stVariationLevel := variationLevel |})
              | (Some _, p) =>
                  match parsePieceMove p board with
                  | Throw e => Some (Throw e)
                  | Normal (Error (Some _), p) => Some (locate PgnFailedWhiteMove p)
                  | Normal (Error None, p) => Some (locate PgnFailedMove p)
                  | Normal (Value move, p) =>
                      match applyMove board move with
                      | Throw e => Some (Throw e)
                      | Normal board =>
                          match parsePieceMove p board with
                          | Throw e => Some (Throw e)
                          | Normal (Error (Some _), p) => Some (locate PgnFailedBlackMove p)
                          | Normal (Error None, p) =>
                              let p := skipWhitespace p in
                              if hasMoreChars p then Some (locate PgnExpectedBlackMoveOrEnd p)
                              else Some (Normal {| stParser := p; stBoard := board;
                                                   stComment := comment;
                                                   stVariationLevel := variationLevel |})
                          | Normal (Value move, p) =>
                              match applyMove board move with
                              | Throw e => Some (Throw e)
                              | Normal board => parseLoop k p board comment variationLevel
                              end
                          end
                      end
                  end
              end
        end
  end.

(** [PGNParser.parse]: the moves and, for the statements below, the final
    board that holds them. *)
Definition parseBoard (pgnText : string) : option (completion BoardInfo) :=
  let p := {| pgn := pgnText; offset := 0; line := 1; lineOffset := 0; tags := [] |} in
  let p := parseMetadata p in
  let fen := Js.nullish (getTag p.(tags) "FEN") INITIAL_FEN in
  match parseFen fen with
  | Throw e => Some (Throw e)
  | Normal board =>
      match parseLoop (fuelOf p) p board None 0 with
      | None => None
      | Some (Throw e) => Some (Throw e)
      | Some (Normal st) =>
          if 0 <? st.(stVariationLevel) then Some (Throw PgnUnmatchedOpeningParenthesis)
          else
            match st.(stComment) with
            | Some multilineComment => Some (Throw PgnUnmatchedOpeningBracket)
            | _ => Some (Normal st.(stBoard))
            end
      end
  end.

Definition parse (pgnText : string) : option (completion (list Move)) :=
  match parseBoard pgnText with
  | None => None
  | Some (Throw e) => Some (Throw e)
  | Some (Normal board) => Some (Normal board.(moves))
  end.

Definition parsePGNMoves (pgnText : string) : option (completion (list Move)) :=
  parse pgnText.

(** The loop of [popUntilValue] on the array read from its end. *)
Fixpoint popLoop (reversed : list string) (value : string) : list string :=
  match reversed with
  | [] => []
  | popped :: rest => if String.eqb popped value then rest else popLoop rest value
  end.

(** [popUntilValue]: the array as it is left. *)
Definition popUntilValue (arr : list string) (value : string) : list string :=
  rev (popLoop (rev arr) value).

End Pgn.

(* ------------------------------------------------------------------ *)
(** ** Definitions used by the statements *)

(** Some squares by name. *)
Definition e1 : Position := make Fe R1.
Definition f1 : Position := make Ff R1.
Definition g1 : Position := make Fg R1.
Definition h1 : Position := make Fh R1.
Definition a1 : Position := make Fa R1.
Definition e8 : Position := make Fe R8.
Definition a8 : Position := make Fa R8.
Definition h8 : Position := make Fh R8.

(** The legal destinations listed for a square ([allowedMoves.get]). *)
Definition allowedFrom (b : BoardInfo) (from : Position) : list Position :=
  Js.nullish (get b.(allowedMoves) from) [].

(** All legal destinations of a position, origin by origin. *)
Definition allDestinations (b : BoardInfo) : list Position :=
  flat_map snd b.(allowedMoves).

(** The legal destinations of the origins that hold the piece [p]. *)
Definition destinationsOf (b : BoardInfo) (p : PieceId) : list Position :=
  flat_map snd (filter (fun e => optPieceEqb (get b.(pieces) (fst e)) p) b.(allowedMoves)).

(** The algebraic texts of the moves of a parse. *)
Definition textsOf (r : option (completion (list Move))) : option (completion (list string)) :=
  match r with
  | None => None
  | Some (Throw e) => Some (Throw e)
  | Some (Normal l) => Some (Normal (map algebraic l))
  end.

(** A PGN text with a variation, the same text with the variation deleted,
    and the text with the variation written without inner spaces. *)
Definition pgnWithVariation : string := "1. e4 e5 ( 2. Nf3 Nc6 ) 3. d4".
Definition pgnVariationDeleted : string := "1. e4 e5  3. d4".
Definition pgnWithTightVariation : string := "1. e4 e5 (2. Nf3 Nc6) 3. d4".

(** A FEN text whose first rank sums to seven files. *)
Definition shortRankFen : string := "7/8/8/8/8/8/8/8 w - - 0 1".

(** The promotion piece that [calculateMove] assigns before the caller's choice. *)
Definition defaultPromotion (p : PieceId) (t : Position) : option PromotionPieceId :=
  if (PieceId.eqb p BLACK_PAWN && rank_eqb t.(rank) PromotionRank.BLACK)%bool
  then Some PROMO_BLACK_QUEEN
  else if (PieceId.eqb p WHITE_PAWN && rank_eqb t.(rank) PromotionRank.WHITE)%bool
  then Some PROMO_WHITE_QUEEN
  else None.

(** The shape rule of each piece, as the [switch] of [calculateMove] calls it. *)
Definition shapeRule (b : BoardInfo) (f t : Position) (p : PieceId) : bool :=
  match p with
  | BLACK_PAWN | WHITE_PAWN => isValidPawnMove f t p b.(pieces) b.(enPassantTarget)
  | BLACK_KNIGHT | WHITE_KNIGHT => isValidKnightMove f t
  | BLACK_BISHOP | WHITE_BISHOP => isValidBishopMove f t b.(pieces)
  | BLACK_ROOK | WHITE_ROOK => isValidRookMove f t b.(pieces)
  | BLACK_QUEEN | WHITE_QUEEN => isValidQueenMove f t b.(pieces)
  | BLACK_KING | WHITE_KING => fst (isValidKingMove f t p b.(pieces) b.(canCastle))
  end.

(** The facts read off a successful [calculateMove]. *)
Record moveFacts (b : BoardInfo) (f t : Position) (pr : option PromotionPieceId)
  (ign : bool) (m : Move) : Prop := {
  mf_from : m.(from) = f;
  mf_to : m.(to) = t;
  mf_piece : get b.(pieces) f = Some m.(piece);
  mf_turn : m.(turn) = PieceId.getColor m.(piece);
  mf_color : PieceId.getColor m.(piece) = b.(turnColor);
  mf_target : match get b.(pieces) t with
              | Some tp => color_eqb (PieceId.getColor m.(piece)) (PieceId.getColor tp)
              | None => false
              end = false;
  mf_allowed : ign = false ->
               existsb (fun d => equals d t) (allowedFrom b f) = true;
  mf_shape : shapeRule b f t m.(piece) = true;
  mf_castling : m.(castling) =
                if PieceId.isKing m.(piece)
                then snd (isValidKingMove f t m.(piece) b.(pieces) b.(canCastle))
                else None;
  mf_enPassant : m.(isEnPassantCapture) =
                 (PieceId.isPawn m.(piece)
                  && match b.(enPassantTarget) with
                     | Some e => equals e t
                     | None => false
                     end)%bool;
  mf_isCapture : m.(isCapture) = (has b.(pieces) t || m.(isEnPassantCapture))%bool;
  mf_promotion : m.(promotion) = option_map (Js.nullish pr) (defaultPromotion m.(piece) t);
  mf_algebraic : m.(algebraic) = moveToAlgebraic m;
  mf_comment : m.(comment) = None
}.

(** A validated move: one that [calculateMove] returned on this board. *)
Definition validated (b : BoardInfo) (m : Move) : Prop :=
  exists f t pr ign, calculateMove b f t pr ign = Normal (Value m).

(** The board that [applyMove] builds before it fills the legal moves. *)
Definition boardBeforeFill (board : BoardInfo) (move : Move) : BoardInfo :=
  let isWhiteMove := color_eqb board.(turnColor) WHITE in
  let newBoard :=
    {| pieces := clone board.(pieces);
       turnColor := if isWhiteMove then BLACK else WHITE;
       canCastle := board.(canCastle);
       enPassantTarget := None;
       halfMoveClock := Js.plus board.(halfMoveClock) 1;
       fullMoveNumber := if isWhiteMove then board.(fullMoveNumber)
                         else Js.plus board.(fullMoveNumber) 1;
       allowedMoves := [];
       moves := board.(moves) ++ [move] |} in
  match move.(castling) with
  | Some _ => applyCastlingMove newBoard move
  | None =>
      let p := delete newBoard.(pieces) move.(from) in
      let p := if move.(isEnPassantCapture)
               then delete p (make move.(to).(file) move.(from).(rank))
               else p in
      let p := match move.(promotion) with
               | Some promotedPiece => set p move.(to) (ofPromotion promotedPiece)
               | None => set p move.(to) move.(piece)
               end in
      let newBoard := withPieces newBoard p in
      let newBoard := withCanCastle newBoard (updateCastlingRights newBoard.(canCastle) move) in
      let isPawnMove := PieceId.isPawn move.(piece) in
      let newBoard := if (isPawnMove || move.(isCapture))%bool
                      then withHalfMoveClock newBoard 0 else newBoard in
      if (isPawnMove
          && (Z.abs (rankIndex move.(from) - rankIndex move.(to)) =? 2))%bool
      then
        let rank := if isWhiteMove then EnPassantRank.WHITE else EnPassantRank.BLACK in
        withEnPassantTarget newBoard (Some (make move.(from).(file) rank))
      else newBoard
  end.


(** The position that a FEN text denotes ([newBoardInfo] when it has none). *)
Definition boardOfFen (fen : string) : BoardInfo :=
  match parseFen fen with
  | Normal b => b
  | Throw _ => newBoardInfo
  end.

Definition initialBoard : BoardInfo := Eval vm_compute in boardOfFen INITIAL_FEN.

(** Kings and rooks on their first squares, every castling right set. *)
Definition kingsAndRooksFen : string := "r3k2r/8/8/8/8/8/8/R3K2R w KQkq - 0 1".
Definition kingsAndRooks : BoardInfo := Eval vm_compute in boardOfFen kingsAndRooksFen.

(** *** Castling rights over a game (C7) *)

(** No right that is [false] before is [true] after. *)
Definition rightsNotRestored (before after : CastlingRights) : Prop :=
  (whiteKingSide before = false -> whiteKingSide after = false)
  /\ (whiteQueenSide before = false -> whiteQueenSide after = false)
  /\ (blackKingSide before = false -> blackKingSide after = false)
  /\ (blackQueenSide before = false -> blackQueenSide after = false).

(** The positions that follow [p] by any number of [applyMove] calls. *)
Inductive subsequent (p : BoardInfo) : BoardInfo -> Prop :=
| subsequent_here : subsequent p p
| subsequent_move q m q' :
    subsequent p q -> applyMove q m = Normal q' -> subsequent p q'.

(** The castling rights that [applyMove] stores. *)
Definition rightsAfter (p : BoardInfo) (m : Move) : CastlingRights :=
  match m.(castling) with
  | Some _ =>
      if color_eqb m.(turn) WHITE
      then {| whiteKingSide := false; whiteQueenSide := false;
              blackKingSide := p.(canCastle).(blackKingSide);
              blackQueenSide := p.(canCastle).(blackQueenSide) |}
      else {| whiteKingSide := p.(canCastle).(whiteKingSide);
              whiteQueenSide := p.(canCastle).(whiteQueenSide);
              blackKingSide := false; blackQueenSide := false |}
  | None => updateCastlingRights p.(canCastle) m
  end.

(** *** The en-passant target (C8) *)

(** A pawn that stays on its file and changes rank by two. *)
Definition isTwoSquarePawnAdvance (m : Move) : bool :=
  (isPawn m.(piece) && file_eqb m.(from).(file) m.(to).(file)
   && (Z.abs (rankIndex m.(to) - rankIndex m.(from)) =? 2))%bool.

(** The square half way between the origin and the destination. *)
Definition squarePassedOver (m : Move) : option Position :=
  option_map (make m.(from).(file))
    (Js.arrayGet BOARD_RANKS ((rankIndex m.(from) + rankIndex m.(to)) / 2)).

(** *** The legal move filter (C1, C2) *)

(** The king of a colour. *)
Definition kingOf (c : PlayerColor) : PieceId :=
  if color_eqb c WHITE then WHITE_KING else BLACK_KING.

(** The trial of the legal move filter passes for [m]: on the board after
    the trial move the mover's king is found and the scan of the opposing
    pieces finds none that can move to its square. *)
Definition kingSafeAfter (b : BoardInfo) (m : Move) : Prop :=
  let temp := tempBoardAfter b m.(from) m.(to) m.(piece) m in
  exists kingPos,
    findPositionFor PieceId.eqb temp.(pieces) (kingOf b.(turnColor)) = Some kingPos
    /\ scanOpponents temp b.(turnColor) kingPos temp.(pieces) = Normal false.

(** The scan finds an opposing piece that can move to the king's square. *)
Definition kingAttackedAfter (b : BoardInfo) (m : Move) : Prop :=
  let temp := tempBoardAfter b m.(from) m.(to) m.(piece) m in
  exists kingPos,
    findPositionFor PieceId.eqb temp.(pieces) (kingOf b.(turnColor)) = Some kingPos
    /\ scanOpponents temp b.(turnColor) kingPos temp.(pieces) = Normal true.

(** The letters of [AlgebraicPieceChar]. *)
Definition isPieceLetter (c : ascii) : bool :=
  (Ascii.eqb c "N" || Ascii.eqb c "B" || Ascii.eqb c "R" || Ascii.eqb c "Q" || Ascii.eqb c "K")%bool.

(** The text starts with one of the piece letters N, B, R, Q, K. *)
Definition isPieceLetterText (text : string) : bool :=
  match Js.charAt text 0 with
  | Some c => isPieceLetter c
  | None => false
  end.

(** No key twice: what a [Map] guarantees and an association list does not. *)
Fixpoint distinctKeys {T : Type} (m : BoardMap T) : bool :=
  match m with
  | [] => true
  | (k, _) :: m' => (negb (has m' k) && distinctKeys m')%bool
  end.

(** White king on e1 in check from a rook on e8, f1 and g1 empty, the
    king-side right set. *)
Definition castleInCheckFen : string := "4r2k/8/8/8/8/8/8/4K2R w K - 0 1".
Definition castleInCheckBoard : BoardInfo := Eval vm_compute in boardOfFen castleInCheckFen.

(** White king on e1 with a white bishop on f1, the king-side right set. *)
Definition bishopOnF1Fen : string := "4k3/8/8/8/8/8/8/4KB1R w K - 0 1".
Definition bishopOnF1Board : BoardInfo := Eval vm_compute in boardOfFen bishopOnF1Fen.

(** White king on e1, f1 and g1 empty, the king-side right set, and a black
    rook on g8 that looks down the g-file. *)
Definition rookOnGFileFen : string := "4k1r1/8/8/8/8/8/8/4K2R w K - 0 1".
Definition rookOnGFileBoard : BoardInfo := Eval vm_compute in boardOfFen rookOnGFileFen.

(** The white pawn on d2 shields the king on e1 from the bishop on a5. *)
Definition pinnedPawnFen : string := "4k3/8/8/b7/8/8/3P4/4K3 w - - 0 1".
Definition pinnedPawnBoard : BoardInfo := Eval vm_compute in boardOfFen pinnedPawnFen.

(** *** Texts without the origin square (C5, C10) *)

(** White knights on b1 and f3: each of them can move to d2. *)
Definition twoKnightsFen : string := "4k3/8/8/8/8/5N2/8/1N2K3 w - - 0 1".
Definition twoKnightsBoard : BoardInfo := Eval vm_compute in boardOfFen twoKnightsFen.

(** The move with another origin. *)
Definition withFrom (m : Move) (f : Position) : Move :=
  {| from := f; to := m.(to); algebraic := m.(algebraic); piece := m.(piece);
     turn := m.(turn); isCapture := m.(isCapture); castling := m.(castling);
     isEnPassantCapture := m.(isEnPassantCapture); promotion := m.(promotion);
     comment := m.(comment) |}.

(** *** Decoding the text of a move (C5) *)

(** Equal in origin, destination, piece, capture flag, castling side and
    promotion. *)
Definition sameMove (m m' : Move) : Prop :=
  m'.(from) = m.(from) /\ m'.(to) = m.(to) /\ m'.(piece) = m.(piece)
  /\ m'.(isCapture) = m.(isCapture) /\ m'.(castling) = m.(castling)
  /\ m'.(promotion) = m.(promotion).

(** The text of a piece move. *)
Definition pieceText (pc : AlgebraicPieceChar.t) (captured : bool) (t : Position) : string :=
  String (AlgebraicPieceChar.char pc)
    (if captured then String "x" (Board.toString t) else Board.toString t).

(** The text of a pawn move. *)
Definition promotionSuffix (q : option PromotionPieceId) : string :=
  match q with
  | Some q => String "=" (String (Js.toUpperCaseChar (PieceId.char (ofPromotion q))) EmptyString)
  | None => EmptyString
  end.

Definition pawnText (captured : bool) (f t : Position) (q : option PromotionPieceId) : string :=
  if captured
  then String (fileChar f.(file))
         (String "x" (String (fileChar t.(file)) (String (rankChar t.(rank)) (promotionSuffix q))))
  else String (fileChar t.(file)) (String (rankChar t.(rank)) (promotionSuffix q)).

(** The pawn of a colour. *)
Definition pawnOf (white : bool) : PieceId := if white then WHITE_PAWN else BLACK_PAWN.

(** The origin that [tryParseAlgebraicPawnMove] resolves. *)
Definition resolvedPawnOrigin (ps : BoardMap PieceId) (white : bool) (fromFile : BoardFile)
  (t : Position) : option Position :=
  match (if white then prevBoardRank t.(rank) else nextBoardRank t.(rank)) with
  | None => None
  | Some prevRank =>
      let from := make fromFile prevRank in
      if negb (optPieceEqb (get ps from) (pawnOf white)) then
        if rank_eqb t.(rank) (if white then R4 else R5)
        then Some (make fromFile (if white then R2 else R7))
        else None
      else Some from
  end.

(** *** The decoder's search for the origin (C5) *)

(** Two lists of squares are equal. *)
Fixpoint sameSquares (l l' : list Position) : bool :=
  match l, l' with
  | [], [] => true
  | x :: l, y :: l' => (equals x y && sameSquares l l')%bool
  | _, _ => false
  end.

(** The 64 x 64 pairs of squares. *)
Definition forallPairs (P : Position -> Position -> bool) : bool :=
  forallb (fun f => forallb (fun t => P f t) allSquares) allSquares.

(** The square at an offset from a square, when it is on the board. *)
Definition squareAtOffset (origin : Position) (d : Z * Z) : option Position :=
  let fileIdx := fileIndex origin + fst d in
  let rankIdx := rankIndex origin + snd d in
  if negb (inBounds fileIdx rankIdx) then None
  else
    match Js.arrayGet BOARD_FILES fileIdx, Js.arrayGet BOARD_RANKS rankIdx with
    | Some f, Some r => Some (make f r)
    | _, _ => None
    end.

(** The squares at the given offsets from a square. *)
Definition offsetSquares (origin : Position) (offsets : list (Z * Z)) : list Position :=
  flat_map (fun d => match squareAtOffset origin d with
                     | Some pos => [pos]
                     | None => []
                     end) offsets.

(** The squares that the loop of [castRay] visits on an empty board. *)
Fixpoint rayAux (fuel : nat) (fileIdx rankIdx dFile dRank : Z) : list Position :=
  match fuel with
  | O => []
  | S k =>
      if inBounds fileIdx rankIdx then
        match Js.arrayGet BOARD_FILES fileIdx, Js.arrayGet BOARD_RANKS rankIdx with
        | Some f, Some r => make f r :: rayAux k (fileIdx + dFile) (rankIdx + dRank) dFile dRank
        | _, _ => []
        end
      else []
  end.

(** The ray from a square in a direction, the square itself left out. *)
Definition ray (origin : Position) (d : Z * Z) : list Position :=
  rayAux LINE_FUEL (fileIndex origin + fst d) (rankIndex origin + snd d) (fst d) (snd d).

(** The first occupied square along a list of squares, when it holds the
    wanted piece. *)
Fixpoint firstHit (ps : BoardMap PieceId) (wanted : PieceId) (l : list Position)
  : list Position :=
  match l with
  | [] => []
  | pos :: l' =>
      if has ps pos
      then (if optPieceEqb (get ps pos) wanted then [pos] else [])
      else firstHit ps wanted l'
  end.

(** The geometry of the shape rules, the board left aside. *)
Definition onDiagonal (f t : Position) : bool :=
  Z.abs (fileIndex t - fileIndex f) =? Z.abs (rankIndex t - rankIndex f).

Definition onLine (f t : Position) : bool :=
  (file_eqb f.(file) t.(file) || rank_eqb f.(rank) t.(rank))%bool.

Definition oneStep (f t : Position) : bool :=
  ((Z.abs (fileIndex t - fileIndex f) <=? 1) && (Z.abs (rankIndex t - rankIndex f) <=? 1))%bool.

(** The shape rule of a piece holds and the move is not castling. *)
Definition plainShape (b : BoardInfo) (f t : Position) (p : PieceId) : bool :=
  (shapeRule b f t p
   && negb (isKing p && Js.isSome (snd (isValidKingMove f t p b.(pieces) b.(canCastle)))))%bool.

(** Is a square in a list of squares? *)
Definition inSquares (x : Position) (l : list Position) : bool := existsb (equals x) l.

Fixpoint distinctSquares (l : list Position) : bool :=
  match l with
  | [] => true
  | x :: l' => (negb (inSquares x l') && distinctSquares l')%bool
  end.

(** The squares at the offsets of a knight (a king) are the squares from
    which the knight (the king, by one step) moves to the square, each once. *)
Definition offsetsAgree (offsets : list (Z * Z)) (shape : Position -> Position -> bool) : bool :=
  (forallPairs (fun t x => Bool.eqb (inSquares x (offsetSquares t offsets))
                             (shape x t && negb (equals x t)))
   && forallb (fun t => distinctSquares (offsetSquares t offsets)) allSquares)%bool.

(** Along every ray of the given directions, each square has the shape of
    the piece with respect to the origin of the ray, is not the origin, and
    the squares between it and the origin are the squares before it on the
    ray. *)
Definition rayAgrees (shape : Position -> Position -> bool) (t : Position) (d : Z * Z) : bool :=
  let l := ray t d in
  forallb (fun i => match nth_error l i with
                    | Some x => (shape x t && negb (equals x t)
                                 && sameSquares (getPositionsBetween x t) (rev (firstn i l)))%bool
                    | None => true
                    end) (seq 0 (List.length l)).

Definition raysAgree (directions : list (Z * Z)) (shape : Position -> Position -> bool) : bool :=
  (forallb (fun t => forallb (rayAgrees shape t) directions) allSquares
   && forallPairs (fun t x => implb (shape x t && negb (equals x t))
                                (existsb (fun d => inSquares x (ray t d)) directions))
   && forallb (fun t => distinctSquares (flat_map (ray t) directions)) allSquares)%bool.

(** The origin of a move is not ambiguous: no other square holds the same
    piece with a move of its shape to the destination. *)
Definition onlyOrigin (b : BoardInfo) (m : Move) : bool :=
  forallb (fun f' => (equals f' m.(from)
                      || negb (optPieceEqb (get b.(pieces) f') m.(piece))
                      || negb (plainShape b f' m.(to) m.(piece)))%bool) allSquares.

(** The moves for which the text is decoded back: castling moves; pawn
    moves whose promotion piece, if any, has the mover's colour; and White's
    piece moves whose origin is not ambiguous. *)
Definition roundTripScope (b : BoardInfo) (m : Move) : Prop :=
  m.(castling) <> None
  \/ (isPawn m.(piece) = true
      /\ forall q, m.(promotion) = Some q -> getColor (ofPromotion q) = b.(turnColor))
  \/ (b.(turnColor) = WHITE
      /\ m.(castling) = None
      /\ isPawn m.(piece) = false
      /\ onlyOrigin b m = true).

(** *** The fuel of the line loops *)

(** The exit test [i !== to] of the horizontal and vertical loops. *)
Fixpoint lineLoopEnds (fuel : nat) (i target step : Z) : bool :=
  match fuel with
  | O => false
  | S k => if i =? target then true else lineLoopEnds k (i + step) target step
  end.

(** The exit test of the diagonal loop. *)
Fixpoint diagonalLoopEnds (fuel : nat) (f r toFileIdx toRankIdx fileStep rankStep : Z) : bool :=
  match fuel with
  | O => false
  | S k =>
      if (negb (f =? toFileIdx) && negb (r =? toRankIdx))%bool
      then diagonalLoopEnds k (f + fileStep) (r + rankStep) toFileIdx toRankIdx fileStep rankStep
      else true
  end.

(** Does the loop that [getPositionsBetween] runs end on its own test? *)
Definition betweenLoopEnds (from to : Position) : bool :=
  let fromFileIdx := fileIndex from in
  let toFileIdx := fileIndex to in
  let fromRankIdx := rankIndex from in
  let toRankIdx := rankIndex to in
  if fromRankIdx =? toRankIdx then
    let step := if fromFileIdx <? toFileIdx then 1 else -1 in
    lineLoopEnds LINE_FUEL (fromFileIdx + step) toFileIdx step
  else if fromFileIdx =? toFileIdx then
    let step := if fromRankIdx <? toRankIdx then 1 else -1 in
    lineLoopEnds LINE_FUEL (fromRankIdx + step) toRankIdx step
  else if Z.abs (fromFileIdx - toFileIdx) =? Z.abs (fromRankIdx - toRankIdx) then
    let fileStep := if fromFileIdx <? toFileIdx then 1 else -1 in
    let rankStep := if fromRankIdx <? toRankIdx then 1 else -1 in
    diagonalLoopEnds LINE_FUEL (fromFileIdx + fileStep) (fromRankIdx + rankStep)
      toFileIdx toRankIdx fileStep rankStep
  else true.

(** The loops end on their own test for every two different squares. *)
Definition allPairsEnd : bool :=
  forallb (fun f => forallb (fun t => (equals f t || betweenLoopEnds f t)%bool) allSquares)
    allSquares.

(** The bounds test of the ray loop of the decoder, with no piece on the way. *)
Fixpoint rayLoopEnds (fuel : nat) (fileIdx rankIdx dFile dRank : Z) : bool :=
  match fuel with
  | O => false
  | S k =>
      if inBounds fileIdx rankIdx
      then rayLoopEnds k (fileIdx + dFile) (rankIdx + dRank) dFile dRank
      else true
  end.

(** Every ray from every square leaves the board within the fuel. *)
Definition allRaysEnd : bool :=
  forallb (fun origin =>
             forallb (fun d => rayLoopEnds LINE_FUEL (fileIndex origin + fst d)
                                 (rankIndex origin + snd d) (fst d) (snd d))
               (bishopDirections ++ rookDirections))
    allSquares.

(** *** FEN placements (C4) *)

(** A character that is neither a digit nor one of the twelve piece letters. *)
Definition unrecognized (c : ascii) : bool :=
  (negb (isNumberChar c) && negb (PieceId.isPiece c))%bool.

(* ------------------------------------------------------------------ *)
(** ** Definitions for the further properties *)

(** *** Boards and moves of the examples *)

(** The board that [applyMove] returns ([newBoardInfo] when it throws). *)
Definition boardAfter (b : BoardInfo) (m : Move) : BoardInfo :=
  match applyMove b m with
  | Normal b' => b'
  | Throw _ => newBoardInfo
  end.

(** The move e2-e4 of the starting position and the position after it. *)
Definition pawnE2E4 : Move :=
  {| from := make Fe R2; to := make Fe R4; algebraic := "e4"; piece := WHITE_PAWN;
     turn := WHITE; isCapture := false; castling := None; isEnPassantCapture := false;
     promotion := None; comment := None |}.

Definition afterE2E4 : BoardInfo := Eval vm_compute in boardAfter initialBoard pawnE2E4.

(** The answer e7-e5 of Black. *)
Definition pawnE7E5 : Move :=
  {| from := make Fe R7; to := make Fe R5; algebraic := "e5"; piece := BLACK_PAWN;
     turn := BLACK; isCapture := false; castling := None; isEnPassantCapture := false;
     promotion := None; comment := None |}.

(** The starting position with the full move number 10^21. *)
Definition lateBoard : BoardInfo :=
  {| pieces := initialBoard.(pieces); turnColor := initialBoard.(turnColor);
     canCastle := initialBoard.(canCastle);
     enPassantTarget := initialBoard.(enPassantTarget);
     halfMoveClock := initialBoard.(halfMoveClock); fullMoveNumber := 10 ^ 21;
     allowedMoves := initialBoard.(allowedMoves); moves := initialBoard.(moves) |}.

(** A move that names a pawn on e3, where the starting position has none. *)
Definition pawnE3E4 : Move :=
  {| from := make Fe R3; to := make Fe R4; algebraic := "e4"; piece := WHITE_PAWN;
     turn := WHITE; isCapture := false; castling := None; isEnPassantCapture := false;
     promotion := None; comment := None |}.

(** King-side castling of White on the board with kings and rooks only. *)
Definition whiteCastlesShort : Move :=
  {| from := e1; to := g1; algebraic := "O-O"; piece := WHITE_KING;
     turn := WHITE; isCapture := false; castling := Some KingSide;
     isEnPassantCapture := false; promotion := None; comment := None |}.

Definition afterWhiteCastlesShort : BoardInfo :=
  Eval vm_compute in boardAfter kingsAndRooks whiteCastlesShort.

(** The castling right of a colour and a side. *)
Definition rightFor (c : CastlingRights) (white : bool) (side : CastlingSide) : bool :=
  match side with
  | KingSide => if white then c.(whiteKingSide) else c.(blackKingSide)
  | QueenSide => if white then c.(whiteQueenSide) else c.(blackQueenSide)
  end.

(** The files of a castling move: where the king arrives, the square it
    passes, and the corner. *)
Definition castlingKingFile (side : CastlingSide) : BoardFile :=
  match side with KingSide => Fg | QueenSide => Fc end.

Definition castlingPassedFile (side : CastlingSide) : BoardFile :=
  match side with KingSide => Ff | QueenSide => Fd end.

Definition castlingCornerFile (side : CastlingSide) : BoardFile :=
  match side with KingSide => Fh | QueenSide => Fa end.

(** The queen of a colour, as a promotion piece. *)
Definition promotionQueen (white : bool) : PromotionPieceId :=
  if white then PROMO_WHITE_QUEEN else PROMO_BLACK_QUEEN.

(** The board with kings and rooks only, the rook on h1 taken away. *)
Definition kingsAndRooksWithoutH1 : BoardInfo :=
  withPieces kingsAndRooks (delete kingsAndRooks.(pieces) h1).

(** A white pawn on e7 with e8 empty, and the move that the text [e8] is
    decoded to. *)
Definition pawnOnE7Fen : string := "7k/4P3/8/8/8/8/8/K7 w - - 0 1".
Definition pawnOnE7Board : BoardInfo := Eval vm_compute in boardOfFen pawnOnE7Fen.


(** *** PGN *)

(** The moves of a list applied one after the other. *)
Fixpoint replay (b : BoardInfo) (ms : list Move) : completion BoardInfo :=
  match ms with
  | [] => Normal b
  | m :: ms' => let* b' := applyMove b m in replay b' ms'
  end.

(** The parser as [PGNParser.parse] finds it. *)
Definition pgnParserOf (pgnText : string) : Pgn.PGNParser :=
  {| Pgn.pgn := pgnText; Pgn.offset := 0; Pgn.line := 1; Pgn.lineOffset := 0;
     Pgn.tags := [] |}.

(** Every character of a string passes a test. *)
Fixpoint allChars (P : ascii -> bool) (s : string) : bool :=
  match s with
  | EmptyString => true
  | String c s' => (P c && allChars P s')%bool
  end.

(** A token of a text at an offset: characters of the text, one at least
    and none of them white space, that stand there one after the other. *)
Definition tokenAt (text : string) (o : nat) (token : string) : Prop :=
  token <> EmptyString
  /\ String.substring o (String.length token) text = token
  /\ allChars (fun c => negb (Pgn.isWhiteSpace c)) token = true.

(** The moves read from a text, from an offset and a position on: each move
    is what [calculateMoveFromAlgebraic] decodes, on the position reached so
    far, from a token of the text that stands after the token of the move
    before, with a comment or none; [applyMove] gives the next position. *)
Inductive movesRead (text : string) : nat -> BoardInfo -> list Move -> BoardInfo -> Prop :=
| movesRead_end o b : movesRead text o b [] b
| movesRead_move o o1 b token m0 c b1 ms b' :
    (o <= o1)%nat ->
    tokenAt text o1 token ->
    calculateMoveFromAlgebraic b token = Normal (Value m0) ->
    applyMove b (withComment m0 c) = Normal b1 ->
    movesRead text (o1 + String.length token) b1 ms b' ->
    movesRead text o b (withComment m0 c :: ms) b'.

(** A token that the parser reads as one move text: one character at
    least, none of them white space, and the first not the opening brace of
    a comment. *)
Definition plainToken (t : string) : bool :=
  match t with
  | EmptyString => false
  | String c _ =>
      (negb (Ascii.eqb c "{") && allChars (fun c => negb (Pgn.isWhiteSpace c)) t)%bool
  end.

(** The moves that the tokens are decoded to, each on the position that the
    moves before it lead to; [None] when a token is not decoded to a move or
    [applyMove] throws. *)
Fixpoint playTokens (b : BoardInfo) (tokens : list string) : option (list Move) :=
  match tokens with
  | [] => Some []
  | t :: rest =>
      match calculateMoveFromAlgebraic b t with
      | Normal (Value m0) =>
          match applyMove b (withComment m0 None) with
          | Normal b1 => option_map (cons (withComment m0 None)) (playTokens b1 rest)
          | Throw _ => None
          end
      | _ => None
      end
  end.

(** The movetext of a game: before each move of White its number and a full
    stop, one space between the parts, as in [1. e4 e5 2. Nf3]. *)
Fixpoint movetext (n : Z) (tokens : list string) : string :=
  match tokens with
  | [] => EmptyString
  | w :: rest =>
      Js.decimal n ++ ". " ++ w
      ++ match rest with
         | [] => EmptyString
         | bl :: rest' =>
             " " ++ bl ++ match rest' with [] => EmptyString | _ :: _ => " " end
             ++ movetext (n + 1) rest'
         end
  end.

(** The parser stands before [rest]: its text ends with [rest], and its
    offset is where [rest] starts. *)
Definition standsAt (p : Pgn.PGNParser) (rest : string) : Prop :=
  exists pre, Pgn.pgn p = (pre ++ rest)%string /\ Pgn.offset p = String.length pre.

(** The first character of a text, if any, passes a test. *)
Definition startsWith (P : ascii -> bool) (s : string) : bool :=
  match s with
  | EmptyString => true
  | String c _ => P c
  end.

(** The tokens of the opening 1. e4 e5 2. Nf3. *)
Definition openingTokens : list string := ["e4"; "e5"; "Nf3"]%string.

(** The knight move g1-f3 after 1. e4 e5. *)
Definition knightG1F3 : Move :=
  {| from := make Fg R1; to := make Ff R3; algebraic := "Nf3"; piece := WHITE_KNIGHT;
     turn := WHITE; isCapture := false; castling := None; isEnPassantCapture := false;
     promotion := None; comment := None |}.

(** A FEN tag is found in the parser's tags with the empty text only. *)
Definition noFenTag (tags : list (string * string)) : Prop :=
  forall v, Pgn.getTag tags "FEN" = Some v -> v = EmptyString.

(** A text with a well-formed FEN tag (a white pawn on e7, kings on a1 and
    h8) and two moves. *)
Definition pgnWithFenTag : string :=
  "[FEN " ++ String "034" ("7k/4P3/8/8/8/8/8/K7 w - - 0 1"
    ++ String "034" ("]" ++ String "010" "1. e4 e5")).

(** The name under which the parser stores the tag of [pgnWithFenTag]. *)
Definition storedTagName : string := "EN " ++ String "034" "7".

(** The parser [p'] reads the same text as [p], at the same place or further. *)
Definition advanced (p p' : Pgn.PGNParser) : Prop :=
  Pgn.pgn p' = Pgn.pgn p /\ (Pgn.offset p <= Pgn.offset p')%nat.

(** *** FEN *)

(** What [fenRowLoop] and the last step of [fenRow] append to the row text
    for the files [cols], with [emptyCount] empty squares before them. *)
Fixpoint fenRowText (ps : BoardMap PieceId) (row : BoardRank) (cols : list BoardFile)
  (emptyCount : Z) : string :=
  match cols with
  | [] => if 0 <? emptyCount then Js.numberToString emptyCount else EmptyString
  | col :: rest =>
      match get ps (make col row) with
      | Some piece =>
          let count := if 0 <? emptyCount then Js.numberToString emptyCount else EmptyString in
          (count ++ charStr (PieceId.char piece) ++ fenRowText ps row rest 0)%string
      | None => fenRowText ps row rest (emptyCount + 1)
      end
  end.

(** The piece of [ps] on [sq] when [sq] is on the rank [row] and on one of
    the files [cols]. *)
Definition rowGet (ps : BoardMap PieceId) (row : BoardRank) (cols : list BoardFile)
  (sq : Position) : option PieceId :=
  if (rank_eqb sq.(rank) row && existsb (file_eqb sq.(file)) cols)%bool
  then get ps sq else None.

(** The castling field of [boardToFen]. *)
Definition castlingText (c : CastlingRights) : string :=
  let castling := EmptyString in
  let castling := if c.(whiteKingSide) then castling ++ "K" else castling in
  let castling := if c.(whiteQueenSide) then castling ++ "Q" else castling in
  let castling := if c.(blackKingSide) then castling ++ "k" else castling in
  let castling := if c.(blackQueenSide) then castling ++ "q" else castling in
  if String.eqb castling EmptyString then "-" else castling.

(** The en-passant field of [boardToFen]. *)
Definition enPassantText (e : option Position) : string :=
  match e with
  | Some pos => Board.toString pos
  | None => "-"
  end.

(** The placement field of [boardToFen]. *)
Definition placementText (ps : BoardMap PieceId) : string :=
  Js.join "/" (map (fenRow ps) (rev BOARD_RANKS)).

(** The six fields of [boardToFen]. *)
Definition fenFields (b : BoardInfo) : list string :=
  [ placementText b.(pieces); colorString b.(turnColor); castlingText b.(canCastle);
    enPassantText b.(enPassantTarget); Js.numberToString b.(halfMoveClock);
    Js.numberToString b.(fullMoveNumber) ].

(** A text of [k] digits that reads as [n]: what [digitsPrefix] makes of it. *)
Definition readsAs (s : string) (k : nat) (n : Z) : Prop :=
  forall a : option Z,
    Js.digitsPrefix s a =
    match k with
    | O => a
    | S _ => Some (match a with Some v => v | None => 0 end * 10 ^ Z.of_nat k + n)
    end.

(* ------------------------------------------------------------------ *)
(** ** C9: the legal moves of the starting position *)

(** C9. In the position that [parseFen INITIAL_FEN] returns, White is to
    move and the legal-destination mapping filled by [fillAllowedMoves] holds
    exactly 20 destinations: 16 from squares with a white pawn and 4 from
    squares with a white knight. *)
Theorem initial_position_legal_moves :
  exists b,
    parseFen INITIAL_FEN = Normal b
    /\ b.(turnColor) = WHITE
    /\ List.length (allDestinations b) = 20%nat
    /\ List.length (destinationsOf b WHITE_PAWN) = 16%nat
    /\ List.length (destinationsOf b WHITE_KNIGHT) = 4%nat.
Proof.
  eexists. split; [vm_compute; reflexivity |].
  repeat split; vm_compute; reflexivity.
Qed.

(** The boards named above are what [parseFen] returns on their texts. *)
Lemma named_boards_parsed :
  parseFen INITIAL_FEN = Normal initialBoard
  /\ parseFen kingsAndRooksFen = Normal kingsAndRooks
  /\ parseFen castleInCheckFen = Normal castleInCheckBoard
  /\ parseFen bishopOnF1Fen = Normal bishopOnF1Board
  /\ parseFen rookOnGFileFen = Normal rookOnGFileBoard
  /\ parseFen pinnedPawnFen = Normal pinnedPawnBoard
  /\ parseFen twoKnightsFen = Normal twoKnightsBoard.
Proof. repeat split; vm_compute; reflexivity. Qed.

(* ------------------------------------------------------------------ *)
(** ** C3: variations in PGN text *)


(** C3. On the text [1. e4 e5 ( 2. Nf3 Nc6 ) 3. d4] the parser plays the two
    moves inside the parentheses on the board: it returns five moves, where
    the same text without the variation gives three. *)
Theorem variation_moves_are_applied :
  textsOf (Pgn.parsePGNMoves pgnWithVariation)
    = Some (Normal ["e4"; "e5"; "Nf3"; "nc6"; "d4"])
  /\ textsOf (Pgn.parsePGNMoves pgnVariationDeleted)
    = Some (Normal ["e4"; "e5"; "d4"])
  /\ Pgn.parsePGNMoves pgnWithVariation <> Pgn.parsePGNMoves pgnVariationDeleted.
Proof.
  assert (H1 : textsOf (Pgn.parsePGNMoves pgnWithVariation)
               = Some (Normal ["e4"; "e5"; "Nf3"; "nc6"; "d4"]))
    by (vm_compute; reflexivity).
  assert (H2 : textsOf (Pgn.parsePGNMoves pgnVariationDeleted)
               = Some (Normal ["e4"; "e5"; "d4"]))
    by (vm_compute; reflexivity).
  split; [exact H1 |]. split; [exact H2 |].
  intro E. apply (f_equal textsOf) in E. rewrite H1, H2 in E. discriminate E.
Qed.

(** Written without spaces inside the parentheses, the variation stops the
    parse: the token [Nc6)] is no move. *)
Lemma tight_variation_fails :
  Pgn.parsePGNMoves pgnWithTightVariation = Some (Throw (PgnFailedBlackMove 1 21)).
Proof. vm_compute. reflexivity. Qed.

(* ------------------------------------------------------------------ *)
(** ** C6: FEN text of a position, read back *)

(** C6. The starting position has White to move; its FEN text carries the
    word [white] in the side field, and [parseFen] reads that text back as
    a position with Black to move. *)
Theorem fen_roundtrip_loses_white_turn :
  exists p p',
    parseFen INITIAL_FEN = Normal p
    /\ p.(turnColor) = WHITE
    /\ boardToFen p = "rnbqkbnr/pppppppp/8/8/8/8/PPPPPPPP/RNBQKBNR white KQkq - 0 1"
    /\ parseFen (boardToFen p) = Normal p'
    /\ p'.(turnColor) = BLACK.
Proof.
  do 2 eexists. split; [vm_compute; reflexivity |].
  split; [reflexivity |]. split; [vm_compute; reflexivity |].
  split; [vm_compute; reflexivity |]. reflexivity.
Qed.

(* ------------------------------------------------------------------ *)
(** ** C4: FEN placements that [parseFen] accepts *)


(** C4. The first rank of [7/8/8/8/8/8/8/8 w - - 0 1] sums to seven files;
    [validateFen] answers [false] on it, and [parseFen] returns a position
    (the empty board). *)
Theorem parseFen_accepts_short_rank :
  validateFen shortRankFen = false
  /\ exists b, parseFen shortRankFen = Normal b /\ b.(pieces) = [].
Proof.
  split; [vm_compute; reflexivity |].
  eexists. split; [vm_compute; reflexivity | reflexivity].
Qed.

(** What [parseFen] does reject: unrecognized letters. *)


Lemma includesChar_app s1 s2 c :
  Js.includesChar (s1 ++ s2) c = (Js.includesChar s1 c || Js.includesChar s2 c)%bool.
Proof.
  induction s1 as [| d s1 IH]; cbn [append Js.includesChar]; [reflexivity |].
  rewrite IH. apply orb_assoc.
Qed.

Lemma splitAux_includes sep c s : forall cur,
  Ascii.eqb c sep = false ->
  (Js.includesChar cur c || Js.includesChar s c)%bool = true ->
  exists row, In row (Js.splitAux sep s cur) /\ Js.includesChar row c = true.
Proof.
  induction s as [| d s IH]; intros cur N H; cbn [Js.splitAux].
  - cbn [Js.includesChar] in H. rewrite orb_false_r in H. exists cur. split; [left; reflexivity | exact H].
  - cbn [Js.includesChar] in H. destruct (Ascii.eqb d sep) eqn:E.
    + apply Ascii.eqb_eq in E. subst d.
      rewrite (Ascii.eqb_sym sep c), N in H. cbn [orb] in H.
      destruct (Js.includesChar cur c) eqn:EC.
      * exists cur. split; [left; reflexivity | exact EC].
      * destruct (IH EmptyString N) as (row & HI & HR); [exact H |].
        exists row. split; [right; exact HI | exact HR].
    + destruct (IH (cur ++ String d EmptyString) N) as (row & HI & HR).
      { rewrite includesChar_app. cbn [Js.includesChar]. rewrite orb_false_r.
        rewrite <- orb_assoc. exact H. }
      exists row. split; [exact HI | exact HR].
Qed.

Lemma parseFenRow_unrecognized c rowStr : forall rowIndex colIndex ps,
  unrecognized c = true ->
  Js.includesChar rowStr c = true ->
  exists e, parseFenRow rowStr rowIndex colIndex ps = Throw e.
Proof.
  unfold unrecognized. intros rowIndex colIndex ps U. apply andb_true_iff in U.
  destruct U as [U1 U2]. apply negb_true_iff in U1, U2.
  revert rowIndex colIndex ps.
  induction rowStr as [| d rest IH]; intros rowIndex colIndex ps H;
    cbn [Js.includesChar parseFenRow] in *; [discriminate H |].
  destruct (Ascii.eqb d c) eqn:E.
  - apply Ascii.eqb_eq in E. subst d. rewrite U1.
    unfold PieceId.isPiece in U2. destruct (PieceId.parse c); [discriminate U2 | eauto].
  - cbn [orb] in H. destruct (isNumberChar d); [apply IH; exact H |].
    destruct (PieceId.parse d); [| eauto].
    destruct (Js.arrayGet BOARD_FILES colIndex); [| eauto].
    destruct (Js.arrayGet BOARD_RANKS rowIndex); [| eauto].
    apply IH. exact H.
Qed.

Lemma parseFenRows_unrecognized c fenRows n : forall ps i,
  unrecognized c = true ->
  (i < n)%nat ->
  Js.includesChar (nth i fenRows EmptyString) c = true ->
  exists e, parseFenRows fenRows n ps = Throw e.
Proof.
  induction n as [| n IH]; intros ps i U L H; [lia |].
  cbn [parseFenRows].
  destruct (parseFenRow (nth n fenRows EmptyString) (Z.of_nat n) 0 ps) as [ps1 | e] eqn:R;
    [| cbn [bindC]; eauto].
  cbn [bindC]. destruct (Nat.eq_dec i n) as [-> | NE].
  - destruct (@parseFenRow_unrecognized c _ (Z.of_nat n) 0 ps U H) as [e HE].
    rewrite HE in R. discriminate R.
  - apply (IH ps1 i U); [lia | exact H].
Qed.

(** [parseFen] throws on every text whose placement field holds a character,
    other than the separator, that is neither a digit nor a piece letter. *)
Lemma parseFen_unrecognized_letter fen c :
  unrecognized c = true ->
  Ascii.eqb c "/" = false ->
  Js.includesChar (nth 0 (Js.split fen " ") EmptyString) c = true ->
  exists e, parseFen fen = Throw e.
Proof.
  intros U N H. unfold parseFen.
  destruct (Nat.ltb _ 1); [eauto |]. cbv zeta.
  destruct (negb (Nat.eqb (List.length (Js.split _ "/")) 8)) eqn:L; [eauto |].
  destruct (@splitAux_includes "/" c (nth 0 (Js.split fen " ") EmptyString) EmptyString N)
    as (row & HI & HR); [exact H |].
  fold (Js.split (nth 0 (Js.split fen " ") EmptyString) "/") in HI.
  apply in_rev in HI. apply (In_nth _ _ EmptyString) in HI.
  destruct HI as (i & LI & HN).
  destruct (@parseFenRows_unrecognized c
              (rev (Js.split (nth 0 (Js.split fen " ") EmptyString) "/"))
              (List.length (rev (Js.split (nth 0 (Js.split fen " ") EmptyString) "/")))
              [] i U LI) as [e HE].
  { rewrite HN. exact HR. }
  rewrite HE. cbn [bindC]. eauto.
Qed.

(* ------------------------------------------------------------------ *)
(** ** Squares and maps: basic facts *)

Arguments equals : simpl never.
Arguments calculateMove : simpl never.
Arguments isValidPawnMove : simpl never.
Arguments isValidKnightMove : simpl never.
Arguments isValidBishopMove : simpl never.
Arguments isValidRookMove : simpl never.
Arguments isValidQueenMove : simpl never.
Arguments isValidKingMove : simpl never.
Arguments isPathClear : simpl never.
Arguments moveToAlgebraic : simpl never.
Arguments fillAllowedMoves : simpl never.
Arguments isPossibleMove : simpl never.
Arguments tempBoardAfter : simpl never.

Lemma file_eqb_eq (a b : BoardFile) : file_eqb a b = true <-> a = b.
Proof. destruct a, b; split; intro H; try reflexivity; discriminate H. Qed.

Lemma rank_eqb_eq (a b : BoardRank) : rank_eqb a b = true <-> a = b.
Proof. destruct a, b; split; intro H; try reflexivity; discriminate H. Qed.

Lemma equals_eq (p q : Position) : equals p q = true <-> p = q.
Proof.
  destruct p as [pf pr], q as [qf qr]. unfold equals. cbn [file rank].
  rewrite andb_true_iff, file_eqb_eq, rank_eqb_eq.
  split; [intros [-> ->]; reflexivity | intro H; inversion H; auto].
Qed.

Lemma equals_refl (p : Position) : equals p p = true.
Proof. apply equals_eq. reflexivity. Qed.

Lemma equals_neq (p q : Position) : equals p q = false <-> p <> q.
Proof.
  split.
  - intros H E. apply equals_eq in E. congruence.
  - intro H. destruct (equals p q) eqn:E; [apply equals_eq in E; contradiction | reflexivity].
Qed.

Lemma equals_sym (p q : Position) : equals p q = equals q p.
Proof.
  destruct (equals p q) eqn:E; symmetry.
  - apply equals_eq in E. subst. apply equals_refl.
  - apply equals_neq. apply equals_neq in E. congruence.
Qed.

Lemma toString_eqb (p q : Position) :
  String.eqb (Board.toString p) (Board.toString q) = equals p q.
Proof.
  destruct p as [pf pr], q as [qf qr]. unfold Board.toString, equals, file_eqb, rank_eqb.
  simpl. destruct (Ascii.eqb (fileChar pf) (fileChar qf)); [| reflexivity].
  destruct (Ascii.eqb (rankChar pr) (rankChar qr)); reflexivity.
Qed.

Lemma piece_eqb_eq (a b : PieceId) : PieceId.eqb a b = true <-> a = b.
Proof. destruct a, b; split; intro H; try reflexivity; discriminate H. Qed.

Lemma piece_eqb_refl (a : PieceId) : PieceId.eqb a a = true.
Proof. apply piece_eqb_eq. reflexivity. Qed.

Lemma color_eqb_eq (a b : PlayerColor) : color_eqb a b = true <-> a = b.
Proof. destruct a, b; split; intro H; try reflexivity; discriminate H. Qed.

Section MapFacts.
Variable T : Type.
Implicit Types (m : BoardMap T) (k : Position) (v : T).

Lemma get_In m k v : In (k, v) m -> exists v', get m k = Some v'.
Proof.
  induction m as [| [k' v'] m IH]; simpl; [contradiction |].
  intros [E | H].
  - inversion E; subst. rewrite equals_refl. eauto.
  - destruct (equals k' k); eauto.
Qed.

Lemma get_set m k v k' :
  get (set m k v) k' = if equals k k' then Some v else get m k'.
Proof.
  induction m as [| [k0 v0] m IH]; simpl.
  - reflexivity.
  - destruct (equals k0 k) eqn:E0.
    + apply equals_eq in E0. subst k0. simpl. destruct (equals k k'); reflexivity.
    + simpl. rewrite IH. destruct (equals k0 k') eqn:E1; [| reflexivity].
      apply equals_eq in E1. subst k0. rewrite equals_sym, E0. reflexivity.
Qed.

Lemma get_delete m k k' :
  get (delete m k) k' = if equals k k' then None else get m k'.
Proof.
  induction m as [| [k0 v0] m IH]; simpl.
  - destruct (equals k k'); reflexivity.
  - destruct (equals k0 k) eqn:E0.
    + apply equals_eq in E0. subst k0. rewrite IH. destruct (equals k k'); reflexivity.
    + simpl. rewrite IH. destruct (equals k0 k') eqn:E1; [| reflexivity].
      apply equals_eq in E1. subst k0. rewrite equals_sym, E0. reflexivity.
Qed.

Lemma get_Some_In m k v : get m k = Some v -> In (k, v) m.
Proof.
  induction m as [| [k0 v0] m IH]; simpl; [discriminate |].
  destruct (equals k0 k) eqn:E.
  - apply equals_eq in E. subst. intro H. inversion H. auto.
  - auto.
Qed.

(** With no key twice, an entry is what [get] returns. *)
Lemma In_get_NoDup m k v : NoDup (map fst m) -> In (k, v) m -> get m k = Some v.
Proof.
  induction m as [| [k0 v0] m IH]; simpl; [contradiction |].
  intros ND [E | H].
  - inversion E; subst. rewrite equals_refl. reflexivity.
  - inversion ND as [| ? ? NI ND']; subst.
    destruct (equals k0 k) eqn:E.
    + apply equals_eq in E. subst k0. exfalso. apply NI.
      apply (in_map fst) in H. exact H.
    + auto.
Qed.

End MapFacts.

(* ------------------------------------------------------------------ *)
(** ** calculateMove: what a returned move is *)

Lemma existsb_pointwise {A : Type} (f g : A -> bool) (l : list A) :
  (forall x, f x = g x) -> existsb f l = existsb g l.
Proof. intro E. induction l as [| x l IH]; simpl; [reflexivity | rewrite E, IH; reflexivity]. Qed.

(** Without the filter the legal-destination mapping is not looked at. *)
Lemma calculateMove_ignores_allowedMoves b a f t pr :
  calculateMove (withAllowedMoves b a) f t pr true = calculateMove b f t pr true.
Proof. reflexivity. Qed.

Lemma calculateMove_no_throw b f t pr ign :
  get b.(pieces) f <> None -> exists r, calculateMove b f t pr ign = Normal r.
Proof.
  intro G. unfold calculateMove. destruct (get (pieces b) f) as [pc |]; [| contradiction].
  repeat match goal with
         | |- exists r, (if ?c then _ else _) = _ => destruct c
         | |- exists r, Normal _ = _ => eexists; reflexivity
         | |- exists r, (let '(_, _) := ?c in _) = _ => destruct c
         end.
Qed.


Ltac calc_inv H :=
  unfold calculateMove in H;
  let pc := fresh "pc" in
  let G := fresh "G" in
  let C := fresh "C" in
  let O := fresh "O" in
  let A := fresh "A" in
  destruct (get (pieces _) _) as [pc |] eqn:G in H; [| discriminate H];
  destruct (negb (color_eqb (getColor pc) _)) eqn:C in H; [discriminate H |];
  match type of H with
  | (if ?c then _ else _) = _ => destruct c eqn:O in H; [discriminate H |]
  end;
  match type of H with
  | (if ?c then _ else _) = _ => destruct c eqn:A in H; [discriminate H |]
  end.

Lemma calculateMove_facts b f t pr ign m :
  calculateMove b f t pr ign = Normal (Value m) -> moveFacts b f t pr ign m.
Proof.
  intro H. calc_inv H.
  assert (AL : ign = false -> existsb (fun d => equals d t) (allowedFrom b f) = true).
  { intros ->. simpl in A. apply negb_false_iff in A. unfold allowedFrom.
    destruct (get (allowedMoves b) f) as [l |]; [| discriminate A]. simpl.
    rewrite <- A. apply existsb_pointwise. intro d. symmetry. apply toString_eqb. }
  apply negb_false_iff, color_eqb_eq in C.
  destruct pc; cbv beta iota zeta in H;
    match type of H with
    | (if negb ?v then _ else _) = _ => destruct v eqn:V; [| discriminate H]
    end;
    cbv beta iota zeta in H; injection H as <-;
    constructor; simpl; auto; try reflexivity;
    destruct (isValidPawnMove f t _ (pieces b) (enPassantTarget b)); try discriminate V;
    reflexivity.
Qed.

(* ------------------------------------------------------------------ *)
(** ** fillAllowedMoves: it returns, and it changes the mapping only *)

Lemma bindC_Normal {A B : Type} (c : completion A) (k : A -> completion B) (r : B) :
  bindC c k = Normal r -> exists a, c = Normal a /\ k a = Normal r.
Proof. destruct c as [a | e]; simpl; [eauto | discriminate]. Qed.

Lemma scanOpponents_total temp turn kingPos entries :
  (forall k v, In (k, v) entries -> get temp.(pieces) k <> None) ->
  exists r, scanOpponents temp turn kingPos entries = Normal r.
Proof.
  induction entries as [| [k v] entries IH]; intro HG; simpl.
  - eauto.
  - assert (IH' : exists r, scanOpponents temp turn kingPos entries = Normal r)
      by (apply IH; intros k0 v0 H0; apply (HG k0 v0); right; exact H0).
    destruct (color_eqb (getColor v) turn); [exact IH' |].
    destruct (calculateMove_no_throw (withTurnColor temp (getColor v)) k kingPos None true)
      as [r Hr].
    { apply (HG k v). left. reflexivity. }
    rewrite Hr. simpl. destruct r; eauto.
Qed.

(** What the scan answers: false exactly when [calculateMove] returns a
    move to the king's square for no opposing piece of the entries, and true
    only when it returns one for some opposing piece. *)
Lemma scanOpponents_false temp turn kingPos entries :
  scanOpponents temp turn kingPos entries = Normal false
  <-> forall pos pc, In (pos, pc) entries -> getColor pc <> turn ->
        exists err,
          calculateMove (withTurnColor temp (getColor pc)) pos kingPos None true
          = Normal (Error err).
Proof.
  induction entries as [| [k v] entries IH]; cbn [scanOpponents].
  - split; [intros _ pos pc [] | reflexivity].
  - destruct (color_eqb (getColor v) turn) eqn:C.
    + rewrite IH. apply color_eqb_eq in C. split.
      * intros H pos pc [E | HI] NE; [injection E as <- <-; contradiction | exact (H pos pc HI NE)].
      * intros H pos pc HI. apply H. right. exact HI.
    + assert (NE : getColor v <> turn)
        by (intro E; apply color_eqb_eq in E; rewrite E in C; discriminate C).
      destruct (calculateMove (withTurnColor temp (getColor v)) k kingPos None true)
        as [[m | err] | ex] eqn:CM; cbn [bindC].
      * split; [discriminate |]. intro H.
        destruct (H k v (or_introl eq_refl) NE) as [err E]. rewrite CM in E. discriminate E.
      * rewrite IH. split.
        -- intros H pos pc [E | HI] NE'; [injection E as <- <-; exists err; exact CM |
                                           exact (H pos pc HI NE')].
        -- intros H pos pc HI. apply H. right. exact HI.
      * split; [discriminate |]. intro H.
        destruct (H k v (or_introl eq_refl) NE) as [err E]. rewrite CM in E. discriminate E.
Qed.

Lemma scanOpponents_true temp turn kingPos entries :
  scanOpponents temp turn kingPos entries = Normal true ->
  exists pos pc m,
    In (pos, pc) entries /\ getColor pc <> turn
    /\ calculateMove (withTurnColor temp (getColor pc)) pos kingPos None true
       = Normal (Value m).
Proof.
  induction entries as [| [k v] entries IH]; cbn [scanOpponents]; [discriminate |].
  assert (REST : scanOpponents temp turn kingPos entries = Normal true ->
                 exists pos pc m,
                   In (pos, pc) ((k, v) :: entries) /\ getColor pc <> turn
                   /\ calculateMove (withTurnColor temp (getColor pc)) pos kingPos None true
                      = Normal (Value m)).
  { intro H. destruct (IH H) as (pos & pc & m & HI & NE & CM).
    exists pos, pc, m. split; [right; exact HI | split; [exact NE | exact CM]]. }
  destruct (color_eqb (getColor v) turn) eqn:C; [exact REST |].
  destruct (calculateMove (withTurnColor temp (getColor v)) k kingPos None true)
    as [[m | err] | ex] eqn:CM; cbn [bindC]; [| exact REST | discriminate].
  intros _. exists k, v, m. split; [left; reflexivity |]. split; [| exact CM].
  intro E. apply color_eqb_eq in E. rewrite E in C. discriminate C.
Qed.

Lemma isPossibleMove_total b f p t :
  get b.(pieces) f <> None -> exists r, isPossibleMove b f p t = Normal r.
Proof.
  intro G. unfold isPossibleMove.
  destruct (calculateMove_no_throw b f t None true G) as [r Hr]. rewrite Hr. cbn [bindC].
  destruct r as [m | e]; [| eauto].
  destruct (findPositionFor PieceId.eqb _ _) as [kingPos |]; [| eauto].
  destruct (scanOpponents_total (tempBoardAfter b f t p m) (turnColor b) kingPos
              (pieces (tempBoardAfter b f t p m))) as [r Hs].
  { intros k v H N. apply get_In in H. destruct H as [v' E]. congruence. }
  rewrite Hs. cbn [bindC]. eauto.
Qed.

Lemma possibleMovesFrom_total b f p squares :
  get b.(pieces) f <> None -> exists l, possibleMovesFrom b f p squares = Normal l.
Proof.
  intro G. induction squares as [| t squares [l IH]]; simpl; [eauto |].
  destruct (isPossibleMove_total b f p t G) as [r Hr]. rewrite Hr, IH. simpl. eauto.
Qed.

Lemma fillLoop_total entries : forall b,
  (forall k v, In (k, v) entries -> get b.(pieces) k <> None) ->
  exists b', fillLoop b entries = Normal b'.
Proof.
  induction entries as [| [k v] entries IH]; intros b HG; cbn [fillLoop]; [eauto |].
  assert (HG' : forall k0 v0, In (k0, v0) entries -> get (pieces b) k0 <> None)
    by (intros k0 v0 H0; apply (HG k0 v0); right; exact H0).
  destruct (negb (color_eqb (getColor v) (turnColor b))); [apply IH; exact HG' |].
  destruct (possibleMovesFrom_total b k v allSquares) as [l Hl].
  { apply (HG k v). left. reflexivity. }
  rewrite Hl. cbn [bindC].
  destruct (0 <? Z.of_nat (List.length l)); apply IH; exact HG'.
Qed.

Lemma fillAllowedMoves_total b :
  b.(allowedMoves) = [] -> exists b', fillAllowedMoves b = Normal b'.
Proof.
  intro E. unfold fillAllowedMoves. rewrite E. simpl.
  apply fillLoop_total. intros k v H N. apply get_In in H. destruct H as [v' G]. congruence.
Qed.

Lemma fillLoop_frame entries : forall b b',
  fillLoop b entries = Normal b' -> b' = withAllowedMoves b b'.(allowedMoves).
Proof.
  induction entries as [| [k v] entries IH]; intros b b' H; cbn [fillLoop] in H.
  - injection H as <-. destruct b; reflexivity.
  - destruct (negb (color_eqb (getColor v) (turnColor b))); [apply IH; exact H |].
    apply bindC_Normal in H. destruct H as [l [_ H]].
    destruct (0 <? Z.of_nat (List.length l)); apply IH in H; [| exact H].
    rewrite H at 1. reflexivity.
Qed.

Lemma fillAllowedMoves_frame b b' :
  fillAllowedMoves b = Normal b' -> b' = withAllowedMoves b b'.(allowedMoves).
Proof.
  unfold fillAllowedMoves. destruct (0 <? size (allowedMoves b)); [discriminate |].
  apply fillLoop_frame.
Qed.

(* ------------------------------------------------------------------ *)
(** ** applyMove on a validated move *)


Lemma applyMove_unfold board move :
  applyMove board move =
  if negb (optPieceEqb (get board.(pieces) move.(from)) move.(piece))
  then Throw (PieceDoesNotMatchMove move.(from) move.(piece))
  else fillAllowedMoves (boardBeforeFill board move).
Proof.
  unfold applyMove, boardBeforeFill.
  destruct (negb (optPieceEqb _ _)); [reflexivity |].
  destruct (castling move); reflexivity.
Qed.

Lemma applyCastlingMove_allowedMoves newBoard move :
  (applyCastlingMove newBoard move).(allowedMoves) = newBoard.(allowedMoves).
Proof. unfold applyCastlingMove. destruct (castling move) as [[|] |]; reflexivity. Qed.

Lemma boardBeforeFill_allowedMoves board move :
  (boardBeforeFill board move).(allowedMoves) = [].
Proof.
  unfold boardBeforeFill. destruct (castling move) as [side |];
    [rewrite applyCastlingMove_allowedMoves; reflexivity |].
  cbv zeta.
  destruct (isPawn (piece move) || isCapture move)%bool;
    match goal with |- context [if ?c then _ else _] => destruct c end; reflexivity.
Qed.

(** [applyMove] returns a board for every move that names the piece on its origin. *)
Lemma applyMove_total board move :
  get board.(pieces) move.(from) = Some move.(piece) ->
  exists b', applyMove board move = Normal b'
             /\ b' = withAllowedMoves (boardBeforeFill board move) b'.(allowedMoves).
Proof.
  intro G. rewrite applyMove_unfold, G. simpl. rewrite piece_eqb_refl. simpl.
  destruct (fillAllowedMoves_total (boardBeforeFill board move)
              (boardBeforeFill_allowedMoves board move)) as [b' Hb].
  exists b'. split; [exact Hb | apply fillAllowedMoves_frame; exact Hb].
Qed.

Lemma applyMove_inv board move b' :
  applyMove board move = Normal b' ->
  b' = withAllowedMoves (boardBeforeFill board move) b'.(allowedMoves).
Proof.
  rewrite applyMove_unfold. destruct (negb _); [discriminate |].
  apply fillAllowedMoves_frame.
Qed.

Lemma validated_applies b m :
  validated b m ->
  exists b', applyMove b m = Normal b'
             /\ b' = withAllowedMoves (boardBeforeFill b m) b'.(allowedMoves).
Proof.
  intros (f & t & pr & ign & H). apply calculateMove_facts in H.
  apply applyMove_total. rewrite (mf_from H). exact (mf_piece H).
Qed.

(* ------------------------------------------------------------------ *)
(** ** The fuel of the line loops; maps without a key twice *)


Lemma allSquares_complete p : In p allSquares.
Proof. destruct p as [f r]. destruct f, r; vm_compute; tauto. Qed.

Lemma getPositionsBetween_fuel from to :
  from <> to -> betweenLoopEnds from to = true.
Proof.
  intro N.
  assert (A : allPairsEnd = true) by (vm_compute; reflexivity).
  unfold allPairsEnd in A. rewrite forallb_forall in A.
  specialize (A from (allSquares_complete from)). rewrite forallb_forall in A.
  specialize (A to (allSquares_complete to)).
  apply orb_true_iff in A. destruct A as [A | A]; [| exact A].
  apply equals_eq in A. contradiction.
Qed.

Lemma castRay_fuel origin d :
  In d (bishopDirections ++ rookDirections) ->
  rayLoopEnds LINE_FUEL (fileIndex origin + fst d) (rankIndex origin + snd d)
    (fst d) (snd d) = true.
Proof.
  intro HD.
  assert (A : allRaysEnd = true) by (vm_compute; reflexivity).
  unfold allRaysEnd in A. rewrite forallb_forall in A.
  specialize (A origin (allSquares_complete origin)). rewrite forallb_forall in A.
  exact (A d HD).
Qed.

Lemma color_eqb_refl c : color_eqb c c = true.
Proof. destruct c; reflexivity. Qed.

(** A request with equal origin and destination never reaches a shape rule. *)
Lemma calculateMove_same_square b f pr ign :
  (exists e, calculateMove b f f pr ign = Throw e)
  \/ calculateMove b f f pr ign = Normal (Error notYourTurn)
  \/ calculateMove b f f pr ign = Normal (Error captureOwnPiece).
Proof.
  unfold calculateMove. destruct (get (pieces b) f) as [pc |]; [| left; eauto].
  right. destruct (negb (color_eqb (getColor pc) (turnColor b))); [left; reflexivity |].
  right. rewrite color_eqb_refl. reflexivity.
Qed.

(** *** Maps without a key twice *)

Lemma has_set {T : Type} (m : BoardMap T) k v k' :
  has (set m k v) k' = (equals k k' || has m k')%bool.
Proof. unfold has. rewrite get_set. destruct (equals k k'); reflexivity. Qed.

Lemma has_delete {T : Type} (m : BoardMap T) k k' :
  has (delete m k) k' = (negb (equals k k') && has m k')%bool.
Proof. unfold has. rewrite get_delete. destruct (equals k k'); reflexivity. Qed.

Lemma distinctKeys_set {T : Type} (m : BoardMap T) k v :
  distinctKeys m = true -> distinctKeys (set m k v) = true.
Proof.
  induction m as [| [k0 v0] m IH]; cbn [set distinctKeys]; intro H; [reflexivity |].
  apply andb_true_iff in H. destruct H as [H1 H2].
  destruct (equals k0 k) eqn:E; cbn [distinctKeys].
  - rewrite H1, H2. reflexivity.
  - rewrite has_set, (equals_sym k k0), E, (IH H2). cbn [orb]. rewrite H1. reflexivity.
Qed.

Lemma distinctKeys_delete {T : Type} (m : BoardMap T) k :
  distinctKeys m = true -> distinctKeys (delete m k) = true.
Proof.
  induction m as [| [k0 v0] m IH]; cbn [delete distinctKeys]; intro H; [reflexivity |].
  apply andb_true_iff in H. destruct H as [H1 H2].
  destruct (equals k0 k) eqn:E; cbn [distinctKeys]; [exact (IH H2) |].
  rewrite has_delete, (IH H2). apply negb_true_iff in H1. rewrite H1.
  rewrite andb_false_r. reflexivity.
Qed.

Lemma parseFenRow_distinctKeys rowStr : forall rowIndex colIndex ps ps',
  distinctKeys ps = true ->
  parseFenRow rowStr rowIndex colIndex ps = Normal ps' ->
  distinctKeys ps' = true.
Proof.
  induction rowStr as [| c rest IH]; intros rowIndex colIndex ps ps' D H; cbn [parseFenRow] in H.
  - injection H as <-. exact D.
  - destruct (isNumberChar c); [exact (IH _ _ _ _ D H) |].
    destruct (PieceId.parse c); [| discriminate H].
    destruct (Js.arrayGet BOARD_FILES colIndex); [| discriminate H].
    destruct (Js.arrayGet BOARD_RANKS rowIndex); [| discriminate H].
    apply (IH _ _ _ _ (distinctKeys_set _ _ _ D) H).
Qed.

Lemma parseFenRows_distinctKeys fenRows n : forall ps ps',
  distinctKeys ps = true ->
  parseFenRows fenRows n ps = Normal ps' ->
  distinctKeys ps' = true.
Proof.
  induction n as [| n IH]; intros ps ps' D H; cbn [parseFenRows] in H.
  - injection H as <-. exact D.
  - apply bindC_Normal in H. destruct H as (ps1 & H1 & H).
    exact (IH _ _ (parseFenRow_distinctKeys _ _ _ _ D H1) H).
Qed.

(** The positions that [parseFen] returns hold no square twice. *)
Lemma parseFen_distinctKeys fen b :
  parseFen fen = Normal b -> distinctKeys b.(pieces) = true.
Proof.
  unfold parseFen. destruct (Nat.ltb _ 1); [discriminate |].
  cbv zeta. destruct (negb _); [discriminate |].
  intro H. apply bindC_Normal in H. destruct H as (ps & HP & H).
  apply parseFenRows_distinctKeys in HP; [| reflexivity].
  apply bindC_Normal in H. destruct H as (ep & _ & H).
  destruct (Js.parseInt _) as [hm |]; [| discriminate H].
  destruct (hm <? 0); [discriminate H |].
  destruct (Js.parseInt _) as [fm |]; [| discriminate H].
  destruct (fm <? 1); [discriminate H |].
  apply fillAllowedMoves_frame in H. rewrite H. exact HP.
Qed.

Lemma boardBeforeFill_distinctKeys board move :
  distinctKeys board.(pieces) = true ->
  distinctKeys (boardBeforeFill board move).(pieces) = true.
Proof.
  intro D. unfold boardBeforeFill, applyCastlingMove, clone. cbv zeta.
  destruct (castling move) as [[|] |]; cbn [pieces withPieces withCanCastle].
  - repeat (apply distinctKeys_set || apply distinctKeys_delete). exact D.
  - repeat (apply distinctKeys_set || apply distinctKeys_delete). exact D.
  - assert (P : forall nb, pieces
                    (if (isPawn (piece move)
                         && (Z.abs (rankIndex (from move) - rankIndex (to move)) =? 2))%bool
                     then withEnPassantTarget nb
                            (Some (make (file (from move))
                                     (if color_eqb (turnColor board) WHITE
                                      then EnPassantRank.WHITE else EnPassantRank.BLACK)))
                     else nb) = pieces nb)
      by (intro nb; destruct (_ && _)%bool; reflexivity).
    rewrite P.
    assert (Q : forall nb, pieces (if (isPawn (piece move) || isCapture move)%bool
                                   then withHalfMoveClock nb 0 else nb) = pieces nb)
      by (intro nb; destruct (_ || _)%bool; reflexivity).
    rewrite Q. cbn [pieces withPieces withCanCastle].
    destruct (promotion move); apply distinctKeys_set;
      destruct (isEnPassantCapture move);
      repeat apply distinctKeys_delete; exact D.
Qed.

(** [applyMove] keeps that. *)
Lemma applyMove_distinctKeys board move b' :
  distinctKeys board.(pieces) = true ->
  applyMove board move = Normal b' ->
  distinctKeys b'.(pieces) = true.
Proof.
  intros D H. rewrite (applyMove_inv _ _ H). cbn [pieces withAllowedMoves].
  apply boardBeforeFill_distinctKeys. exact D.
Qed.

(* ------------------------------------------------------------------ *)
(** ** C8: the en-passant target *)

Lemma rankIndex_inj r r' : rankIndex r = rankIndex r' -> rank r = rank r'.
Proof.
  destruct r as [f x], r' as [f' x']. unfold rankIndex. cbn [rank].
  destruct x, x'; intro H; try reflexivity; vm_compute in H; discriminate H.
Qed.

Lemma rankIndex_of_rank r x : rank r = x -> rankIndex r = rankIndex (make Fa x).
Proof. intros <-. reflexivity. Qed.

Lemma pawn_two_squares f t pc ps ep :
  isValidPawnMove f t pc ps ep = true ->
  Z.abs (rankIndex f - rankIndex t) = 2 ->
  file f = file t
  /\ rank f = (if isWhite pc then R2 else R7)
  /\ rank t = (if isWhite pc then R4 else R5).
Proof.
  intros V D. unfold isValidPawnMove in V. cbv zeta in V.
  destruct (file_eqb (file f) (file t)) eqn:FE.
  - apply file_eqb_eq in FE. split; [exact FE |].
    destruct (rankIndex t - rankIndex f =? (if isWhite pc then 1 else -1)) eqn:E1.
    + apply Z.eqb_eq in E1. exfalso. destruct (isWhite pc); lia.
    + match type of V with (if ?c then _ else _) = _ => destruct c eqn:E2 end;
        [| discriminate V].
      apply andb_true_iff in E2. destruct E2 as [E2 E3].
      apply rank_eqb_eq in E2. apply Z.eqb_eq in E3. split; [exact E2 |].
      rewrite (rankIndex_of_rank _ E2) in E3.
      destruct (isWhite pc).
      * apply (rankIndex_inj t (make Fa R4)).
        change (rankIndex (make Fa R4)) with 3. change (rankIndex (make Fa R2)) with 1 in E3. lia.
      * apply (rankIndex_inj t (make Fa R5)).
        change (rankIndex (make Fa R5)) with 4. change (rankIndex (make Fa R7)) with 6 in E3. lia.
  - exfalso.
    match type of V with (if ?c then _ else _) = _ => destruct c eqn:E2 end;
      [| discriminate V].
    apply andb_true_iff in E2. destruct E2 as [_ E2]. apply Z.eqb_eq in E2.
    destruct (isWhite pc); lia.
Qed.

Lemma abs_sub_swap (a b : Z) : Z.abs (a - b) = Z.abs (b - a).
Proof. lia. Qed.

Lemma applyCastlingMove_enPassantTarget newBoard move :
  (applyCastlingMove newBoard move).(enPassantTarget) = newBoard.(enPassantTarget).
Proof. unfold applyCastlingMove. destruct (castling move) as [[|] |]; reflexivity. Qed.

Lemma isKing_not_pawn p : isKing p = true -> isPawn p = false.
Proof. destruct p; intro H; try discriminate H; reflexivity. Qed.

Lemma shapeRule_pawn b f t p :
  isPawn p = true -> shapeRule b f t p = isValidPawnMove f t p b.(pieces) b.(enPassantTarget).
Proof. destruct p; intro H; try discriminate H; reflexivity. Qed.

Lemma pawn_isWhite_turn p c :
  isPawn p = true -> getColor p = c -> isWhite p = color_eqb c WHITE.
Proof. destruct p; intros H <-; try discriminate H; reflexivity. Qed.

Lemma boardBeforeFill_enPassantTarget p m :
  validated p m ->
  (boardBeforeFill p m).(enPassantTarget)
  = if isTwoSquarePawnAdvance m then squarePassedOver m else None.
Proof.
  intros (f & t & pr & ign & H). apply calculateMove_facts in H.
  pose proof (mf_shape H) as SH. pose proof (mf_castling H) as CA.
  pose proof (mf_color H) as CO.
  rewrite <- (mf_from H), <- (mf_to H) in SH. clear H.
  unfold boardBeforeFill, isTwoSquarePawnAdvance. cbv zeta.
  destruct (castling m) as [side |].
  - rewrite applyCastlingMove_enPassantTarget. cbn [enPassantTarget].
    destruct (isKing (piece m)) eqn:K; [| discriminate CA].
    rewrite (isKing_not_pawn _ K). reflexivity.
  - destruct (isPawn (piece m)) eqn:P.
    + rewrite shapeRule_pawn in SH by exact P.
      rewrite (abs_sub_swap (rankIndex (to m))).
      destruct (Z.abs (rankIndex (from m) - rankIndex (to m)) =? 2) eqn:D.
      * apply Z.eqb_eq in D.
        destruct (@pawn_two_squares _ _ _ _ _ SH D) as (FE & RF & RT).
        rewrite (proj2 (file_eqb_eq _ _) FE).
        rewrite (pawn_isWhite_turn _ P CO) in RF, RT.
        unfold squarePassedOver.
        rewrite (rankIndex_of_rank _ RF), (rankIndex_of_rank _ RT).
        destruct (color_eqb (turnColor p) WHITE); reflexivity.
      * rewrite !andb_false_r. reflexivity.
    + destruct (isCapture m); reflexivity.
Qed.

(** C8. For every position and validated move, [applyMove] returns a
    position whose en-passant target is set exactly when the move is a pawn
    advance of two squares, and is then the square passed over; after every
    other move the target is null. *)
Theorem en_passant_target_after_move p m :
  validated p m ->
  exists p',
    applyMove p m = Normal p'
    /\ (p'.(enPassantTarget) <> None <-> isTwoSquarePawnAdvance m = true)
    /\ (isTwoSquarePawnAdvance m = true ->
        p'.(enPassantTarget) = squarePassedOver m)
    /\ (isTwoSquarePawnAdvance m = false -> p'.(enPassantTarget) = None).
Proof.
  intro V. destruct (validated_applies V) as (p' & HA & HF).
  exists p'. split; [exact HA |].
  assert (E : enPassantTarget p'
              = if isTwoSquarePawnAdvance m then squarePassedOver m else None).
  { rewrite HF. cbn [enPassantTarget withAllowedMoves].
    apply boardBeforeFill_enPassantTarget. exact V. }
  assert (S : isTwoSquarePawnAdvance m = true -> squarePassedOver m <> None).
  { intro T2. destruct V as (f & t & pr & ign & H). apply calculateMove_facts in H.
    pose proof (mf_shape H) as SH. rewrite <- (mf_from H), <- (mf_to H) in SH.
    unfold isTwoSquarePawnAdvance in T2.
    apply andb_true_iff in T2. destruct T2 as [T2 D].
    apply andb_true_iff in T2. destruct T2 as [P _].
    rewrite shapeRule_pawn in SH by exact P. apply Z.eqb_eq in D.
    rewrite abs_sub_swap in D.
    destruct (@pawn_two_squares _ _ _ _ _ SH D) as (FE & RF & RT).
    unfold squarePassedOver.
    rewrite (rankIndex_of_rank _ RF), (rankIndex_of_rank _ RT).
    destruct (isWhite (piece m)); discriminate. }
  rewrite E. destruct (isTwoSquarePawnAdvance m).
  - split; [split; [reflexivity | intros _; apply S; reflexivity] |].
    split; [reflexivity | discriminate].
  - split; [split; [intro N; exfalso; apply N; reflexivity | discriminate] |].
    split; [discriminate | reflexivity].
Qed.

Lemma en_passant_target_after_move_witness :
  exists m,
    calculateMove initialBoard (make Fe R2) (make Fe R4) None false = Normal (Value m)
    /\ isTwoSquarePawnAdvance m = true
    /\ exists p',
        applyMove initialBoard m = Normal p'
        /\ (p'.(enPassantTarget) <> None <-> isTwoSquarePawnAdvance m = true)
        /\ (isTwoSquarePawnAdvance m = true ->
            p'.(enPassantTarget) = squarePassedOver m)
        /\ (isTwoSquarePawnAdvance m = false -> p'.(enPassantTarget) = None).
Proof.
  eexists. split; [vm_compute; reflexivity |]. split; [reflexivity |].
  apply en_passant_target_after_move.
  exists (make Fe R2), (make Fe R4), None, false. vm_compute. reflexivity.
Defined.

(* ------------------------------------------------------------------ *)
(** ** C7: castling rights *)

Lemma rightsNotRestored_refl c : rightsNotRestored c c.
Proof. repeat split; auto. Qed.

Lemma rightsNotRestored_trans a b c :
  rightsNotRestored a b -> rightsNotRestored b c -> rightsNotRestored a c.
Proof. unfold rightsNotRestored. intuition. Qed.

Lemma updateCastlingRights_le c m : rightsNotRestored c (updateCastlingRights c m).
Proof.
  unfold updateCastlingRights, rightsNotRestored.
  destruct (PieceId.eqb (piece m) BLACK_KING); [simpl; auto |].
  destruct (PieceId.eqb (piece m) WHITE_KING); [simpl; auto |].
  destruct (PieceId.eqb (piece m) BLACK_ROOK);
    [simpl; destruct (equals (from m) _), (equals (from m) _); auto |].
  destruct (PieceId.eqb (piece m) WHITE_ROOK);
    [simpl; destruct (equals (from m) _), (equals (from m) _); auto |].
  auto.
Qed.

Lemma boardBeforeFill_canCastle p m :
  (boardBeforeFill p m).(canCastle) = rightsAfter p m.
Proof.
  unfold boardBeforeFill, rightsAfter, applyCastlingMove. cbv zeta.
  destruct (castling m) as [[|] |]; try reflexivity.
  destruct (isPawn (piece m) || isCapture m)%bool;
    match goal with |- context [if ?c then _ else _] => destruct c end; reflexivity.
Qed.

Lemma applyMove_canCastle p m p' :
  applyMove p m = Normal p' -> p'.(canCastle) = rightsAfter p m.
Proof.
  intro H. rewrite (applyMove_inv _ _ H). cbn [canCastle withAllowedMoves].
  apply boardBeforeFill_canCastle.
Qed.

Lemma rightsAfter_le p m : rightsNotRestored p.(canCastle) (rightsAfter p m).
Proof.
  unfold rightsAfter. destruct (castling m); [| apply updateCastlingRights_le].
  destruct (color_eqb (turn m) WHITE); unfold rightsNotRestored; simpl; auto.
Qed.

Lemma subsequent_rights p q :
  subsequent p q -> rightsNotRestored p.(canCastle) q.(canCastle).
Proof.
  induction 1 as [| q m q' _ IH HA].
  - apply rightsNotRestored_refl.
  - apply (rightsNotRestored_trans IH). rewrite (applyMove_canCastle _ _ HA).
    apply rightsAfter_le.
Qed.

(** C7. For every position and validated move, [applyMove] returns a
    position in which no castling right that was false is true; a king move
    (a castle is one) leaves both rights of its side false, a rook move from
    a1, h1, a8 or h8 leaves the right of that wing false; and in every
    position that follows by further [applyMove] calls the rights that are
    false stay false. *)
Theorem castling_rights_never_restored p m :
  validated p m ->
  exists p',
    applyMove p m = Normal p'
    /\ rightsNotRestored p.(canCastle) p'.(canCastle)
    /\ (m.(piece) = WHITE_KING ->
        whiteKingSide p'.(canCastle) = false /\ whiteQueenSide p'.(canCastle) = false)
    /\ (m.(piece) = BLACK_KING ->
        blackKingSide p'.(canCastle) = false /\ blackQueenSide p'.(canCastle) = false)
    /\ (m.(piece) = WHITE_ROOK -> m.(from) = h1 -> whiteKingSide p'.(canCastle) = false)
    /\ (m.(piece) = WHITE_ROOK -> m.(from) = a1 -> whiteQueenSide p'.(canCastle) = false)
    /\ (m.(piece) = BLACK_ROOK -> m.(from) = h8 -> blackKingSide p'.(canCastle) = false)
    /\ (m.(piece) = BLACK_ROOK -> m.(from) = a8 -> blackQueenSide p'.(canCastle) = false)
    /\ (m.(castling) <> None -> PieceId.isKing m.(piece) = true)
    /\ (forall q, subsequent p' q -> rightsNotRestored p'.(canCastle) q.(canCastle)).
Proof.
  intro V. destruct (validated_applies V) as (p' & HA & _).
  exists p'. split; [exact HA |].
  rewrite (applyMove_canCastle _ _ HA).
  destruct V as (f & t & pr & ign & H). apply calculateMove_facts in H.
  pose proof (mf_turn H) as TU. pose proof (mf_castling H) as CA. clear H.
  split; [apply rightsAfter_le |].
  assert (K : castling m <> None -> isKing (piece m) = true).
  { intro N. destruct (isKing (piece m)); [reflexivity | contradiction]. }
  assert (Q : forall q, subsequent p' q ->
                         rightsNotRestored (rightsAfter p m) (canCastle q)).
  { intros q Hq. rewrite <- (applyMove_canCastle _ _ HA).
    apply subsequent_rights. exact Hq. }
  unfold rightsAfter, updateCastlingRights in *.
  split; [intros E; rewrite E in *; destruct (castling m); [rewrite TU |]; split; reflexivity |].
  split; [intros E; rewrite E in *; destruct (castling m); [rewrite TU |]; split; reflexivity |].
  split; [intros E ->; rewrite E in *; destruct (castling m);
          [specialize (K ltac:(discriminate)); discriminate K | reflexivity] |].
  split; [intros E ->; rewrite E in *; destruct (castling m);
          [specialize (K ltac:(discriminate)); discriminate K | reflexivity] |].
  split; [intros E ->; rewrite E in *; destruct (castling m);
          [specialize (K ltac:(discriminate)); discriminate K | reflexivity] |].
  split; [intros E ->; rewrite E in *; destruct (castling m);
          [specialize (K ltac:(discriminate)); discriminate K | reflexivity] |].
  split; [exact K | exact Q].
Qed.

Lemma castling_rights_never_restored_witness :
  exists m,
    calculateMove kingsAndRooks e1 (make Fe R2) None false = Normal (Value m)
    /\ m.(piece) = WHITE_KING
    /\ exists p',
        applyMove kingsAndRooks m = Normal p'
        /\ rightsNotRestored kingsAndRooks.(canCastle) p'.(canCastle)
        /\ (m.(piece) = WHITE_KING ->
            whiteKingSide p'.(canCastle) = false /\ whiteQueenSide p'.(canCastle) = false)
        /\ (m.(piece) = BLACK_KING ->
            blackKingSide p'.(canCastle) = false /\ blackQueenSide p'.(canCastle) = false)
        /\ (m.(piece) = WHITE_ROOK -> m.(from) = h1 -> whiteKingSide p'.(canCastle) = false)
        /\ (m.(piece) = WHITE_ROOK -> m.(from) = a1 -> whiteQueenSide p'.(canCastle) = false)
        /\ (m.(piece) = BLACK_ROOK -> m.(from) = h8 -> blackKingSide p'.(canCastle) = false)
        /\ (m.(piece) = BLACK_ROOK -> m.(from) = a8 -> blackQueenSide p'.(canCastle) = false)
        /\ (m.(castling) <> None -> PieceId.isKing m.(piece) = true)
        /\ (forall q, subsequent p' q -> rightsNotRestored p'.(canCastle) q.(canCastle)).
Proof.
  eexists. split; [vm_compute; reflexivity |]. split; [reflexivity |].
  apply castling_rights_never_restored.
  exists e1, (make Fe R2), None, false. vm_compute. reflexivity.
Defined.

(* ------------------------------------------------------------------ *)
(** ** The legal move filter: what a listed destination passed *)

Arguments tryParseAlgebraicMoveByChar : simpl never.
Arguments tryParseAlgebraicPawnMove : simpl never.
Arguments tryParseAlgebraicCastlingMove : simpl never.

Lemma isPossibleMove_ignores_allowedMoves b a f p t :
  isPossibleMove (withAllowedMoves b a) f p t = isPossibleMove b f p t.
Proof. reflexivity. Qed.

Lemma possibleMovesFrom_ignores_allowedMoves b a f p squares :
  possibleMovesFrom (withAllowedMoves b a) f p squares = possibleMovesFrom b f p squares.
Proof.
  induction squares as [| t squares IH]; [reflexivity |].
  cbn [possibleMovesFrom]. rewrite IH, isPossibleMove_ignores_allowedMoves. reflexivity.
Qed.

Lemma possibleMovesFrom_In b f p squares : forall l t,
  possibleMovesFrom b f p squares = Normal l -> In t l ->
  isPossibleMove b f p t = Normal true.
Proof.
  induction squares as [| s squares IH]; intros l t H HI; cbn [possibleMovesFrom] in H.
  - injection H as <-. contradiction.
  - apply bindC_Normal in H. destruct H as (ok & Hok & H).
    apply bindC_Normal in H. destruct H as (more & Hmore & H).
    injection H as <-. destruct ok.
    + destruct HI as [<- | HI]; [exact Hok | exact (IH _ _ Hmore HI)].
    + exact (IH _ _ Hmore HI).
Qed.

Lemma isPossibleMove_true b f p t :
  isPossibleMove b f p t = Normal true ->
  exists m, calculateMove b f t None true = Normal (Value m)
            /\ exists kingPos,
                findPositionFor PieceId.eqb (tempBoardAfter b f t p m).(pieces)
                  (kingOf b.(turnColor)) = Some kingPos
                /\ scanOpponents (tempBoardAfter b f t p m) b.(turnColor) kingPos
                     (tempBoardAfter b f t p m).(pieces) = Normal false.
Proof.
  unfold isPossibleMove. intro H.
  apply bindC_Normal in H. destruct H as ([m | e] & Hc & H); [| discriminate H].
  exists m. split; [exact Hc |]. cbv zeta in H. fold (kingOf (turnColor b)) in H.
  destruct (findPositionFor PieceId.eqb _ _) as [kingPos |]; [| discriminate H].
  exists kingPos. split; [reflexivity |].
  apply bindC_Normal in H. destruct H as (chk & Hs & H).
  injection H as H. destruct chk; [discriminate H | exact Hs].
Qed.

Lemma fillLoop_sound entries : forall b b' f l,
  fillLoop b entries = Normal b' ->
  get b'.(allowedMoves) f = Some l ->
  get b.(allowedMoves) f = Some l
  \/ exists p, In (f, p) entries /\ possibleMovesFrom b f p allSquares = Normal l.
Proof.
  induction entries as [| [k v] entries IH]; intros b b' f l H G; cbn [fillLoop] in H.
  - injection H as <-. left. exact G.
  - destruct (negb (color_eqb (getColor v) (turnColor b))).
    + destruct (IH _ _ _ _ H G) as [L | (p & HI & HP)]; [left; exact L |].
      right. exists p. split; [right; exact HI | exact HP].
    + apply bindC_Normal in H. destruct H as (pm & Hpm & H).
      destruct (0 <? Z.of_nat (List.length pm)).
      * destruct (IH _ _ _ _ H G) as [L | (p & HI & HP)].
        -- cbn [allowedMoves withAllowedMoves] in L. rewrite get_set in L.
           destruct (equals k f) eqn:E.
           ++ apply equals_eq in E. subst k. injection L as <-.
              right. exists v. split; [left; reflexivity | exact Hpm].
           ++ left. exact L.
        -- right. exists p. split; [right; exact HI |].
           rewrite possibleMovesFrom_ignores_allowedMoves in HP. exact HP.
      * destruct (IH _ _ _ _ H G) as [L | (p & HI & HP)]; [left; exact L |].
        right. exists p. split; [right; exact HI | exact HP].
Qed.

(** Every destination that [fillAllowedMoves] lists passed the trial. *)
Lemma fillAllowedMoves_sound b0 b f t :
  NoDup (map fst b0.(pieces)) ->
  fillAllowedMoves b0 = Normal b ->
  In t (allowedFrom b f) ->
  exists m, calculateMove b0 f t None true = Normal (Value m) /\ kingSafeAfter b0 m.
Proof.
  intros ND H HI. unfold fillAllowedMoves in H.
  destruct (allowedMoves b0) as [| x xs] eqn:EA; [| discriminate H].
  cbn in H. unfold allowedFrom in HI.
  destruct (get (allowedMoves b) f) as [l |] eqn:G; [| contradiction].
  cbn [Js.nullish] in HI.
  destruct (@fillLoop_sound _ _ _ _ _ H G) as [L | (p & HP & HM)].
  - rewrite EA in L. discriminate L.
  - pose proof (@possibleMovesFrom_In _ _ _ _ _ _ HM HI) as PM.
    apply isPossibleMove_true in PM. destruct PM as (m & Hc & kingPos & HF & HS).
    exists m. split; [exact Hc |].
    pose proof (calculateMove_facts _ _ _ _ _ Hc) as F.
    pose proof (@In_get_NoDup _ _ _ _ ND HP) as GP. rewrite (mf_piece F) in GP.
    injection GP as GP. subst p. unfold kingSafeAfter. rewrite (mf_from F), (mf_to F).
    exists kingPos. split; [exact HF | exact HS].
Qed.


Lemma castling_attempt_null c rest b :
  Ascii.eqb c "O" = false ->
  tryParseAlgebraicCastlingMove (String c rest) b = Normal None.
Proof.
  intro H. unfold tryParseAlgebraicCastlingMove, KING_SIDE_CASTLING_STR,
    QUEEN_SIDE_CASTLING_STR, Js.slice.
  cbn [String.eqb String.length String.substring Nat.sub Nat.add].
  rewrite H. cbn [andb]. rewrite !andb_false_r. reflexivity.
Qed.

Lemma piece_attempt_null c rest b pc :
  Ascii.eqb c (AlgebraicPieceChar.char pc) = false ->
  tryParseAlgebraicMoveByChar (String c rest) b pc = Normal None.
Proof.
  intro H. unfold tryParseAlgebraicMoveByChar.
  cbn [Js.charAt String.get Js.optCharEqb]. rewrite H. reflexivity.
Qed.

(** What an attempt on a piece letter returns is never [null], and a move
    it returns is the answer of [calculateMove] with the filter active. *)
Lemma piece_attempt_value text b pc r :
  Js.optCharEqb (Js.charAt text 0) (AlgebraicPieceChar.char pc) = true ->
  tryParseAlgebraicMoveByChar text b pc = Normal r ->
  exists e, r = Some e
    /\ forall m, e = Value m ->
       exists f t, calculateMove b f t None false = Normal (Value m).
Proof.
  intros HC H. unfold tryParseAlgebraicMoveByChar in H. rewrite HC in H.
  cbn [negb] in H. cbv zeta in H.
  repeat match type of H with
         | (if ?c then _ else _) = _ => destruct c
         | match ?x with _ => _ end = _ => destruct x eqn:?
         end;
    try (injection H as <-; eexists; split; [reflexivity | intros m0 E; discriminate E]).
  all: try discriminate H.
  all: match type of H with
       | bindC ?c _ = _ => destruct c as [[mv | err] | ex] eqn:HC'; cbn [bindC] in H
       end; try discriminate H.
  all: repeat match type of H with
         | (if ?c then _ else _) = _ => destruct c
         end;
    injection H as <-; eexists; (split; [reflexivity |]); intros m0 E;
    try discriminate E; injection E as <-; eauto.
Qed.


Lemma distinctKeys_NoDup {T : Type} (m : BoardMap T) :
  distinctKeys m = true -> NoDup (map fst m).
Proof.
  induction m as [| [k v] m IH]; cbn [distinctKeys map fst]; intro H; [constructor |].
  apply andb_true_iff in H. destruct H as [H1 H2]. constructor; [| exact (IH H2)].
  intro HI. apply in_map_iff in HI. destruct HI as ([k' v'] & E & HI). cbn in E. subst k'.
  apply get_In in HI. destruct HI as [v'' G]. unfold has in H1. rewrite G in H1. discriminate H1.
Qed.

Lemma calculateMove_without_filter b f t pr m :
  calculateMove b f t pr false = Normal (Value m) ->
  calculateMove b f t pr true = Normal (Value m).
Proof.
  unfold calculateMove. destruct (get (pieces b) f) as [pc |]; [| discriminate].
  destruct (negb (color_eqb (getColor pc) (turnColor b))); [discriminate |].
  match goal with |- (if ?c then _ else _) = _ -> _ => destruct c end; [discriminate |].
  match goal with |- (if ?c then _ else _) = _ -> _ => destruct c end; [discriminate |].
  cbn [negb andb]. auto.
Qed.

Lemma existsb_equals_In t l : existsb (fun d => equals d t) l = true -> In t l.
Proof.
  intro H. apply existsb_exists in H. destruct H as (d & HI & E).
  apply equals_eq in E. subst d. exact HI.
Qed.

(** C2. A move that [calculateMoveFromAlgebraic] returns for a text that
    starts with a piece letter (N, B, R, Q, K) was resolved with the legality
    filter active: its destination is in the board's legal-destination list
    of its origin, and, the list being the one [fillAllowedMoves] computed,
    the trial of the move left the mover's king unattacked. *)
Theorem piece_letter_moves_pass_the_filter b text m :
  isPieceLetterText text = true ->
  calculateMoveFromAlgebraic b text = Normal (Value m) ->
  In m.(to) (allowedFrom b m.(from))
  /\ forall b0,
      distinctKeys b0.(pieces) = true ->
      fillAllowedMoves b0 = Normal b ->
      kingSafeAfter b0 m.
Proof.
  intros HT H.
  assert (HC : exists f t, calculateMove b f t None false = Normal (Value m)).
  { destruct text as [| c rest]; [discriminate HT |].
    unfold isPieceLetterText in HT. cbn [Js.charAt String.get] in HT.
    unfold calculateMoveFromAlgebraic in H.
    destruct (Nat.ltb _ 2); [discriminate H |].
    apply bindC_Normal in H. destruct H as (r & HF & H).
    cbn [firstNonNull] in HF.
    assert (HO : Ascii.eqb c "O" = false).
    { unfold isPieceLetter in HT.
      repeat (apply orb_true_iff in HT; destruct HT as [HT | HT]);
        apply Ascii.eqb_eq in HT; subst c; reflexivity. }
    rewrite (@castling_attempt_null c rest b HO) in HF. cbn [bindC] in HF.
    assert (STEP : forall pc k,
               bindC (tryParseAlgebraicMoveByChar (String c rest) b pc)
                     (fun r0 => match r0 with Some e => Normal (Some e) | None => k end)
               = Normal r ->
               (Ascii.eqb c (AlgebraicPieceChar.char pc) = false /\ k = Normal r)
               \/ exists e, r = Some e
                    /\ forall m0, e = Value m0 ->
                       exists f t, calculateMove b f t None false = Normal (Value m0)).
    { intros pc k HB. destruct (Ascii.eqb c (AlgebraicPieceChar.char pc)) eqn:EC.
      - right. apply bindC_Normal in HB. destruct HB as (r0 & HT0 & HB).
        destruct (@piece_attempt_value (String c rest) b pc r0) as (e & -> & HV);
          [exact EC | exact HT0 |].
        injection HB as <-. eauto.
      - left. rewrite (@piece_attempt_null c rest b pc EC) in HB. cbn [bindC] in HB. auto. }
    assert (DONE : (exists e, r = Some e
                     /\ forall m0, e = Value m0 ->
                        exists f t, calculateMove b f t None false = Normal (Value m0)) ->
                   exists f t, calculateMove b f t None false = Normal (Value m)).
    { intros (e & -> & HV). destruct e as [m0 | err]; [| discriminate H].
      injection H as <-. apply HV. reflexivity. }
    apply STEP in HF. destruct HF as [[N1 HF] | HF]; [| exact (DONE HF)].
    apply STEP in HF. destruct HF as [[N2 HF] | HF]; [| exact (DONE HF)].
    apply STEP in HF. destruct HF as [[N3 HF] | HF]; [| exact (DONE HF)].
    apply STEP in HF. destruct HF as [[N4 HF] | HF]; [| exact (DONE HF)].
    apply STEP in HF. destruct HF as [[N5 HF] | HF]; [| exact (DONE HF)].
    exfalso. unfold isPieceLetter in HT. cbn [AlgebraicPieceChar.char] in *.
    rewrite N1, N2, N3, N4, N5 in HT. discriminate HT. }
  destruct HC as (f & t & HC).
  pose proof (calculateMove_facts _ _ _ _ _ HC) as F.
  assert (HI : In t (allowedFrom b f))
    by (apply existsb_equals_In; apply (mf_allowed F); reflexivity).
  rewrite (mf_from F), (mf_to F). split; [exact HI |].
  intros b0 DK HFill.
  destruct (@fillAllowedMoves_sound b0 b f t (@distinctKeys_NoDup _ _ DK) HFill HI)
    as (m' & HC' & HS).
  apply calculateMove_without_filter in HC.
  rewrite (@fillAllowedMoves_frame b0 b HFill) in HC.
  rewrite calculateMove_ignores_allowedMoves in HC.
  rewrite HC in HC'. injection HC' as <-. exact HS.
Qed.

Lemma piece_letter_moves_pass_the_filter_witness :
  exists m,
    calculateMoveFromAlgebraic initialBoard "Nf3" = Normal (Value m)
    /\ isPieceLetterText "Nf3" = true
    /\ In m.(to) (allowedFrom initialBoard m.(from))
    /\ kingSafeAfter (withAllowedMoves initialBoard []) m.
Proof.
  eexists. split; [vm_compute; reflexivity |]. split; [reflexivity |].
  match goal with
  | |- In (to ?m) _ /\ _ =>
      pose proof (@piece_letter_moves_pass_the_filter initialBoard "Nf3" m
                    eq_refl ltac:(vm_compute; reflexivity)) as W
  end.
  split; [exact (proj1 W) |].
  apply (proj2 W); vm_compute; reflexivity.
Defined.

(** The pawn text [d4] on the board with the shielding pawn: the move is
    returned although d4 is no legal destination of d2, and it leaves the
    white king attacked. *)
Lemma pawn_text_bypasses_the_filter :
  parseFen pinnedPawnFen = Normal pinnedPawnBoard
  /\ exists m,
      calculateMoveFromAlgebraic pinnedPawnBoard "d4" = Normal (Value m)
      /\ m.(from) = make Fd R2 /\ m.(to) = make Fd R4
      /\ ~ In m.(to) (allowedFrom pinnedPawnBoard m.(from))
      /\ kingAttackedAfter pinnedPawnBoard m.
Proof.
  split; [vm_compute; reflexivity |].
  eexists. split; [vm_compute; reflexivity |].
  split; [reflexivity |]. split; [reflexivity |].
  split; [intro H; vm_compute in H; exact H |].
  exists e1. split; [vm_compute; reflexivity |]. vm_compute. reflexivity.
Qed.

(* ------------------------------------------------------------------ *)
(** ** C1: the castling request e1-g1 *)

Lemma not_In_existsb t l :
  ~ In t l ->
  existsb (fun m => String.eqb (Board.toString m) (Board.toString t)) l = false.
Proof.
  intro N. destruct (existsb _ l) eqn:E; [| reflexivity].
  exfalso. apply N. apply existsb_exists in E. destruct E as (d & HI & E).
  rewrite toString_eqb in E. apply equals_eq in E. subst d. exact HI.
Qed.

Lemma kingSafe_not_attacked b m : kingSafeAfter b m -> kingAttackedAfter b m -> False.
Proof.
  unfold kingSafeAfter, kingAttackedAfter. cbv zeta.
  intros (k1 & F1 & S1) (k2 & F2 & S2). rewrite F1 in F2. injection F2 as <-.
  rewrite S1 in S2. discriminate S2.
Qed.

Lemma e1_g1_path :
  getPositionsBetween e1 g1 = [f1].
Proof. reflexivity. Qed.

(** C1. With White to move and the white king on e1, the request e1-g1 is
    answered CaptureOwnPiece when g1 holds a white piece, and
    InvalidPieceMove when f1 is occupied and g1 holds no white piece, with
    the filter or without; and when, the king put on g1, an opposing piece can
    move to the king's square, g1 is no legal destination of e1 and the
    request with the filter is answered InvalidPieceMove. *)
Theorem white_kingside_castle_rejections b pr :
  b.(turnColor) = WHITE ->
  get b.(pieces) e1 = Some WHITE_KING ->
  (forall ign q, get b.(pieces) g1 = Some q -> PieceId.getColor q = WHITE ->
     calculateMove b e1 g1 pr ign = Normal (Error captureOwnPiece))
  /\ (forall q, get b.(pieces) f1 = Some q ->
      (forall q', get b.(pieces) g1 = Some q' -> PieceId.getColor q' = BLACK) ->
      calculateMove b e1 g1 pr true = Normal (Error (invalidPieceMove WHITE_KING))
      /\ calculateMove b e1 g1 pr false = Normal (Error (invalidPieceMove WHITE_KING)))
  /\ (forall b0 m,
      distinctKeys b0.(pieces) = true ->
      fillAllowedMoves b0 = Normal b ->
      calculateMove b0 e1 g1 None true = Normal (Value m) ->
      kingAttackedAfter b0 m ->
      ~ In g1 (allowedFrom b e1)
      /\ calculateMove b e1 g1 pr false = Normal (Error (invalidPieceMove WHITE_KING))).
Proof.
  intros HT HK. split; [| split].
  - intros ign q G C. unfold calculateMove. rewrite HK, HT, G, C. reflexivity.
  - intros q G1 HG.
    assert (P : isPathClear e1 g1 (pieces b) = false).
    { unfold isPathClear. rewrite e1_g1_path. cbn [forallb]. unfold has. rewrite G1. reflexivity. }
    assert (T : match get (pieces b) g1 with
                | Some tp => color_eqb (getColor WHITE_KING) (getColor tp)
                | None => false
                end = false).
    { destruct (get (pieces b) g1) as [q' |] eqn:G; [| reflexivity].
      rewrite (HG q' eq_refl). reflexivity. }
    assert (V : isValidKingMove e1 g1 WHITE_KING (pieces b) (canCastle b) = (false, None)).
    { unfold isValidKingMove. rewrite P. reflexivity. }
    split; unfold calculateMove; rewrite HK, HT, T, V;
      change (getColor WHITE_KING) with WHITE; cbn [color_eqb negb andb fst].
    + reflexivity.
    + match goal with |- (if ?c then _ else _) = _ => destruct c end; reflexivity.
  - intros b0 m DK HF HC HA.
    assert (NI : ~ In g1 (allowedFrom b e1)).
    { intro HI.
      destruct (@fillAllowedMoves_sound b0 b e1 g1 (@distinctKeys_NoDup _ _ DK) HF HI)
        as (m' & HC' & HS).
      rewrite HC in HC'. injection HC' as <-. exact (@kingSafe_not_attacked b0 m HS HA). }
    split; [exact NI |].
    pose proof (calculateMove_facts _ _ _ _ _ HC) as F.
    pose proof (mf_target F) as TG.
    rewrite (@fillAllowedMoves_frame b0 b HF) in HK. cbn [pieces withAllowedMoves] in HK.
    rewrite (mf_piece F) in HK. injection HK as HK. rewrite HK in TG.
    unfold calculateMove.
    rewrite (@fillAllowedMoves_frame b0 b HF). cbn [pieces withAllowedMoves turnColor].
    rewrite (mf_piece F), HK.
    rewrite (@fillAllowedMoves_frame b0 b HF) in HT. cbn [turnColor withAllowedMoves] in HT.
    rewrite HT, TG. change (getColor WHITE_KING) with WHITE. cbn [color_eqb negb andb].
    replace (get (allowedMoves (withAllowedMoves b0 (allowedMoves b))) e1)
      with (get (allowedMoves b) e1) by reflexivity.
    unfold allowedFrom in NI.
    destruct (get (allowedMoves b) e1) as [l |]; [| reflexivity].
    cbn [Js.nullish] in NI. rewrite (@not_In_existsb g1 l NI). reflexivity.
Qed.

Lemma white_kingside_castle_rejections_witness :
  (bishopOnF1Board.(turnColor) = WHITE
   /\ get bishopOnF1Board.(pieces) e1 = Some WHITE_KING
   /\ get bishopOnF1Board.(pieces) f1 = Some WHITE_BISHOP
   /\ calculateMove bishopOnF1Board e1 g1 None true
      = Normal (Error (invalidPieceMove WHITE_KING))
   /\ calculateMove bishopOnF1Board e1 g1 None false
      = Normal (Error (invalidPieceMove WHITE_KING)))
  /\ (rookOnGFileBoard.(turnColor) = WHITE
      /\ get rookOnGFileBoard.(pieces) e1 = Some WHITE_KING
      /\ (exists m,
            calculateMove (withAllowedMoves rookOnGFileBoard []) e1 g1 None true
            = Normal (Value m)
            /\ m.(castling) = Some KingSide
            /\ kingAttackedAfter (withAllowedMoves rookOnGFileBoard []) m)
      /\ ~ In g1 (allowedFrom rookOnGFileBoard e1)
      /\ calculateMove rookOnGFileBoard e1 g1 None false
         = Normal (Error (invalidPieceMove WHITE_KING))).
Proof.
  split.
  - split; [reflexivity |]. split; [reflexivity |]. split; [reflexivity |].
    apply (proj1 (proj2 (@white_kingside_castle_rejections bishopOnF1Board None
                           eq_refl eq_refl)) WHITE_BISHOP eq_refl).
    intros q' G. vm_compute in G. discriminate G.
  - split; [reflexivity |]. split; [reflexivity |].
    assert (A : kingAttackedAfter (withAllowedMoves rookOnGFileBoard [])
                  {| from := e1; to := g1; algebraic := "O-O"; piece := WHITE_KING;
                     turn := WHITE; isCapture := false; castling := Some KingSide;
                     isEnPassantCapture := false; promotion := None; comment := None |}).
    { exists g1. split; vm_compute; reflexivity. }
    split.
    + eexists. split; [vm_compute; reflexivity |]. split; [reflexivity | exact A].
    + apply (proj2 (proj2 (@white_kingside_castle_rejections rookOnGFileBoard None
                             eq_refl eq_refl))
               (withAllowedMoves rookOnGFileBoard [])
               {| from := e1; to := g1; algebraic := "O-O"; piece := WHITE_KING;
                  turn := WHITE; isCapture := false; castling := Some KingSide;
                  isEnPassantCapture := false; promotion := None; comment := None |});
        [vm_compute; reflexivity | vm_compute; reflexivity | vm_compute; reflexivity | exact A].
Defined.

(** The white king on e1 is attacked by the rook on e8, f1 and g1 are empty
    and the king-side right is set: g1 is a legal destination of e1, and the
    request e1-g1, with the filter, and the text O-O return the castling move.
    In the starting position, where g1 holds the white knight, the request is
    answered CaptureOwnPiece. *)
Lemma castle_out_of_check_is_accepted :
  parseFen castleInCheckFen = Normal castleInCheckBoard
  /\ get castleInCheckBoard.(pieces) e1 = Some WHITE_KING
  /\ castleInCheckBoard.(canCastle).(whiteKingSide) = true
  /\ has castleInCheckBoard.(pieces) f1 = false
  /\ has castleInCheckBoard.(pieces) g1 = false
  /\ scanOpponents castleInCheckBoard WHITE e1 castleInCheckBoard.(pieces) = Normal true
  /\ In g1 (allowedFrom castleInCheckBoard e1)
  /\ (exists m,
        calculateMove castleInCheckBoard e1 g1 None false = Normal (Value m)
        /\ m.(castling) = Some KingSide
        /\ calculateMoveFromAlgebraic castleInCheckBoard "O-O" = Normal (Value m))
  /\ calculateMove initialBoard e1 g1 None false = Normal (Error captureOwnPiece).
Proof.
  split; [vm_compute; reflexivity |].
  split; [reflexivity |]. split; [reflexivity |].
  split; [reflexivity |]. split; [reflexivity |].
  split; [vm_compute; reflexivity |].
  split; [vm_compute; tauto |].
  split; [| vm_compute; reflexivity].
  eexists. split; [vm_compute; reflexivity |].
  split; [reflexivity | vm_compute; reflexivity].
Qed.


(* ------------------------------------------------------------------ *)
(** ** C10, C5: texts without the origin square *)

(** C10. The text of a move that is not a pawn capture is the same whatever
    its origin square; and with white knights on b1 and f3 the two legal
    moves to d2 have the same text. *)
Theorem text_does_not_name_the_origin :
  (forall m f,
      (PieceId.isPawn m.(piece) && m.(isCapture))%bool = false ->
      moveToAlgebraic (withFrom m f) = moveToAlgebraic m)
  /\ exists m1 m2,
      calculateMove twoKnightsBoard (make Fb R1) (make Fd R2) None false = Normal (Value m1)
      /\ calculateMove twoKnightsBoard (make Ff R3) (make Fd R2) None false = Normal (Value m2)
      /\ m1.(piece) = WHITE_KNIGHT /\ m2.(piece) = WHITE_KNIGHT
      /\ m1.(from) <> m2.(from)
      /\ m1.(to) = m2.(to)
      /\ moveToAlgebraic m1 = "Nd2"
      /\ moveToAlgebraic m2 = "Nd2".
Proof.
  split.
  - intros m f H. unfold moveToAlgebraic. cbn [castling piece isCapture from to promotion withFrom].
    destruct (castling m); [reflexivity |].
    rewrite andb_comm in H. rewrite H. reflexivity.
  - do 2 eexists. split; [vm_compute; reflexivity |]. split; [vm_compute; reflexivity |].
    split; [reflexivity |]. split; [reflexivity |].
    split; [intro E; discriminate E |]. split; [reflexivity |].
    split; vm_compute; reflexivity.
Qed.

Lemma text_does_not_name_the_origin_witness :
  exists m,
    calculateMove twoKnightsBoard (make Fb R1) (make Fd R2) None false = Normal (Value m)
    /\ (PieceId.isPawn m.(piece) && m.(isCapture))%bool = false
    /\ moveToAlgebraic (withFrom m (make Ff R3)) = moveToAlgebraic m.
Proof.
  eexists. split; [vm_compute; reflexivity |]. split; [reflexivity |].
  apply (proj1 text_does_not_name_the_origin). reflexivity.
Defined.

(** The text of the knight move b1-d2 on the board with the two knights is
    not decoded: the answer is AmbiguousAlgebraicNotation. *)
Lemma knight_text_does_not_round_trip :
  parseFen twoKnightsFen = Normal twoKnightsBoard
  /\ exists m,
      calculateMove twoKnightsBoard (make Fb R1) (make Fd R2) None false = Normal (Value m)
      /\ In m.(to) (allowedFrom twoKnightsBoard m.(from))
      /\ calculateMoveFromAlgebraic twoKnightsBoard (moveToAlgebraic m)
         = Normal (Error (ambiguousAlgebraicNotation "Nd2" WHITE_KNIGHT)).
Proof.
  split; [vm_compute; reflexivity |].
  eexists. split; [vm_compute; reflexivity |].
  split; [vm_compute; tauto | vm_compute; reflexivity].
Qed.

(* ------------------------------------------------------------------ *)
(** ** C5: the text of a move, decoded *)

(** *** Characters of squares among the characters of the notation *)



Lemma isBoardFile_None : isBoardFile None = None.
Proof. reflexivity. Qed.

Lemma isBoardRank_None : isBoardRank None = None.
Proof. reflexivity. Qed.

Lemma isBoardFile_x : isBoardFile (Some "x"%char) = None.
Proof. reflexivity. Qed.

Lemma isBoardRank_x : isBoardRank (Some "x"%char) = None.
Proof. reflexivity. Qed.

Lemma isBoardFile_fileChar f : isBoardFile (Some (fileChar f)) = Some f.
Proof. destruct f; reflexivity. Qed.

Lemma isBoardRank_rankChar r : isBoardRank (Some (rankChar r)) = Some r.
Proof. destruct r; reflexivity. Qed.

Lemma isBoardFile_rankChar r : isBoardFile (Some (rankChar r)) = None.
Proof. destruct r; reflexivity. Qed.

Lemma isBoardRank_fileChar f : isBoardRank (Some (fileChar f)) = None.
Proof. destruct f; reflexivity. Qed.

Lemma fileChar_not_capture f : Ascii.eqb (fileChar f) "x" = false.
Proof. destruct f; reflexivity. Qed.

Lemma rankChar_not_capture r : Ascii.eqb (rankChar r) "x" = false.
Proof. destruct r; reflexivity. Qed.

Lemma fileChar_not_O f : Ascii.eqb (fileChar f) "O" = false.
Proof. destruct f; reflexivity. Qed.

Lemma fileChar_not_piece f pc : Ascii.eqb (fileChar f) (AlgebraicPieceChar.char pc) = false.
Proof. destruct f, pc; reflexivity. Qed.

Lemma calculateMove_any_choice b f t pr pr' ign m :
  calculateMove b f t pr ign = Normal (Value m) ->
  exists m0, calculateMove b f t pr' true = Normal (Value m0).
Proof.
  unfold calculateMove. destruct (get (pieces b) f) as [pc |]; [| discriminate].
  destruct (negb (color_eqb (getColor pc) (turnColor b))); [discriminate |].
  match goal with |- (if ?c then _ else _) = _ -> _ => destruct c end; [discriminate |].
  match goal with |- (if ?c then _ else _) = _ -> _ => destruct c end; [discriminate |].
  cbn [negb andb].
  destruct pc; cbv beta iota zeta;
    match goal with |- (if negb ?v then _ else _) = _ -> _ => destruct v end;
    cbn [negb]; intro H; try discriminate H; eexists; reflexivity.
Qed.

(** The fields of a returned move are functions of the board and the squares;
    the promotion alone depends on the caller's choice. *)
Lemma moveFacts_agree b f t pr pr' ign ign' m m' :
  moveFacts b f t pr ign m -> moveFacts b f t pr' ign' m' ->
  m'.(from) = m.(from) /\ m'.(to) = m.(to) /\ m'.(piece) = m.(piece)
  /\ m'.(isCapture) = m.(isCapture) /\ m'.(castling) = m.(castling)
  /\ m'.(isEnPassantCapture) = m.(isEnPassantCapture).
Proof.
  intros F F'.
  assert (P : piece m' = piece m).
  { pose proof (mf_piece F) as G. rewrite (mf_piece F') in G. injection G as G. exact G. }
  assert (E : isEnPassantCapture m' = isEnPassantCapture m)
    by (rewrite (mf_enPassant F), (mf_enPassant F'), P; reflexivity).
  repeat split.
  - rewrite (mf_from F), (mf_from F'). reflexivity.
  - rewrite (mf_to F), (mf_to F'). reflexivity.
  - exact P.
  - rewrite (mf_isCapture F), (mf_isCapture F'), E. reflexivity.
  - rewrite (mf_castling F), (mf_castling F'), P. reflexivity.
  - exact E.
Qed.

Lemma calculateMove_choice_irrelevant b f t pr pr' ign m :
  calculateMove b f t pr ign = Normal (Value m) ->
  isPawn m.(piece) = false ->
  calculateMove b f t pr' ign = Normal (Value m).
Proof.
  intros H HP. pose proof (calculateMove_facts _ _ _ _ _ H) as F.
  pose proof (mf_piece F) as G. revert H.
  unfold calculateMove. rewrite G.
  destruct (negb (color_eqb (getColor (piece m)) (turnColor b))); [discriminate |].
  match goal with |- (if ?c then _ else _) = _ -> _ => destruct c end; [discriminate |].
  match goal with |- (if ?c then _ else _) = _ -> _ => destruct c end; [discriminate |].
  destruct (piece m); try discriminate HP; exact (fun H => H).
Qed.

(** *** Piece moves *)

Arguments Ascii.eqb : simpl nomatch.
Arguments isBoardFile : simpl never.
Arguments isBoardRank : simpl never.
Arguments getPossibleMovePositionsByAlgebraic : simpl never.

Ltac decode :=
  unfold ALGEBRAIC_CAPTURE_CHAR, ALGEBRAIC_CHECK_CHAR, ALGEBRAIC_CHECKMATE_CHAR,
    ALGEBRAIC_PROMOTION_CHAR;
  repeat (progress
            (cbn [Js.charAt String.get Js.optCharEqb Js.isSome Nat.add String.length
                  Nat.eqb Nat.ltb Nat.leb negb andb orb file rank Js.nullish bindC
                  Ascii.eqb Bool.eqb AlgebraicPieceChar.char List.length];
             rewrite ?isBoardFile_fileChar, ?isBoardRank_rankChar, ?isBoardFile_rankChar,
               ?isBoardRank_fileChar, ?fileChar_not_capture, ?rankChar_not_capture,
               ?isBoardFile_None, ?isBoardRank_None, ?isBoardFile_x, ?isBoardRank_x)).


Lemma moveToAlgebraic_piece m pc :
  m.(castling) = None -> m.(promotion) = None ->
  m.(piece) = algebraicPieceCharToPieceId pc true ->
  moveToAlgebraic m = pieceText pc m.(isCapture) m.(to).
Proof.
  intros HC HP HQ. unfold moveToAlgebraic, pieceText. rewrite HC, HP, HQ.
  destruct pc, (isCapture m); reflexivity.
Qed.

Lemma pieceText_attempt b pc f t m :
  b.(turnColor) = WHITE ->
  getPossibleMovePositionsByAlgebraic t b pc None None = [f] ->
  calculateMove b f t None false = Normal (Value m) ->
  m.(piece) = algebraicPieceCharToPieceId pc true ->
  tryParseAlgebraicMoveByChar (pieceText pc m.(isCapture) t) b pc = Normal (Some (Value m)).
Proof.
  intros HT HG HC HQ. destruct t as [tf tr].
  unfold tryParseAlgebraicMoveByChar, pieceText, Board.toString.
  destruct (isCapture m) eqn:CAP; destruct pc; decode;
    rewrite HG, HT; decode; rewrite HC; decode; rewrite ?CAP, ?HQ; reflexivity.
Qed.

Lemma pieceText_decoded b pc f t m :
  b.(turnColor) = WHITE ->
  getPossibleMovePositionsByAlgebraic t b pc None None = [f] ->
  calculateMove b f t None false = Normal (Value m) ->
  m.(piece) = algebraicPieceCharToPieceId pc true ->
  calculateMoveFromAlgebraic b (pieceText pc m.(isCapture) t) = Normal (Value m).
Proof.
  intros HT HG HC HQ.
  pose proof (@pieceText_attempt b pc f t m HT HG HC HQ) as A.
  unfold calculateMoveFromAlgebraic.
  replace (Nat.ltb (String.length _) 2) with false
    by (destruct t, (isCapture m); reflexivity).
  cbn [firstNonNull].
  unfold pieceText in *.
  rewrite castling_attempt_null by (destruct pc; reflexivity).
  cbn [bindC].
  destruct pc; cbn [AlgebraicPieceChar.char] in *;
    rewrite ?piece_attempt_null by reflexivity; cbn [bindC];
    rewrite A; reflexivity.
Qed.

(** *** Castling moves *)


Lemma castling_geometry f t p ps cr side :
  snd (isValidKingMove f t p ps cr) = Some side ->
  f = make Fe (if isWhite p then R1 else R8)
  /\ t = make (match side with KingSide => Fg | QueenSide => Fc end)
              (if isWhite p then R1 else R8).
Proof.
  unfold isValidKingMove. cbv zeta.
  destruct (_ && _)%bool; [discriminate |].
  match goal with |- snd (if ?c then _ else _) = _ -> _ => destruct c eqn:E end;
    [| discriminate].
  apply andb_true_iff in E. destruct E as [E _].
  apply andb_true_iff in E. destruct E as [E EF].
  apply andb_true_iff in E. destruct E as [ED ER].
  apply file_eqb_eq in EF. apply rank_eqb_eq in ER. apply Z.eqb_eq in ED.
  assert (RT : rank t = rank f) by (apply rankIndex_inj; lia).
  assert (RF : rank f = if isWhite p then R1 else R8)
    by (rewrite ER; destruct (isWhite p); reflexivity).
  destruct f as [ff fr], t as [tf tr]. cbn [file rank] in *. subst ff tr fr.
  destruct (file_eqb tf Fg && _)%bool eqn:EG.
  - apply andb_true_iff in EG. destruct EG as [EG _]. apply file_eqb_eq in EG. subst tf.
    intro H. injection H as <-. split; reflexivity.
  - destruct (file_eqb tf Fc && _)%bool eqn:EC; [| discriminate].
    apply andb_true_iff in EC. destruct EC as [EC _]. apply file_eqb_eq in EC. subst tf.
    intro H. injection H as <-. split; reflexivity.
Qed.

Lemma king_isWhite_turn p c :
  isKing p = true -> getColor p = c -> isWhite p = color_eqb c WHITE.
Proof. destruct p; intros H <-; try discriminate H; reflexivity. Qed.

Lemma castling_decoded b f t pr m :
  calculateMove b f t pr false = Normal (Value m) ->
  m.(castling) <> None ->
  calculateMoveFromAlgebraic b (moveToAlgebraic m) = Normal (Value m).
Proof.
  intros H HN. pose proof (calculateMove_facts _ _ _ _ _ H) as F.
  pose proof (mf_castling F) as CA.
  destruct (isKing (piece m)) eqn:K; [| rewrite CA in HN; contradiction].
  destruct (castling m) as [side |] eqn:CS; [| contradiction].
  symmetry in CA. apply castling_geometry in CA. destruct CA as [-> ->].
  rewrite (king_isWhite_turn _ K (mf_color F)) in H.
  apply calculateMove_without_filter in H.
  apply (@calculateMove_choice_irrelevant _ _ _ _ None) in H;
    [| destruct (piece m); try discriminate K; reflexivity].
  unfold moveToAlgebraic. rewrite CS.
  unfold calculateMoveFromAlgebraic, tryParseAlgebraicCastlingMove.
  destruct side, (color_eqb (turnColor b) WHITE);
    cbn [firstNonNull String.length Nat.ltb Nat.leb];
    try change (String.eqb "O-O" KING_SIDE_CASTLING_STR) with true;
    try change (String.eqb "O-O-O" KING_SIDE_CASTLING_STR) with false;
    try change (String.eqb "O-O-O" QUEEN_SIDE_CASTLING_STR) with true;
    cbv beta iota zeta;
    try change (Nat.eqb (String.length "O-O-O")
                  (String.length KING_SIDE_CASTLING_STR + 1)) with false;
    cbn [andb]; rewrite H; reflexivity.
Qed.

(** *** Pawn moves *)


Lemma moveToAlgebraic_pawn m :
  m.(castling) = None -> isPawn m.(piece) = true ->
  moveToAlgebraic m = pawnText m.(isCapture) m.(from) m.(to) m.(promotion).
Proof.
  intros HC HP. unfold moveToAlgebraic, pawnText, promotionSuffix. rewrite HC, HP.
  destruct (isCapture m), (promotion m); reflexivity.
Qed.


Lemma pawnText_attempt b (f t : Position) q m0 (captured : bool) :
  resolvedPawnOrigin b.(pieces) (color_eqb b.(turnColor) WHITE)
    (if captured then f.(file) else t.(file)) t = Some f ->
  calculateMove b f t None true = Normal (Value m0) ->
  m0.(piece) = pawnOf (color_eqb b.(turnColor) WHITE) ->
  (forall q0, q = Some q0 -> getColor (ofPromotion q0) = b.(turnColor)) ->
  tryParseAlgebraicPawnMove (pawnText captured f t q) b
  = Normal (Some (Value (withPromotion m0 q))).
Proof.
  intros HR HC HP HQ. destruct t as [tf tr], f as [ff fr].
  unfold resolvedPawnOrigin in HR. cbn [file rank] in HR.
  unfold tryParseAlgebraicPawnMove, pawnText, promotionSuffix. cbn [file rank].
  unfold pawnOf in *.
  destruct (turnColor b) eqn:HT; cbn [color_eqb] in *;
    destruct captured;
    (destruct q as [q0 |];
     [ destruct q0; try (specialize (HQ _ eq_refl); discriminate HQ) | ]);
    clear HQ;
    repeat match goal with
           | |- context [Js.toUpperCaseChar ?c] =>
               let v := eval vm_compute in (Js.toUpperCaseChar c) in
               change (Js.toUpperCaseChar c) with v
           end;
    decode;
    cbn [isAlgebraicPromotionPieceChar promotionOfChar Js.optCharEqb Ascii.eqb Bool.eqb
           andb orb negb];
    decode;
    rewrite ?HT; cbn [color_eqb];
    match type of HR with match ?x with _ => _ end = _ => destruct x end;
    try discriminate HR;
    rewrite HR; cbn [bindC]; rewrite HC; cbn [bindC]; rewrite HP; reflexivity.
Qed.

Lemma prev_of_step (f t : Position) :
  rankIndex t - rankIndex f = 1 -> prevBoardRank t.(rank) = Some f.(rank).
Proof.
  destruct f as [ff fr], t as [tf tr]. unfold rankIndex. cbn [rank].
  destruct fr, tr; intro H; vm_compute in H; try discriminate H; reflexivity.
Qed.

Lemma next_of_step (f t : Position) :
  rankIndex t - rankIndex f = -1 -> nextBoardRank t.(rank) = Some f.(rank).
Proof.
  destruct f as [ff fr], t as [tf tr]. unfold rankIndex. cbn [rank].
  destruct fr, tr; intro H; vm_compute in H; try discriminate H; reflexivity.
Qed.

Lemma two_step_target (f t : Position) (white : bool) :
  rank f = (if white then R2 else R7) ->
  rankIndex t - rankIndex f = 2 * (if white then 1 else -1) ->
  rank t = (if white then R4 else R5).
Proof.
  destruct f as [ff fr], t as [tf tr]. unfold rankIndex. cbn [rank]. intros ->.
  destruct white, tr; intro H; vm_compute in H; try discriminate H; reflexivity.
Qed.

Lemma two_step_path (ff : BoardFile) (white : bool) ps :
  isPathClear (make ff (if white then R2 else R7)) (make ff (if white then R4 else R5)) ps = true ->
  get ps (make ff (if white then R3 else R6)) = None.
Proof.
  unfold isPathClear.
  destruct white, ff;
    match goal with
    | |- forallb _ ?l = true -> _ =>
        let v := eval vm_compute in l in change l with v
    end;
    cbn [forallb]; unfold has;
    match goal with |- context [get ps ?k] => destruct (get ps k) end;
    (discriminate || reflexivity).
Qed.

Lemma pawn_origin_resolved ps ep (f t : Position) (white : bool) :
  get ps f = Some (pawnOf white) ->
  isValidPawnMove f t (pawnOf white) ps ep = true ->
  resolvedPawnOrigin ps white
    (if (has ps t || match ep with Some e => equals e t | None => false end)%bool
     then f.(file) else t.(file)) t = Some f.
Proof.
  intros G V. unfold isValidPawnMove in V. cbv zeta in V.
  replace (isWhite (pawnOf white)) with white in V by (destruct white; reflexivity).
  assert (ONE : rankIndex t - rankIndex f = (if white then 1 else -1) ->
                forall ff, ff = file f -> resolvedPawnOrigin ps white ff t = Some f).
  { intros D ff ->. unfold resolvedPawnOrigin.
    assert (PR : (if white then prevBoardRank (rank t) else nextBoardRank (rank t))
                 = Some (rank f))
      by (destruct white; [apply prev_of_step | apply next_of_step]; exact D).
    rewrite PR. cbv zeta. destruct f as [ff fr]. cbn [file rank]. rewrite G.
    cbn [optPieceEqb]. rewrite piece_eqb_refl. reflexivity. }
  destruct (file_eqb (file f) (file t)) eqn:FE.
  - apply file_eqb_eq in FE.
    assert (FF : (if (has ps t || match ep with Some e => equals e t | None => false end)%bool
                  then file f else file t) = file f)
      by (rewrite <- FE; destruct (_ || _)%bool; reflexivity).
    rewrite FF.
    destruct (rankIndex t - rankIndex f =? (if white then 1 else -1)) eqn:E1.
    + apply Z.eqb_eq in E1. apply ONE; [exact E1 | reflexivity].
    + match type of V with (if ?c then _ else _) = _ => destruct c eqn:E2 end;
        [| discriminate V].
      apply andb_true_iff in E2. destruct E2 as [E2 E3].
      apply rank_eqb_eq in E2. apply Z.eqb_eq in E3.
      apply andb_true_iff in V. destruct V as [_ V].
      pose proof (@two_step_target f t white E2 E3) as RT.
      destruct f as [ff fr], t as [tf tr]. cbn [file rank] in *. subst tf fr tr.
      apply two_step_path in V.
      unfold resolvedPawnOrigin. cbn [rank].
      destruct white; cbn [prevBoardRank nextBoardRank]; 
        match goal with
        | |- match ?x with _ => _ end = _ =>
            let v := eval vm_compute in x in change x with v
        end; cbv beta iota zeta; rewrite V; reflexivity.
  - match type of V with (if ?c then _ else _) = _ => destruct c eqn:E2 end;
      [| discriminate V].
    apply andb_true_iff in E2. destruct E2 as [_ E2]. apply Z.eqb_eq in E2.
    rewrite V. apply ONE; [exact E2 | reflexivity].
Qed.

Lemma pawn_is_pawnOf p c :
  isPawn p = true -> getColor p = c -> p = pawnOf (color_eqb c WHITE).
Proof. destruct p; intros H <-; try discriminate H; reflexivity. Qed.

Lemma pawnText_decoded b f t pr m :
  calculateMove b f t pr false = Normal (Value m) ->
  isPawn m.(piece) = true ->
  (forall q, m.(promotion) = Some q -> getColor (ofPromotion q) = b.(turnColor)) ->
  exists m',
    calculateMoveFromAlgebraic b (moveToAlgebraic m) = Normal (Value m')
    /\ sameMove m m'.
Proof.
  intros H HP HQ. pose proof (calculateMove_facts _ _ _ _ _ H) as F.
  destruct (@calculateMove_any_choice b f t pr None false m H) as [m0 H0].
  pose proof (calculateMove_facts _ _ _ _ _ H0) as F0.
  destruct (moveFacts_agree F F0) as (A1 & A2 & A3 & A4 & A5 & A6).
  pose proof (@pawn_is_pawnOf _ _ HP (mf_color F)) as PW.
  assert (CN : castling m = None)
    by (rewrite (mf_castling F); destruct (piece m); try discriminate HP; reflexivity).
  assert (SH : isValidPawnMove f t (piece m) (pieces b) (enPassantTarget b) = true).
  { pose proof (mf_shape F) as SH. destruct (piece m); try discriminate HP; exact SH. }
  assert (CAP : isCapture m
                = (has (pieces b) t
                   || match enPassantTarget b with Some e => equals e t | None => false end)%bool).
  { rewrite (mf_isCapture F), (mf_enPassant F), HP. reflexivity. }
  pose proof (mf_piece F) as G. rewrite PW in G, SH.
  pose proof (@pawn_origin_resolved (pieces b) (enPassantTarget b) f t _ G SH) as RES. rewrite <- CAP in RES.
  assert (ATT : tryParseAlgebraicPawnMove
                  (pawnText (isCapture m) f t (promotion m)) b
                = Normal (Some (Value (withPromotion m0 (promotion m))))).
  { apply pawnText_attempt; [exact RES | exact H0 | rewrite A3; exact PW | exact HQ]. }
  exists (withPromotion m0 (promotion m)).
  split.
  - rewrite (@moveToAlgebraic_pawn m CN HP), (mf_from F), (mf_to F).
    unfold calculateMoveFromAlgebraic.
    replace (Nat.ltb (String.length _) 2) with false
      by (unfold pawnText; destruct (isCapture m); reflexivity).
    cbn [firstNonNull].
    assert (HEAD : exists c rest,
               pawnText (isCapture m) f t (promotion m) = String (fileChar c) rest).
    { unfold pawnText. destruct (isCapture m); eauto. }
    destruct HEAD as (c & rest & HEAD). rewrite HEAD in *.
    rewrite castling_attempt_null by apply fileChar_not_O. cbn [bindC].
    rewrite !piece_attempt_null by apply fileChar_not_piece. cbn [bindC].
    rewrite ATT. reflexivity.
  - unfold sameMove. cbn [from to piece isCapture castling promotion withPromotion].
    repeat split; assumption.
Qed.


Lemma sameMove_refl m : sameMove m m.
Proof. unfold sameMove. repeat split. Qed.

(** *** The search of the decoder finds the pieces that can make the move *)

Lemma sameSquares_eq l : forall l', sameSquares l l' = true -> l = l'.
Proof.
  induction l as [| x l IH]; intros [| y l'] H; try discriminate H; [reflexivity |].
  cbn [sameSquares] in H. apply andb_true_iff in H. destruct H as [E H].
  apply equals_eq in E. subst y. rewrite (IH _ H). reflexivity.
Qed.

Lemma forallPairs_spec P :
  forallPairs P = true -> forall f t, P f t = true.
Proof.
  unfold forallPairs. intros H f t.
  rewrite forallb_forall in H. specialize (H f (allSquares_complete f)).
  rewrite forallb_forall in H. exact (H t (allSquares_complete t)).
Qed.

Lemma inSquares_In x l : inSquares x l = true <-> In x l.
Proof.
  unfold inSquares. rewrite existsb_exists. split.
  - intros (y & HI & E). apply equals_eq in E. subst y. exact HI.
  - intro HI. exists x. split; [exact HI | apply equals_refl].
Qed.

Lemma distinctSquares_NoDup l : distinctSquares l = true -> NoDup l.
Proof.
  induction l as [| x l IH]; intro H; [constructor |].
  cbn [distinctSquares] in H. apply andb_true_iff in H. destruct H as [H1 H2].
  constructor; [| exact (IH H2)].
  intro HI. apply inSquares_In in HI. rewrite HI in H1. discriminate H1.
Qed.

Lemma offsetCandidate_square t b w d :
  offsetCandidate t b w None None d =
  match squareAtOffset t d with
  | Some pos => if optPieceEqb (get b.(pieces) pos) w then [pos] else []
  | None => []
  end.
Proof.
  unfold offsetCandidate, squareAtOffset. cbv zeta.
  destruct (negb (inBounds _ _)); [reflexivity |].
  destruct (Js.arrayGet BOARD_FILES _); [| reflexivity].
  destruct (Js.arrayGet BOARD_RANKS _); reflexivity.
Qed.

Lemma offsetSearch_filter t b w offsets :
  flat_map (offsetCandidate t b w None None) offsets
  = filter (fun pos => optPieceEqb (get b.(pieces) pos) w) (offsetSquares t offsets).
Proof.
  induction offsets as [| d offsets IH]; [reflexivity |].
  change (offsetSquares t (d :: offsets))
    with ((match squareAtOffset t d with Some pos => [pos] | None => [] end)
          ++ offsetSquares t offsets)%list.
  change (flat_map (offsetCandidate t b w None None) (d :: offsets))
    with (offsetCandidate t b w None None d
          ++ flat_map (offsetCandidate t b w None None) offsets)%list.
  rewrite filter_app, IH, offsetCandidate_square. f_equal.
  destruct (squareAtOffset t d) as [pos |]; [| reflexivity].
  cbn [filter]. destruct (optPieceEqb _ w); reflexivity.
Qed.

Lemma optPieceEqb_Some o w : optPieceEqb o w = true <-> o = Some w.
Proof.
  destruct o as [q |]; cbn [optPieceEqb]; [| split; discriminate].
  rewrite piece_eqb_eq. split; [intros ->; reflexivity | intro H; injection H; auto].
Qed.

Lemma offsetSearch_spec offsets shape t b w :
  offsetsAgree offsets shape = true ->
  NoDup (flat_map (offsetCandidate t b w None None) offsets)
  /\ forall x, In x (flat_map (offsetCandidate t b w None None) offsets)
               <-> (x <> t /\ get b.(pieces) x = Some w /\ shape x t = true).
Proof.
  intro A. unfold offsetsAgree in A. apply andb_true_iff in A. destruct A as [A1 A2].
  rewrite forallb_forall in A2. specialize (A2 t (allSquares_complete t)).
  rewrite offsetSearch_filter. split.
  - apply NoDup_filter. apply distinctSquares_NoDup. exact A2.
  - intro x. pose proof (forallPairs_spec _ A1 t x) as E. cbv beta in E.
    apply Bool.eqb_prop in E.
    rewrite filter_In, optPieceEqb_Some, <- inSquares_In, E, andb_true_iff, negb_true_iff,
      equals_neq.
    tauto.
Qed.

Lemma castRay_firstHit fuel b w : forall fi ri df dr,
  castRay fuel fi ri df dr b w None None = firstHit b.(pieces) w (rayAux fuel fi ri df dr).
Proof.
  induction fuel as [| k IH]; intros fi ri df dr; [reflexivity |].
  cbn [castRay rayAux]. destruct (inBounds fi ri); [| reflexivity].
  destruct (Js.arrayGet BOARD_FILES fi) as [f |]; [| reflexivity].
  destruct (Js.arrayGet BOARD_RANKS ri) as [r |]; [| reflexivity].
  cbn [fileMismatch rankMismatch firstHit]. cbv zeta. unfold has.
  destruct (get (pieces b) (make f r)) as [q |]; cbn [Js.isSome optPieceEqb app];
    [reflexivity | apply IH].
Qed.

Lemma firstHit_spec ps w l x :
  In x (firstHit ps w l)
  <-> exists pre post, l = (pre ++ x :: post)%list
                       /\ forallb (fun s => negb (has ps s)) pre = true
                       /\ get ps x = Some w.
Proof.
  induction l as [| y l IH]; cbn [firstHit].
  - split; [intros [] | intros (pre & post & E & _); destruct pre; discriminate E].
  - destruct (has ps y) eqn:HY.
    + split.
      * destruct (optPieceEqb (get ps y) w) eqn:E; [| intros []].
        intros [<- | []]. apply optPieceEqb_Some in E.
        exists [], l. split; [reflexivity |]. split; [reflexivity | exact E].
      * intros (pre & post & E & HP & G). destruct pre as [| z pre].
        -- injection E as <- _. apply optPieceEqb_Some in G. rewrite G. left. reflexivity.
        -- injection E as <- _. cbn [forallb] in HP. rewrite HY in HP. discriminate HP.
    + rewrite IH. split.
      * intros (pre & post & -> & HP & G). exists (y :: pre), post.
        split; [reflexivity |]. cbn [forallb]. rewrite HY. split; [exact HP | exact G].
      * intros (pre & post & E & HP & G). destruct pre as [| z pre].
        -- injection E as <- _. unfold has in HY. rewrite G in HY. discriminate HY.
        -- injection E as _ ->. cbn [forallb] in HP. apply andb_true_iff in HP.
           exists pre, post. split; [reflexivity |]. split; [apply HP | exact G].
Qed.

Lemma firstHit_sub ps w l x : In x (firstHit ps w l) -> In x l.
Proof.
  intro H. apply firstHit_spec in H. destruct H as (pre & post & -> & _).
  apply in_or_app. right. left. reflexivity.
Qed.

Lemma firstHit_NoDup ps w l : NoDup (firstHit ps w l).
Proof.
  induction l as [| y l IH]; cbn [firstHit]; [constructor |].
  destruct (has ps y); [| exact IH].
  destruct (optPieceEqb _ w); [| constructor].
  constructor; [intros [] | constructor].
Qed.

Lemma NoDup_app_parts {A : Type} (l1 l2 : list A) :
  NoDup (l1 ++ l2) -> NoDup l1 /\ NoDup l2 /\ (forall a, In a l1 -> ~ In a l2).
Proof.
  induction l1 as [| x l1 IH]; cbn [app]; intro H.
  - split; [constructor |]. split; [exact H | intros a []].
  - inversion H as [| y l N ND]; subst. destruct (IH ND) as (N1 & N2 & DIS).
    split; [constructor; [intro HI; apply N, in_or_app; left; exact HI | exact N1] |].
    split; [exact N2 |].
    intros a [<- | HI]; [intro HI; apply N, in_or_app; right; exact HI | exact (DIS a HI)].
Qed.

Lemma forallb_reversed {A : Type} (P : A -> bool) (l : list A) :
  forallb P (rev l) = forallb P l.
Proof.
  induction l as [| x l IH]; [reflexivity |].
  cbn [rev forallb]. rewrite forallb_app, IH. cbn [forallb].
  rewrite andb_true_r. apply andb_comm.
Qed.

Lemma NoDup_flat_map_sub {A B : Type} (g h : A -> list B) (l : list A) :
  NoDup (flat_map g l) ->
  (forall d x, In x (h d) -> In x (g d)) ->
  (forall d, NoDup (h d)) ->
  NoDup (flat_map h l).
Proof.
  intros ND SUB NH. induction l as [| d l IH]; [constructor |].
  cbn [flat_map] in *. apply NoDup_app_parts in ND. destruct ND as (N1 & N2 & DIS).
  apply NoDup_app; [apply NH | apply IH; exact N2 |].
  intros x HX HI. apply (DIS x (SUB _ _ HX)).
  apply in_flat_map in HI. destruct HI as (d' & HD & HI).
  apply in_flat_map. exists d'. split; [exact HD | exact (SUB _ _ HI)].
Qed.

Lemma forallb_sameSquares P l l' :
  sameSquares l (rev l') = true -> forallb P l = forallb P l'.
Proof.
  intro H. apply sameSquares_eq in H. rewrite H. apply forallb_reversed.
Qed.

Lemma castRays_spec directions shape t b w :
  raysAgree directions shape = true ->
  NoDup (castRays directions t b w None None)
  /\ forall x, In x (castRays directions t b w None None)
               <-> (x <> t /\ get b.(pieces) x = Some w
                    /\ (shape x t && isPathClear x t b.(pieces))%bool = true).
Proof.
  intro A. unfold raysAgree in A. apply andb_true_iff in A. destruct A as [A A3].
  apply andb_true_iff in A. destruct A as [A1 A2].
  rewrite forallb_forall in A1, A3.
  specialize (A1 t (allSquares_complete t)). specialize (A3 t (allSquares_complete t)).
  rewrite forallb_forall in A1.
  assert (E : castRays directions t b w None None
              = flat_map (fun d => firstHit (pieces b) w (ray t d)) directions).
  { unfold castRays, ray. apply flat_map_ext. intro d. apply castRay_firstHit. }
  rewrite E.
  assert (AT : forall d pre x post,
             In d directions -> ray t d = (pre ++ x :: post)%list ->
             shape x t = true /\ x <> t
             /\ forall P, forallb P (getPositionsBetween x t) = forallb P pre).
  { intros d pre x post HD ER. specialize (A1 d HD). unfold rayAgrees in A1. cbv zeta in A1.
    rewrite forallb_forall in A1.
    assert (HL : (List.length pre < List.length (ray t d))%nat)
      by (rewrite ER, length_app; cbn [List.length]; lia).
    specialize (A1 (List.length pre) (proj2 (in_seq _ _ _) (conj (Nat.le_0_l _) HL))).
    rewrite ER in A1. rewrite nth_error_app2 in A1 by apply Nat.le_refl.
    rewrite Nat.sub_diag in A1. cbn [nth_error] in A1.
    rewrite firstn_app, Nat.sub_diag, firstn_all in A1. cbn [firstn] in A1.
    rewrite app_nil_r in A1.
    apply andb_true_iff in A1. destruct A1 as [A1 S]. apply andb_true_iff in A1.
    destruct A1 as [SH NE]. apply negb_true_iff, equals_neq in NE.
    split; [exact SH |]. split; [exact NE |].
    intro P. exact (forallb_sameSquares P _ _ S). }
  split.
  - apply (@NoDup_flat_map_sub _ _ (ray t)).
    + apply distinctSquares_NoDup. exact A3.
    + intros d x. apply firstHit_sub.
    + intro d. apply firstHit_NoDup.
  - intro x. rewrite in_flat_map. split.
    + intros (d & HD & HI). apply firstHit_spec in HI.
      destruct HI as (pre & post & ER & HP & G).
      destruct (AT d pre x post HD ER) as (SH & NE & PB).
      split; [exact NE |]. split; [exact G |].
      rewrite SH. unfold isPathClear. rewrite PB. exact HP.
    + intros (NE & G & SP). apply andb_true_iff in SP. destruct SP as [SH PC].
      pose proof (forallPairs_spec _ A2 t x) as C. cbv beta in C.
      rewrite SH in C. apply equals_neq in NE. rewrite NE in C. cbn [negb andb implb] in C.
      apply existsb_exists in C. destruct C as (d & HD & HI).
      apply inSquares_In in HI. apply in_split in HI. destruct HI as (pre & post & ER).
      exists d. split; [exact HD |]. apply firstHit_spec.
      exists pre, post. split; [exact ER |]. split; [| exact G].
      apply equals_neq in NE.
      destruct (AT d pre x post HD ER) as (_ & _ & PB).
      rewrite <- PB. exact PC.
Qed.

Lemma knight_offsets_agree : offsetsAgree knightOffsets isValidKnightMove = true.
Proof. vm_compute. reflexivity. Qed.

Lemma king_offsets_agree : offsetsAgree kingOffsets oneStep = true.
Proof. vm_compute. reflexivity. Qed.

Lemma bishop_rays_agree : raysAgree bishopDirections onDiagonal = true.
Proof. vm_compute. reflexivity. Qed.

Lemma rook_rays_agree : raysAgree rookDirections onLine = true.
Proof. vm_compute. reflexivity. Qed.

Lemma queen_rays_agree :
  raysAgree (rookDirections ++ bishopDirections) (fun f t => (onDiagonal f t || onLine f t)%bool)
  = true.
Proof. vm_compute. reflexivity. Qed.

Lemma plainShape_king b f t p :
  isKing p = true -> plainShape b f t p = oneStep f t.
Proof.
  intro K. unfold plainShape, shapeRule, oneStep. rewrite K.
  replace (match p with
           | BLACK_KING | WHITE_KING => fst (isValidKingMove f t p (pieces b) (canCastle b))
           | BLACK_PAWN | WHITE_PAWN => isValidPawnMove f t p (pieces b) (enPassantTarget b)
           | BLACK_KNIGHT | WHITE_KNIGHT => isValidKnightMove f t
           | BLACK_BISHOP | WHITE_BISHOP => isValidBishopMove f t (pieces b)
           | BLACK_ROOK | WHITE_ROOK => isValidRookMove f t (pieces b)
           | BLACK_QUEEN | WHITE_QUEEN => isValidQueenMove f t (pieces b)
           end) with (fst (isValidKingMove f t p (pieces b) (canCastle b)))
    by (destruct p; try discriminate K; reflexivity).
  unfold isValidKingMove. cbv zeta.
  destruct ((Z.abs (fileIndex t - fileIndex f) <=? 1)
            && (Z.abs (rankIndex t - rankIndex f) <=? 1))%bool; [reflexivity |].
  repeat match goal with
         | |- context [if ?c then _ else _] => destruct c
         end; reflexivity.
Qed.

(** On White's turn the search lists, each once, the squares other than the
    destination that hold the piece of the letter and from which the shape
    rule of the piece allows a move to the destination that is not castling. *)
Lemma search_spec b pc t :
  b.(turnColor) = WHITE ->
  NoDup (getPossibleMovePositionsByAlgebraic t b pc None None)
  /\ forall x, In x (getPossibleMovePositionsByAlgebraic t b pc None None)
               <-> (x <> t
                    /\ get b.(pieces) x = Some (algebraicPieceCharToPieceId pc true)
                    /\ plainShape b x t (algebraicPieceCharToPieceId pc true) = true).
Proof.
  intro HT.
  destruct pc; unfold getPossibleMovePositionsByAlgebraic, algebraicPieceCharToPieceId.
  - (* knight *)
    unfold getPossibleKnightFromPositions. rewrite HT. cbn [color_eqb]. cbv zeta.
    destruct (@offsetSearch_spec knightOffsets isValidKnightMove t b WHITE_KNIGHT
                knight_offsets_agree) as [N S].
    split; [exact N |]. intro x. rewrite S.
    unfold plainShape, shapeRule. cbn [isKing andb negb]. rewrite andb_true_r. reflexivity.
  - (* bishop *)
    unfold getPossibleBishopFromPositions. rewrite HT. cbn [color_eqb Js.nullish]. cbv zeta.
    destruct (@castRays_spec bishopDirections onDiagonal t b WHITE_BISHOP
                bishop_rays_agree) as [N S].
    split; [exact N |]. intro x. rewrite S.
    unfold plainShape, shapeRule. cbn [isKing andb negb]. rewrite andb_true_r. reflexivity.
  - (* rook *)
    unfold getPossibleRookFromPositions. rewrite HT. cbn [color_eqb Js.nullish]. cbv zeta.
    destruct (@castRays_spec rookDirections onLine t b WHITE_ROOK
                rook_rays_agree) as [N S].
    split; [exact N |]. intro x. rewrite S.
    unfold plainShape, shapeRule. cbn [isKing andb negb]. rewrite andb_true_r. reflexivity.
  - (* queen *)
    unfold getPossibleQueenFromPositions, getPossibleRookFromPositions,
      getPossibleBishopFromPositions.
    rewrite HT. cbn [color_eqb Js.nullish]. cbv zeta.
    destruct (@castRays_spec (rookDirections ++ bishopDirections)
                (fun f t => (onDiagonal f t || onLine f t)%bool) t b WHITE_QUEEN
                queen_rays_agree) as [N S].
    assert (E : (castRays rookDirections t b WHITE_QUEEN None None
                 ++ castRays bishopDirections t b WHITE_QUEEN None None)%list
                = castRays (rookDirections ++ bishopDirections) t b WHITE_QUEEN None None)
      by (unfold castRays; rewrite flat_map_app; reflexivity).
    rewrite E. split; [exact N |]. intro x. rewrite S.
    unfold plainShape, shapeRule, isValidQueenMove, isValidBishopMove, isValidRookMove,
      onDiagonal, onLine.
    cbn [isKing andb negb]. cbv zeta. rewrite andb_true_r, andb_orb_distrib_l. reflexivity.
  - (* king *)
    unfold getPossibleKingFromPositions. rewrite HT. cbn [color_eqb]. cbv zeta.
    destruct (@offsetSearch_spec kingOffsets oneStep t b WHITE_KING
                king_offsets_agree) as [N S].
    split; [exact N |]. intro x. rewrite S.
    rewrite plainShape_king by reflexivity. reflexivity.
Qed.

Lemma only_element {A : Type} (l : list A) (f : A) :
  NoDup l -> In f l -> (forall x, In x l -> x = f) -> l = [f].
Proof.
  intros N HI ALL. destruct l as [| x l]; [destruct HI |].
  pose proof (ALL x (or_introl eq_refl)) as ->.
  destruct l as [| y l]; [reflexivity |].
  pose proof (ALL y (or_intror (or_introl eq_refl))) as ->.
  inversion N as [| ? ? NI _]. exfalso. apply NI. left. reflexivity.
Qed.

Lemma white_piece_letter p :
  isPawn p = false -> getColor p = WHITE ->
  exists pc, p = algebraicPieceCharToPieceId pc true.
Proof.
  intros NP W. destruct p; try discriminate NP; try discriminate W;
    first [ exists KNIGHT; reflexivity | exists BISHOP; reflexivity
          | exists ROOK; reflexivity | exists QUEEN; reflexivity
          | exists KING; reflexivity ].
Qed.

(** The search finds the origin of a move that [calculateMove] returns, and
    nothing else when no other piece of the same kind has a move of its shape
    to the destination. *)
Lemma search_finds_the_origin b pc f t pr ign m :
  b.(turnColor) = WHITE ->
  calculateMove b f t pr ign = Normal (Value m) ->
  m.(castling) = None ->
  m.(piece) = algebraicPieceCharToPieceId pc true ->
  onlyOrigin b m = true ->
  getPossibleMovePositionsByAlgebraic t b pc None None = [f].
Proof.
  intros HT H CN HQ OO. pose proof (calculateMove_facts _ _ _ _ _ H) as F.
  destruct (@search_spec b pc t HT) as [N S].
  unfold onlyOrigin in OO. rewrite forallb_forall in OO.
  rewrite (mf_from F), (mf_to F), HQ in OO.
  apply only_element; [exact N | |].
  - apply S. split; [| split].
    + intros ->. pose proof (mf_target F) as TG. rewrite (mf_piece F) in TG.
      destruct (getColor (piece m)); discriminate TG.
    + rewrite (mf_piece F), HQ. reflexivity.
    + unfold plainShape. rewrite <- HQ, (mf_shape F). cbn [andb].
      pose proof (mf_castling F) as CA. rewrite CN in CA.
      destruct (isKing (piece m)); [rewrite <- CA |]; reflexivity.
  - intros x HX. apply S in HX. destruct HX as (_ & G & SH).
    specialize (OO x (allSquares_complete x)).
    rewrite G, SH in OO. cbn [negb orb] in OO.
    replace (optPieceEqb (Some (algebraicPieceCharToPieceId pc true))
               (algebraicPieceCharToPieceId pc true)) with true in OO
      by (symmetry; apply optPieceEqb_Some; reflexivity).
    cbn [negb orb] in OO. rewrite !orb_false_r in OO. apply equals_eq. exact OO.
Qed.

(** C5. For every position and every move that [calculateMove] returns with
    the filter active, if the move is a castling move, or a pawn move whose
    promotion piece has the mover's colour, or a piece move of White such
    that no other square holds the same piece with a move of its shape to
    the destination, then decoding the text of the move returns a move with
    the same origin, destination, piece, capture flag, castling side and
    promotion. *)
Theorem algebraic_round_trip b f t pr m :
  calculateMove b f t pr false = Normal (Value m) ->
  roundTripScope b m ->
  exists m',
    calculateMoveFromAlgebraic b (moveToAlgebraic m) = Normal (Value m')
    /\ sameMove m m'.
Proof.
  intros H [HC | [[HP HQ] | (HT & HC & NP & OO)]].
  - exists m. split; [exact (@castling_decoded b f t pr m H HC) | apply sameMove_refl].
  - exact (@pawnText_decoded b f t pr m H HP HQ).
  - exists m. split; [| apply sameMove_refl].
    pose proof (calculateMove_facts _ _ _ _ _ H) as F.
    pose proof (mf_color F) as W. rewrite HT in W.
    destruct (white_piece_letter _ NP W) as [pc HQ].
    pose proof (@search_finds_the_origin b pc f t pr false m HT H HC HQ OO) as HG.
    assert (PN : promotion m = None).
    { rewrite (mf_promotion F), HQ. destruct pc; reflexivity. }
    apply (@calculateMove_choice_irrelevant _ _ _ _ None) in H; [| exact NP].
    rewrite (@moveToAlgebraic_piece m pc HC PN HQ).
    rewrite (mf_to F).
    exact (@pieceText_decoded b pc f t m HT HG H HQ).
Qed.

Lemma algebraic_round_trip_witness :
  exists m,
    calculateMove initialBoard (make Fg R1) (make Ff R3) None false = Normal (Value m)
    /\ roundTripScope initialBoard m
    /\ exists m',
        calculateMoveFromAlgebraic initialBoard (moveToAlgebraic m) = Normal (Value m')
        /\ sameMove m m'.
Proof.
  eexists. split; [vm_compute; reflexivity |].
  match goal with
  | |- roundTripScope ?b ?m /\ _ =>
      assert (S : roundTripScope b m)
  end.
  { right. right. split; [reflexivity |]. split; [reflexivity |].
    split; [reflexivity | vm_compute; reflexivity]. }
  split; [exact S |].
  apply (@algebraic_round_trip initialBoard (make Fg R1) (make Ff R3) None);
    [vm_compute; reflexivity | exact S].
Defined.

(** When a second square holds the same piece with a move of its shape to
    the destination, the text of White's piece move is answered
    AmbiguousAlgebraicNotation: the condition on the origin is needed. *)
Lemma pieceText_ambiguous b pc cap t :
  b.(turnColor) = WHITE ->
  (exists x y l, getPossibleMovePositionsByAlgebraic t b pc None None = x :: y :: l) ->
  calculateMoveFromAlgebraic b (pieceText pc cap t)
  = Normal (Error (ambiguousAlgebraicNotation (pieceText pc cap t)
                     (algebraicPieceCharToPieceId pc true))).
Proof.
  intros HT (x & y & l & HL).
  assert (A : tryParseAlgebraicMoveByChar (pieceText pc cap t) b pc
              = Normal (Some (Error (ambiguousAlgebraicNotation (pieceText pc cap t)
                                       (algebraicPieceCharToPieceId pc true))))).
  { destruct t as [tf tr].
    unfold tryParseAlgebraicMoveByChar, pieceText, Board.toString.
    destruct cap; destruct pc; decode; rewrite HL, HT; reflexivity. }
  unfold calculateMoveFromAlgebraic.
  replace (Nat.ltb (String.length _) 2) with false
    by (destruct t, cap; reflexivity).
  cbn [firstNonNull].
  unfold pieceText in *.
  rewrite castling_attempt_null by (destruct pc; reflexivity).
  cbn [bindC].
  destruct pc; cbn [AlgebraicPieceChar.char] in *;
    rewrite ?piece_attempt_null by reflexivity; cbn [bindC];
    rewrite A; reflexivity.
Qed.

Lemma ambiguous_origin_is_not_decoded b f t pr m :
  calculateMove b f t pr false = Normal (Value m) ->
  b.(turnColor) = WHITE ->
  m.(castling) = None ->
  isPawn m.(piece) = false ->
  onlyOrigin b m = false ->
  calculateMoveFromAlgebraic b (moveToAlgebraic m)
  = Normal (Error (ambiguousAlgebraicNotation (moveToAlgebraic m) m.(piece))).
Proof.
  intros H HT HC NP OO. pose proof (calculateMove_facts _ _ _ _ _ H) as F.
  pose proof (mf_color F) as W. rewrite HT in W.
  destruct (white_piece_letter _ NP W) as [pc HQ].
  assert (PN : promotion m = None).
  { rewrite (mf_promotion F), HQ. destruct pc; reflexivity. }
  rewrite (@moveToAlgebraic_piece m pc HC PN HQ), (mf_to F), HQ.
  apply pieceText_ambiguous; [exact HT |].
  destruct (@search_spec b pc t HT) as [N S].
  assert (IF : In f (getPossibleMovePositionsByAlgebraic t b pc None None)).
  { apply S. split; [| split].
    - intros ->. pose proof (mf_target F) as TG. rewrite (mf_piece F) in TG.
      destruct (getColor (piece m)); discriminate TG.
    - rewrite (mf_piece F), HQ. reflexivity.
    - unfold plainShape. rewrite <- HQ, (mf_shape F). cbn [andb].
      pose proof (mf_castling F) as CA. rewrite HC in CA.
      destruct (isKing (piece m)); [rewrite <- CA |]; reflexivity. }
  assert (EX : exists x, x <> f /\ In x (getPossibleMovePositionsByAlgebraic t b pc None None)).
  { unfold onlyOrigin in OO.
    destruct (forallb _ allSquares) eqn:FA in OO; [discriminate OO |]. clear OO.
    assert (E : existsb (fun f' => negb (equals f' (from m)
                                         || negb (optPieceEqb (get (pieces b) f') (piece m))
                                         || negb (plainShape b f' (to m) (piece m))))
                  allSquares = true).
    { clear -FA. induction allSquares as [| y l IH]; [discriminate FA |].
      cbn [forallb existsb] in *.
      destruct (equals y (from m) || negb (optPieceEqb (get (pieces b) y) (piece m))
                || negb (plainShape b y (to m) (piece m)))%bool;
        [exact (IH FA) | reflexivity]. }
    apply existsb_exists in E. destruct E as (x & _ & E).
    apply negb_true_iff in E. apply orb_false_iff in E. destruct E as [E E3].
    apply orb_false_iff in E. destruct E as [E1 E2].
    apply negb_false_iff in E2, E3. apply optPieceEqb_Some in E2.
    rewrite (mf_from F) in E1. rewrite (mf_to F) in E3.
    exists x. split; [apply equals_neq; exact E1 |].
    apply S. rewrite <- HQ. split; [| split; [exact E2 | exact E3]].
    intros ->. pose proof (mf_target F) as TG. rewrite E2 in TG.
    destruct (getColor (piece m)); discriminate TG. }
  destruct EX as (x & NE & IX).
  destruct (getPossibleMovePositionsByAlgebraic t b pc None None) as [| y [| z l]];
    [destruct IF | | exists y, z, l; reflexivity].
  destruct IF as [<- | []]. destruct IX as [<- | []]. exfalso. apply NE. reflexivity.
Qed.

(** A white pawn promoted to a black knight has the text [e8=N], which is
    decoded to the promotion to a white knight. *)
Lemma wrong_colour_promotion_is_not_decoded :
  exists m m',
    calculateMove pawnOnE7Board (make Fe R7) (make Fe R8) (Some PROMO_BLACK_KNIGHT) false
    = Normal (Value m)
    /\ In m.(to) (allowedFrom pawnOnE7Board m.(from))
    /\ moveToAlgebraic m = "e8=N"
    /\ calculateMoveFromAlgebraic pawnOnE7Board (moveToAlgebraic m) = Normal (Value m')
    /\ m.(promotion) = Some PROMO_BLACK_KNIGHT
    /\ m'.(promotion) = Some PROMO_WHITE_KNIGHT
    /\ ~ sameMove m m'.
Proof.
  eexists. eexists. split; [vm_compute; reflexivity |].
  split; [vm_compute; tauto |].
  split; [vm_compute; reflexivity |].
  split; [vm_compute; reflexivity |].
  split; [reflexivity |]. split; [reflexivity |].
  unfold sameMove. cbn. intro S. decompose [and] S. discriminate.
Qed.

(** The text of a Black piece move carries the lower-case letter of the
    piece and is not decoded: after 1. e4 the knight move g8-f6 has the text
    [nf6]. *)
Lemma black_piece_text_is_not_decoded :
  exists b m,
    applyMove initialBoard
      {| from := make Fe R2; to := make Fe R4; algebraic := "e4"; piece := WHITE_PAWN;
         turn := WHITE; isCapture := false; castling := None;
         isEnPassantCapture := false; promotion := None; comment := None |}
    = Normal b
    /\ calculateMove b (make Fg R8) (make Ff R6) None false = Normal (Value m)
    /\ moveToAlgebraic m = "nf6"
    /\ calculateMoveFromAlgebraic b (moveToAlgebraic m)
       = Normal (Error (invalidAlgebraicNotation "nf6")).
Proof.
  eexists. eexists. split; [vm_compute; reflexivity |].
  split; [vm_compute; reflexivity |].
  split; vm_compute; reflexivity.
Qed.
(* ------------------------------------------------------------------ *)
(** * Further properties of the code *)

(** ** The legal-destination mapping *)

Lemma isPossibleMove_of_safe b f t m :
  calculateMove b f t None true = Normal (Value m) ->
  kingSafeAfter b m ->
  isPossibleMove b f (piece m) t = Normal true.
Proof.
  intros Hc (kingPos & HF & HS).
  pose proof (calculateMove_facts _ _ _ _ _ Hc) as F.
  rewrite (mf_from F), (mf_to F) in HF, HS.
  unfold isPossibleMove. rewrite Hc. cbn [bindC]. cbv zeta.
  fold (kingOf (turnColor b)). rewrite HF, HS. reflexivity.
Qed.

Lemma possibleMovesFrom_complete b f p squares : forall l t,
  possibleMovesFrom b f p squares = Normal l ->
  In t squares -> isPossibleMove b f p t = Normal true -> In t l.
Proof.
  induction squares as [| s squares IH]; intros l t H HI HP; [contradiction |].
  cbn [possibleMovesFrom] in H.
  apply bindC_Normal in H. destruct H as (ok & Hok & H).
  apply bindC_Normal in H. destruct H as (more & Hmore & H).
  injection H as <-. destruct HI as [-> | HI].
  - rewrite HP in Hok. injection Hok as <-. left. reflexivity.
  - destruct ok; [right |]; exact (IH _ _ Hmore HI HP).
Qed.

Lemma fillLoop_other_keys entries : forall b b' f,
  fillLoop b entries = Normal b' ->
  ~ In f (map fst entries) ->
  get b'.(allowedMoves) f = get b.(allowedMoves) f.
Proof.
  induction entries as [| [k v] entries IH]; intros b b' f H NI; cbn [fillLoop] in H.
  - injection H as <-. reflexivity.
  - cbn [map fst In] in NI.
    destruct (negb (color_eqb (getColor v) (turnColor b))).
    + apply (IH _ _ _ H). tauto.
    + apply bindC_Normal in H. destruct H as (pm & Hpm & H).
      destruct (0 <? Z.of_nat (List.length pm)).
      * rewrite (IH _ _ f H); [| tauto].
        cbn [allowedMoves withAllowedMoves]. rewrite get_set.
        destruct (equals k f) eqn:E; [| reflexivity].
        apply equals_eq in E. tauto.
      * apply (IH _ _ _ H). tauto.
Qed.

Lemma fillLoop_complete entries : forall b b' f p l,
  NoDup (map fst entries) ->
  fillLoop b entries = Normal b' ->
  In (f, p) entries ->
  getColor p = turnColor b ->
  possibleMovesFrom b f p allSquares = Normal l ->
  l <> [] ->
  get b'.(allowedMoves) f = Some l.
Proof.
  induction entries as [| [k v] entries IH]; intros b b' f p l ND H HI HC HP NE;
    [contradiction |].
  cbn [fillLoop] in H. cbn [map fst] in ND. inversion ND as [| ? ? NI ND']; subst.
  destruct HI as [E | HI].
  - injection E as -> ->. rewrite HC, color_eqb_refl in H. cbn [negb] in H.
    rewrite HP in H. cbn [bindC] in H.
    destruct l as [| x l]; [contradiction NE; reflexivity |].
    cbn [List.length] in H.
    replace (0 <? Z.of_nat (S (List.length l))) with true in H
      by (symmetry; apply Z.ltb_lt; lia).
    rewrite (@fillLoop_other_keys _ _ _ f H NI).
    cbn [allowedMoves withAllowedMoves]. rewrite get_set, equals_refl. reflexivity.
  - destruct (negb (color_eqb (getColor v) (turnColor b))).
    + exact (IH _ _ _ _ _ ND' H HI HC HP NE).
    + apply bindC_Normal in H. destruct H as (pm & Hpm & H).
      destruct (0 <? Z.of_nat (List.length pm)).
      * apply (IH _ _ _ p _ ND' H HI); [exact HC | | exact NE].
        rewrite possibleMovesFrom_ignores_allowedMoves. exact HP.
      * exact (IH _ _ _ _ _ ND' H HI HC HP NE).
Qed.

(** X1. The mapping that [fillAllowedMoves] computes lists the destination
    [t] for the origin [f] exactly when [calculateMove], called without the
    filter, returns a move from [f] to [t] and the trial of that move leaves
    the mover's king unattacked. *)
Theorem legal_destinations_exact b0 b f t :
  distinctKeys b0.(pieces) = true ->
  fillAllowedMoves b0 = Normal b ->
  (In t (allowedFrom b f) <->
   exists m, calculateMove b0 f t None true = Normal (Value m) /\ kingSafeAfter b0 m).
Proof.
  intros DK H. apply distinctKeys_NoDup in DK. split.
  - apply fillAllowedMoves_sound; assumption.
  - intros (m & Hc & HS).
    pose proof (calculateMove_facts _ _ _ _ _ Hc) as F.
    pose proof (@isPossibleMove_of_safe _ _ _ _ Hc HS) as HP.
    unfold fillAllowedMoves in H.
    destruct (0 <? size (allowedMoves b0)); [discriminate H |].
    destruct (possibleMovesFrom_total b0 f (piece m) allSquares) as [l Hl].
    { rewrite (mf_piece F). discriminate. }
    pose proof (@possibleMovesFrom_complete _ _ _ _ _ _ Hl (allSquares_complete t) HP) as HI.
    assert (NE : l <> []) by (intros ->; contradiction).
    unfold allowedFrom.
    rewrite (@fillLoop_complete _ _ _ f (piece m) l DK H
               (get_Some_In _ _ (mf_piece F)) (mf_color F) Hl NE).
    exact HI.
Qed.

Lemma legal_destinations_exact_witness :
  In (make Fe R4) (allowedFrom initialBoard (make Fe R2)).
Proof.
  apply (@legal_destinations_exact (withAllowedMoves initialBoard []) initialBoard
           (make Fe R2) (make Fe R4)); [vm_compute; reflexivity .. |].
  eexists. split; [vm_compute; reflexivity |].
  exists e1. split; vm_compute; reflexivity.
Defined.

Lemma size_pos {T : Type} (m : BoardMap T) : (0 <? size m) = negb (match m with [] => true | _ => false end).
Proof. destruct m; [reflexivity |]. unfold size. cbn [List.length negb]. apply Z.ltb_lt. lia. Qed.

(** X2. [fillAllowedMoves] throws [AllowedMovesAlreadyCalculated] when the
    mapping of the board already has an entry; on a board with an empty
    mapping it does not throw, and the board it returns differs from the
    given one in the mapping only. *)
Theorem fillAllowedMoves_guard b :
  (b.(allowedMoves) <> [] -> fillAllowedMoves b = Throw AllowedMovesAlreadyCalculated)
  /\ (b.(allowedMoves) = [] ->
      exists b', fillAllowedMoves b = Normal b'
                 /\ b' = withAllowedMoves b b'.(allowedMoves)).
Proof.
  split.
  - intro NE. unfold fillAllowedMoves. rewrite size_pos.
    destruct (allowedMoves b); [contradiction NE; reflexivity | reflexivity].
  - intro E. destruct (fillAllowedMoves_total b E) as [b' H].
    exists b'. split; [exact H | exact (@fillAllowedMoves_frame _ _ H)].
Qed.

Lemma fillAllowedMoves_guard_witness :
  fillAllowedMoves initialBoard = Throw AllowedMovesAlreadyCalculated
  /\ exists b', fillAllowedMoves (withAllowedMoves initialBoard []) = Normal b'
                /\ b' = withAllowedMoves (withAllowedMoves initialBoard []) b'.(allowedMoves).
Proof.
  split.
  - apply (proj1 (fillAllowedMoves_guard initialBoard)). vm_compute. discriminate.
  - apply (proj2 (fillAllowedMoves_guard (withAllowedMoves initialBoard []))). reflexivity.
Defined.

Lemma fillLoop_nonempty entries : forall b b' f l,
  fillLoop b entries = Normal b' ->
  get b'.(allowedMoves) f = Some l ->
  get b.(allowedMoves) f = Some l \/ l <> [].
Proof.
  induction entries as [| [k v] entries IH]; intros b b' f l H G; cbn [fillLoop] in H.
  - injection H as <-. left. exact G.
  - destruct (negb (color_eqb (getColor v) (turnColor b))); [exact (IH _ _ _ _ H G) |].
    apply bindC_Normal in H. destruct H as (pm & Hpm & H).
    destruct (0 <? Z.of_nat (List.length pm)) eqn:EL; [| exact (IH _ _ _ _ H G)].
    destruct (IH _ _ _ _ H G) as [L | NE]; [| right; exact NE].
    cbn [allowedMoves withAllowedMoves] in L. rewrite get_set in L.
    destruct (equals k f); [| left; exact L].
    injection L as <-. right. intros ->. discriminate EL.
Qed.

(** X3. In the mapping that [fillAllowedMoves] computes, every origin with
    an entry holds a piece of the side to move and its list of destinations
    is not empty; a listed destination is never the origin itself and never
    a square that holds a piece of the side to move. *)
Theorem legal_destinations_entries b0 b f l :
  fillAllowedMoves b0 = Normal b ->
  get b.(allowedMoves) f = Some l ->
  l <> []
  /\ (exists p, get b0.(pieces) f = Some p /\ getColor p = b0.(turnColor))
  /\ forall t, In t l ->
       t <> f
       /\ forall q, get b0.(pieces) t = Some q -> getColor q <> b0.(turnColor).
Proof.
  intros H G. unfold fillAllowedMoves in H. rewrite size_pos in H.
  destruct (allowedMoves b0) as [| x xs] eqn:EA; [| discriminate H]. cbn [negb] in H.
  assert (NE : l <> []).
  { destruct (@fillLoop_nonempty _ _ _ _ _ H G) as [L | NE]; [| exact NE].
    rewrite EA in L. discriminate L. }
  destruct (@fillLoop_sound _ _ _ _ _ H G) as [L | (p & HP & HM)];
    [rewrite EA in L; discriminate L |].
  assert (FT : forall t, In t l -> exists m, moveFacts b0 f t None true m).
  { intros t HI. pose proof (@possibleMovesFrom_In _ _ _ _ _ _ HM HI) as PM.
    apply isPossibleMove_true in PM. destruct PM as (m & Hc & _).
    exists m. exact (calculateMove_facts _ _ _ _ _ Hc). }
  split; [exact NE |]. split.
  - destruct l as [| t l]; [contradiction NE; reflexivity |].
    destruct (FT t (or_introl eq_refl)) as (m & F).
    exists (piece m). split; [exact (mf_piece F) | exact (mf_color F)].
  - intros t HI. destruct (FT t HI) as (m & F).
    assert (OWN : forall q, get (pieces b0) t = Some q -> getColor q <> turnColor b0).
    { intros q Gq Cq. pose proof (mf_target F) as T. rewrite Gq in T.
      rewrite (mf_color F), Cq, color_eqb_refl in T. discriminate T. }
    split; [| exact OWN].
    intros ->. exact (OWN _ (mf_piece F) (mf_color F)).
Qed.

Lemma legal_destinations_entries_witness :
  [make Fe R3; make Fe R4] <> []
  /\ (exists p, get (pieces initialBoard) (make Fe R2) = Some p
                /\ getColor p = turnColor initialBoard)
  /\ forall t, In t [make Fe R3; make Fe R4] ->
       t <> make Fe R2
       /\ forall q, get (pieces initialBoard) t = Some q -> getColor q <> turnColor initialBoard.
Proof.
  apply (@legal_destinations_entries (withAllowedMoves initialBoard []) initialBoard
           (make Fe R2) [make Fe R3; make Fe R4]); vm_compute; reflexivity.
Defined.

(** ** applyMove *)

(** X4. [applyMove] throws [PieceDoesNotMatchMove] when the origin of the
    move does not hold the piece that the move names (an empty origin
    included), and otherwise returns a board: the computation of the legal
    moves of the new position never throws. *)
Theorem applyMove_guard b m :
  (get b.(pieces) m.(from) <> Some m.(piece) ->
   applyMove b m = Throw (PieceDoesNotMatchMove m.(from) m.(piece)))
  /\ (get b.(pieces) m.(from) = Some m.(piece) -> exists b', applyMove b m = Normal b').
Proof.
  split.
  - intro NE. rewrite applyMove_unfold.
    destruct (get (pieces b) (from m)) as [q |] eqn:G; [| reflexivity].
    cbn [optPieceEqb]. destruct (PieceId.eqb q (piece m)) eqn:E; [| reflexivity].
    apply piece_eqb_eq in E. subst q. contradiction NE. reflexivity.
  - intro G. destruct (applyMove_total b m G) as (b' & H & _). exists b'. exact H.
Qed.

Lemma applyMove_guard_witness :
  applyMove initialBoard pawnE3E4 = Throw (PieceDoesNotMatchMove (make Fe R3) WHITE_PAWN)
  /\ exists b', applyMove initialBoard pawnE2E4 = Normal b'.
Proof.
  split.
  - apply (proj1 (applyMove_guard initialBoard pawnE3E4)). vm_compute. discriminate.
  - apply (proj2 (applyMove_guard initialBoard pawnE2E4)). vm_compute. reflexivity.
Defined.

Lemma withAllowedMoves_reset b a :
  b.(allowedMoves) = [] -> withAllowedMoves (withAllowedMoves b a) [] = b.
Proof. destruct b. cbn. intros ->. reflexivity. Qed.

Lemma INFINITY_beyond : 2 ^ 53 < Js.INFINITY.
Proof. reflexivity. Qed.

(** Adding 1 to a counter: exact below 2^53, lost at 2^53. *)
Lemma plus_one_exact x : - 2 ^ 53 <= x < 2 ^ 53 -> Js.plus x 1 = x + 1.
Proof.
  intro H. unfold Js.plus, Js.toDouble. cbv zeta.
  destruct (Z.abs (x + 1) <? 2 ^ 53) eqn:E; [reflexivity |].
  apply Z.ltb_ge in E. assert (EX : x + 1 = 2 ^ 53) by lia.
  rewrite EX. reflexivity.
Qed.

Lemma plus_one_lost : Js.plus (2 ^ 53) 1 = 2 ^ 53.
Proof. reflexivity. Qed.

(** X5. The bookkeeping of [applyMove]: the side to move changes; after a
    move of White the full move number is left as it is and after a move of
    Black 1 is added to it; the half move clock is set to 0 by a pawn move
    or a capture that is not castling and has 1 added otherwise; the move
    is appended to the history; the mapping of the returned board is the
    one that [fillAllowedMoves] computes for the new position.  The sums
    are sums of doubles: a counter from -2^53 to 2^53 - 1 becomes the next
    integer, and the counter 2^53 is left as it is. *)
Theorem applyMove_bookkeeping b m b' :
  applyMove b m = Normal b' ->
  b'.(turnColor) = (if color_eqb b.(turnColor) WHITE then BLACK else WHITE)
  /\ b'.(fullMoveNumber) =
     (if color_eqb b.(turnColor) WHITE then b.(fullMoveNumber)
      else Js.plus b.(fullMoveNumber) 1)
  /\ b'.(halfMoveClock) =
     match m.(castling) with
     | Some _ => Js.plus b.(halfMoveClock) 1
     | None => if (isPawn m.(piece) || m.(isCapture))%bool then 0
               else Js.plus b.(halfMoveClock) 1
     end
  /\ b'.(moves) = (b.(moves) ++ [m])%list
  /\ fillAllowedMoves (withAllowedMoves b' []) = Normal b'
  /\ (forall x, - 2 ^ 53 <= x < 2 ^ 53 -> Js.plus x 1 = x + 1)
  /\ Js.plus (2 ^ 53) 1 = 2 ^ 53.
Proof.
  intro H. pose proof (applyMove_inv _ _ H) as E.
  assert (HF : fillAllowedMoves (boardBeforeFill b m) = Normal b').
  { rewrite applyMove_unfold in H. destruct (negb _); [discriminate H | exact H]. }
  assert (R : withAllowedMoves b' [] = boardBeforeFill b m).
  { rewrite E. apply withAllowedMoves_reset. apply boardBeforeFill_allowedMoves. }
  rewrite R.
  split; [| split; [| split; [| split; [| split; [exact HF |
    split; [exact plus_one_exact | exact plus_one_lost]]]]]]; rewrite E;
    unfold boardBeforeFill, applyCastlingMove; cbv zeta;
    destruct (castling m) as [[|] |]; try reflexivity;
    destruct (isPawn (piece m) || isCapture m)%bool;
    destruct (isPawn (piece m) && _)%bool; reflexivity.
Qed.

Lemma applyMove_bookkeeping_witness :
  afterE2E4.(turnColor) = BLACK
  /\ afterE2E4.(fullMoveNumber) = 1
  /\ afterE2E4.(halfMoveClock) = 0
  /\ afterE2E4.(moves) = [pawnE2E4]
  /\ fillAllowedMoves (withAllowedMoves afterE2E4 []) = Normal afterE2E4
  /\ (forall x, - 2 ^ 53 <= x < 2 ^ 53 -> Js.plus x 1 = x + 1)
  /\ Js.plus (2 ^ 53) 1 = 2 ^ 53.
Proof.
  apply (@applyMove_bookkeeping initialBoard pawnE2E4 afterE2E4). vm_compute. reflexivity.
Defined.

Lemma applyMove_pieces b m b' :
  applyMove b m = Normal b' -> b'.(pieces) = (boardBeforeFill b m).(pieces).
Proof. intro H. rewrite (applyMove_inv _ _ H) at 1. reflexivity. Qed.

Lemma boardBeforeFill_pieces_plain b m :
  m.(castling) = None ->
  (boardBeforeFill b m).(pieces) =
  set (if m.(isEnPassantCapture)
       then delete (delete b.(pieces) m.(from)) (make m.(to).(file) m.(from).(rank))
       else delete b.(pieces) m.(from))
      m.(to)
      (match m.(promotion) with Some q => ofPromotion q | None => m.(piece) end).
Proof.
  intro NC. unfold boardBeforeFill. rewrite NC. cbv zeta.
  destruct (isPawn (piece m) || isCapture m)%bool;
    destruct (isPawn (piece m) && _)%bool;
    destruct (promotion m); reflexivity.
Qed.

(** X6. The pieces after a move that is not castling: the destination holds
    the moved piece, or the piece it is promoted to; the origin is empty;
    after an en-passant capture the square on the file of the destination
    and the rank of the origin is empty as well; every other square holds
    what it held. *)
Theorem applyMove_placement b m b' sq :
  applyMove b m = Normal b' ->
  m.(castling) = None ->
  get b'.(pieces) sq =
  if equals m.(to) sq
  then Some (match m.(promotion) with Some q => ofPromotion q | None => m.(piece) end)
  else if (m.(isEnPassantCapture) && equals (make m.(to).(file) m.(from).(rank)) sq)%bool
  then None
  else if equals m.(from) sq then None
  else get b.(pieces) sq.
Proof.
  intros H NC. rewrite (applyMove_pieces _ _ H), (boardBeforeFill_pieces_plain b m NC).
  rewrite get_set. destruct (equals (to m) sq); [reflexivity |].
  destruct (isEnPassantCapture m); cbn [andb]; rewrite ?get_delete; reflexivity.
Qed.

Lemma applyMove_placement_witness :
  get afterE2E4.(pieces) (make Fe R4) = Some WHITE_PAWN
  /\ get afterE2E4.(pieces) (make Fe R2) = None.
Proof.
  split.
  - apply (@applyMove_placement initialBoard pawnE2E4 afterE2E4 (make Fe R4));
      vm_compute; reflexivity.
  - apply (@applyMove_placement initialBoard pawnE2E4 afterE2E4 (make Fe R2));
      vm_compute; reflexivity.
Defined.

(** X7. The pieces after a castling move: on the first rank of the mover
    (rank 1 when [move.turn] is White, rank 8 otherwise) the king stands on
    the g-file and a rook on the f-file, or on the c-file and the d-file for
    the queen side; the e-file square and the corner are empty; every other
    square holds what it held.  The rook is put there whether or not the
    corner held one. *)
Theorem applyMove_castling_placement b m b' side sq :
  applyMove b m = Normal b' ->
  m.(castling) = Some side ->
  let white := color_eqb m.(turn) WHITE in
  let r := if white then R1 else R8 in
  let kingFile := match side with KingSide => Fg | QueenSide => Fc end in
  let rookFile := match side with KingSide => Ff | QueenSide => Fd end in
  let corner := match side with KingSide => Fh | QueenSide => Fa end in
  get b'.(pieces) sq =
  if equals (make rookFile r) sq then Some (if white then WHITE_ROOK else BLACK_ROOK)
  else if equals (make kingFile r) sq then Some (if white then WHITE_KING else BLACK_KING)
  else if (equals (make corner r) sq || equals (make Fe r) sq)%bool then None
  else get b.(pieces) sq.
Proof.
  intros H C. cbv zeta. rewrite (applyMove_pieces _ _ H).
  unfold boardBeforeFill, applyCastlingMove. rewrite C. cbv zeta.
  destruct side; cbn [pieces withPieces withCanCastle clone];
    rewrite !get_set, !get_delete;
    repeat match goal with |- context [equals ?a sq] => destruct (equals a sq) end;
    reflexivity.
Qed.

Lemma applyMove_castling_placement_witness :
  get afterWhiteCastlesShort.(pieces) f1 = Some WHITE_ROOK
  /\ get afterWhiteCastlesShort.(pieces) g1 = Some WHITE_KING
  /\ get afterWhiteCastlesShort.(pieces) h1 = None
  /\ get afterWhiteCastlesShort.(pieces) e1 = None.
Proof.
  split; [| split; [| split]].
  - apply (@applyMove_castling_placement kingsAndRooks whiteCastlesShort
             afterWhiteCastlesShort KingSide f1); vm_compute; reflexivity.
  - apply (@applyMove_castling_placement kingsAndRooks whiteCastlesShort
             afterWhiteCastlesShort KingSide g1); vm_compute; reflexivity.
  - apply (@applyMove_castling_placement kingsAndRooks whiteCastlesShort
             afterWhiteCastlesShort KingSide h1); vm_compute; reflexivity.
  - apply (@applyMove_castling_placement kingsAndRooks whiteCastlesShort
             afterWhiteCastlesShort KingSide e1); vm_compute; reflexivity.
Defined.

(** X8. For a move that [calculateMove] returns and that is not castling,
    the board on which the legal move filter tries the move holds the same
    pieces as the board that [applyMove] returns. *)
Theorem trial_board_is_the_next_board b f t pr ign m b' :
  calculateMove b f t pr ign = Normal (Value m) ->
  m.(castling) = None ->
  applyMove b m = Normal b' ->
  (tempBoardAfter b f t m.(piece) m).(pieces) = b'.(pieces).
Proof.
  intros Hc NC H. pose proof (calculateMove_facts _ _ _ _ _ Hc) as F.
  rewrite (applyMove_pieces _ _ H), (boardBeforeFill_pieces_plain b m NC).
  rewrite (mf_from F), (mf_to F). unfold tempBoardAfter. cbn [pieces withPieces withAllowedMoves clone].
  reflexivity.
Qed.

Lemma trial_board_is_the_next_board_witness :
  (tempBoardAfter initialBoard (make Fe R2) (make Fe R4) WHITE_PAWN pawnE2E4).(pieces)
  = afterE2E4.(pieces).
Proof.
  apply (@trial_board_is_the_next_board initialBoard (make Fe R2) (make Fe R4) None true
           pawnE2E4 afterE2E4); vm_compute; reflexivity.
Defined.

(** ** calculateMove *)

Lemma calculateMove_shape b f t pr ign p :
  get b.(pieces) f = Some p ->
  getColor p = b.(turnColor) ->
  match get b.(pieces) t with
  | Some tp => color_eqb (getColor p) (getColor tp)
  | None => false
  end = false ->
  (negb ign && negb match get b.(allowedMoves) f with
                    | Some l => existsb (fun m => String.eqb (Board.toString m) (Board.toString t)) l
                    | None => false
                    end)%bool = false ->
  if shapeRule b f t p
  then exists m, calculateMove b f t pr ign = Normal (Value m)
  else calculateMove b f t pr ign = Normal (Error (invalidPieceMove p)).
Proof.
  intros G C O A. unfold calculateMove. rewrite G. cbv zeta.
  rewrite C, color_eqb_refl. cbn [negb]. rewrite <- C, O, A.
  unfold shapeRule.
  destruct p; cbv beta iota zeta;
    match goal with
    | |- if ?v then _ else _ => destruct v
    end; cbn [negb fst snd andb]; eauto.
Qed.

(** X9. The answers of [calculateMove] in the order in which it gives them:
    it throws [NoPieceAtPosition] when the origin is empty; it answers
    NotYourTurn when the piece on the origin is not of the side to move;
    CaptureOwnPiece when the destination holds a piece of the side to move;
    InvalidPieceMove, naming the piece, when the filter is active and the
    destination is not listed for the origin; InvalidPieceMove again when
    the shape rule of the piece rejects the move. *)
Theorem calculateMove_errors b f t pr ign :
  (get b.(pieces) f = None -> calculateMove b f t pr ign = Throw (NoPieceAtPosition f))
  /\ (forall p, get b.(pieces) f = Some p ->
      (getColor p <> b.(turnColor) ->
       calculateMove b f t pr ign = Normal (Error notYourTurn))
      /\ (getColor p = b.(turnColor) ->
          ((exists q, get b.(pieces) t = Some q /\ getColor q = b.(turnColor)) ->
           calculateMove b f t pr ign = Normal (Error captureOwnPiece))
          /\ ((forall q, get b.(pieces) t = Some q -> getColor q <> b.(turnColor)) ->
              (ign = false -> ~ In t (allowedFrom b f) ->
               calculateMove b f t pr ign = Normal (Error (invalidPieceMove p)))
              /\ (shapeRule b f t p = false ->
                  calculateMove b f t pr ign = Normal (Error (invalidPieceMove p)))))).
Proof.
  split.
  - intro G. unfold calculateMove. rewrite G. reflexivity.
  - intros p G. split.
    + intro C. unfold calculateMove. rewrite G. cbv zeta.
      destruct (color_eqb (getColor p) (turnColor b)) eqn:E; [| reflexivity].
      apply color_eqb_eq in E. contradiction.
    + intro C. split.
      * intros (q & Gq & Cq). unfold calculateMove. rewrite G. cbv zeta.
        rewrite C, color_eqb_refl. cbn [negb]. rewrite Gq, Cq, color_eqb_refl. reflexivity.
      * intro NO.
        assert (O : match get (pieces b) t with
                    | Some tp => color_eqb (getColor p) (getColor tp)
                    | None => false
                    end = false).
        { destruct (get (pieces b) t) as [q |] eqn:Gq; [| reflexivity].
          destruct (color_eqb (getColor p) (getColor q)) eqn:E; [| reflexivity].
          apply color_eqb_eq in E. exfalso. apply (NO q eq_refl). congruence. }
        split.
        -- intros -> NI. unfold calculateMove. rewrite G. cbv zeta.
           rewrite C, color_eqb_refl. cbn [negb]. rewrite <- C, O.
           unfold allowedFrom in NI.
           destruct (get (allowedMoves b) f) as [l |]; [| reflexivity].
           rewrite (@not_In_existsb t l NI). reflexivity.
        -- intro S. unfold calculateMove. rewrite G. cbv zeta.
           rewrite C, color_eqb_refl. cbn [negb]. rewrite <- C, O.
           match goal with |- (if ?c then _ else _) = _ => destruct c end; [reflexivity |].
           unfold shapeRule in S.
           destruct p; cbv beta iota zeta; rewrite S; reflexivity.
Qed.

Lemma calculateMove_errors_witness :
  calculateMove initialBoard (make Fe R4) (make Fe R5) None false
    = Throw (NoPieceAtPosition (make Fe R4))
  /\ calculateMove initialBoard (make Fe R7) (make Fe R5) None false
     = Normal (Error notYourTurn)
  /\ calculateMove initialBoard (make Fd R1) (make Fd R2) None false
     = Normal (Error captureOwnPiece)
  /\ calculateMove initialBoard (make Fe R2) (make Fe R5) None false
     = Normal (Error (invalidPieceMove WHITE_PAWN))
  /\ calculateMove initialBoard (make Fe R2) (make Fe R5) None true
     = Normal (Error (invalidPieceMove WHITE_PAWN)).
Proof.
  split; [| split; [| split; [| split]]].
  - apply (proj1 (calculateMove_errors initialBoard (make Fe R4) (make Fe R5) None false)).
    reflexivity.
  - apply (proj1 (proj2 (calculateMove_errors initialBoard (make Fe R7) (make Fe R5) None false)
                    BLACK_PAWN eq_refl)).
    discriminate.
  - apply (proj1 (proj2 (proj2 (calculateMove_errors initialBoard (make Fd R1) (make Fd R2)
                                  None false) WHITE_QUEEN eq_refl) eq_refl)).
    exists WHITE_PAWN. split; reflexivity.
  - apply (proj1 (proj2 (proj2 (proj2 (calculateMove_errors initialBoard (make Fe R2)
             (make Fe R5) None false) WHITE_PAWN eq_refl) eq_refl)
             ltac:(intros q H; discriminate H))); [reflexivity |].
    vm_compute. intros [H | [H | []]]; discriminate H.
  - apply (proj2 (proj2 (proj2 (proj2 (calculateMove_errors initialBoard (make Fe R2)
             (make Fe R5) None true) WHITE_PAWN eq_refl) eq_refl)
             ltac:(intros q H; discriminate H))).
    vm_compute. reflexivity.
Defined.

(** X10. [calculateMove] returns a move exactly when the origin holds a
    piece of the side to move, the destination holds no piece of that side,
    the destination is listed for the origin or the filter is switched off,
    and the shape rule of the piece accepts the move. *)
Theorem calculateMove_accepts b f t pr ign :
  (exists m, calculateMove b f t pr ign = Normal (Value m))
  <-> exists p,
        get b.(pieces) f = Some p
        /\ getColor p = b.(turnColor)
        /\ (forall q, get b.(pieces) t = Some q -> getColor q <> b.(turnColor))
        /\ (ign = true \/ In t (allowedFrom b f))
        /\ shapeRule b f t p = true.
Proof.
  split.
  - intros (m & H). pose proof (calculateMove_facts _ _ _ _ _ H) as F.
    exists (piece m). split; [exact (mf_piece F) |]. split; [exact (mf_color F) |].
    split; [| split; [| exact (mf_shape F)]].
    + intros q Gq Cq. pose proof (mf_target F) as T. rewrite Gq in T.
      rewrite (mf_color F), Cq, color_eqb_refl in T. discriminate T.
    + destruct ign; [left; reflexivity | right].
      apply existsb_equals_In. exact (mf_allowed F eq_refl).
  - intros (p & G & C & NO & A & S).
    pose proof (@calculateMove_shape b f t pr ign p G C) as L. rewrite S in L. apply L.
    + destruct (get (pieces b) t) as [q |] eqn:Gq; [| reflexivity].
      destruct (color_eqb (getColor p) (getColor q)) eqn:E; [| reflexivity].
      apply color_eqb_eq in E. exfalso. apply (NO q eq_refl). congruence.
    + destruct A as [-> | HI]; [reflexivity |].
      unfold allowedFrom in HI. destruct (get (allowedMoves b) f) as [l |]; [| contradiction].
      cbn [Js.nullish] in HI.
      assert (E : existsb (fun m => String.eqb (Board.toString m) (Board.toString t)) l = true).
      { apply existsb_exists. exists t. split; [exact HI |].
        rewrite toString_eqb. apply equals_refl. }
      rewrite E. destruct ign; reflexivity.
Qed.

(** X11. The promotion of a returned move: a pawn that arrives on the last
    rank of its colour is promoted to the requested piece, whatever its
    colour or kind, and to the queen of the pawn's colour when none is
    requested; no other move carries a promotion. *)
Theorem promotion_of_returned_move b f t pr ign m :
  calculateMove b f t pr ign = Normal (Value m) ->
  m.(promotion) =
  if (isPawn m.(piece) && rank_eqb t.(rank) (if isWhite m.(piece) then R8 else R1))%bool
  then Some (match pr with
             | Some q => q
             | None => promotionQueen (isWhite m.(piece))
             end)
  else None.
Proof.
  intro H. pose proof (calculateMove_facts _ _ _ _ _ H) as F.
  rewrite (mf_promotion F). unfold defaultPromotion.
  destruct t as [tf tr]. cbn [rank].
  destruct (piece m), tr, pr; reflexivity.
Qed.

Lemma promotion_of_returned_move_witness :
  pawnE2E4.(promotion) = None.
Proof.
  apply (@promotion_of_returned_move initialBoard (make Fe R2) (make Fe R4) None true pawnE2E4).
  vm_compute. reflexivity.
Defined.

Lemma castling_conditions f t p ps cr side :
  snd (isValidKingMove f t p ps cr) = Some side ->
  isPathClear f t ps = true /\ rightFor cr (isWhite p) side = true.
Proof.
  unfold isValidKingMove. cbv zeta.
  destruct (_ && _)%bool; [discriminate |].
  match goal with |- snd (if ?c then _ else _) = _ -> _ => destruct c eqn:E end;
    [| discriminate].
  apply andb_true_iff in E. destruct E as [_ EP].
  destruct (file_eqb (file t) Fg && _)%bool eqn:EG.
  - intro H. injection H as <-. split; [exact EP |].
    apply andb_true_iff in EG. destruct EG as [_ EG].
    destruct (isWhite p); cbn [andb orb negb rightFor] in *;
      [rewrite orb_false_r in EG |]; exact EG.
  - destruct (file_eqb (file t) Fc && _)%bool eqn:EC; [| discriminate].
    intro H. injection H as <-. split; [exact EP |].
    apply andb_true_iff in EC. destruct EC as [_ EC].
    destruct (isWhite p); cbn [andb orb negb rightFor] in *;
      [rewrite orb_false_r in EC |]; exact EC.
Qed.

Lemma castling_between (white : bool) side :
  getPositionsBetween (make Fe (if white then R1 else R8))
    (make (castlingKingFile side) (if white then R1 else R8))
  = [make (castlingPassedFile side) (if white then R1 else R8)].
Proof. destruct white, side; reflexivity. Qed.

(** X12. A returned move is marked as castling only when the piece is the
    king of the side to move, it goes from the e-file to the g-file (king
    side) or the c-file (queen side) on the first rank of its colour, the
    right of that colour and side is set, and the one square between origin
    and destination (on the f-file or the d-file) is empty. *)
Theorem castling_move_conditions b f t pr ign m side :
  calculateMove b f t pr ign = Normal (Value m) ->
  m.(castling) = Some side ->
  let white := color_eqb b.(turnColor) WHITE in
  let r := if white then R1 else R8 in
  m.(piece) = kingOf b.(turnColor)
  /\ f = make Fe r
  /\ t = make (castlingKingFile side) r
  /\ rightFor b.(canCastle) white side = true
  /\ has b.(pieces) (make (castlingPassedFile side) r) = false.
Proof.
  intros H C. cbv zeta. pose proof (calculateMove_facts _ _ _ _ _ H) as F.
  pose proof (mf_castling F) as MC. rewrite C in MC.
  destruct (isKing (piece m)) eqn:K; [| discriminate MC]. symmetry in MC.
  pose proof (king_isWhite_turn _ K (mf_color F)) as W.
  destruct (castling_geometry _ _ _ _ _ MC) as [Ef Et].
  destruct (castling_conditions _ _ _ _ _ MC) as [EP ER].
  rewrite W in Ef, Et, ER. fold (castlingKingFile side) in Et.
  split; [| split; [exact Ef | split; [exact Et | split; [exact ER |]]]].
  - unfold kingOf. pose proof (mf_color F) as CC. rewrite <- CC.
    destruct (piece m); try discriminate K; reflexivity.
  - rewrite Ef, Et in EP. unfold isPathClear in EP.
    rewrite castling_between in EP. cbn [forallb] in EP.
    rewrite andb_true_r in EP. apply negb_true_iff in EP. exact EP.
Qed.

Lemma castling_move_conditions_witness :
  whiteCastlesShort.(piece) = kingOf WHITE
  /\ e1 = make Fe R1
  /\ g1 = make Fg R1
  /\ rightFor kingsAndRooks.(canCastle) true KingSide = true
  /\ has kingsAndRooks.(pieces) (make Ff R1) = false.
Proof.
  apply (@castling_move_conditions kingsAndRooks e1 g1 None true whiteCastlesShort KingSide);
    vm_compute; reflexivity.
Defined.

Lemma two_step_clear (ff : BoardFile) (white : bool) ps :
  isPathClear (make ff (if white then R2 else R7)) (make ff (if white then R4 else R5)) ps
  = negb (has ps (make ff (if white then R3 else R6))).
Proof.
  unfold isPathClear.
  destruct white, ff;
    match goal with
    | |- forallb _ ?l = _ =>
        let v := eval vm_compute in l in change l with v
    end;
    cbn [forallb]; apply andb_true_r.
Qed.

(** X13. The pawn rule accepts exactly three kinds of moves, all of them
    one rank towards the other side (up for White, down for Black) except
    the second: a step on the file to an empty square; a double step on the
    file from the second rank of the colour to an empty square over an empty
    square; a step to a neighbouring file onto an occupied square or onto
    the en-passant target. *)
Theorem pawn_rule f t p ps ep :
  let white := isWhite p in
  let d := if white then 1 else -1 in
  let dr := rankIndex t - rankIndex f in
  isValidPawnMove f t p ps ep = true <->
  (f.(file) = t.(file) /\ dr = d /\ has ps t = false)
  \/ (f.(file) = t.(file) /\ f.(rank) = (if white then R2 else R7) /\ dr = 2 * d
      /\ has ps t = false
      /\ has ps (make f.(file) (if white then R3 else R6)) = false)
  \/ (Z.abs (fileIndex t - fileIndex f) = 1 /\ dr = d
      /\ (has ps t = true \/ ep = Some t)).
Proof.
  cbv zeta. unfold isValidPawnMove. cbv zeta.
  destruct (file_eqb (file f) (file t)) eqn:FE.
  - apply file_eqb_eq in FE.
    assert (FI : Z.abs (fileIndex t - fileIndex f) <> 1)
      by (unfold fileIndex; rewrite FE; lia).
    destruct (rankIndex t - rankIndex f =? (if isWhite p then 1 else -1)) eqn:E1.
    + apply Z.eqb_eq in E1. rewrite negb_true_iff. split.
      * intro H. left. tauto.
      * intros [(_ & _ & H) | [(_ & _ & D & _) | (A & _)]];
          [exact H | exfalso; destruct (isWhite p); lia | contradiction].
    + apply Z.eqb_neq in E1.
      destruct (rank_eqb (rank f) (if isWhite p then R2 else R7)) eqn:E2; cbn [andb].
      * apply rank_eqb_eq in E2.
        destruct (rankIndex t - rankIndex f =? 2 * (if isWhite p then 1 else -1)) eqn:E3.
        -- apply Z.eqb_eq in E3.
           pose proof (@two_step_target f t (isWhite p) E2 E3) as RT.
           assert (PC : isPathClear f t ps
                        = negb (has ps (make (file f) (if isWhite p then R3 else R6)))).
           { destruct f as [ff fr], t as [tf tr]. cbn [file rank] in *. subst tf fr tr.
             apply two_step_clear. }
           rewrite PC, andb_true_iff, !negb_true_iff. split.
           ++ intros [H1 H2]. right. left. tauto.
           ++ intros [(_ & D & _) | [(_ & _ & _ & H1 & H2) | (A & _)]];
                [contradiction | tauto | contradiction].
        -- apply Z.eqb_neq in E3. split; [discriminate |].
           intros [(_ & D & _) | [(_ & _ & D & _) | (A & _)]]; contradiction.
      * split; [discriminate |].
        intros [(_ & D & _) | [(_ & R & _) | (A & _)]]; try contradiction.
        apply rank_eqb_eq in R. rewrite R in E2. discriminate E2.
  - assert (NF : file f <> file t)
      by (intro E; apply file_eqb_eq in E; rewrite E in FE; discriminate FE).
    destruct (Z.abs (fileIndex t - fileIndex f) =? 1) eqn:EA; cbn [andb].
    + apply Z.eqb_eq in EA.
      destruct (rankIndex t - rankIndex f =? (if isWhite p then 1 else -1)) eqn:E1.
      * apply Z.eqb_eq in E1. rewrite orb_true_iff. split.
        -- intros [H | H]; right; right; split; [exact EA | split; [exact E1 | left; exact H]
                                               | exact EA |].
           split; [exact E1 | right].
           destruct ep as [e |]; [| discriminate H]. apply equals_eq in H. rewrite H. reflexivity.
        -- intros [(E & _) | [(E & _) | (_ & _ & [H | H])]]; try contradiction.
           ++ left. exact H.
           ++ right. rewrite H. apply equals_refl.
      * apply Z.eqb_neq in E1. split; [discriminate |].
        intros [(E & _) | [(E & _) | (_ & D & _)]]; contradiction.
    + apply Z.eqb_neq in EA. split; [discriminate |].
      intros [(E & _) | [(E & _) | (A & _)]]; contradiction.
Qed.

Lemma isPathClear_agree f t ps ps' :
  (forall sq, In sq (getPositionsBetween f t) -> has ps' sq = has ps sq) ->
  isPathClear f t ps' = isPathClear f t ps.
Proof.
  unfold isPathClear. induction (getPositionsBetween f t) as [| x l IH]; intro H;
    [reflexivity |].
  cbn [forallb]. rewrite (H x (or_introl eq_refl)), IH; [reflexivity |].
  intros sq HI. apply H. right. exact HI.
Qed.

Lemma calculateMove_same_line b ps' f t pr ign :
  get ps' f = get b.(pieces) f ->
  get ps' t = get b.(pieces) t ->
  (forall sq, In sq (getPositionsBetween f t) -> has ps' sq = has b.(pieces) sq) ->
  calculateMove (withPieces b ps') f t pr ign = calculateMove b f t pr ign.
Proof.
  intros Gf Gt Hb. pose proof (isPathClear_agree f t (pieces b) ps' Hb) as PC.
  assert (Ht : has ps' t = has (pieces b) t) by (unfold has; rewrite Gt; reflexivity).
  unfold calculateMove. cbn [pieces turnColor canCastle enPassantTarget allowedMoves withPieces].
  rewrite Gf, Gt.
  unfold isValidPawnMove, isValidQueenMove, isValidBishopMove, isValidRookMove, isValidKingMove.
  rewrite PC, Ht. reflexivity.
Qed.

(** X14. [calculateMove] reads the pieces on the origin, on the destination
    and on the squares between them, and no other: two boards that agree on
    these squares and on everything but the pieces get the same answer. *)
Theorem calculateMove_reads_the_line b ps' f t pr ign :
  get ps' f = get b.(pieces) f ->
  get ps' t = get b.(pieces) t ->
  (forall sq, In sq (getPositionsBetween f t) -> has ps' sq = has b.(pieces) sq) ->
  calculateMove (withPieces b ps') f t pr ign = calculateMove b f t pr ign.
Proof. apply calculateMove_same_line. Qed.

Lemma calculateMove_reads_the_line_witness :
  calculateMove kingsAndRooksWithoutH1 e1 g1 None true
  = calculateMove kingsAndRooks e1 g1 None true.
Proof.
  apply (@calculateMove_reads_the_line kingsAndRooks (delete kingsAndRooks.(pieces) h1)
           e1 g1 None true); [reflexivity | reflexivity |].
  intros sq [<- | []]. reflexivity.
Defined.

(** X15. Castling is granted without a look at the corner: when
    [calculateMove] returns a castling move, it returns the same move on the
    board from which the piece on the corner of that side (the h-file or the
    a-file of the king's rank) is removed. *)
Theorem castling_needs_no_rook b f t pr ign m side :
  calculateMove b f t pr ign = Normal (Value m) ->
  m.(castling) = Some side ->
  calculateMove
    (withPieces b (delete b.(pieces) (make (castlingCornerFile side) f.(rank))))
    f t pr ign
  = Normal (Value m).
Proof.
  intros H C. pose proof (calculateMove_facts _ _ _ _ _ H) as F.
  pose proof (mf_castling F) as MC. rewrite C in MC.
  destruct (isKing (piece m)) eqn:K; [| discriminate MC]. symmetry in MC.
  destruct (castling_geometry _ _ _ _ _ MC) as [Ef Et].
  rewrite <- H. apply calculateMove_same_line.
  - rewrite get_delete. rewrite Ef. cbn [rank].
    destruct side, (isWhite (piece m)); reflexivity.
  - rewrite get_delete. rewrite Ef, Et. cbn [rank].
    destruct side, (isWhite (piece m)); reflexivity.
  - intros sq HI. unfold has. rewrite get_delete.
    rewrite Ef, Et in HI. rewrite Ef. cbn [rank].
    fold (castlingKingFile side) in HI. rewrite castling_between in HI.
    destruct HI as [<- | []].
    destruct side, (isWhite (piece m)); reflexivity.
Qed.

Lemma castling_needs_no_rook_witness :
  calculateMove kingsAndRooksWithoutH1 e1 g1 None true = Normal (Value whiteCastlesShort).
Proof.
  apply (@castling_needs_no_rook kingsAndRooks e1 g1 None true whiteCastlesShort KingSide);
    vm_compute; reflexivity.
Defined.

(** ** The squares between two squares *)

Lemma between_reversed_all :
  forallPairs (fun f t =>
    equals f t
    || sameSquares (getPositionsBetween t f) (rev (getPositionsBetween f t)))%bool = true.
Proof. vm_compute. reflexivity. Qed.

Lemma between_excludes_ends_all :
  forallPairs (fun f t =>
    equals f t
    || forallb (fun sq => negb (equals sq f) && negb (equals sq t))
         (getPositionsBetween f t))%bool = true.
Proof. vm_compute. reflexivity. Qed.

(** X16. For two different squares, the squares between [to] and [from]
    are the squares between [from] and [to] in the opposite order and
    include neither of the two; the path test and the rules of knight,
    bishop, rook and queen give the same answer for a move and for the move
    back. *)
Theorem line_rules_are_symmetric f t ps :
  (f <> t ->
   getPositionsBetween t f = rev (getPositionsBetween f t)
   /\ ~ In f (getPositionsBetween f t) /\ ~ In t (getPositionsBetween f t))
  /\ isPathClear t f ps = isPathClear f t ps
  /\ isValidKnightMove t f = isValidKnightMove f t
  /\ isValidBishopMove t f ps = isValidBishopMove f t ps
  /\ isValidRookMove t f ps = isValidRookMove f t ps
  /\ isValidQueenMove t f ps = isValidQueenMove f t ps.
Proof.
  assert (R : f <> t -> getPositionsBetween t f = rev (getPositionsBetween f t)).
  { intro NE. apply sameSquares_eq.
    pose proof (forallPairs_spec _ between_reversed_all f t) as H. cbv beta in H.
    apply equals_neq in NE. rewrite NE in H. exact H. }
  assert (PC : isPathClear t f ps = isPathClear f t ps).
  { destruct (equals f t) eqn:E.
    - apply equals_eq in E. subst t. reflexivity.
    - apply equals_neq in E. unfold isPathClear. rewrite (R E). apply forallb_reversed. }
  assert (B : isValidBishopMove t f ps = isValidBishopMove f t ps).
  { unfold isValidBishopMove. cbv zeta. rewrite PC.
    rewrite (abs_sub_swap (fileIndex f) (fileIndex t)),
            (abs_sub_swap (rankIndex f) (rankIndex t)). reflexivity. }
  assert (K : isValidRookMove t f ps = isValidRookMove f t ps).
  { unfold isValidRookMove. rewrite PC. f_equal. f_equal.
    - unfold file_eqb. apply Ascii.eqb_sym.
    - unfold rank_eqb. apply Ascii.eqb_sym. }
  split; [| split; [exact PC | split; [| split; [exact B | split; [exact K |]]]]].
  - intro NE. split; [exact (R NE) |].
    pose proof (forallPairs_spec _ between_excludes_ends_all f t) as H.
    cbv beta in H. apply equals_neq in NE. rewrite NE in H. cbn [orb] in H.
    rewrite forallb_forall in H. split; intro HI; specialize (H _ HI);
      rewrite !equals_refl in H; cbn [negb andb] in H;
      [discriminate H | rewrite andb_false_r in H; discriminate H].
  - unfold isValidKnightMove. cbv zeta.
    rewrite (abs_sub_swap (fileIndex f) (fileIndex t)),
            (abs_sub_swap (rankIndex f) (rankIndex t)). reflexivity.
  - unfold isValidQueenMove. rewrite B, K. reflexivity.
Qed.

Lemma line_rules_are_symmetric_witness :
  getPositionsBetween h1 e1 = rev (getPositionsBetween e1 h1)
  /\ ~ In e1 (getPositionsBetween e1 h1) /\ ~ In h1 (getPositionsBetween e1 h1).
Proof.
  apply (proj1 (line_rules_are_symmetric e1 h1 [])). discriminate.
Defined.

(** ** Squares, ranks and pieces as text *)

Lemma isBoardFile_Some c f : isBoardFile (Some c) = Some f -> c = fileChar f.
Proof.
  unfold isBoardFile. intro H. apply find_some in H. destruct H as [_ H].
  apply Ascii.eqb_eq in H. symmetry. exact H.
Qed.

Lemma isBoardRank_Some c r : isBoardRank (Some c) = Some r -> c = rankChar r.
Proof.
  unfold isBoardRank. intro H. apply find_some in H. destruct H as [_ H].
  apply Ascii.eqb_eq in H. symmetry. exact H.
Qed.

(** X17. [Position.parse] reads back what [toString] writes, and accepts
    no other text: a text is parsed to a square exactly when it is the
    two-character name of that square. *)
Theorem position_text_round_trip (s : string) (p : Position) :
  Board.parse s = Some p <-> s = Board.toString p.
Proof.
  split.
  - unfold Board.parse.
    destruct s as [| a [| c [| d s]]]; try discriminate.
    cbn [String.length Nat.eqb negb Js.charAt String.get].
    destruct (isBoardFile (Some a)) as [f |] eqn:EF; [| discriminate].
    destruct (isBoardRank (Some c)) as [r |] eqn:ER; [| discriminate].
    intro H. injection H as <-.
    apply isBoardFile_Some in EF. apply isBoardRank_Some in ER. subst a c. reflexivity.
  - intros ->. destruct p as [f r]. destruct f, r; reflexivity.
Qed.

(** X18. [parsePieceId] reads back the letter of every piece and accepts no
    other character; a piece is White exactly when its letter is upper case
    ([getPieceColor]), and [isWhite] and [isBlack] agree with that. *)
Theorem piece_letter_round_trip (c : ascii) (p : PieceId) :
  (PieceId.parse c = Some p <-> c = PieceId.char p)
  /\ (PieceId.isPiece c = true <-> exists q, c = PieceId.char q)
  /\ (getColor p = WHITE <-> isWhite p = true)
  /\ (getColor p = BLACK <-> isBlack p = true)
  /\ isBlack p = negb (isWhite p).
Proof.
  assert (P : forall q, PieceId.parse c = Some q -> c = PieceId.char q).
  { unfold PieceId.parse. intros q H. apply find_some in H. destruct H as [_ H].
    apply Ascii.eqb_eq in H. symmetry. exact H. }
  split; [| split; [| split; [| split]]].
  - split; [apply P |]. intros ->. destruct p; reflexivity.
  - unfold isPiece. split.
    + destruct (PieceId.parse c) as [q |]; [| discriminate].
      intros _. exists q. apply P. reflexivity.
    + intros [q ->]. destruct q; reflexivity.
  - destruct p; split; intro H; try reflexivity; discriminate H.
  - destruct p; split; intro H; try reflexivity; discriminate H.
  - destruct p; reflexivity.
Qed.

(** X19. [nextBoardRank] and [prevBoardRank] undo each other; the first has
    no value on rank 8 only and the second on rank 1 only, and a step moves
    [rankIndex] by one. *)
Theorem rank_steps (r r' : BoardRank) :
  (nextBoardRank r = Some r' <-> prevBoardRank r' = Some r)
  /\ (nextBoardRank r = None <-> r = R8)
  /\ (prevBoardRank r = None <-> r = R1)
  /\ (nextBoardRank r = Some r' ->
      rankIndex (make Fa r') = rankIndex (make Fa r) + 1).
Proof.
  split; [| split; [| split]].
  - destruct r, r'; split; intro H; try reflexivity; vm_compute in H; discriminate H.
  - destruct r; split; intro H; try reflexivity; vm_compute in H; discriminate H.
  - destruct r; split; intro H; try reflexivity; vm_compute in H; discriminate H.
  - destruct r, r'; intro H; try reflexivity; vm_compute in H; discriminate H.
Qed.

(** ** BoardMap *)

Lemma size_set {T : Type} (m : BoardMap T) k v :
  size (set m k v) = if has m k then size m else size m + 1.
Proof.
  unfold size, has. induction m as [| [k0 v0] m IH]; [reflexivity |].
  cbn [set get]. destruct (equals k0 k); [reflexivity |].
  cbn [List.length]. destruct (Js.isSome (get m k)); lia.
Qed.

Lemma size_delete {T : Type} (m : BoardMap T) k :
  distinctKeys m = true ->
  size (delete m k) = if has m k then size m - 1 else size m.
Proof.
  unfold size. induction m as [| [k0 v0] m IH]; [reflexivity |].
  cbn [distinctKeys]. intro D. apply andb_true_iff in D. destruct D as [N D].
  apply negb_true_iff in N. specialize (IH D).
  unfold has in *. cbn [delete get]. destruct (equals k0 k) eqn:E.
  - apply equals_eq in E. subst k0. rewrite N in IH. rewrite IH.
    cbn [Js.isSome List.length]. lia.
  - cbn [List.length]. destruct (Js.isSome (get m k)); lia.
Qed.

(** X20. The laws of [BoardMap]: after [set] the key holds the new value
    and every other key what it held; after [delete] the key holds nothing
    and every other key what it held; [has] tells whether [get] has a value;
    [set] adds one to the size for a new key and nothing for an old one,
    [delete] takes one off for a key that is present; neither brings a key
    in twice. *)
Theorem boardMap_laws {T : Type} (m : BoardMap T) (k k' : Position) (v : T) :
  get (set m k v) k' = (if equals k k' then Some v else get m k')
  /\ get (delete m k) k' = (if equals k k' then None else get m k')
  /\ (has m k = true <-> exists x, get m k = Some x)
  /\ size (set m k v) = (if has m k then size m else size m + 1)
  /\ (distinctKeys m = true ->
      distinctKeys (set m k v) = true
      /\ distinctKeys (delete m k) = true
      /\ size (delete m k) = (if has m k then size m - 1 else size m)).
Proof.
  split; [apply get_set |]. split; [apply get_delete |]. split; [| split; [apply size_set |]].
  - unfold has. destruct (get m k) as [x |]; split;
      [eauto | reflexivity | discriminate | intros [x H]; discriminate H].
  - intro D. split; [apply distinctKeys_set; exact D |].
    split; [apply distinctKeys_delete; exact D | apply size_delete; exact D].
Qed.

Lemma boardMap_laws_witness :
  distinctKeys (set initialBoard.(pieces) (make Fe R4) WHITE_PAWN) = true
  /\ distinctKeys (delete initialBoard.(pieces) (make Fe R4)) = true
  /\ size (delete initialBoard.(pieces) (make Fe R4)) = 32.
Proof.
  apply (proj2 (proj2 (proj2 (proj2
    (boardMap_laws initialBoard.(pieces) (make Fe R4) (make Fe R4) WHITE_PAWN))))).
  vm_compute. reflexivity.
Defined.

Lemma findPositionFor_spec {T : Type} (eqb : T -> T -> bool) (m : BoardMap T) (v : T) :
  match findPositionFor eqb m v with
  | Some k => exists m1 x m2,
                m = (m1 ++ (k, x) :: m2)%list /\ eqb x v = true
                /\ forall e, In e m1 -> eqb (snd e) v = false
  | None => forall e, In e m -> eqb (snd e) v = false
  end.
Proof.
  induction m as [| [k0 v0] m IH]; cbn [findPositionFor].
  - intros e [].
  - destruct (eqb v0 v) eqn:E.
    + exists [], v0, m. split; [reflexivity |]. split; [exact E | intros e []].
    + destruct (findPositionFor eqb m v) as [k |].
      * destruct IH as (m1 & x & m2 & -> & Ex & Hm1).
        exists ((k0, v0) :: m1), x, m2. split; [reflexivity |]. split; [exact Ex |].
        intros e [<- | HI]; [exact E | exact (Hm1 e HI)].
      * intros e [<- | HI]; [exact E | exact (IH e HI)].
Qed.

Lemma findPositionFor_first (m : BoardMap PieceId) (p : PieceId) :
  (forall k, findPositionFor PieceId.eqb m p = Some k ->
     exists m1 m2, m = (m1 ++ (k, p) :: m2)%list /\ ~ In p (map snd m1))
  /\ (findPositionFor PieceId.eqb m p = None <-> ~ In p (map snd m)).
Proof.
  pose proof (findPositionFor_spec PieceId.eqb m p) as S.
  assert (NI : forall l : BoardMap PieceId,
             (forall e, In e l -> PieceId.eqb (snd e) p = false) <-> ~ In p (map snd l)).
  { intro l. split.
    - intros H HI. apply in_map_iff in HI. destruct HI as (e & <- & HI).
      specialize (H e HI). rewrite piece_eqb_refl in H. discriminate H.
    - intros H e HI. destruct (PieceId.eqb (snd e) p) eqn:E; [| reflexivity].
      apply piece_eqb_eq in E. exfalso. apply H. rewrite <- E. apply in_map. exact HI. }
  split.
  - intros k E. rewrite E in S. destruct S as (m1 & x & m2 & -> & Ex & Hm1).
    apply piece_eqb_eq in Ex. subst x. exists m1, m2. split; [reflexivity |].
    apply NI. exact Hm1.
  - destruct (findPositionFor PieceId.eqb m p) as [k |].
    + split; [discriminate |]. intro H. exfalso.
      destruct S as (m1 & x & m2 & -> & Ex & _). apply piece_eqb_eq in Ex. subst x.
      apply H. rewrite map_app. apply in_or_app. right. left. reflexivity.
    + split; [intros _; apply NI; exact S | reflexivity].
Qed.

Lemma findOnRanks_spec (m : BoardMap PieceId) (p : PieceId) (f : BoardFile) ranks :
  match findOnRanks PieceId.eqb m p f ranks with
  | Some pos => exists r1 r r2,
                  ranks = (r1 ++ r :: r2)%list /\ pos = make f r
                  /\ get m (make f r) = Some p
                  /\ forall x, In x r1 -> get m (make f x) <> Some p
  | None => forall x, In x ranks -> get m (make f x) <> Some p
  end.
Proof.
  assert (OE : forall o, optEqb PieceId.eqb o p = true <-> o = Some p).
  { intros [q |]; cbn [optEqb]; [| split; discriminate].
    rewrite piece_eqb_eq. split; [intros ->; reflexivity | intro H; injection H; auto]. }
  induction ranks as [| r ranks IH]; cbn [findOnRanks].
  - intros x [].
  - destruct (optEqb PieceId.eqb (get m (make f r)) p) eqn:E.
    + exists [], r, ranks. split; [reflexivity |]. split; [reflexivity |].
      split; [apply OE; exact E | intros x []].
    + assert (NE : get m (make f r) <> Some p)
        by (intro H; apply OE in H; rewrite H in E; discriminate E).
      destruct (findOnRanks PieceId.eqb m p f ranks) as [pos |].
      * destruct IH as (r1 & r0 & r2 & -> & -> & G & H1).
        exists (r :: r1), r0, r2. split; [reflexivity |]. split; [reflexivity |].
        split; [exact G |]. intros x [<- | HI]; [exact NE | exact (H1 x HI)].
      * intros x [<- | HI]; [exact NE | exact (IH x HI)].
Qed.

Lemma findPieceOnFile_lowest (m : BoardMap PieceId) (p : PieceId) (f : BoardFile) :
  (forall pos, findPieceOnFile PieceId.eqb m p f = Some pos ->
     pos.(file) = f /\ get m pos = Some p
     /\ forall r, get m (make f r) = Some p ->
                  rankIndex pos <= rankIndex (make f r))
  /\ (findPieceOnFile PieceId.eqb m p f = None <->
      forall r, get m (make f r) <> Some p).
Proof.
  pose proof (findOnRanks_spec m p f BOARD_RANKS) as S. fold (findPieceOnFile PieceId.eqb m p f) in S.
  split.
  - intros pos E. rewrite E in S. destruct S as (r1 & r0 & r2 & ER & -> & G & H1).
    split; [reflexivity |]. split; [exact G |].
    intros r Gr.
    assert (NI : ~ In r r1) by (intro HI; exact (H1 r HI Gr)).
    clear - ER NI. unfold rankIndex. cbn [rank].
    destruct r1 as [| a1 [| a2 [| a3 [| a4 [| a5 [| a6 [| a7 [| a8 r1]]]]]]]];
      cbn [app] in ER; unfold BOARD_RANKS in ER; inversion ER; subst;
      try (destruct r1; discriminate);
      cbn [In] in NI; destruct r; try (exfalso; tauto); vm_compute; discriminate.
  - destruct (findPieceOnFile PieceId.eqb m p f) as [pos |].
    + split; [discriminate |]. intro H. exfalso.
      destruct S as (r1 & r0 & r2 & _ & _ & G & _). exact (H r0 G).
    + split; [| reflexivity]. intros _ r. apply S. destruct r; cbn; tauto.
Qed.

(** X21. The two searches of [BoardMap]: [findPositionFor] returns the key
    of the first entry, in the order of insertion, that holds the value;
    [findPieceOnFile] returns the square of the file with the lowest rank
    that holds the piece; each returns nothing exactly when no entry, or no
    square of the file, holds it. *)
Theorem boardMap_searches (m : BoardMap PieceId) (p : PieceId) (f : BoardFile) :
  (forall k, findPositionFor PieceId.eqb m p = Some k ->
     exists m1 m2, m = (m1 ++ (k, p) :: m2)%list /\ ~ In p (map snd m1))
  /\ (findPositionFor PieceId.eqb m p = None <-> ~ In p (map snd m))
  /\ (forall pos, findPieceOnFile PieceId.eqb m p f = Some pos ->
       pos.(file) = f /\ get m pos = Some p
       /\ forall r, get m (make f r) = Some p ->
                    rankIndex pos <= rankIndex (make f r))
  /\ (findPieceOnFile PieceId.eqb m p f = None <->
      forall r, get m (make f r) <> Some p).
Proof.
  destruct (findPositionFor_first m p) as [A B].
  destruct (findPieceOnFile_lowest m p f) as [C D].
  split; [exact A |]. split; [exact B |]. split; [exact C | exact D].
Qed.

Lemma boardMap_searches_witness :
  (exists m1 m2, initialBoard.(pieces) = (m1 ++ (e1, WHITE_KING) :: m2)%list
                 /\ ~ In WHITE_KING (map snd m1))
  /\ (make Fe R2).(file) = Fe
  /\ get initialBoard.(pieces) (make Fe R2) = Some WHITE_PAWN
  /\ forall r, get initialBoard.(pieces) (make Fe r) = Some WHITE_PAWN ->
                rankIndex (make Fe R2) <= rankIndex (make Fe r).
Proof.
  split.
  - apply (proj1 (boardMap_searches initialBoard.(pieces) WHITE_KING Fe) e1).
    vm_compute. reflexivity.
  - apply (proj1 (proj2 (proj2 (boardMap_searches initialBoard.(pieces) WHITE_PAWN Fe)))
             (make Fe R2)).
    vm_compute. reflexivity.
Defined.

(** ** popUntilValue *)

Lemma popLoop_spec (l : list string) (value : string) :
  (In value l ->
   exists pre, l = (pre ++ value :: Pgn.popLoop l value)%list /\ ~ In value pre)
  /\ (~ In value l -> Pgn.popLoop l value = []).
Proof.
  induction l as [| x l [IH1 IH2]]; cbn [Pgn.popLoop].
  - split; [intros [] | reflexivity].
  - destruct (String.eqb x value) eqn:E.
    + apply String.eqb_eq in E. subst x. split.
      * intros _. exists []. split; [reflexivity | intros []].
      * intro N. exfalso. apply N. left. reflexivity.
    + apply String.eqb_neq in E. split.
      * intros [-> | HI]; [contradiction E; reflexivity |].
        destruct (IH1 HI) as (pre & EQ & NI). exists (x :: pre). split.
        -- cbn [app]. rewrite <- EQ. reflexivity.
        -- intros [-> | HP]; [contradiction E; reflexivity | exact (NI HP)].
      * intro N. apply IH2. intro HI. apply N. right. exact HI.
Qed.

(** X22. [popUntilValue] takes the elements off the end of the array up to
    and including the last occurrence of the value: what is left is the
    part of the array before that occurrence, and an array that does not
    hold the value is left empty. *)
Theorem popUntilValue_keeps_the_front (arr : list string) (value : string) :
  (In value arr ->
   exists rest,
     arr = (Pgn.popUntilValue arr value ++ value :: rest)%list /\ ~ In value rest)
  /\ (~ In value arr -> Pgn.popUntilValue arr value = []).
Proof.
  unfold Pgn.popUntilValue. destruct (popLoop_spec (rev arr) value) as [S1 S2]. split.
  - intro HI. destruct (S1 (proj1 (in_rev arr value) HI)) as (pre & EQ & NI).
    exists (rev pre). split.
    + rewrite <- (rev_involutive arr), EQ at 1.
      rewrite rev_app_distr. cbn [rev]. rewrite <- app_assoc. reflexivity.
    + intro HR. apply NI. apply in_rev. exact HR.
  - intro N. rewrite S2; [reflexivity |]. intro HI. apply N. apply in_rev. exact HI.
Qed.

Lemma popUntilValue_keeps_the_front_witness :
  exists rest,
    ["a"; "b"; "c"; "b"; "d"]
    = (Pgn.popUntilValue ["a"; "b"; "c"; "b"; "d"] "b" ++ "b" :: rest)%list
    /\ ~ In "b" rest.
Proof.
  apply (proj1 (popUntilValue_keeps_the_front ["a"; "b"; "c"; "b"; "d"] "b")).
  right. left. reflexivity.
Defined.

(** ** The moves that [calculateMoveFromAlgebraic] returns *)

Lemma liftMoveResult_value c m :
  liftMoveResult c = Normal (Some (Value m)) -> c = Normal (Value m).
Proof.
  unfold liftMoveResult. destruct c as [[m0 | e] | ex]; cbn [bindC]; intro H;
    try discriminate H. injection H as <-. reflexivity.
Qed.

Lemma castling_attempt_value text b m :
  tryParseAlgebraicCastlingMove text b = Normal (Some (Value m)) ->
  exists side,
    calculateMove b (make Fe (if color_eqb b.(turnColor) WHITE then R1 else R8))
      (make (castlingKingFile side) (if color_eqb b.(turnColor) WHITE then R1 else R8))
      None true = Normal (Value m).
Proof.
  unfold tryParseAlgebraicCastlingMove. cbv zeta. intro H.
  destruct (color_eqb (turnColor b) WHITE).
  all: repeat match type of H with
         | (if ?c then _ else _) = _ => destruct c
         end; try discriminate H; apply liftMoveResult_value in H;
    [exists KingSide | exists KingSide | exists QueenSide | exists QueenSide];
    exact H.
Qed.

Lemma charAt_includes text c : forall i,
  Js.optCharEqb (Js.charAt text i) c = true -> Js.includesChar text c = true.
Proof.
  unfold Js.charAt. induction text as [| a text IH]; intros i H; [destruct i; discriminate H |].
  cbn [Js.includesChar]. destruct i as [| i]; cbn [String.get] in H.
  - cbn [Js.optCharEqb] in H. rewrite H. reflexivity.
  - rewrite (IH i H). apply orb_true_r.
Qed.

Lemma pawn_attempt_value text b m :
  tryParseAlgebraicPawnMove text b = Normal (Some (Value m)) ->
  exists f t m0 q,
    calculateMove b f t None true = Normal (Value m0)
    /\ m = withPromotion m0 q
    /\ (Js.includesChar text ALGEBRAIC_PROMOTION_CHAR = false -> q = None).
Proof.
  unfold tryParseAlgebraicPawnMove. cbv zeta. intro H.
  destruct (_ && _)%bool; [discriminate H |].
  destruct (isBoardFile _) as [tf |]; [| discriminate H].
  destruct (isBoardRank _) as [tr |]; [| discriminate H].
  destruct (_ && _)%bool; [discriminate H |].
  destruct (negb (Nat.eqb _ _)); [discriminate H |].
  destruct (if color_eqb (turnColor b) WHITE then prevBoardRank tr else nextBoardRank tr)
    as [pr |]; [| discriminate H].
  match type of H with
  | match ?x with _ => _ end = _ => destruct x as [fr |]; [| discriminate H]
  end.
  match type of H with
  | bindC ?c _ = _ => destruct c as [[mv | err] | ex] eqn:HC; cbn [bindC] in H
  end; try discriminate H.
  destruct (negb (PieceId.eqb _ _)); [discriminate H |].
  injection H as <-.
  eexists _, _, mv, _. split; [exact HC |]. split; [reflexivity |].
  intro NI.
  match goal with
  | |- (if ?c then _ else _) = None => destruct c eqn:HP; [| reflexivity]
  end.
  apply charAt_includes in HP. rewrite HP in NI. discriminate NI.
Qed.

Lemma piece_attempt_move text b pc m :
  tryParseAlgebraicMoveByChar text b pc = Normal (Some (Value m)) ->
  (exists f t, calculateMove b f t None false = Normal (Value m))
  /\ m.(piece) = algebraicPieceCharToPieceId pc (color_eqb b.(turnColor) WHITE).
Proof.
  intro H. split.
  - destruct (Js.optCharEqb (Js.charAt text 0) (AlgebraicPieceChar.char pc)) eqn:HC.
    + destruct (@piece_attempt_value text b pc _ HC H) as (e & E & HV).
      injection E as <-. apply HV. reflexivity.
    + unfold tryParseAlgebraicMoveByChar in H. rewrite HC in H. discriminate H.
  - unfold tryParseAlgebraicMoveByChar in H. cbv zeta in H.
    repeat match type of H with
           | (if negb (PieceId.eqb ?a ?b) then _ else _) = _ =>
               destruct (PieceId.eqb a b) eqn:EP; cbn [negb] in H
           | (if ?c then _ else _) = _ => destruct c
           | match ?x with _ => _ end = _ => destruct x eqn:?
           | bindC ?c _ = _ => destruct c as [[mv | err] | ex]; cbn [bindC] in H
           end; try discriminate H.
    all: injection H as <-; apply piece_eqb_eq in EP; exact EP.
Qed.

(** Where a decoded move comes from: the castling attempt, an attempt on a
    piece letter, or the pawn attempt. *)
Lemma decoded_move_origin b text m :
  calculateMoveFromAlgebraic b text = Normal (Value m) ->
  (exists side,
     calculateMove b (make Fe (if color_eqb b.(turnColor) WHITE then R1 else R8))
       (make (castlingKingFile side) (if color_eqb b.(turnColor) WHITE then R1 else R8))
       None true = Normal (Value m))
  \/ ((exists f t, calculateMove b f t None false = Normal (Value m))
      /\ isPawn m.(piece) = false)
  \/ (exists f t m0 q,
        calculateMove b f t None true = Normal (Value m0)
        /\ m = withPromotion m0 q
        /\ (Js.includesChar text ALGEBRAIC_PROMOTION_CHAR = false -> q = None)).
Proof.
  unfold calculateMoveFromAlgebraic. destruct (Nat.ltb _ 2); [discriminate |].
  intro H. apply bindC_Normal in H. destruct H as (r & HF & H).
  destruct r as [[m0 | err] |]; try discriminate H. injection H as ->.
  cbn [firstNonNull] in HF.
  apply bindC_Normal in HF. destruct HF as ([e |] & HA & HF).
  { injection HF as ->. left. apply castling_attempt_value with (text := text). exact HA. }
  do 5 (apply bindC_Normal in HF; destruct HF as ([e |] & HA' & HF);
        [injection HF as ->; right; left; split; [exact (proj1 (piece_attempt_move _ _ _ HA')) |];
         rewrite (proj2 (piece_attempt_move _ _ _ HA'));
         destruct (color_eqb (turnColor b) WHITE); reflexivity | clear HA']).
  apply bindC_Normal in HF. destruct HF as ([e |] & HA' & HF); [| discriminate HF].
  injection HF as ->. right. right. apply pawn_attempt_value. exact HA'.
Qed.

Lemma withPromotion_fields m q :
  (withPromotion m q).(from) = m.(from) /\ (withPromotion m q).(to) = m.(to)
  /\ (withPromotion m q).(piece) = m.(piece) /\ (withPromotion m q).(turn) = m.(turn).
Proof. repeat split. Qed.

(** X23. A move that [calculateMoveFromAlgebraic] returns is a move of the
    position: its origin holds the piece it names, the piece belongs to the
    side to move, the destination holds no piece of that side, the shape
    rule of the piece accepts the move, and [applyMove] applies it without
    throwing. *)
Theorem decoded_move_applies b text m :
  calculateMoveFromAlgebraic b text = Normal (Value m) ->
  get b.(pieces) m.(from) = Some m.(piece)
  /\ getColor m.(piece) = b.(turnColor)
  /\ m.(turn) = b.(turnColor)
  /\ (forall q, get b.(pieces) m.(to) = Some q -> getColor q <> b.(turnColor))
  /\ shapeRule b m.(from) m.(to) m.(piece) = true
  /\ exists b', applyMove b m = Normal b'.
Proof.
  intro H.
  assert (O : exists f t ign m0,
             calculateMove b f t None ign = Normal (Value m0)
             /\ from m = from m0 /\ to m = to m0 /\ piece m = piece m0 /\ turn m = turn m0).
  { destruct (decoded_move_origin _ _ H)
      as [(side & HC) | [((f & t & HC) & _) | (f & t & m0 & q & HC & -> & _)]].
    - eexists _, _, true, m. split; [exact HC | repeat split].
    - eexists _, _, false, m. split; [exact HC | repeat split].
    - eexists _, _, true, m0. split; [exact HC | repeat split]. }
  destruct O as (f & t & ign & m0 & HC & -> & -> & -> & ->).
  pose proof (calculateMove_facts _ _ _ _ _ HC) as F.
  rewrite (mf_from F), (mf_to F), (mf_turn F).
  split; [exact (mf_piece F) |]. split; [exact (mf_color F) |].
  split; [exact (mf_color F) |]. split; [| split; [exact (mf_shape F) |]].
  - intros q0 Gq Cq. pose proof (mf_target F) as T. rewrite Gq in T.
    rewrite (mf_color F), Cq, color_eqb_refl in T. discriminate T.
  - assert (G : get (pieces b) (from m) = Some (piece m)).
    { destruct (decoded_move_origin _ _ H)
        as [(side & HC') | [((f' & t' & HC') & _) | (f' & t' & m1 & q1 & HC' & -> & _)]];
        pose proof (calculateMove_facts _ _ _ _ _ HC') as F';
        cbn [from piece withPromotion]; rewrite (mf_from F'); exact (mf_piece F'). }
    destruct (applyMove_total b m G) as (b' & Hb & _). exists b'. exact Hb.
Qed.

Lemma decoded_move_applies_witness :
  get initialBoard.(pieces) pawnE2E4.(from) = Some pawnE2E4.(piece)
  /\ getColor pawnE2E4.(piece) = initialBoard.(turnColor)
  /\ pawnE2E4.(turn) = initialBoard.(turnColor)
  /\ (forall q, get initialBoard.(pieces) pawnE2E4.(to) = Some q ->
                getColor q <> initialBoard.(turnColor))
  /\ shapeRule initialBoard pawnE2E4.(from) pawnE2E4.(to) pawnE2E4.(piece) = true
  /\ exists b', applyMove initialBoard pawnE2E4 = Normal b'.
Proof.
  apply (@decoded_move_applies initialBoard "e4" pawnE2E4). vm_compute. reflexivity.
Defined.




(** ** The PGN parser: it ends; the moves and the tags it reads *)

Lemma advanced_refl p : advanced p p.
Proof. split; [reflexivity | apply Nat.le_refl]. Qed.

Lemma advanced_trans p q r : advanced p q -> advanced q r -> advanced p r.
Proof. intros [E1 L1] [E2 L2]. split; [congruence | lia]. Qed.

Lemma string_get_lt s : forall n, (n < String.length s)%nat -> exists c, String.get n s = Some c.
Proof.
  induction s as [| a s IH]; intros n H; cbn [String.length] in H; [lia |].
  destruct n as [| n]; cbn [String.get]; [eauto |]. apply IH. lia.
Qed.

Lemma consumeChar_advanced p : advanced p (snd (Pgn.consumeChar p)).
Proof.
  unfold Pgn.consumeChar. destruct (Pgn.peekChar p); cbn [snd]; [| apply advanced_refl].
  split; cbn; [reflexivity | lia].
Qed.

Lemma consumeChar_more p :
  Pgn.hasMoreChars p = true ->
  Pgn.pgn (snd (Pgn.consumeChar p)) = Pgn.pgn p
  /\ Pgn.offset (snd (Pgn.consumeChar p)) = S (Pgn.offset p).
Proof.
  unfold Pgn.hasMoreChars, Pgn.consumeChar, Pgn.peekChar. intro H.
  apply Nat.ltb_lt in H.
  destruct (Nat.leb (String.length (Pgn.pgn p)) (Pgn.offset p)) eqn:E;
    [apply Nat.leb_le in E; lia |].
  destruct (string_get_lt _ H) as [c G]. unfold Js.charAt. rewrite G. cbn. auto.
Qed.

Lemma skipWhitespaceLoop_advanced fuel : forall p, advanced p (Pgn.skipWhitespaceLoop fuel p).
Proof.
  induction fuel as [| k IH]; intro p; cbn [Pgn.skipWhitespaceLoop]; [apply advanced_refl |].
  destruct (Pgn.peekChar p) as [c |]; [| apply advanced_refl].
  destruct (Pgn.isWhiteSpace c); [| apply advanced_refl].
  exact (advanced_trans (consumeChar_advanced p) (IH _)).
Qed.

Lemma skipWhitespace_advanced p : advanced p (Pgn.skipWhitespace p).
Proof. apply skipWhitespaceLoop_advanced. Qed.

Lemma consumeUntilWhiteSpaceLoop_advanced fuel : forall str p,
  advanced p (snd (Pgn.consumeUntilWhiteSpaceLoop fuel str p)).
Proof.
  induction fuel as [| k IH]; intros str p; cbn [Pgn.consumeUntilWhiteSpaceLoop];
    [apply advanced_refl |].
  destruct (Pgn.peekChar p) as [c |]; [| apply advanced_refl].
  destruct (Pgn.isWhiteSpace c); [apply advanced_refl |].
  exact (advanced_trans (consumeChar_advanced p) (IH _ _)).
Qed.

Lemma consumeUntilWhiteSpace_advanced p : advanced p (snd (Pgn.consumeUntilWhiteSpace p)).
Proof.
  unfold Pgn.consumeUntilWhiteSpace.
  pose proof (consumeUntilWhiteSpaceLoop_advanced (Pgn.fuelOf p) EmptyString p) as H.
  destruct (Pgn.consumeUntilWhiteSpaceLoop _ _ _) as [str q]. cbn [snd] in H.
  destruct (Nat.eqb _ 0); exact H.
Qed.

Lemma skipToCharLoop_advanced fuel target : forall p,
  advanced p (snd (Pgn.skipToCharLoop fuel target p)).
Proof.
  induction fuel as [| k IH]; intro p; cbn [Pgn.skipToCharLoop]; [apply advanced_refl |].
  pose proof (consumeChar_advanced p) as H.
  destruct (Pgn.consumeChar p) as [[c |] q]; cbn [snd] in *; [| exact H].
  destruct (Ascii.eqb c target); [exact H |].
  exact (advanced_trans H (IH _)).
Qed.

Lemma maybeParseMoveComment_advanced p : advanced p (snd (Pgn.maybeParseMoveComment p)).
Proof.
  unfold Pgn.maybeParseMoveComment.
  pose proof (skipWhitespace_advanced p) as H.
  destruct (negb _); [exact H |].
  pose proof (skipToCharLoop_advanced (Pgn.fuelOf (Pgn.skipWhitespace p)) "}"
                (Pgn.skipWhitespace p)) as H2.
  unfold Pgn.skipToChar.
  destruct (Pgn.skipToCharLoop _ _ _) as [found q]. cbn [snd] in H2.
  destruct (negb found); exact (advanced_trans H H2).
Qed.

Lemma parsePieceMove_advanced p b r p' :
  Pgn.parsePieceMove p b = Normal (r, p') -> advanced p p'.
Proof.
  unfold Pgn.parsePieceMove.
  pose proof (skipWhitespace_advanced p) as H1.
  pose proof (consumeUntilWhiteSpace_advanced (Pgn.skipWhitespace p)) as H2.
  destruct (Pgn.consumeUntilWhiteSpace _) as [[moveStr |] q]; cbn [snd] in H2.
  - destruct (calculateMoveFromAlgebraic b moveStr) as [[mv | err] | ex]; cbn [bindC];
      intro H; try discriminate H.
    + pose proof (maybeParseMoveComment_advanced q) as H3.
      destruct (Pgn.maybeParseMoveComment q) as [cm q']. cbn [snd] in H3.
      injection H as _ <-. exact (advanced_trans H1 (advanced_trans H2 H3)).
    + injection H as _ <-. exact (advanced_trans H1 H2).
  - intro H. injection H as _ <-. exact (advanced_trans H1 H2).
Qed.

Lemma length_snoc s c : String.length (s ++ charStr c) = S (String.length s).
Proof. induction s as [| a s IH]; cbn; [reflexivity | rewrite IH; reflexivity]. Qed.

Lemma peekChar_more p c : Pgn.peekChar p = Some c -> Pgn.hasMoreChars p = true.
Proof.
  unfold Pgn.peekChar, Pgn.hasMoreChars.
  destruct (Nat.leb _ _) eqn:E; [discriminate |]. intros _.
  apply Nat.leb_gt in E. apply Nat.ltb_lt. exact E.
Qed.

Lemma parseMoveNumberLoop_advanced fuel : forall str p s p',
  Pgn.parseMoveNumberLoop fuel str p = (Some s, p') ->
  Pgn.pgn p' = Pgn.pgn p
  /\ (String.length s + Pgn.offset p <= String.length str + Pgn.offset p')%nat.
Proof.
  induction fuel as [| k IH]; intros str p s p' H; cbn [Pgn.parseMoveNumberLoop] in H.
  - injection H as <- <-. split; [reflexivity | lia].
  - destruct (Pgn.peekChar p) as [c |] eqn:PK.
    + pose proof (consumeChar_more p (peekChar_more _ PK)) as [E1 E2].
      destruct (Ascii.eqb c "."); [injection H as <- <-; split; [exact E1 | lia] |].
      destruct (negb (isNumberChar c)); [discriminate H |].
      apply IH in H. destruct H as [E3 L]. rewrite length_snoc in L.
      split; [congruence | lia].
    + injection H as <- <-. split; [reflexivity | lia].
Qed.

Lemma parseMoveNumber_advanced p n p' :
  Pgn.parseMoveNumber p = (Some n, p') ->
  Pgn.pgn p' = Pgn.pgn p /\ (Pgn.offset p < Pgn.offset p')%nat.
Proof.
  unfold Pgn.parseMoveNumber. pose proof (skipWhitespace_advanced p) as [E L].
  destruct (Pgn.parseMoveNumberLoop _ _ _) as [[s |] q] eqn:HL; [| discriminate].
  apply parseMoveNumberLoop_advanced in HL. destruct HL as [E2 L2].
  destruct (Nat.eqb (String.length s) 0) eqn:Z; [discriminate |].
  apply Nat.eqb_neq in Z. intro H. injection H as _ <-.
  cbn [String.length] in L2. split; [congruence | lia].
Qed.

(** The fuel of the scanning loops is enough: with more turns than
    characters left, one turn more changes nothing. *)
Lemma skipWhitespaceLoop_fuel fuel : forall p,
  (String.length (Pgn.pgn p) - Pgn.offset p < fuel)%nat ->
  Pgn.skipWhitespaceLoop (S fuel) p = Pgn.skipWhitespaceLoop fuel p.
Proof.
  induction fuel as [| k IH]; intros p H; [lia |].
  change (Pgn.skipWhitespaceLoop (S (S k)) p)
    with (match Pgn.peekChar p with
          | None => p
          | Some c => if Pgn.isWhiteSpace c
                      then Pgn.skipWhitespaceLoop (S k) (snd (Pgn.consumeChar p)) else p
          end).
  change (Pgn.skipWhitespaceLoop (S k) p)
    with (match Pgn.peekChar p with
          | None => p
          | Some c => if Pgn.isWhiteSpace c
                      then Pgn.skipWhitespaceLoop k (snd (Pgn.consumeChar p)) else p
          end).
  destruct (Pgn.peekChar p) as [c |] eqn:PK; [| reflexivity].
  destruct (Pgn.isWhiteSpace c); [| reflexivity].
  destruct (consumeChar_more p (peekChar_more _ PK)) as [E1 E2].
  assert (HM := peekChar_more _ PK). unfold Pgn.hasMoreChars in HM. apply Nat.ltb_lt in HM.
  apply IH. rewrite E1, E2. lia.
Qed.

Lemma consumeUntilWhiteSpaceLoop_fuel fuel : forall str p,
  (String.length (Pgn.pgn p) - Pgn.offset p < fuel)%nat ->
  Pgn.consumeUntilWhiteSpaceLoop (S fuel) str p = Pgn.consumeUntilWhiteSpaceLoop fuel str p.
Proof.
  induction fuel as [| k IH]; intros str p H; [lia |].
  change (Pgn.consumeUntilWhiteSpaceLoop (S (S k)) str p)
    with (match Pgn.peekChar p with
          | None => (str, p)
          | Some c =>
              if Pgn.isWhiteSpace c then (str, p)
              else Pgn.consumeUntilWhiteSpaceLoop (S k) (str ++ charStr c)%string
                     (snd (Pgn.consumeChar p))
          end).
  change (Pgn.consumeUntilWhiteSpaceLoop (S k) str p)
    with (match Pgn.peekChar p with
          | None => (str, p)
          | Some c =>
              if Pgn.isWhiteSpace c then (str, p)
              else Pgn.consumeUntilWhiteSpaceLoop k (str ++ charStr c)%string
                     (snd (Pgn.consumeChar p))
          end).
  destruct (Pgn.peekChar p) as [c |] eqn:PK; [| reflexivity].
  destruct (Pgn.isWhiteSpace c); [reflexivity |].
  destruct (consumeChar_more p (peekChar_more _ PK)) as [E1 E2].
  assert (HM := peekChar_more _ PK). unfold Pgn.hasMoreChars in HM. apply Nat.ltb_lt in HM.
  apply IH. rewrite E1, E2. lia.
Qed.

Lemma consumeChar_end p : Pgn.hasMoreChars p = false -> Pgn.consumeChar p = (None, p).
Proof.
  unfold Pgn.hasMoreChars, Pgn.consumeChar, Pgn.peekChar. intro H.
  apply Nat.ltb_ge in H. apply Nat.leb_le in H. rewrite H. reflexivity.
Qed.

Lemma skipToCharLoop_fuel target fuel : forall p,
  (String.length (Pgn.pgn p) - Pgn.offset p < fuel)%nat ->
  Pgn.skipToCharLoop (S fuel) target p = Pgn.skipToCharLoop fuel target p.
Proof.
  induction fuel as [| k IH]; intros p H; [lia |].
  change (Pgn.skipToCharLoop (S (S k)) target p)
    with (match Pgn.consumeChar p with
          | (None, q) => (false, q)
          | (Some c, q) => if Ascii.eqb c target then (true, q)
                           else Pgn.skipToCharLoop (S k) target q
          end).
  change (Pgn.skipToCharLoop (S k) target p)
    with (match Pgn.consumeChar p with
          | (None, q) => (false, q)
          | (Some c, q) => if Ascii.eqb c target then (true, q)
                           else Pgn.skipToCharLoop k target q
          end).
  destruct (Pgn.hasMoreChars p) eqn:HM.
  - destruct (consumeChar_more p HM) as [E1 E2].
    unfold Pgn.hasMoreChars in HM. apply Nat.ltb_lt in HM.
    destruct (Pgn.consumeChar p) as [[c |] q]; [| reflexivity]. cbn [snd] in E1, E2.
    destruct (Ascii.eqb c target); [reflexivity |].
    apply IH. rewrite E1, E2. lia.
  - rewrite (consumeChar_end p HM). reflexivity.
Qed.

Lemma parseMoveNumberLoop_fuel fuel : forall str p,
  (String.length (Pgn.pgn p) - Pgn.offset p < fuel)%nat ->
  Pgn.parseMoveNumberLoop (S fuel) str p = Pgn.parseMoveNumberLoop fuel str p.
Proof.
  induction fuel as [| k IH]; intros str p H; [lia |].
  change (Pgn.parseMoveNumberLoop (S (S k)) str p)
    with (match Pgn.peekChar p with
          | None => (Some str, p)
          | Some c =>
              if Ascii.eqb c "." then (Some str, snd (Pgn.consumeChar p))
              else if negb (isNumberChar c) then (None, p)
              else Pgn.parseMoveNumberLoop (S k) (str ++ charStr c)%string
                     (snd (Pgn.consumeChar p))
          end).
  change (Pgn.parseMoveNumberLoop (S k) str p)
    with (match Pgn.peekChar p with
          | None => (Some str, p)
          | Some c =>
              if Ascii.eqb c "." then (Some str, snd (Pgn.consumeChar p))
              else if negb (isNumberChar c) then (None, p)
              else Pgn.parseMoveNumberLoop k (str ++ charStr c)%string
                     (snd (Pgn.consumeChar p))
          end).
  destruct (Pgn.peekChar p) as [c |] eqn:PK; [| reflexivity].
  destruct (Ascii.eqb c "."); [reflexivity |].
  destruct (negb (isNumberChar c)); [reflexivity |].
  destruct (consumeChar_more p (peekChar_more _ PK)) as [E1 E2].
  assert (HM := peekChar_more _ PK). unfold Pgn.hasMoreChars in HM. apply Nat.ltb_lt in HM.
  apply IH. rewrite E1, E2. lia.
Qed.

Lemma parseLoop_ends fuel : forall p board cm lvl,
  (String.length (Pgn.pgn p) - Pgn.offset p < fuel)%nat ->
  Pgn.parseLoop fuel p board cm lvl <> None.
Proof.
  induction fuel as [| k IH]; intros p board cm lvl HF; [lia |].
  cbn [Pgn.parseLoop].
  destruct (Pgn.hasMoreChars p) eqn:HM; cbn [negb]; [| discriminate].
  pose proof (consumeChar_more p HM) as [E1 E2].
  assert (HM' := HM). unfold Pgn.hasMoreChars in HM'. apply Nat.ltb_lt in HM'.
  assert (NEXT : forall b c l, Pgn.parseLoop k (snd (Pgn.consumeChar p)) b c l <> None).
  { intros b c l. apply IH. rewrite E1, E2. lia. }
  destruct cm as [mode |]; [apply NEXT |].
  repeat match goal with
         | |- (if ?c then _ else _) <> None => destruct c
         end; try apply NEXT; try discriminate.
  destruct (Pgn.parseMoveNumber p) as [[n |] p1] eqn:HN; [| discriminate].
  apply parseMoveNumber_advanced in HN. destruct HN as [EN LN].
  destruct (Pgn.parsePieceMove p1 board) as [[[mv | [err |]] p2] | ex] eqn:H1;
    try discriminate.
  apply parsePieceMove_advanced in H1. destruct H1 as [EP1 LP1].
  destruct (applyMove board mv) as [board1 | ex]; [| discriminate].
  destruct (Pgn.parsePieceMove p2 board1) as [[[mv2 | [err |]] p3] | ex] eqn:H2;
    try discriminate.
  - apply parsePieceMove_advanced in H2. destruct H2 as [EP2 LP2].
    destruct (applyMove board1 mv2) as [board2 | ex]; [| discriminate].
    apply IH. rewrite EP2, EP1, EN. lia.
  - cbv zeta. match goal with |- (if ?c then _ else _) <> None => destruct c end;
      discriminate.
Qed.

(** X25. The PGN parser ends on every text: [parsePGNMoves] returns the
    moves or throws, the loops of the parser never run for ever. *)
Theorem parsePGNMoves_ends (pgnText : string) :
  exists r, Pgn.parsePGNMoves pgnText = Some r.
Proof.
  unfold Pgn.parsePGNMoves, Pgn.parse, Pgn.parseBoard. cbv zeta.
  destruct (parseFen _) as [board | ex]; [| eauto].
  match goal with
  | |- context [Pgn.parseLoop ?f ?p ?b ?c ?l] =>
      pose proof (@parseLoop_ends f p b c l) as H; destruct (Pgn.parseLoop f p b c l) as [[st | ex] |]
  end.
  - destruct (0 <? Pgn.stVariationLevel st); [eauto |].
    destruct (Pgn.stComment st) as [[|] |]; eauto.
  - eauto.
  - exfalso. apply H; [| reflexivity]. unfold Pgn.fuelOf. lia.
Qed.

Lemma applyMove_moves b m b' :
  applyMove b m = Normal b' -> b'.(moves) = (b.(moves) ++ [m])%list.
Proof.
  intro H. rewrite (applyMove_inv _ _ H). cbn [moves withAllowedMoves].
  unfold boardBeforeFill, applyCastlingMove. cbv zeta.
  destruct (castling m) as [[|] |]; try reflexivity.
  destruct (isPawn (piece m) || isCapture m)%bool;
    destruct (isPawn (piece m) && _)%bool; reflexivity.
Qed.

Lemma parseFen_moves fen b : parseFen fen = Normal b -> b.(moves) = [].
Proof.
  unfold parseFen. cbv zeta.
  destruct (Nat.ltb _ 1); [discriminate |].
  destruct (negb (Nat.eqb _ 8)); [discriminate |].
  intro H. apply bindC_Normal in H. destruct H as (ps & _ & H).
  apply bindC_Normal in H. destruct H as (ep & _ & H).
  destruct (Js.parseInt _) as [hm |]; [| discriminate H].
  destruct (hm <? 0); [discriminate H |].
  destruct (Js.parseInt _) as [fm |]; [| discriminate H].
  destruct (fm <? 1); [discriminate H |].
  rewrite (@fillAllowedMoves_frame _ _ H). reflexivity.
Qed.

(** *** The moves read from the text *)

Lemma movesRead_earlier text o o' b ms b' :
  (o' <= o)%nat -> movesRead text o b ms b' -> movesRead text o' b ms b'.
Proof.
  intros L H. destruct H as [o b | o o1 b token m0 c b1 ms b' L1 T D A R].
  - apply movesRead_end.
  - exact (@movesRead_move text o' o1 b token m0 c b1 ms b' (Nat.le_trans _ _ _ L L1) T D A R).
Qed.

Lemma movesRead_replay text o b ms b' :
  movesRead text o b ms b' -> replay b ms = Normal b'.
Proof.
  induction 1 as [o b | o o1 b token m0 c b1 ms b' L1 T D A R IH]; cbn [replay].
  - reflexivity.
  - rewrite A. cbn [bindC]. exact IH.
Qed.

Lemma movesRead_moves text o b ms b' :
  movesRead text o b ms b' -> b'.(moves) = (b.(moves) ++ ms)%list.
Proof.
  induction 1 as [o b | o o1 b token m0 c b1 ms b' L1 T D A R IH].
  - rewrite app_nil_r. reflexivity.
  - rewrite IH, (applyMove_moves _ _ A), <- app_assoc. reflexivity.
Qed.

Lemma peekChar_get p c :
  Pgn.peekChar p = Some c -> String.get (Pgn.offset p) (Pgn.pgn p) = Some c.
Proof.
  unfold Pgn.peekChar, Js.charAt. destruct (Nat.leb _ _); [discriminate | auto].
Qed.

Lemma substring_get s : forall o n c,
  String.get o s = Some c ->
  String.substring o (S n) s = String c (String.substring (S o) n s).
Proof.
  induction s as [| a s IH]; intros o n c G; [destruct o; discriminate G |].
  destruct o as [| o]; cbn [String.get] in G.
  - injection G as <-. reflexivity.
  - cbn [String.substring]. exact (IH o n c G).
Qed.

Lemma substring_none o s : String.substring o 0 s = EmptyString.
Proof.
  revert o. induction s as [| a s IH]; intros [| o]; cbn [String.substring]; auto.
Qed.

Lemma append_snoc s c t : ((s ++ charStr c) ++ t = s ++ String c t)%string.
Proof. induction s as [| a s IH]; cbn; [reflexivity | rewrite IH; reflexivity]. Qed.

(** The loop of [consumeUntilWhiteSpace] appends the characters of the text
    that it passes, none of them white space. *)
Lemma consumeUntilWhiteSpaceLoop_text fuel : forall str p str' p',
  Pgn.consumeUntilWhiteSpaceLoop fuel str p = (str', p') ->
  exists t,
    str' = (str ++ t)%string
    /\ String.substring (Pgn.offset p) (String.length t) (Pgn.pgn p) = t
    /\ allChars (fun c => negb (Pgn.isWhiteSpace c)) t = true
    /\ Pgn.offset p' = (Pgn.offset p + String.length t)%nat
    /\ Pgn.pgn p' = Pgn.pgn p.
Proof.
  assert (STOP : forall (str : string) (p : Pgn.PGNParser),
             exists t,
               str = (str ++ t)%string
               /\ String.substring (Pgn.offset p) (String.length t) (Pgn.pgn p) = t
               /\ allChars (fun c => negb (Pgn.isWhiteSpace c)) t = true
               /\ Pgn.offset p = (Pgn.offset p + String.length t)%nat
               /\ Pgn.pgn p = Pgn.pgn p).
  { intros str p. exists EmptyString. cbn [String.length allChars].
    rewrite substring_none, Nat.add_0_r.
    assert (E : (str ++ "")%string = str)
      by (clear; induction str as [| a s IH]; cbn; [| rewrite IH]; reflexivity).
    rewrite E. auto. }
  induction fuel as [| k IH]; intros str p str' p' H;
    cbn [Pgn.consumeUntilWhiteSpaceLoop] in H.
  - injection H as <- <-. apply STOP.
  - destruct (Pgn.peekChar p) as [c |] eqn:PK; [| injection H as <- <-; apply STOP].
    destruct (Pgn.isWhiteSpace c) eqn:WS; [injection H as <- <-; apply STOP |].
    destruct (consumeChar_more p (peekChar_more _ PK)) as [E1 E2].
    apply IH in H. destruct H as (t & ES & SUB & AC & EO & EP).
    rewrite E1, E2 in *.
    exists (String c t). cbn [String.length allChars]. rewrite WS, AC.
    rewrite (@substring_get (Pgn.pgn p) (Pgn.offset p) (String.length t) c (@peekChar_get p c PK)), SUB.
    split; [rewrite ES; apply append_snoc |].
    split; [reflexivity |]. split; [reflexivity |]. split; [lia | exact EP].
Qed.

Lemma parsePieceMove_read p b mv p' :
  Pgn.parsePieceMove p b = Normal (Value mv, p') ->
  advanced p p'
  /\ exists o1 token m0 c,
      (Pgn.offset p <= o1)%nat
      /\ tokenAt (Pgn.pgn p) o1 token
      /\ calculateMoveFromAlgebraic b token = Normal (Value m0)
      /\ mv = withComment m0 c
      /\ (o1 + String.length token <= Pgn.offset p')%nat.
Proof.
  intro H. split; [exact (parsePieceMove_advanced _ _ H) |].
  unfold Pgn.parsePieceMove in H.
  pose proof (skipWhitespace_advanced p) as [E1 L1].
  unfold Pgn.consumeUntilWhiteSpace in H.
  destruct (Pgn.consumeUntilWhiteSpaceLoop _ _ _) as [str q] eqn:HL.
  apply consumeUntilWhiteSpaceLoop_text in HL.
  destruct HL as (t & ES & SUB & AC & EO & EP). cbn [append] in ES. subst str.
  destruct (Nat.eqb (String.length t) 0) eqn:Z; [discriminate H |].
  destruct (calculateMoveFromAlgebraic b t) as [[m0 | err] | ex] eqn:D; cbn [bindC] in H;
    try discriminate H.
  pose proof (maybeParseMoveComment_advanced q) as [E3 L3].
  destruct (Pgn.maybeParseMoveComment q) as [cm q']. cbn [snd] in E3, L3.
  injection H as <- <-.
  exists (Pgn.offset (Pgn.skipWhitespace p)), t, m0, cm.
  split; [exact L1 |]. split; [| split; [exact D | split; [reflexivity | lia]]].
  split; [| split; [rewrite <- E1; exact SUB | exact AC]].
  intros ->. discriminate Z.
Qed.

Lemma parseLoop_read fuel : forall p board cm lvl st,
  Pgn.parseLoop fuel p board cm lvl = Some (Normal st) ->
  exists ms, movesRead (Pgn.pgn p) (Pgn.offset p) board ms (Pgn.stBoard st).
Proof.
  induction fuel as [| k IH]; intros p board cm lvl st H; [discriminate H |].
  cbn [Pgn.parseLoop] in H.
  assert (DONE : forall q c l,
             Some (Normal {| Pgn.stParser := q; Pgn.stBoard := board; Pgn.stComment := c;
                             Pgn.stVariationLevel := l |}) = Some (Normal st) ->
             exists ms, movesRead (Pgn.pgn p) (Pgn.offset p) board ms (Pgn.stBoard st)).
  { intros q c l E. injection E as <-. exists []. apply movesRead_end. }
  assert (NEXT : forall c l,
             Pgn.parseLoop k (snd (Pgn.consumeChar p)) board c l = Some (Normal st) ->
             exists ms, movesRead (Pgn.pgn p) (Pgn.offset p) board ms (Pgn.stBoard st)).
  { intros c l E. destruct (IH _ _ _ _ _ E) as [ms R].
    destruct (consumeChar_advanced p) as [E1 L1]. rewrite E1 in R.
    exists ms. exact (movesRead_earlier L1 R). }
  destruct (negb (Pgn.hasMoreChars p)); [exact (DONE _ _ _ H) |].
  destruct cm as [mode |]; [exact (NEXT _ _ H) |].
  repeat match type of H with
         | (if ?c then _ else _) = _ => destruct c
         end; try exact (NEXT _ _ H); try discriminate H.
  destruct (Pgn.parseMoveNumber p) as [[n |] p1] eqn:HN; [| exact (DONE _ _ _ H)].
  apply parseMoveNumber_advanced in HN. destruct HN as [EN LN].
  destruct (Pgn.parsePieceMove p1 board) as [[[mv | [err |]] p2] | ex] eqn:P1;
    try discriminate H.
  apply parsePieceMove_read in P1.
  destruct P1 as ([EP1 LP1] & o1 & token & m0 & c & LO & T & D & -> & LE).
  rewrite EN in T.
  destruct (applyMove board (withComment m0 c)) as [board1 | ex] eqn:A1; [| discriminate H].
  assert (STEP : forall ms o',
             (o1 + String.length token <= o')%nat ->
             movesRead (Pgn.pgn p) o' board1 ms (Pgn.stBoard st) ->
             exists ms', movesRead (Pgn.pgn p) (Pgn.offset p) board ms' (Pgn.stBoard st)).
  { intros ms o' LO' R. exists (withComment m0 c :: ms).
    apply (@movesRead_move (Pgn.pgn p) (Pgn.offset p) o1 board token m0 c board1 ms
             (Pgn.stBoard st)); [lia | exact T | exact D | exact A1 |].
    exact (movesRead_earlier LO' R). }
  destruct (Pgn.parsePieceMove p2 board1) as [[[mv2 | [err |]] p3] | ex] eqn:P2;
    try discriminate H.
  - apply parsePieceMove_read in P2.
    destruct P2 as ([EP2 LP2] & o2 & token2 & m2 & c2 & LO2 & T2 & D2 & -> & LE2).
    rewrite EP1, EN in T2.
    destruct (applyMove board1 (withComment m2 c2)) as [board2 | ex] eqn:A2;
      [| discriminate H].
    destruct (IH _ _ _ _ _ H) as [ms R]. rewrite EP2, EP1, EN in R.
    apply (STEP (withComment m2 c2 :: ms) (Pgn.offset p2)); [exact LE |].
    apply (@movesRead_move (Pgn.pgn p) (Pgn.offset p2) o2 board1 token2 m2 c2 board2 ms
             (Pgn.stBoard st)); [exact LO2 | exact T2 | exact D2 | exact A2 |].
    exact (movesRead_earlier LE2 R).
  - cbv zeta in H.
    match type of H with (if ?c then _ else _) = _ => destruct c end; [discriminate H |].
    injection H as <-. cbn [Pgn.stBoard].
    apply (STEP [] (o1 + String.length token)%nat); [apply Nat.le_refl |].
    apply movesRead_end.
Qed.

(** *** The FEN tag *)

Lemma getTag_setTag_other t k v k' :
  k <> k' -> Pgn.getTag (Pgn.setTag t k v) k' = Pgn.getTag t k'.
Proof.
  intro NE. induction t as [| [k0 v0] t IH]; cbn [Pgn.setTag Pgn.getTag].
  - destruct (String.eqb k k') eqn:E; [apply String.eqb_eq in E; contradiction | reflexivity].
  - destruct (String.eqb k0 k) eqn:E0; cbn [Pgn.getTag].
    + apply String.eqb_eq in E0. subst k0.
      destruct (String.eqb k k') eqn:E; [apply String.eqb_eq in E; contradiction | reflexivity].
    + destruct (String.eqb k0 k'); [reflexivity | exact IH].
Qed.

Lemma getTag_setTag_same t k v : Pgn.getTag (Pgn.setTag t k v) k = Some v.
Proof.
  induction t as [| [k0 v0] t IH]; cbn [Pgn.setTag Pgn.getTag].
  - rewrite String.eqb_refl. reflexivity.
  - destruct (String.eqb k0 k) eqn:E0; cbn [Pgn.getTag]; rewrite E0; [reflexivity | exact IH].
Qed.

Lemma setTag_noFenTag t k v :
  noFenTag t -> (k = "FEN"%string -> v = EmptyString) -> noFenTag (Pgn.setTag t k v).
Proof.
  intros N HK w G. destruct (string_dec k "FEN") as [E | NE].
  - subst k. rewrite getTag_setTag_same in G. injection G as <-. exact (HK eq_refl).
  - rewrite (getTag_setTag_other t v NE) in G. exact (N w G).
Qed.

Lemma includesChar_substring s c : forall a n i,
  String.get i s = Some c -> (a <= i < a + n)%nat ->
  Js.includesChar (String.substring a n s) c = true.
Proof.
  induction s as [| d s IH]; intros a n i G L; [destruct i; discriminate G |].
  destruct a as [| a].
  - destruct n as [| n]; [lia |]. cbn [String.substring Js.includesChar].
    destruct i as [| i]; cbn [String.get] in G.
    + injection G as ->. rewrite Ascii.eqb_refl. reflexivity.
    + rewrite (IH 0%nat n i G) by lia. apply orb_true_r.
  - destruct i as [| i]; [lia |]. cbn [String.get] in G. cbn [String.substring].
    apply (IH a n i G). lia.
Qed.

Lemma length_substring s : forall a n, (String.length (String.substring a n s) <= n)%nat.
Proof.
  induction s as [| d s IH]; intros [| a] [| n]; cbn [String.substring String.length];
    try lia.
  - specialize (IH 0%nat n). lia.
  - apply IH.
  - apply IH.
Qed.

Lemma includesChar_trimStart s c :
  Js.isJsSpace c = false -> Js.includesChar (Js.trimStart s) c = Js.includesChar s c.
Proof.
  intro NS. induction s as [| d s IH]; [reflexivity |].
  cbn [Js.trimStart]. destruct (Js.isJsSpace d) eqn:SD; [| reflexivity].
  cbn [Js.includesChar]. rewrite IH.
  destruct (Ascii.eqb d c) eqn:E; [| reflexivity].
  apply Ascii.eqb_eq in E. subst d. rewrite SD in NS. discriminate NS.
Qed.

Lemma includesChar_revString s c : forall acc,
  Js.includesChar (Js.revString s acc) c = (Js.includesChar s c || Js.includesChar acc c)%bool.
Proof.
  induction s as [| d s IH]; intro acc; cbn [Js.revString Js.includesChar]; [reflexivity |].
  rewrite IH. cbn [Js.includesChar].
  destruct (Ascii.eqb d c), (Js.includesChar s c), (Js.includesChar acc c); reflexivity.
Qed.

Lemma includesChar_trim s c :
  Js.isJsSpace c = false -> Js.includesChar (Js.trim s) c = Js.includesChar s c.
Proof.
  intro NS. unfold Js.trim.
  rewrite includesChar_revString, (@includesChar_trimStart _ c NS), includesChar_revString,
    (@includesChar_trimStart _ c NS).
  cbn [Js.includesChar]. rewrite !orb_false_r. reflexivity.
Qed.

Lemma length_trimStart s : (String.length (Js.trimStart s) <= String.length s)%nat.
Proof.
  induction s as [| d s IH]; [apply Nat.le_refl |].
  cbn [Js.trimStart]. destruct (Js.isJsSpace d); cbn [String.length]; lia.
Qed.

Lemma length_revString s : forall acc,
  String.length (Js.revString s acc) = (String.length s + String.length acc)%nat.
Proof.
  induction s as [| d s IH]; intro acc; cbn [Js.revString String.length]; [reflexivity |].
  rewrite IH. cbn [String.length]. lia.
Qed.

Lemma length_trim s : (String.length (Js.trim s) <= String.length s)%nat.
Proof.
  unfold Js.trim. rewrite length_revString. cbn [String.length].
  pose proof (length_trimStart (Js.revString (Js.trimStart s) "")) as H1.
  rewrite length_revString in H1. cbn [String.length] in H1.
  pose proof (length_trimStart s). lia.
Qed.

Lemma consumeChar_tags p : Pgn.tags (snd (Pgn.consumeChar p)) = Pgn.tags p.
Proof. unfold Pgn.consumeChar. destruct (Pgn.peekChar p); reflexivity. Qed.

Lemma skipWhitespaceLoop_tags fuel : forall p,
  Pgn.tags (Pgn.skipWhitespaceLoop fuel p) = Pgn.tags p.
Proof.
  induction fuel as [| k IH]; intro p; cbn [Pgn.skipWhitespaceLoop]; [reflexivity |].
  destruct (Pgn.peekChar p) as [c |]; [| reflexivity].
  destruct (Pgn.isWhiteSpace c); [| reflexivity].
  rewrite IH. apply consumeChar_tags.
Qed.

Lemma skipToCharLoop_tags fuel target : forall p,
  Pgn.tags (snd (Pgn.skipToCharLoop fuel target p)) = Pgn.tags p.
Proof.
  induction fuel as [| k IH]; intro p; cbn [Pgn.skipToCharLoop]; [reflexivity |].
  pose proof (consumeChar_tags p) as H.
  destruct (Pgn.consumeChar p) as [[c |] q]; cbn [snd] in *; [| exact H].
  destruct (Ascii.eqb c target); cbn [snd]; [exact H |].
  rewrite IH. exact H.
Qed.

(** When [skipToChar] finds the character, it stands just before the place
    where the parser is left. *)
Lemma skipToCharLoop_found fuel target : forall p p',
  Pgn.skipToCharLoop fuel target p = (true, p') ->
  (Pgn.offset p < Pgn.offset p')%nat
  /\ String.get (Pgn.offset p' - 1) (Pgn.pgn p) = Some target.
Proof.
  induction fuel as [| k IH]; intros p p' H; cbn [Pgn.skipToCharLoop] in H;
    [discriminate H |].
  destruct (Pgn.hasMoreChars p) eqn:HM;
    [| rewrite (consumeChar_end p HM) in H; discriminate H].
  destruct (consumeChar_more p HM) as [E1 E2].
  assert (G : forall c, fst (Pgn.consumeChar p) = Some c ->
                        String.get (Pgn.offset p) (Pgn.pgn p) = Some c).
  { unfold Pgn.consumeChar. intro c.
    destruct (Pgn.peekChar p) as [d |] eqn:PK; cbn [fst]; [| discriminate].
    intro E. injection E as <-. exact (@peekChar_get p d PK). }
  destruct (Pgn.consumeChar p) as [[c |] q]; cbn [snd fst] in *; [| discriminate H].
  destruct (Ascii.eqb c target) eqn:E.
  - injection H as <-. apply Ascii.eqb_eq in E. subst c. rewrite E2.
    split; [lia |]. replace (S (Pgn.offset p) - 1)%nat with (Pgn.offset p) by lia.
    exact (G target eq_refl).
  - apply IH in H. destruct H as [L GT]. rewrite E1 in GT. rewrite E2 in L.
    split; [lia | exact GT].
Qed.

Lemma consumeChar_some p : Pgn.hasMoreChars p = true -> fst (Pgn.consumeChar p) <> None.
Proof.
  unfold Pgn.hasMoreChars, Pgn.consumeChar, Pgn.peekChar. intro H.
  apply Nat.ltb_lt in H.
  destruct (Nat.leb (String.length (Pgn.pgn p)) (Pgn.offset p)) eqn:E;
    [apply Nat.leb_le in E; lia |].
  destruct (string_get_lt _ H) as [c G]. unfold Js.charAt. rewrite G. discriminate.
Qed.

(** When it does not, the parser is left at the end of the text. *)
Lemma skipToCharLoop_not_found fuel target : forall p p',
  (String.length (Pgn.pgn p) - Pgn.offset p < fuel)%nat ->
  Pgn.skipToCharLoop fuel target p = (false, p') ->
  Pgn.hasMoreChars p' = false.
Proof.
  induction fuel as [| k IH]; intros p p' HF H; [lia |].
  cbn [Pgn.skipToCharLoop] in H.
  destruct (Pgn.hasMoreChars p) eqn:HM.
  - destruct (consumeChar_more p HM) as [E1 E2].
    pose proof (consumeChar_some p HM) as SM.
    unfold Pgn.hasMoreChars in HM. apply Nat.ltb_lt in HM.
    destruct (Pgn.consumeChar p) as [[c |] q]; cbn [snd fst] in *;
      [| exfalso; apply SM; reflexivity].
    destruct (Ascii.eqb c target); [discriminate H |].
    apply (IH q p'); [rewrite E1, E2; lia | exact H].
  - rewrite (consumeChar_end p HM) in H. injection H as <-. exact HM.
Qed.

Lemma parseMetadataLoop_advanced fuel : forall p, advanced p (Pgn.parseMetadataLoop fuel p).
Proof.
  induction fuel as [| k IH]; intro p; cbn [Pgn.parseMetadataLoop]; [apply advanced_refl |].
  destruct (Js.optCharEqb (Pgn.peekChar p) "["); [| apply advanced_refl].
  cbv zeta. eapply advanced_trans; [| apply IH].
  eapply advanced_trans; [| apply skipWhitespace_advanced].
  eapply advanced_trans; [| apply skipToCharLoop_advanced].
  eapply advanced_trans; [apply consumeChar_advanced |].
  eapply advanced_trans; [apply skipToCharLoop_advanced |].
  eapply advanced_trans; [apply consumeChar_advanced |].
  eapply advanced_trans; [apply skipToCharLoop_advanced |].
  split; [reflexivity | apply Nat.le_refl].
Qed.

(** The name that [parseMetadata] gives a tag starts one character after
    the place where the tag's own name starts and ends one character after
    the opening quote, so it holds the quote, or at most one character; and
    when there is no quote, the value is empty.  So no tag gives a FEN text
    other than the empty one. *)
Lemma parseMetadataLoop_noFenTag fuel : forall p,
  noFenTag (Pgn.tags p) -> noFenTag (Pgn.tags (Pgn.parseMetadataLoop fuel p)).
Proof.
  induction fuel as [| k IH]; intros p N; cbn [Pgn.parseMetadataLoop]; [exact N |].
  destruct (Js.optCharEqb (Pgn.peekChar p) "["); [| exact N].
  cbv zeta. apply IH.
  unfold Pgn.skipWhitespace. rewrite skipWhitespaceLoop_tags.
  unfold Pgn.skipToChar at 1. rewrite skipToCharLoop_tags.
  cbn [Pgn.tags Pgn.withTags].
  set (p0 := snd (Pgn.consumeChar p)).
  destruct (Pgn.skipToChar Pgn.DOUBLE_QUOTE p0) as [found p1] eqn:S1. cbn [snd].
  set (p2 := snd (Pgn.consumeChar p1)).
  destruct (Pgn.skipToChar Pgn.DOUBLE_QUOTE p2) as [found2 p3] eqn:S2. cbn [snd].
  assert (T3 : Pgn.tags p3 = Pgn.tags p).
  { pose proof (skipToCharLoop_tags (Pgn.fuelOf p2) Pgn.DOUBLE_QUOTE p2) as H3.
    unfold Pgn.skipToChar in S2. rewrite S2 in H3. cbn [snd] in H3.
    pose proof (skipToCharLoop_tags (Pgn.fuelOf p0) Pgn.DOUBLE_QUOTE p0) as H1.
    unfold Pgn.skipToChar in S1. rewrite S1 in H1. cbn [snd] in H1.
    rewrite H3. unfold p2. rewrite consumeChar_tags, H1. unfold p0.
    apply consumeChar_tags. }
  rewrite T3.
  assert (P1 : advanced p0 p1).
  { pose proof (skipToCharLoop_advanced (Pgn.fuelOf p0) Pgn.DOUBLE_QUOTE p0) as H.
    unfold Pgn.skipToChar in S1. rewrite S1 in H. exact H. }
  assert (P2 : advanced p1 p2) by apply consumeChar_advanced.
  assert (P3 : advanced p2 p3).
  { pose proof (skipToCharLoop_advanced (Pgn.fuelOf p2) Pgn.DOUBLE_QUOTE p2) as H.
    unfold Pgn.skipToChar in S2. rewrite S2 in H. exact H. }
  destruct P1 as [E1 L1], P2 as [E2 L2], P3 as [E3 L3].
  apply setTag_noFenTag; [exact N |]. intro HN.
  destruct found.
  - (* the opening quote is found: the name is not FEN *)
    exfalso. unfold Pgn.skipToChar in S1. apply skipToCharLoop_found in S1.
    destruct S1 as [LT GQ]. rewrite <- E1, <- E2 in GQ.
    destruct (Nat.eq_dec (Pgn.offset p1 - 1) (Pgn.offset p0)) as [EQ | NEQ].
    + pose proof (length_trim (Js.slice (Pgn.pgn p2) (Pgn.offset p0 + 1) (Pgn.offset p2)))
        as LT1.
      pose proof (length_substring (Pgn.pgn p2) (Pgn.offset p0 + 1)
                    (Pgn.offset p2 - (Pgn.offset p0 + 1))) as LT2.
      rewrite HN in LT1. unfold Js.slice in LT1. cbn [String.length] in LT1.
      assert (LP2 : (Pgn.offset p2 <= S (Pgn.offset p1))%nat).
      { unfold p2, Pgn.consumeChar. destruct (Pgn.peekChar p1); cbn [snd Pgn.offset]; lia. }
      lia.
    + assert (IC : Js.includesChar
                     (Js.trim (Js.slice (Pgn.pgn p2) (Pgn.offset p0 + 1) (Pgn.offset p2)))
                     Pgn.DOUBLE_QUOTE = true).
      { rewrite includesChar_trim by reflexivity.
        unfold Js.slice.
        apply (@includesChar_substring (Pgn.pgn p2) Pgn.DOUBLE_QUOTE (Pgn.offset p0 + 1)
                 (Pgn.offset p2 - (Pgn.offset p0 + 1)) (Pgn.offset p1 - 1) GQ).
        assert (LP2 : (Pgn.offset p1 <= Pgn.offset p2)%nat) by exact L2.
        lia. }
      rewrite HN in IC. discriminate IC.
  - (* no quote: the parser is at the end, and the value is empty *)
    unfold Pgn.skipToChar in S1.
    apply skipToCharLoop_not_found in S1; [| unfold Pgn.fuelOf; lia].
    assert (Q2 : p2 = p1) by (unfold p2; rewrite (consumeChar_end p1 S1); reflexivity).
    rewrite Q2 in S2. unfold Pgn.skipToChar, Pgn.fuelOf in S2.
    cbn [Pgn.skipToCharLoop] in S2. rewrite (consumeChar_end p1 S1) in S2.
    injection S2 as _ <-. rewrite Q2.
    unfold Js.slice.
    replace (Pgn.offset p1 - 1 - Pgn.offset p1)%nat with 0%nat by lia.
    rewrite substring_none. reflexivity.
Qed.

Lemma parseMetadata_noFenTag p : noFenTag (Pgn.tags (Pgn.parseMetadata p)).
Proof.
  unfold Pgn.parseMetadata. cbv zeta. apply parseMetadataLoop_noFenTag.
  unfold Pgn.skipWhitespace. rewrite skipWhitespaceLoop_tags. intros v G. discriminate G.
Qed.

Lemma parseMetadata_advanced p : advanced p (Pgn.parseMetadata p).
Proof.
  unfold Pgn.parseMetadata. cbv zeta.
  eapply advanced_trans; [| apply parseMetadataLoop_advanced].
  eapply advanced_trans; [| apply skipWhitespace_advanced].
  split; [reflexivity | apply Nat.le_refl].
Qed.

(** [parse] starts from the initial position or throws. *)
Lemma parse_start p :
  parseFen (Js.nullish (Pgn.getTag (Pgn.tags (Pgn.parseMetadata p)) "FEN") INITIAL_FEN)
  = Normal initialBoard
  \/ exists e,
      parseFen (Js.nullish (Pgn.getTag (Pgn.tags (Pgn.parseMetadata p)) "FEN") INITIAL_FEN)
      = Throw e.
Proof.
  pose proof (@parseMetadata_noFenTag p) as N. unfold noFenTag in N.
  destruct (Pgn.getTag (Pgn.tags (Pgn.parseMetadata p)) "FEN") as [v |]; cbn [Js.nullish].
  - rewrite (N v eq_refl). right. eexists. vm_compute. reflexivity.
  - left. exact (proj1 named_boards_parsed).
Qed.

(** The tag of a text with a well-formed FEN tag is stored under another
    name, and no FEN tag is found. *)
Lemma fen_tag_is_not_found :
  Pgn.tags (Pgn.parseMetadata (pgnParserOf pgnWithFenTag))
  = [(storedTagName, "k/4P3/8/8/8/8/8/K7 w - - 0 1"%string)]
  /\ Pgn.getTag (Pgn.tags (Pgn.parseMetadata (pgnParserOf pgnWithFenTag))) "FEN" = None.
Proof. split; vm_compute; reflexivity. Qed.

(** ** FEN: strings *)

Lemma append_nil_r s : (s ++ "")%string = s.
Proof. induction s as [| a s IH]; cbn; [reflexivity | rewrite IH; reflexivity]. Qed.

Lemma append_assoc s1 s2 s3 : ((s1 ++ s2) ++ s3 = s1 ++ (s2 ++ s3))%string.
Proof. induction s1 as [| a s1 IH]; cbn; [reflexivity | rewrite IH; reflexivity]. Qed.

Lemma splitAux_no_sep sep s : forall cur,
  Js.includesChar s sep = false -> Js.splitAux sep s cur = [(cur ++ s)%string].
Proof.
  induction s as [| a s IH]; intros cur H; cbn [Js.splitAux].
  - rewrite append_nil_r. reflexivity.
  - cbn [Js.includesChar] in H. apply orb_false_iff in H. destruct H as [H1 H2].
    rewrite H1, (IH _ H2), append_assoc. reflexivity.
Qed.

Lemma splitAux_sep sep s rest : forall cur,
  Js.includesChar s sep = false ->
  Js.splitAux sep (s ++ String sep rest) cur = (cur ++ s)%string :: Js.splitAux sep rest "".
Proof.
  induction s as [| a s IH]; intros cur H; cbn [Js.splitAux append].
  - rewrite Ascii.eqb_refl, append_nil_r. reflexivity.
  - cbn [Js.includesChar] in H. apply orb_false_iff in H. destruct H as [H1 H2].
    rewrite H1, (IH _ H2), append_assoc. reflexivity.
Qed.

Lemma split_cons sep s rest :
  Js.includesChar s sep = false ->
  Js.split (s ++ String sep rest) sep = s :: Js.split rest sep.
Proof. intro H. unfold Js.split. rewrite (@splitAux_sep sep s rest EmptyString H). reflexivity. Qed.

Lemma split_one sep s : Js.includesChar s sep = false -> Js.split s sep = [s].
Proof. intro H. unfold Js.split. rewrite (@splitAux_no_sep sep s EmptyString H). reflexivity. Qed.

(** ** FEN: numbers *)

Lemma digitChar_digit d :
  0 <= d < 10 -> Js.isDigitChar (Js.digitChar d) = true /\ Js.digitValue (Js.digitChar d) = d.
Proof.
  intro H.
  assert (E : d = 0 \/ d = 1 \/ d = 2 \/ d = 3 \/ d = 4 \/ d = 5 \/ d = 6 \/ d = 7
              \/ d = 8 \/ d = 9) by lia.
  repeat (destruct E as [-> | E]; [split; reflexivity |]). subst d. split; reflexivity.
Qed.

Lemma natToStringAux_reads fuel : forall n acc k m,
  0 <= n < 2 ^ Z.of_nat (S fuel) ->
  readsAs acc k m -> (k = O -> m = 0) ->
  exists k',
    readsAs (Js.natToStringAux (S fuel) n acc) (S k') (n * 10 ^ Z.of_nat k + m)
    /\ exists d rest, Js.natToStringAux (S fuel) n acc = String d rest
                      /\ Js.isDigitChar d = true.
Proof.
  induction fuel as [| f IH]; intros n acc k m Hn RA K0.
  - assert (n = 0 \/ n = 1) as [-> | ->] by (change (2 ^ Z.of_nat 1) with 2 in Hn; lia).
    + exists k. split; [| eexists _, _; split; reflexivity].
      intro a. cbn [Js.natToStringAux]. change (0 mod 10) with 0. change (0 / 10 =? 0) with true.
      cbv iota. cbn [Js.digitsPrefix]. change (Js.isDigitChar (Js.digitChar 0)) with true.
      cbv iota. rewrite RA. change (Js.digitValue (Js.digitChar 0)) with 0.
      destruct k as [| k]; [rewrite (K0 eq_refl); f_equal; change (10 ^ Z.of_nat 1) with 10; change (10 ^ Z.of_nat 0) with 1; lia |].
      f_equal. rewrite (Nat2Z.inj_succ (S k)), Z.pow_succ_r by lia. lia.
    + exists k. split; [| eexists _, _; split; reflexivity].
      intro a. cbn [Js.natToStringAux]. change (1 mod 10) with 1. change (1 / 10 =? 0) with true.
      cbv iota. cbn [Js.digitsPrefix]. change (Js.isDigitChar (Js.digitChar 1)) with true.
      cbv iota. rewrite RA. change (Js.digitValue (Js.digitChar 1)) with 1.
      destruct k as [| k]; [rewrite (K0 eq_refl); f_equal; change (10 ^ Z.of_nat 1) with 10; change (10 ^ Z.of_nat 0) with 1; lia |].
      f_equal. rewrite (Nat2Z.inj_succ (S k)), Z.pow_succ_r by lia. lia.
  - assert (D : 0 <= n mod 10 < 10) by (apply Z.mod_pos_bound; lia).
    destruct (digitChar_digit D) as [DD DV].
    assert (RA' : readsAs (String (Js.digitChar (n mod 10)) acc) (S k)
                    (n mod 10 * 10 ^ Z.of_nat k + m)).
    { intro a. cbn [Js.digitsPrefix]. rewrite DD, DV, RA.
      destruct k as [| k]; [rewrite (K0 eq_refl); f_equal; change (10 ^ Z.of_nat 1) with 10; change (10 ^ Z.of_nat 0) with 1; lia |].
      f_equal. rewrite (Nat2Z.inj_succ (S k)), Z.pow_succ_r by lia. lia. }
    change (Js.natToStringAux (S (S f)) n acc)
      with (if n / 10 =? 0 then String (Js.digitChar (n mod 10)) acc
            else Js.natToStringAux (S f) (n / 10) (String (Js.digitChar (n mod 10)) acc)).
    destruct (n / 10 =? 0) eqn:E.
    + apply Z.eqb_eq in E. exists k.
      split; [| eexists _, _; split; [reflexivity | exact DD]].
      assert (EN : n = n mod 10) by (rewrite (Z.div_mod n 10) at 1 by lia; lia).
      replace (n * 10 ^ Z.of_nat k + m) with (n mod 10 * 10 ^ Z.of_nat k + m)
        by (rewrite <- EN; reflexivity).
      exact RA'.
    + assert (Hq : 0 <= n / 10 < 2 ^ Z.of_nat (S f)).
      { split; [apply Z.div_pos; lia |].
        apply Z.div_lt_upper_bound; [lia |].
        rewrite (Nat2Z.inj_succ (S f)), Z.pow_succ_r in Hn by lia.
        assert (0 < 2 ^ Z.of_nat (S f)) by (apply Z.pow_pos_nonneg; lia). lia. }
      destruct (IH (n / 10) _ (S k) _ Hq RA') as (k' & R & FD); [discriminate |].
      exists k'. split; [| exact FD].
      replace (n * 10 ^ Z.of_nat k + m)
        with (n / 10 * 10 ^ Z.of_nat (S k) + (n mod 10 * 10 ^ Z.of_nat k + m)); [exact R |].
      rewrite Nat2Z.inj_succ, Z.pow_succ_r by lia.
      rewrite (Z.div_mod n 10) at 3 by lia. ring.
Qed.

Lemma decimal_digits n :
  0 <= n ->
  exists k d rest,
    readsAs (Js.decimal n) (S k) n
    /\ Js.decimal n = String d rest /\ Js.isDigitChar d = true.
Proof.
  intro H. unfold Js.decimal.
  assert (Hn : 0 <= n < 2 ^ Z.of_nat (S (Z.to_nat (Z.log2 n)))).
  { split; [exact H |]. rewrite Nat2Z.inj_succ, Z2Nat.id by apply Z.log2_nonneg.
    destruct (Z.eq_dec n 0) as [-> | NZ]; [reflexivity |].
    apply Z.log2_spec. lia. }
  destruct (@natToStringAux_reads _ n EmptyString O 0 Hn) as (k & R & d & rest & ES & DD).
  - intro a. reflexivity.
  - reflexivity.
  - exists k, d, rest. split; [| split; [exact ES | exact DD]].
    replace (n * 10 ^ Z.of_nat 0 + 0) with n in R by (cbn; lia). exact R.
Qed.

Lemma digit_not_space d : Js.isDigitChar d = true -> Js.isJsSpace d = false.
Proof.
  unfold Js.isDigitChar, Js.isJsSpace. cbv zeta. intro H.
  apply andb_true_iff in H. destruct H as [H1 H2].
  apply Nat.leb_le in H1. apply Nat.leb_le in H2.
  apply orb_false_iff. split; [apply Nat.eqb_neq; lia |].
  apply andb_false_iff. right. apply Nat.leb_gt. lia.
Qed.

(** [parseInt] reads the digits of an integer as the double nearest to it. *)
Lemma parseInt_decimal n : 0 <= n -> Js.parseInt (Js.decimal n) = Some (Js.toDouble n).
Proof.
  intro H. destruct (decimal_digits H) as (k & d & rest & R & ES & DD).
  unfold Js.parseInt.
  assert (T : Js.trimStart (Js.decimal n) = Js.decimal n).
  { rewrite ES. cbn [Js.trimStart]. rewrite (digit_not_space _ DD). reflexivity. }
  rewrite T.
  assert (P : Js.digitsPrefix (Js.decimal n) None = Some n).
  { rewrite (R None). f_equal; lia. }
  rewrite ES in *.
  destruct d as [b0 b1 b2 b3 b4 b5 b6 b7].
  destruct b0, b1, b2, b3, b4, b5, b6, b7; try discriminate DD; rewrite P; reflexivity.
Qed.

(** Below 2^53 a number is written with its own digits and read back as
    itself. *)
Lemma numberToString_safe n : 0 <= n < 2 ^ 53 -> Js.numberToString n = Js.decimal n.
Proof.
  intro H. unfold Js.numberToString, Js.unsignedToString.
  pose proof INFINITY_beyond as B.
  destruct (n <? 0) eqn:E0; [apply Z.ltb_lt in E0; lia |].
  destruct (Js.INFINITY <=? n) eqn:E1; [apply Z.leb_le in E1; lia |].
  destruct (n <? 2 ^ 53) eqn:E2; [reflexivity | apply Z.ltb_ge in E2; lia].
Qed.

Lemma parseInt_numberToString n :
  0 <= n < 2 ^ 53 -> Js.parseInt (Js.numberToString n) = Some n.
Proof.
  intro H. rewrite (numberToString_safe H), parseInt_decimal by lia.
  unfold Js.toDouble. cbv zeta.
  destruct (Z.abs n <? 2 ^ 53) eqn:E; [reflexivity | apply Z.ltb_ge in E; lia].
Qed.

(** From 10^21 on the text is in exponent notation, of which [parseInt]
    reads the digits before the point or the [e]; and a text of many digits
    is read as the double nearest to it. *)
Lemma numbers_beyond_the_safe_integers :
  Js.numberToString (10 ^ 21) = "1e+21"
  /\ Js.parseInt "1e+21" = Some 1
  /\ Js.numberToString (2 ^ 70) = "1.1805916207174113e+21"
  /\ Js.parseInt "9007199254740993" = Some 9007199254740992
  /\ Js.numberToString (2 ^ 53 + 2) = "9007199254740994"
  /\ Js.numberToString Js.INFINITY = "Infinity"
  /\ Js.parseInt "Infinity" = None.
Proof. repeat split; vm_compute; reflexivity. Qed.

(** ** FEN: one rank *)

Lemma fenRowLoop_text ps row cols : forall rowStr e,
  0 <= e ->
  (let '(s, e') := fenRowLoop ps row cols rowStr e in
   if 0 <? e' then (s ++ Js.numberToString e')%string else s)
  = (rowStr ++ fenRowText ps row cols e)%string.
Proof.
  induction cols as [| col rest IH]; intros rowStr e E0; cbn [fenRowLoop fenRowText].
  - destruct (0 <? e); [reflexivity | rewrite append_nil_r; reflexivity].
  - destruct (get ps (make col row)) as [p |]; [| apply IH; lia].
    cbv zeta. destruct (0 <? e) eqn:Z.
    + rewrite IH by lia. rewrite !append_assoc. reflexivity.
    + apply Z.ltb_ge in Z. assert (e = 0) by lia. subst e.
      rewrite IH by lia. cbn [append]. rewrite !append_assoc. reflexivity.
Qed.

Lemma fenRow_text ps row : fenRow ps row = fenRowText ps row BOARD_FILES 0.
Proof.
  unfold fenRow.
  pose proof (@fenRowLoop_text ps row BOARD_FILES EmptyString 0 (Z.le_refl 0)) as H.
  destruct (fenRowLoop ps row BOARD_FILES "" 0) as [s e']. exact H.
Qed.

Lemma numberToString_small e :
  0 < e <= 8 -> Js.numberToString e = charStr (Js.digitChar e).
Proof.
  intro H.
  assert (E : e = 1 \/ e = 2 \/ e = 3 \/ e = 4 \/ e = 5 \/ e = 6 \/ e = 7 \/ e = 8) by lia.
  repeat (destruct E as [-> | E]; [reflexivity |]). subst e. reflexivity.
Qed.

Lemma piece_char_facts p :
  isNumberChar (PieceId.char p) = false
  /\ PieceId.parse (PieceId.char p) = Some p
  /\ numberOfChar (PieceId.char p) = None
  /\ PieceId.isPiece (Js.toLowerCaseChar (PieceId.char p)) = true
  /\ Ascii.eqb (PieceId.char p) " " = false
  /\ Ascii.eqb (PieceId.char p) "/" = false.
Proof. destruct p; repeat split. Qed.

Lemma small_digit_facts e :
  0 < e <= 8 ->
  isNumberChar (Js.digitChar e) = true
  /\ Js.digitValue (Js.digitChar e) = e
  /\ numberOfChar (Js.digitChar e) = Some e
  /\ Ascii.eqb (Js.digitChar e) " " = false
  /\ Ascii.eqb (Js.digitChar e) "/" = false.
Proof.
  intro H.
  assert (E : e = 1 \/ e = 2 \/ e = 3 \/ e = 4 \/ e = 5 \/ e = 6 \/ e = 7 \/ e = 8) by lia.
  repeat (destruct E as [-> | E]; [repeat split |]). subst e. repeat split.
Qed.

Lemma files_nth pre col rest :
  (pre ++ col :: rest)%list = BOARD_FILES ->
  Js.arrayGet BOARD_FILES (Z.of_nat (List.length pre)) = Some col
  /\ (List.length pre < 8)%nat.
Proof.
  intro E. unfold Js.arrayGet.
  destruct (Z.of_nat (List.length pre) <? 0) eqn:N; [apply Z.ltb_lt in N; lia |].
  rewrite Nat2Z.id, <- E. rewrite nth_error_app2 by apply Nat.le_refl.
  rewrite Nat.sub_diag. split; [reflexivity |].
  apply (f_equal (@List.length _)) in E. rewrite length_app in E. cbn in E. lia.
Qed.

(** [parseFenRow] on the text of a rank puts the pieces of the rank on
    their squares. *)
Lemma parseFenRow_text ps row rowIndex :
  Js.arrayGet BOARD_RANKS rowIndex = Some row ->
  forall cols pre e c acc,
    (pre ++ cols)%list = BOARD_FILES ->
    0 <= e -> 0 <= c -> c + e = Z.of_nat (List.length pre) ->
    exists acc',
      parseFenRow (fenRowText ps row cols e) rowIndex c acc = Normal acc'
      /\ forall sq, get acc' sq = match rowGet ps row cols sq with
                                  | Some p => Some p
                                  | None => get acc sq
                                  end.
Proof.
  intro HR. induction cols as [| col rest IH]; intros pre e c acc EP E0 C0 EC;
    cbn [fenRowText].
  - assert (L : List.length pre = 8%nat)
      by (rewrite app_nil_r in EP; rewrite EP; reflexivity).
    exists acc. split.
    + destruct (0 <? e) eqn:Z; [| reflexivity]. apply Z.ltb_lt in Z.
      assert (B : 0 < e <= 8) by lia.
      rewrite (numberToString_small B). cbn [charStr parseFenRow].
      destruct (small_digit_facts B) as (D1 & _). rewrite D1. reflexivity.
    + intro sq. unfold rowGet. cbn [existsb]. rewrite andb_false_r. reflexivity.
  - destruct (files_nth pre col rest EP) as [HC HL].
    assert (EP' : ((pre ++ [col]) ++ rest)%list = BOARD_FILES)
      by (rewrite <- app_assoc; exact EP).
    assert (LP : Z.of_nat (List.length (pre ++ [col])) = Z.of_nat (List.length pre) + 1)
      by (rewrite length_app; cbn [List.length]; lia).
    destruct (get ps (make col row)) as [p |] eqn:G.
    + destruct (piece_char_facts p) as (P1 & P2 & _).
      assert (STEP : forall c0, c0 = Z.of_nat (List.length pre) ->
                exists acc',
                  parseFenRow (charStr (PieceId.char p) ++ fenRowText ps row rest 0)
                    rowIndex c0 acc = Normal acc'
                  /\ forall sq, get acc' sq = match rowGet ps row (col :: rest) sq with
                                              | Some p0 => Some p0
                                              | None => get acc sq
                                              end).
      { intros c0 ->. cbn [charStr append parseFenRow]. rewrite P1, P2, HC, HR.
        destruct (IH (pre ++ [col])%list 0 (Z.of_nat (List.length pre) + 1)
                    (set acc (make col row) p) EP') as (acc' & HP & HG); [lia | lia | lia |].
        exists acc'. split; [exact HP |].
        intro sq. rewrite HG, get_set. unfold rowGet. cbn [existsb].
        destruct (equals (make col row) sq) eqn:EQ.
        - apply equals_eq in EQ. subst sq. cbn [file rank].
          assert (T1 : rank_eqb row row = true) by (apply rank_eqb_eq; reflexivity).
          assert (T2 : file_eqb col col = true) by (apply file_eqb_eq; reflexivity).
          rewrite T1, T2. cbn [andb orb]. rewrite G.
          destruct (existsb (file_eqb col) rest); reflexivity.
        - destruct (rank_eqb (rank sq) row) eqn:ER; cbn [andb]; [| reflexivity].
          destruct (file_eqb (file sq) col) eqn:EF; cbn [orb]; [| reflexivity].
          apply rank_eqb_eq in ER. apply file_eqb_eq in EF.
          destruct sq as [sf sr]. cbn [file rank] in *. subst sf sr.
          rewrite equals_refl in EQ. discriminate EQ. }
      destruct (0 <? e) eqn:Z.
      * apply Z.ltb_lt in Z. assert (B : 0 < e <= 8) by lia.
        rewrite (numberToString_small B). cbn [charStr append parseFenRow].
        destruct (small_digit_facts B) as (D1 & D2 & _). rewrite D1, D2.
        apply STEP. lia.
      * apply Z.ltb_ge in Z. cbn [append]. apply STEP. lia.
    + destruct (IH (pre ++ [col])%list (e + 1) c acc EP') as (acc' & HP & HG); [lia | lia | lia |].
      exists acc'. split; [exact HP |].
      intro sq. rewrite HG. unfold rowGet. cbn [existsb].
      destruct (rank_eqb (rank sq) row) eqn:ER; cbn [andb]; [| reflexivity].
      destruct (existsb (file_eqb (file sq)) rest); [rewrite orb_true_r; reflexivity |].
      rewrite orb_false_r.
      destruct (file_eqb (file sq) col) eqn:EF; [| reflexivity].
      apply rank_eqb_eq in ER. apply file_eqb_eq in EF.
      destruct sq as [sf sr]. cbn [file rank] in *. subst sf sr. rewrite G. reflexivity.
Qed.

Lemma includesChar_small e c :
  0 < e <= 8 -> Ascii.eqb (Js.digitChar e) c = false ->
  Js.includesChar (Js.numberToString e) c = false.
Proof.
  intros B H. rewrite (numberToString_small B). cbn [charStr Js.includesChar].
  rewrite H. reflexivity.
Qed.

(** The text of a rank holds neither a space nor a slash, and
    [validateRow] counts eight squares in it. *)
Lemma fenRowText_facts ps row : forall cols pre e,
  (pre ++ cols)%list = BOARD_FILES ->
  0 <= e <= Z.of_nat (List.length pre) ->
  Js.includesChar (fenRowText ps row cols e) " " = false
  /\ Js.includesChar (fenRowText ps row cols e) "/" = false
  /\ forall sum, validateRow (fenRowText ps row cols e) sum
                 = Some (sum + e + Z.of_nat (List.length cols)).
Proof.
  induction cols as [| col rest IH]; intros pre e EP E0; cbn [fenRowText].
  - assert (L : List.length pre = 8%nat)
      by (rewrite app_nil_r in EP; rewrite EP; reflexivity).
    destruct (0 <? e) eqn:Z.
    + apply Z.ltb_lt in Z. assert (B : 0 < e <= 8) by lia.
      destruct (small_digit_facts B) as (_ & _ & D3 & D4 & D5).
      rewrite (numberToString_small B). cbn [charStr Js.includesChar validateRow List.length].
      rewrite D3, D4, D5. repeat split. intro sum. f_equal. lia.
    + apply Z.ltb_ge in Z. repeat split. intro sum. cbn. f_equal. lia.
  - destruct (files_nth pre col rest EP) as [HC HL].
    assert (EP' : ((pre ++ [col]) ++ rest)%list = BOARD_FILES)
      by (rewrite <- app_assoc; exact EP).
    assert (LP : Z.of_nat (List.length (pre ++ [col])) = Z.of_nat (List.length pre) + 1)
      by (rewrite length_app; cbn [List.length]; lia).
    destruct (get ps (make col row)) as [p |].
    + destruct (piece_char_facts p) as (_ & _ & P3 & P4 & P5 & P6).
      destruct (IH (pre ++ [col])%list 0 EP') as (I1 & I2 & I3); [lia |].
      destruct (0 <? e) eqn:Z.
      * apply Z.ltb_lt in Z. assert (B : 0 < e <= 8) by lia.
        destruct (small_digit_facts B) as (_ & _ & D3 & D4 & D5).
        rewrite (numberToString_small B).
        cbn [charStr append Js.includesChar validateRow List.length].
        rewrite D3, D4, D5, P3, P4, P5, P6, I1, I2. cbn [negb orb].
        repeat split. intro sum. rewrite I3. f_equal. lia.
      * apply Z.ltb_ge in Z.
        cbn [charStr append Js.includesChar validateRow List.length].
        rewrite P3, P4, P5, P6, I1, I2. cbn [negb orb].
        repeat split. intro sum. rewrite I3. f_equal. lia.
    + destruct (IH (pre ++ [col])%list (e + 1) EP') as (I1 & I2 & I3); [lia |].
      split; [exact I1 |]. split; [exact I2 |].
      intro sum. rewrite I3. cbn [List.length]. f_equal. lia.
Qed.

Lemma fenRow_facts ps row :
  Js.includesChar (fenRow ps row) " " = false
  /\ Js.includesChar (fenRow ps row) "/" = false
  /\ validateRow (fenRow ps row) 0 = Some 8.
Proof.
  rewrite fenRow_text.
  destruct (@fenRowText_facts ps row BOARD_FILES [] 0 eq_refl) as (H1 & H2 & H3);
    [cbn; lia |].
  split; [exact H1 |]. split; [exact H2 |]. rewrite H3. reflexivity.
Qed.

Lemma parseFenRow_fenRow ps row rowIndex acc :
  Js.arrayGet BOARD_RANKS rowIndex = Some row ->
  exists acc',
    parseFenRow (fenRow ps row) rowIndex 0 acc = Normal acc'
    /\ forall sq, get acc' sq = match (if rank_eqb sq.(rank) row then get ps sq else None) with
                                | Some p => Some p
                                | None => get acc sq
                                end.
Proof.
  intro HR. rewrite fenRow_text.
  destruct (@parseFenRow_text ps row rowIndex HR BOARD_FILES [] 0 0 acc eq_refl)
    as (acc' & HP & HG); [lia | lia | reflexivity |].
  exists acc'. split; [exact HP |]. intro sq. rewrite HG. unfold rowGet.
  assert (A : existsb (file_eqb (file sq)) BOARD_FILES = true)
    by (destruct sq as [[] r]; reflexivity).
  rewrite A, andb_true_r. reflexivity.
Qed.

(** ** FEN: the text of a board *)

Lemma split_join sep (l : list string) :
  l <> [] ->
  (forall s, In s l -> Js.includesChar s sep = false) ->
  Js.split (Js.join (String sep EmptyString) l) sep = l.
Proof.
  induction l as [| s l IH]; intros NE H; [contradiction NE; reflexivity |].
  destruct l as [| s' l'].
  - cbn [Js.join]. apply split_one. apply H. left. reflexivity.
  - change (Js.join (String sep "") (s :: s' :: l'))
      with (s ++ String sep (Js.join (String sep "") (s' :: l')))%string.
    rewrite split_cons by (apply H; left; reflexivity).
    rewrite IH; [reflexivity | discriminate |].
    intros x HI. apply H. right. exact HI.
Qed.

Lemma natToStringAux_chars c fuel : forall n acc,
  Js.isDigitChar c = false ->
  Js.includesChar acc c = false ->
  Js.includesChar (Js.natToStringAux fuel n acc) c = false.
Proof.
  induction fuel as [| f IH]; intros n acc NC HA; cbn [Js.natToStringAux]; [exact HA |].
  assert (D : 0 <= n mod 10 < 10) by (apply Z.mod_pos_bound; lia).
  destruct (digitChar_digit D) as [DD _].
  assert (HA' : Js.includesChar (String (Js.digitChar (n mod 10)) acc) c = false).
  { cbn [Js.includesChar]. rewrite HA, orb_false_r.
    destruct (Ascii.eqb (Js.digitChar (n mod 10)) c) eqn:E; [| reflexivity].
    apply Ascii.eqb_eq in E. rewrite E in DD. rewrite DD in NC. discriminate NC. }
  destruct (n / 10 =? 0); [exact HA' | exact (IH _ _ NC HA')].
Qed.

Lemma decimal_no_space n : Js.includesChar (Js.decimal n) " " = false.
Proof. unfold Js.decimal. apply natToStringAux_chars; reflexivity. Qed.

Lemma zeros_no_space n : Js.includesChar (Js.zeros n) " " = false.
Proof. induction n as [| n IH]; [reflexivity | exact IH]. Qed.

Lemma numberToString_no_space n : Js.includesChar (Js.numberToString n) " " = false.
Proof.
  assert (U : forall a, Js.includesChar (Js.unsignedToString a) " " = false).
  { intro a. unfold Js.unsignedToString.
    destruct (Js.INFINITY <=? a); [reflexivity |].
    destruct (a <? 2 ^ 53); [apply decimal_no_space |].
    destruct (Js.shortestFrom _ a) as [s p].
    destruct (_ <=? 21).
    - rewrite includesChar_app, decimal_no_space, zeros_no_space. reflexivity.
    - pose proof (decimal_no_space s) as DS.
      destruct (Js.decimal s) as [| d [| d2 rest]]; [reflexivity | |].
      + cbn [Js.includesChar] in DS |- *. apply orb_false_iff in DS. destruct DS as [D1 _].
        rewrite D1. cbn [append Js.includesChar orb].
        change (Ascii.eqb "e" " ") with false. change (Ascii.eqb "+" " ") with false.
        cbn [orb]. apply decimal_no_space.
      + cbn [Js.includesChar] in DS. apply orb_false_iff in DS. destruct DS as [D1 DS].
        cbn [Js.includesChar]. rewrite D1. cbn [orb].
        rewrite includesChar_app. cbn [Js.includesChar].
        change (Ascii.eqb "." " ") with false. cbn [orb].
        rewrite includesChar_app. cbn [Js.includesChar] in DS |- *. rewrite DS.
        rewrite includesChar_app. cbn [Js.includesChar].
        change (Ascii.eqb "e" " ") with false. change (Ascii.eqb "+" " ") with false.
        cbn [orb]. apply decimal_no_space. }
  unfold Js.numberToString. destruct (n <? 0); [| apply U].
  cbn [Js.includesChar]. rewrite U. reflexivity.
Qed.

Lemma placementText_rows ps :
  Js.split (placementText ps) "/" = map (fenRow ps) (rev BOARD_RANKS)
  /\ Js.includesChar (placementText ps) " " = false.
Proof.
  split.
  - apply split_join; [discriminate |].
    intros s HI. apply in_map_iff in HI. destruct HI as (r & <- & _).
    apply fenRow_facts.
  - unfold placementText.
    assert (G : forall l, (forall s, In s l -> Js.includesChar s " " = false) ->
                          Js.includesChar (Js.join "/" l) " " = false).
    { induction l as [| s l IH]; intro H; [reflexivity |].
      destruct l as [| s' l']; [apply H; left; reflexivity |].
      change (Js.join "/" (s :: s' :: l')) with (s ++ String "/" (Js.join "/" (s' :: l')))%string.
      rewrite includesChar_app. cbn [Js.includesChar].
      rewrite (H s (or_introl eq_refl)), IH; [reflexivity |].
      intros x HI. apply H. right. exact HI. }
    apply G. intros s HI. apply in_map_iff in HI. destruct HI as (r & <- & _).
    apply fenRow_facts.
Qed.

Lemma boardToFen_fields b : Js.split (boardToFen b) " " = fenFields b.
Proof.
  change (boardToFen b)
    with (placementText (pieces b) ++ String " " (colorString (turnColor b)
          ++ String " " (castlingText (canCastle b)
          ++ String " " (enPassantText (enPassantTarget b)
          ++ String " " (Js.numberToString (halfMoveClock b)
          ++ String " " (Js.numberToString (fullMoveNumber b)))))))%string.
  rewrite split_cons by apply placementText_rows.
  rewrite split_cons by (destruct (turnColor b); reflexivity).
  rewrite split_cons
    by (destruct (canCastle b) as [[] [] [] []]; reflexivity).
  rewrite split_cons
    by (destruct (enPassantTarget b) as [[[] []] |]; reflexivity).
  rewrite split_cons by apply numberToString_no_space.
  rewrite split_one by apply numberToString_no_space.
  reflexivity.
Qed.

(** X27. Every text that [boardToFen] writes passes [validateFen]: it has
    six fields and eight ranks of eight squares each. *)
Theorem boardToFen_is_valid b : validateFen (boardToFen b) = true.
Proof.
  unfold validateFen.
  assert (NE : String.eqb (boardToFen b) "" = false).
  { destruct (String.eqb (boardToFen b) "") eqn:E; [| reflexivity].
    apply String.eqb_eq in E. pose proof (boardToFen_fields b) as F.
    rewrite E in F. discriminate F. }
  rewrite NE, boardToFen_fields. cbn [fenFields List.length Nat.eqb negb nth].
  destruct (placementText_rows (pieces b)) as [R _].
  assert (NP : String.eqb (placementText (pieces b)) "" = false).
  { destruct (String.eqb (placementText (pieces b)) "") eqn:E; [| reflexivity].
    apply String.eqb_eq in E. rewrite E in R. discriminate R. }
  rewrite NP, R. cbn [BOARD_RANKS rev app map List.length Nat.eqb negb forallb].
  rewrite !(proj2 (proj2 (fenRow_facts _ _))). reflexivity.
Qed.

Lemma parseFenRows_placement ps :
  exists ps',
    parseFenRows (rev (map (fenRow ps) (rev BOARD_RANKS))) 8 [] = Normal ps'
    /\ (forall sq, get ps' sq = get ps sq)
    /\ distinctKeys ps' = true.
Proof.
  cbn [BOARD_RANKS rev app map parseFenRows nth].
  destruct (@parseFenRow_fenRow ps R8 (Z.of_nat 7) [] eq_refl) as (a8 & H8 & G8).
  destruct (@parseFenRow_fenRow ps R7 (Z.of_nat 6) a8 eq_refl) as (a7 & H7 & G7).
  destruct (@parseFenRow_fenRow ps R6 (Z.of_nat 5) a7 eq_refl) as (a6 & H6 & G6).
  destruct (@parseFenRow_fenRow ps R5 (Z.of_nat 4) a6 eq_refl) as (a5 & H5 & G5).
  destruct (@parseFenRow_fenRow ps R4 (Z.of_nat 3) a5 eq_refl) as (a4 & H4 & G4).
  destruct (@parseFenRow_fenRow ps R3 (Z.of_nat 2) a4 eq_refl) as (a3 & H3 & G3).
  destruct (@parseFenRow_fenRow ps R2 (Z.of_nat 1) a3 eq_refl) as (a2 & H2 & G2).
  destruct (@parseFenRow_fenRow ps R1 (Z.of_nat 0) a2 eq_refl) as (a1 & H1 & G1).
  rewrite H8. cbn [bindC]. rewrite H7. cbn [bindC]. rewrite H6. cbn [bindC].
  rewrite H5. cbn [bindC]. rewrite H4. cbn [bindC]. rewrite H3. cbn [bindC].
  rewrite H2. cbn [bindC]. rewrite H1. cbn [bindC].
  exists a1. split; [reflexivity |]. split.
  - intro sq. rewrite G1, G2, G3, G4, G5, G6, G7, G8.
    destruct sq as [f r]. cbn [rank get].
    destruct r; cbn; destruct (get ps _); reflexivity.
  - apply (parseFenRow_distinctKeys _ _ _ _
             (parseFenRow_distinctKeys _ _ _ _
             (parseFenRow_distinctKeys _ _ _ _
             (parseFenRow_distinctKeys _ _ _ _
             (parseFenRow_distinctKeys _ _ _ _
             (parseFenRow_distinctKeys _ _ _ _
             (parseFenRow_distinctKeys _ _ _ _
             (parseFenRow_distinctKeys _ _ _ _ (eq_refl : distinctKeys [] = true) H8)
              H7) H6) H5) H4) H3) H2) H1).
Qed.

Lemma parse_toString p : Board.parse (Board.toString p) = Some p.
Proof. destruct p as [[] []]; reflexivity. Qed.

Lemma castlingText_read c :
  {| whiteKingSide := Js.includesChar (castlingText c) "K";
     whiteQueenSide := Js.includesChar (castlingText c) "Q";
     blackKingSide := Js.includesChar (castlingText c) "k";
     blackQueenSide := Js.includesChar (castlingText c) "q" |} = c.
Proof. destruct c as [[] [] [] []]; reflexivity. Qed.

(** X28. Writing a position with [boardToFen] and reading the text back
    with [parseFen] gives the position again but for the side to move: with
    a half move clock from 0 to 2^53 - 1 and a full move number from 1 to
    2^53 - 1, [parseFen] does not throw, and the position it returns has
    the same piece on every square, the same castling rights, en-passant
    target and clocks, an empty history, the legal moves of the position
    read, and Black to move whoever was to move. *)
Theorem fen_round_trip b :
  0 <= b.(halfMoveClock) < 2 ^ 53 -> 1 <= b.(fullMoveNumber) < 2 ^ 53 ->
  exists b',
    parseFen (boardToFen b) = Normal b'
    /\ (forall sq, get b'.(pieces) sq = get b.(pieces) sq)
    /\ distinctKeys b'.(pieces) = true
    /\ b'.(canCastle) = b.(canCastle)
    /\ b'.(enPassantTarget) = b.(enPassantTarget)
    /\ b'.(halfMoveClock) = b.(halfMoveClock)
    /\ b'.(fullMoveNumber) = b.(fullMoveNumber)
    /\ b'.(moves) = []
    /\ b'.(turnColor) = BLACK
    /\ fillAllowedMoves (withAllowedMoves b' []) = Normal b'.
Proof.
  intros HM FM. unfold parseFen. rewrite boardToFen_fields.
  cbn [fenFields List.length Nat.ltb Nat.leb nth nth_error Js.nullish].
  destruct (placementText_rows (pieces b)) as [R _]. rewrite R.
  rewrite length_map, length_rev. cbn [BOARD_RANKS List.length Nat.eqb negb].
  cbv zeta. rewrite length_rev, length_map, length_rev.
  cbn [BOARD_RANKS List.length].
  destruct (parseFenRows_placement (pieces b)) as (ps' & HP & HG & HD).
  change (rev [R1; R2; R3; R4; R5; R6; R7; R8]) with (rev BOARD_RANKS).
  rewrite HP. cbn [bindC].
  assert (EP : (if negb (String.eqb (enPassantText (enPassantTarget b)) "-")
                then match Board.parse (enPassantText (enPassantTarget b)) with
                     | Some pos => Normal (Some pos)
                     | None => Throw FenInvalidEnPassantTarget
                     end
                else Normal None) = Normal (enPassantTarget b)).
  { destruct (enPassantTarget b) as [pos |]; [| reflexivity].
    cbn [enPassantText]. rewrite parse_toString. destruct pos as [[] []]; reflexivity. }
  rewrite EP. cbn [bindC].
  rewrite (parseInt_numberToString HM).
  destruct (halfMoveClock b <? 0) eqn:E1; [apply Z.ltb_lt in E1; lia |].
  assert (FM0 : 0 <= fullMoveNumber b < 2 ^ 53) by lia.
  rewrite (parseInt_numberToString FM0).
  destruct (fullMoveNumber b <? 1) eqn:E2; [apply Z.ltb_lt in E2; lia |].
  rewrite castlingText_read.
  match goal with
  | |- exists b', fillAllowedMoves ?bd = Normal b' /\ _ =>
      destruct (fillAllowedMoves_total bd eq_refl) as [b' HF];
      pose proof (@fillAllowedMoves_frame _ _ HF) as FR
  end.
  exists b'. split; [exact HF |].
  assert (RS : withAllowedMoves b' [] =
               {| pieces := ps';
                  turnColor := if String.eqb (colorString (turnColor b)) "w" then WHITE else BLACK;
                  canCastle := canCastle b; enPassantTarget := enPassantTarget b;
                  halfMoveClock := halfMoveClock b; fullMoveNumber := fullMoveNumber b;
                  allowedMoves := []; moves := [] |})
    by (rewrite FR; reflexivity).
  split; [intro sq; rewrite FR; exact (HG sq) |].
  split; [rewrite FR; exact HD |].
  split; [rewrite FR; reflexivity |]. split; [rewrite FR; reflexivity |].
  split; [rewrite FR; reflexivity |]. split; [rewrite FR; reflexivity |].
  split; [rewrite FR; reflexivity |].
  split; [rewrite FR; destruct (turnColor b); reflexivity |].
  rewrite RS. exact HF.
Qed.

Lemma fen_round_trip_witness :
  exists b',
    parseFen (boardToFen initialBoard) = Normal b'
    /\ (forall sq, get b'.(pieces) sq = get initialBoard.(pieces) sq)
    /\ distinctKeys b'.(pieces) = true
    /\ b'.(canCastle) = initialBoard.(canCastle)
    /\ b'.(enPassantTarget) = initialBoard.(enPassantTarget)
    /\ b'.(halfMoveClock) = initialBoard.(halfMoveClock)
    /\ b'.(fullMoveNumber) = initialBoard.(fullMoveNumber)
    /\ b'.(moves) = []
    /\ b'.(turnColor) = BLACK
    /\ fillAllowedMoves (withAllowedMoves b' []) = Normal b'.
Proof.
  apply (fen_round_trip initialBoard); vm_compute; (split; [discriminate | reflexivity]).
Defined.

(** Beyond the safe integers the text is not read back: the full move
    number 10^21 is written [1e+21] and read as 1. *)
Lemma fen_round_trip_beyond :
  Js.nullish (nth_error (Js.split (boardToFen lateBoard) " ") 5) "" = "1e+21"%string
  /\ exists b', parseFen (boardToFen lateBoard) = Normal b' /\ b'.(fullMoveNumber) = 1.
Proof.
  split; [vm_compute; reflexivity |].
  eexists. split; [vm_compute; reflexivity | reflexivity].
Qed.

(** ** parseFen: the fields left out, and what it returns *)

(** X29. The fields that a FEN text leaves out take their defaults: a text
    that is a placement only is read as the placement followed by
    [w - - 0 1]. *)
Theorem parseFen_defaults (placement : string) :
  Js.includesChar placement " " = false ->
  parseFen placement = parseFen (placement ++ " w - - 0 1").
Proof.
  intro H. unfold parseFen.
  change (placement ++ " w - - 0 1")%string with (placement ++ String " " "w - - 0 1")%string.
  rewrite (@split_one " " placement H), (@split_cons " " placement "w - - 0 1" H).
  reflexivity.
Qed.

Lemma parseFen_defaults_witness :
  parseFen "rnbqkbnr/pppppppp/8/8/8/8/PPPPPPPP/RNBQKBNR"
  = parseFen ("rnbqkbnr/pppppppp/8/8/8/8/PPPPPPPP/RNBQKBNR" ++ " w - - 0 1").
Proof.
  apply (parseFen_defaults "rnbqkbnr/pppppppp/8/8/8/8/PPPPPPPP/RNBQKBNR"). reflexivity.
Defined.

Lemma splitAux_nonempty sep s : forall cur, Js.splitAux sep s cur <> [].
Proof.
  induction s as [| c s IH]; intro cur; cbn [Js.splitAux]; [discriminate |].
  destruct (Ascii.eqb c sep); [discriminate | apply IH].
Qed.

Lemma parseFenRow_throws rowStr : forall rowIndex colIndex ps e,
  parseFenRow rowStr rowIndex colIndex ps = Throw e -> e <> FenMustContainPlacement.
Proof.
  induction rowStr as [| c rest IH]; intros rowIndex colIndex ps e H; cbn [parseFenRow] in H;
    [discriminate H |].
  destruct (isNumberChar c); [exact (IH _ _ _ _ H) |].
  destruct (PieceId.parse c); [| injection H as <-; discriminate].
  destruct (Js.arrayGet BOARD_FILES colIndex); [| injection H as <-; discriminate].
  destruct (Js.arrayGet BOARD_RANKS rowIndex); [| injection H as <-; discriminate].
  exact (IH _ _ _ _ H).
Qed.

Lemma parseFenRows_throws fenRows n : forall ps e,
  parseFenRows fenRows n ps = Throw e -> e <> FenMustContainPlacement.
Proof.
  induction n as [| n IH]; intros ps e H; cbn [parseFenRows] in H; [discriminate H |].
  destruct (parseFenRow _ _ _ _) as [ps1 | ex] eqn:HR; cbn [bindC] in H.
  - exact (IH _ _ H).
  - injection H as <-. exact (parseFenRow_throws _ _ _ _ HR).
Qed.

(** X30. What [parseFen] returns and what it never answers: the check for a
    missing placement can not fail, a text always having a first field; a
    position that is returned was read from eight ranks, has no square
    twice, an empty history, a half move clock that is not negative, a full
    move number of one at least, and the legal moves that
    [fillAllowedMoves] computes for it. *)
Theorem parseFen_result (fen : string) :
  parseFen fen <> Throw FenMustContainPlacement
  /\ forall b, parseFen fen = Normal b ->
       List.length (Js.split (nth 0 (Js.split fen " ") EmptyString) "/") = 8%nat
       /\ distinctKeys b.(pieces) = true
       /\ b.(moves) = []
       /\ 0 <= b.(halfMoveClock)
       /\ 1 <= b.(fullMoveNumber)
       /\ fillAllowedMoves (withAllowedMoves b []) = Normal b.
Proof.
  split.
  - unfold parseFen. cbv zeta.
    assert (L : Nat.ltb (List.length (Js.split fen " ")) 1 = false).
    { apply Nat.ltb_ge. pose proof (@splitAux_nonempty " " fen EmptyString) as N.
      unfold Js.split. destruct (Js.splitAux " " fen ""); [contradiction N; reflexivity |].
      cbn [List.length]. lia. }
    rewrite L. destruct (negb (Nat.eqb _ 8)); [discriminate |].
    destruct (parseFenRows _ _ _) as [ps | ex] eqn:HR; cbn [bindC].
    + assert (REST : forall ep,
                 match Js.parseInt (Js.nullish (nth_error (Js.split fen " ") 4) "0") with
                 | Some hm =>
                     if hm <? 0 then Throw FenInvalidHalfMoveClock
                     else
                       match Js.parseInt (Js.nullish (nth_error (Js.split fen " ") 5) "1") with
                       | Some fm =>
                           if fm <? 1 then Throw FenInvalidFullMoveNumber
                           else
                             fillAllowedMoves
                               {| pieces := ps;
                                  turnColor :=
                                    if String.eqb (Js.nullish (nth_error (Js.split fen " ") 1) "w") "w"
                                    then WHITE else BLACK;
                                  canCastle :=
                                    {| whiteKingSide :=
                                         Js.includesChar (Js.nullish (nth_error (Js.split fen " ") 2) "-") "K";
                                       whiteQueenSide :=
                                         Js.includesChar (Js.nullish (nth_error (Js.split fen " ") 2) "-") "Q";
                                       blackKingSide :=
                                         Js.includesChar (Js.nullish (nth_error (Js.split fen " ") 2) "-") "k";
                                       blackQueenSide :=
                                         Js.includesChar (Js.nullish (nth_error (Js.split fen " ") 2) "-") "q" |};
                                  enPassantTarget := ep;
                                  halfMoveClock := hm; fullMoveNumber := fm;
                                  allowedMoves := []; moves := [] |}
                       | None => Throw FenInvalidFullMoveNumber
                       end
                 | None => Throw FenInvalidHalfMoveClock
                 end <> Throw FenMustContainPlacement).
      { intro ep. destruct (Js.parseInt _) as [hm |]; [| discriminate].
        destruct (hm <? 0); [discriminate |].
        destruct (Js.parseInt _) as [fm |]; [| discriminate].
        destruct (fm <? 1); [discriminate |].
        match goal with
        | |- fillAllowedMoves ?bd <> _ =>
            destruct (fillAllowedMoves_total bd eq_refl) as [b' HF]; rewrite HF; discriminate
        end. }
      destruct (negb (String.eqb _ "-")); [destruct (Board.parse _) |]; cbn [bindC];
        try discriminate; apply REST.
    + intro E. injection E as ->. exact (parseFenRows_throws _ _ _ HR eq_refl).
  - intros b H. split; [| split; [exact (parseFen_distinctKeys _ H) |
                                  split; [exact (parseFen_moves _ H) |]]].
    + unfold parseFen in H. cbv zeta in H.
      destruct (Nat.ltb _ 1); [discriminate H |].
      destruct (Nat.eqb _ 8) eqn:E; [| discriminate H]. apply Nat.eqb_eq in E. exact E.
    + unfold parseFen in H. cbv zeta in H.
      destruct (Nat.ltb _ 1); [discriminate H |].
      destruct (negb (Nat.eqb _ 8)); [discriminate H |].
      apply bindC_Normal in H. destruct H as (ps & _ & H).
      apply bindC_Normal in H. destruct H as (ep & _ & H).
      destruct (Js.parseInt _) as [hm |]; [| discriminate H].
      destruct (hm <? 0) eqn:E1; [discriminate H |].
      destruct (Js.parseInt _) as [fm |]; [| discriminate H].
      destruct (fm <? 1) eqn:E2; [discriminate H |].
      apply Z.ltb_ge in E1. apply Z.ltb_ge in E2.
      pose proof (@fillAllowedMoves_frame _ _ H) as FR.
      split; [rewrite FR; exact E1 |]. split; [rewrite FR; exact E2 |].
      assert (RS : withAllowedMoves b [] =
                   {| pieces := ps;
                      turnColor := turnColor b; canCastle := canCastle b;
                      enPassantTarget := ep; halfMoveClock := hm; fullMoveNumber := fm;
                      allowedMoves := []; moves := [] |})
        by (rewrite FR; reflexivity).
      rewrite RS. rewrite FR at 1 2. exact H.
Qed.

(** ** The PGN parser: the moves it returns *)

(** *** Reading a movetext *)

Lemma length_append s t :
  String.length (s ++ t) = (String.length s + String.length t)%nat.
Proof. induction s as [| a s IH]; cbn; [reflexivity | rewrite IH; reflexivity]. Qed.

Lemma get_append_length pre c rest :
  String.get (String.length pre) (pre ++ String c rest) = Some c.
Proof. induction pre as [| a pre IH]; cbn; [reflexivity | exact IH]. Qed.

Lemma standsAt_peek p c rest : standsAt p (String c rest) -> Pgn.peekChar p = Some c.
Proof.
  intros (pre & E & O). unfold Pgn.peekChar, Js.charAt. rewrite E, O, length_append.
  cbn [String.length].
  replace (Nat.leb (String.length pre + S (String.length rest)) (String.length pre))
    with false by (symmetry; apply Nat.leb_gt; lia).
  apply get_append_length.
Qed.

Lemma standsAt_more p c rest :
  standsAt p (String c rest) ->
  Pgn.hasMoreChars p = true /\ Js.charAt (Pgn.pgn p) (Pgn.offset p) = Some c.
Proof.
  intro H. split; [exact (@peekChar_more p c (standsAt_peek H)) |].
  exact (@peekChar_get p c (standsAt_peek H)).
Qed.

Lemma standsAt_end p :
  standsAt p EmptyString -> Pgn.peekChar p = None /\ Pgn.hasMoreChars p = false.
Proof.
  intros (pre & E & O). unfold Pgn.peekChar, Pgn.hasMoreChars.
  rewrite E, O, length_append. cbn [String.length]. rewrite Nat.add_0_r.
  rewrite Nat.leb_refl, Nat.ltb_irrefl. auto.
Qed.

Lemma standsAt_consume p c rest :
  standsAt p (String c rest) -> standsAt (snd (Pgn.consumeChar p)) rest.
Proof.
  intro H. unfold Pgn.consumeChar. rewrite (standsAt_peek H). cbn [snd].
  destruct H as (pre & E & O). exists (pre ++ charStr c)%string. cbn [Pgn.pgn Pgn.offset].
  split; [rewrite E, append_snoc; reflexivity | rewrite O, length_snoc; reflexivity].
Qed.

Lemma standsAt_fuel p rest : standsAt p rest -> Pgn.fuelOf p = S (String.length rest).
Proof.
  intros (pre & E & O). unfold Pgn.fuelOf. rewrite E, O, length_append. f_equal. lia.
Qed.

Lemma skipWhitespaceLoop_spaces sep : forall fuel p rest,
  allChars Pgn.isWhiteSpace sep = true ->
  startsWith (fun c => negb (Pgn.isWhiteSpace c)) rest = true ->
  (String.length sep <= fuel)%nat ->
  standsAt p (sep ++ rest) ->
  standsAt (Pgn.skipWhitespaceLoop fuel p) rest.
Proof.
  induction sep as [| s sep IH]; intros fuel p rest WS PL LF H.
  - cbn [append] in H. destruct fuel as [| k]; [exact H |].
    cbn [Pgn.skipWhitespaceLoop].
    destruct rest as [| c rest]; [rewrite (proj1 (standsAt_end H)); exact H |].
    rewrite (standsAt_peek H). cbn [startsWith] in PL. apply negb_true_iff in PL.
    rewrite PL. exact H.
  - cbn [allChars] in WS. apply andb_true_iff in WS. destruct WS as [W1 W2].
    cbn [String.length] in LF. destruct fuel as [| k]; [lia |].
    cbn [append] in H. cbn [Pgn.skipWhitespaceLoop].
    rewrite (standsAt_peek H), W1.
    apply IH; [exact W2 | exact PL | lia | exact (standsAt_consume H)].
Qed.

Lemma skipWhitespace_spaces sep p rest :
  allChars Pgn.isWhiteSpace sep = true ->
  startsWith (fun c => negb (Pgn.isWhiteSpace c)) rest = true ->
  standsAt p (sep ++ rest) ->
  standsAt (Pgn.skipWhitespace p) rest.
Proof.
  intros WS PL H. unfold Pgn.skipWhitespace.
  apply (@skipWhitespaceLoop_spaces sep); [exact WS | exact PL | | exact H].
  rewrite (standsAt_fuel H), length_append. lia.
Qed.

Lemma skipWhitespace_stays p rest :
  startsWith (fun c => negb (Pgn.isWhiteSpace c)) rest = true ->
  standsAt p rest -> standsAt (Pgn.skipWhitespace p) rest.
Proof. intros PL H. exact (@skipWhitespace_spaces EmptyString p rest eq_refl PL H). Qed.

Lemma consumeUntilWhiteSpaceLoop_token w : forall fuel str p rest,
  allChars (fun c => negb (Pgn.isWhiteSpace c)) w = true ->
  startsWith Pgn.isWhiteSpace rest = true ->
  (String.length w <= fuel)%nat ->
  standsAt p (w ++ rest) ->
  exists p',
    Pgn.consumeUntilWhiteSpaceLoop fuel str p = ((str ++ w)%string, p')
    /\ standsAt p' rest.
Proof.
  induction w as [| c w IH]; intros fuel str p rest NW SP LF H.
  - cbn [append] in H. rewrite append_nil_r. exists p. split; [| exact H].
    destruct fuel as [| k]; [reflexivity |]. cbn [Pgn.consumeUntilWhiteSpaceLoop].
    destruct rest as [| d rest]; [rewrite (proj1 (standsAt_end H)); reflexivity |].
    rewrite (standsAt_peek H). cbn [startsWith] in SP. rewrite SP. reflexivity.
  - cbn [allChars] in NW. apply andb_true_iff in NW. destruct NW as [N1 N2].
    apply negb_true_iff in N1.
    cbn [String.length] in LF. destruct fuel as [| k]; [lia |].
    cbn [append] in H. cbn [Pgn.consumeUntilWhiteSpaceLoop].
    rewrite (standsAt_peek H), N1.
    destruct (IH k (str ++ charStr c)%string (snd (Pgn.consumeChar p)) rest N2 SP)
      as (p' & E & H'); [lia | exact (standsAt_consume H) |].
    exists p'. rewrite E, append_snoc. split; [reflexivity | exact H'].
Qed.

Lemma plainToken_facts w :
  plainToken w = true ->
  allChars (fun c => negb (Pgn.isWhiteSpace c)) w = true
  /\ Nat.eqb (String.length w) 0 = false
  /\ forall rest,
      startsWith (fun c => negb (Pgn.isWhiteSpace c)) (w ++ rest) = true
      /\ startsWith (fun c => negb (Ascii.eqb c "{")) (w ++ rest) = true.
Proof.
  destruct w as [| c w]; [discriminate |]. cbn [plainToken]. intro H.
  apply andb_true_iff in H. destruct H as [H1 H2].
  split; [exact H2 |]. split; [reflexivity |].
  intro rest. cbn [append startsWith]. split; [| exact H1].
  cbn [allChars] in H2. apply andb_true_iff in H2. apply H2.
Qed.

Lemma maybeParseMoveComment_none sep p rest :
  allChars Pgn.isWhiteSpace sep = true ->
  startsWith (fun c => negb (Pgn.isWhiteSpace c)) rest = true ->
  startsWith (fun c => negb (Ascii.eqb c "{")) rest = true ->
  standsAt p (sep ++ rest) ->
  exists p', Pgn.maybeParseMoveComment p = (None, p') /\ standsAt p' rest.
Proof.
  intros WS PL NC H. unfold Pgn.maybeParseMoveComment.
  pose proof (@skipWhitespace_spaces sep p rest WS PL H) as H1.
  exists (Pgn.skipWhitespace p). split; [| exact H1].
  destruct rest as [| c rest].
  - rewrite (proj1 (standsAt_end H1)). reflexivity.
  - rewrite (standsAt_peek H1). cbn [startsWith] in NC. cbn [Js.optCharEqb].
    apply negb_true_iff in NC. rewrite NC. reflexivity.
Qed.

(** [parsePieceMove] before a token, white space or none before it, and
    after it white space or the end. *)
Lemma parsePieceMove_token sep w sep' rest p b m0 :
  allChars Pgn.isWhiteSpace sep = true ->
  plainToken w = true ->
  allChars Pgn.isWhiteSpace sep' = true ->
  startsWith Pgn.isWhiteSpace (sep' ++ rest) = true ->
  startsWith (fun c => negb (Pgn.isWhiteSpace c)) rest = true ->
  startsWith (fun c => negb (Ascii.eqb c "{")) rest = true ->
  calculateMoveFromAlgebraic b w = Normal (Value m0) ->
  standsAt p (sep ++ w ++ sep' ++ rest) ->
  exists p',
    Pgn.parsePieceMove p b = Normal (Value (withComment m0 None), p')
    /\ standsAt p' rest.
Proof.
  intros WS PT WS' SP PL NC D H.
  destruct (@plainToken_facts w PT) as (NW & NE & ST).
  unfold Pgn.parsePieceMove.
  pose proof (@skipWhitespace_spaces sep p (w ++ sep' ++ rest)%string WS
                (proj1 (ST (sep' ++ rest)%string)) H) as H1.
  unfold Pgn.consumeUntilWhiteSpace.
  destruct (@consumeUntilWhiteSpaceLoop_token w (Pgn.fuelOf (Pgn.skipWhitespace p))
              EmptyString (Pgn.skipWhitespace p) (sep' ++ rest)%string NW SP)
    as (p1 & E1 & H2); [rewrite (standsAt_fuel H1), length_append; lia | exact H1 |].
  rewrite E1. cbn [append]. rewrite NE, D. cbn [bindC].
  destruct (@maybeParseMoveComment_none sep' p1 rest WS' PL NC H2) as (p2 & E2 & H3).
  rewrite E2. exists p2. split; [reflexivity | exact H3].
Qed.

(** [parsePieceMove] at the end of the text. *)
Lemma parsePieceMove_end p b :
  standsAt p EmptyString ->
  exists p', Pgn.parsePieceMove p b = Normal (Error None, p') /\ standsAt p' EmptyString.
Proof.
  intro H. unfold Pgn.parsePieceMove.
  pose proof (@skipWhitespace_stays p EmptyString eq_refl H) as H1.
  unfold Pgn.consumeUntilWhiteSpace.
  destruct (@consumeUntilWhiteSpaceLoop_token EmptyString (Pgn.fuelOf (Pgn.skipWhitespace p))
              EmptyString (Pgn.skipWhitespace p) EmptyString eq_refl eq_refl)
    as (p1 & E1 & H2); [cbn; lia | exact H1 |].
  rewrite E1. cbn [append String.length Nat.eqb]. exists p1. split; [reflexivity | exact H2].
Qed.

Lemma natToStringAux_allDigits fuel : forall n acc,
  allChars Js.isDigitChar acc = true ->
  allChars Js.isDigitChar (Js.natToStringAux fuel n acc) = true.
Proof.
  induction fuel as [| f IH]; intros n acc HA; cbn [Js.natToStringAux]; [exact HA |].
  assert (D : 0 <= n mod 10 < 10) by (apply Z.mod_pos_bound; lia).
  destruct (digitChar_digit D) as [DD _].
  assert (HA' : allChars Js.isDigitChar (String (Js.digitChar (n mod 10)) acc) = true)
    by (cbn [allChars]; rewrite DD, HA; reflexivity).
  destruct (n / 10 =? 0); [exact HA' | exact (IH _ _ HA')].
Qed.

Lemma decimal_allDigits n : allChars Js.isDigitChar (Js.decimal n) = true.
Proof. unfold Js.decimal. apply natToStringAux_allDigits. reflexivity. Qed.

Lemma digit_differs d x :
  Js.isDigitChar d = true -> Js.isDigitChar x = false -> Ascii.eqb d x = false.
Proof.
  intros HD HX. destruct (Ascii.eqb d x) eqn:E; [| reflexivity].
  apply Ascii.eqb_eq in E. subst x. rewrite HD in HX. discriminate HX.
Qed.

Lemma digit_not_whiteSpace d : Js.isDigitChar d = true -> Pgn.isWhiteSpace d = false.
Proof.
  intro HD. unfold Pgn.isWhiteSpace.
  rewrite !(@digit_differs d _ HD) by reflexivity. reflexivity.
Qed.

Lemma parseMoveNumberLoop_digits ds : forall fuel str p rest,
  allChars Js.isDigitChar ds = true ->
  (String.length ds < fuel)%nat ->
  standsAt p (ds ++ String "." rest) ->
  exists p',
    Pgn.parseMoveNumberLoop fuel str p = (Some (str ++ ds)%string, p')
    /\ standsAt p' rest.
Proof.
  induction ds as [| d ds IH]; intros fuel str p rest AD LF H;
    (destruct fuel as [| k]; [cbn [String.length] in LF; lia |]);
    cbn [append] in H; cbn [Pgn.parseMoveNumberLoop]; rewrite (standsAt_peek H).
  - rewrite Ascii.eqb_refl, append_nil_r.
    exists (snd (Pgn.consumeChar p)). split; [reflexivity | exact (standsAt_consume H)].
  - cbn [allChars] in AD. apply andb_true_iff in AD. destruct AD as [D1 D2].
    rewrite (@digit_differs d "." D1) by reflexivity.
    unfold isNumberChar. rewrite D1. cbn [negb].
    destruct (IH k (str ++ charStr d)%string (snd (Pgn.consumeChar p)) rest D2)
      as (p' & E & H'); [cbn [String.length] in LF; lia | exact (standsAt_consume H) |].
    exists p'. rewrite E, append_snoc. split; [reflexivity | exact H'].
Qed.

Lemma decimal_starts n :
  0 <= n -> exists d rest, Js.decimal n = String d rest /\ Js.isDigitChar d = true.
Proof.
  intro H. destruct (@decimal_digits n H) as (k & d & rest & _ & ES & DD). eauto.
Qed.

Lemma parseMoveNumber_digits n p rest :
  0 <= n ->
  standsAt p (Js.decimal n ++ String "." rest) ->
  exists v p', Pgn.parseMoveNumber p = (Some v, p') /\ standsAt p' rest.
Proof.
  intros Hn H. unfold Pgn.parseMoveNumber.
  destruct (@decimal_starts n Hn) as (d & ds & ES & DD).
  assert (PL : startsWith (fun c => negb (Pgn.isWhiteSpace c))
                 (Js.decimal n ++ String "." rest) = true).
  { rewrite ES. cbn [append startsWith]. rewrite (@digit_not_whiteSpace d DD). reflexivity. }
  pose proof (@skipWhitespace_stays p _ PL H) as H1.
  destruct (@parseMoveNumberLoop_digits (Js.decimal n) (Pgn.fuelOf (Pgn.skipWhitespace p))
              EmptyString (Pgn.skipWhitespace p) rest (decimal_allDigits n))
    as (p1 & E1 & H2); [rewrite (standsAt_fuel H1), length_append; lia | exact H1 |].
  rewrite E1. cbn [append].
  replace (Nat.eqb (String.length (Js.decimal n)) 0) with false by (rewrite ES; reflexivity).
  rewrite (@parseInt_decimal n Hn). eauto.
Qed.

Lemma movetext_starts n tokens :
  0 <= n ->
  startsWith (fun c => negb (Pgn.isWhiteSpace c)) (movetext n tokens) = true
  /\ startsWith (fun c => negb (Ascii.eqb c "{")) (movetext n tokens) = true
  /\ startsWith (fun c => negb (Ascii.eqb c "[")) (movetext n tokens) = true.
Proof.
  intro Hn. destruct tokens as [| w rest]; [repeat split |].
  cbn [movetext]. destruct (@decimal_starts n Hn) as (d & ds & -> & DD).
  cbn [append startsWith].
  rewrite (@digit_not_whiteSpace d DD), !(@digit_differs d _ DD) by reflexivity.
  repeat split.
Qed.

Lemma tokens_pairs_ind (P : list string -> Prop) :
  P [] -> (forall w, P [w]) -> (forall w bl rest, P rest -> P (w :: bl :: rest)) ->
  forall l, P l.
Proof.
  intros H0 H1 H2.
  assert (B : forall l, P l /\ forall w, P (w :: l)).
  { induction l as [| x l [IH1 IH2]]; [split; [exact H0 | exact H1] |].
    split; [apply IH2 |]. intro w. apply H2. exact IH1. }
  intro l. apply B.
Qed.

(** The loop of [parse] on a movetext: every token is decoded and applied. *)
Lemma parseLoop_movetext tokens : forall n p board ms fuel,
  0 <= n ->
  forallb plainToken tokens = true ->
  playTokens board tokens = Some ms ->
  standsAt p (movetext n tokens) ->
  (String.length (movetext n tokens) < fuel)%nat ->
  exists st,
    Pgn.parseLoop fuel p board None 0 = Some (Normal st)
    /\ (Pgn.stBoard st).(moves) = (board.(moves) ++ ms)%list
    /\ Pgn.stComment st = None
    /\ Pgn.stVariationLevel st = 0.
Proof.
  induction tokens as [| w | w bl rest IH] using tokens_pairs_ind;
    intros n p board ms fuel Hn PT PL H LF;
    (destruct fuel as [| k]; [lia |]).
  - (* no token *)
    cbn [movetext] in H. cbn [playTokens] in PL. injection PL as <-.
    cbn [Pgn.parseLoop]. rewrite (proj2 (standsAt_end H)). cbn [negb].
    eexists. split; [reflexivity |]. cbn [Pgn.stBoard Pgn.stComment Pgn.stVariationLevel].
    rewrite app_nil_r. auto.
  - (* the last move of White *)
    cbn [playTokens] in PL.
    destruct (calculateMoveFromAlgebraic board w) as [[m0 | err] | ex] eqn:D;
      try discriminate PL.
    destruct (applyMove board (withComment m0 None)) as [board1 | ex] eqn:A1;
      [| discriminate PL].
    cbn [option_map] in PL. injection PL as <-.
    cbn [forallb] in PT. apply andb_true_iff in PT. destruct PT as [PW _].
    cbn [movetext] in H.
    destruct (@decimal_starts n Hn) as (d & ds & ES & DD).
    assert (HD : standsAt p (String d (ds ++ ". " ++ w ++ "")))
      by (rewrite ES in H; exact H).
    cbn [Pgn.parseLoop].
    destruct (standsAt_more HD) as [HM HC]. rewrite HM, HC. cbn [negb Js.optCharEqb].
    rewrite !(@digit_differs d _ DD) by reflexivity. cbn [andb orb Z.ltb Z.compare].
    change (Js.decimal n ++ ". " ++ w ++ "")%string
      with (Js.decimal n ++ String "." (" " ++ w ++ "" ++ ""))%string in H.
    destruct (@parseMoveNumber_digits n p _ Hn H) as (v & p1 & EN & H1). rewrite EN.
    destruct (@parsePieceMove_token " " w "" "" p1 board m0 eq_refl PW eq_refl eq_refl
                eq_refl eq_refl D H1) as (p2 & EP & H2).
    rewrite EP, A1.
    destruct (@parsePieceMove_end p2 board1 H2) as (p3 & EP3 & H3). rewrite EP3. cbv zeta.
    pose proof (@skipWhitespace_stays p3 EmptyString eq_refl H3) as H4.
    rewrite (proj2 (standsAt_end H4)).
    eexists. split; [reflexivity |]. cbn [Pgn.stBoard Pgn.stComment Pgn.stVariationLevel].
    rewrite (@applyMove_moves _ _ _ A1). auto.
  - (* a move of White and a move of Black *)
    cbn [playTokens] in PL.
    destruct (calculateMoveFromAlgebraic board w) as [[m0 | err] | ex] eqn:D;
      try discriminate PL.
    destruct (applyMove board (withComment m0 None)) as [board1 | ex] eqn:A1;
      [| discriminate PL].
    destruct (calculateMoveFromAlgebraic board1 bl) as [[m1 | err] | ex] eqn:D1;
      try discriminate PL.
    destruct (applyMove board1 (withComment m1 None)) as [board2 | ex] eqn:A2;
      [| discriminate PL].
    destruct (playTokens board2 rest) as [ms2 |] eqn:PR; [| discriminate PL].
    cbn [option_map] in PL. injection PL as <-.
    cbn [forallb] in PT. apply andb_true_iff in PT. destruct PT as [PW PT].
    apply andb_true_iff in PT. destruct PT as [PB PT].
    assert (Hn1 : 0 <= n + 1) by lia.
    destruct (@movetext_starts (n + 1) rest Hn1) as (MS1 & MS2 & _).
    destruct (@plainToken_facts bl PB) as (_ & _ & STB).
    set (sep2 := match rest with [] => EmptyString | _ :: _ => " "%string end) in *.
    assert (SEP : allChars Pgn.isWhiteSpace sep2 = true) by (destruct rest; reflexivity).
    assert (SEP2 : startsWith Pgn.isWhiteSpace (sep2 ++ movetext (n + 1) rest) = true)
      by (destruct rest; reflexivity).
    assert (TX : movetext n (w :: bl :: rest)
                 = (Js.decimal n ++ String "."
                      (" " ++ w ++ " " ++ bl ++ sep2 ++ movetext (n + 1) rest))%string)
      by reflexivity.
    rewrite TX in H, LF.
    destruct (@decimal_starts n Hn) as (d & ds & ES & DD).
    assert (HD : standsAt p (String d (ds ++ String "."
                   (" " ++ w ++ " " ++ bl ++ sep2 ++ movetext (n + 1) rest))))
      by (rewrite ES in H; exact H).
    cbn [Pgn.parseLoop].
    destruct (standsAt_more HD) as [HM HC]. rewrite HM, HC. cbn [negb Js.optCharEqb].
    rewrite !(@digit_differs d _ DD) by reflexivity. cbn [andb orb Z.ltb Z.compare].
    destruct (@parseMoveNumber_digits n p _ Hn H) as (v & p1 & EN & H1). rewrite EN.
    destruct (@parsePieceMove_token " " w " " (bl ++ sep2 ++ movetext (n + 1) rest) p1 board m0
                eq_refl PW eq_refl eq_refl (proj1 (STB _)) (proj2 (STB _)) D H1)
      as (p2 & EP & H2).
    rewrite EP, A1.
    destruct (@parsePieceMove_token "" bl sep2 (movetext (n + 1) rest) p2 board1 m1
                eq_refl PB SEP SEP2 MS1 MS2 D1 H2)
      as (p3 & EP3 & H3).
    rewrite EP3, A2.
    destruct (IH (n + 1) p3 board2 ms2 k Hn1 PT PR H3) as (st & ES' & M & C & V).
    { repeat (progress (rewrite ?length_append in LF; cbn [String.length] in LF)). lia. }
    exists st. split; [exact ES' |]. split; [| split; [exact C | exact V]].
    rewrite M, (@applyMove_moves _ _ _ A2), (@applyMove_moves _ _ _ A1), <- !app_assoc.
    reflexivity.
Qed.

Lemma parseMetadata_movetext tokens :
  Pgn.parseMetadata (pgnParserOf (movetext 1 tokens)) = pgnParserOf (movetext 1 tokens).
Proof.
  assert (H : standsAt (pgnParserOf (movetext 1 tokens)) (movetext 1 tokens))
    by (exists EmptyString; split; reflexivity).
  destruct (@movetext_starts 1 tokens) as (M1 & _ & M3); [lia |].
  unfold Pgn.parseMetadata. cbv zeta.
  change (Pgn.withTags (pgnParserOf (movetext 1 tokens)) [])
    with (pgnParserOf (movetext 1 tokens)).
  assert (SK : Pgn.skipWhitespace (pgnParserOf (movetext 1 tokens))
               = pgnParserOf (movetext 1 tokens)).
  { unfold Pgn.skipWhitespace, Pgn.fuelOf. cbn [Pgn.skipWhitespaceLoop].
    destruct (movetext 1 tokens) as [| c s] eqn:EM.
    - rewrite (proj1 (standsAt_end H)). reflexivity.
    - rewrite (standsAt_peek H). cbn [startsWith] in M1. apply negb_true_iff in M1.
      rewrite M1. reflexivity. }
  rewrite SK. unfold Pgn.fuelOf. cbn [Pgn.parseMetadataLoop].
  destruct (movetext 1 tokens) as [| c s] eqn:EM.
  - rewrite (proj1 (standsAt_end H)). reflexivity.
  - rewrite (standsAt_peek H). cbn [startsWith Js.optCharEqb] in *.
    apply negb_true_iff in M3. rewrite M3. reflexivity.
Qed.

Lemma parsePGNMoves_movetext tokens ms :
  forallb plainToken tokens = true ->
  playTokens initialBoard tokens = Some ms ->
  Pgn.parsePGNMoves (movetext 1 tokens) = Some (Normal ms).
Proof.
  intros PT PL. unfold Pgn.parsePGNMoves, Pgn.parse, Pgn.parseBoard. cbv zeta.
  fold (pgnParserOf (movetext 1 tokens)). rewrite parseMetadata_movetext.
  cbn [Pgn.tags pgnParserOf Pgn.getTag Js.nullish].
  rewrite (proj1 named_boards_parsed).
  assert (H : standsAt (pgnParserOf (movetext 1 tokens)) (movetext 1 tokens))
    by (exists EmptyString; split; reflexivity).
  destruct (@parseLoop_movetext tokens 1 (pgnParserOf (movetext 1 tokens)) initialBoard ms
              (Pgn.fuelOf (pgnParserOf (movetext 1 tokens))))
    as (st & E & M & C & V);
    [lia | exact PT | exact PL | exact H | rewrite (standsAt_fuel H); lia |].
  fold (pgnParserOf (movetext 1 tokens)).
  rewrite E, V, C. cbn [Z.ltb Z.compare]. rewrite M. reflexivity.
Qed.

(** Whatever the text, the moves that [parsePGNMoves] returns were read
    from the text and played from the initial position. *)
Lemma parsePGNMoves_read (pgnText : string) (ms : list Move) :
  Pgn.parsePGNMoves pgnText = Some (Normal ms) ->
  exists final,
    movesRead pgnText 0 initialBoard ms final
    /\ replay initialBoard ms = Normal final
    /\ final.(moves) = ms.
Proof.
  unfold Pgn.parsePGNMoves, Pgn.parse, Pgn.parseBoard. cbv zeta.
  fold (pgnParserOf pgnText).
  pose proof (parseMetadata_advanced (pgnParserOf pgnText)) as [EP _].
  cbn [Pgn.pgn pgnParserOf] in EP.
  destruct (parse_start (pgnParserOf pgnText)) as [HF | [e HF]]; rewrite HF;
    [| discriminate].
  destruct (Pgn.parseLoop _ _ _ _ _) as [[st | ex] |] eqn:HL; try discriminate.
  apply parseLoop_read in HL. destruct HL as [played R]. rewrite EP in R.
  apply (@movesRead_earlier _ _ 0%nat) in R; [| apply Nat.le_0_l].
  pose proof (movesRead_moves R) as M. cbn [app] in M.
  replace (moves initialBoard) with (@nil Move) in M by reflexivity. cbn [app] in M.
  destruct (0 <? Pgn.stVariationLevel st); [discriminate |].
  assert (OK : exists final,
             movesRead pgnText 0 initialBoard (moves (Pgn.stBoard st)) final
             /\ replay initialBoard (moves (Pgn.stBoard st)) = Normal final
             /\ moves final = moves (Pgn.stBoard st)).
  { exists (Pgn.stBoard st). rewrite M.
    split; [exact R |]. split; [exact (movesRead_replay R) | reflexivity]. }
  destruct (Pgn.stComment st) as [[|] |]; try discriminate;
    intro H; injection H as <-; exact OK.
Qed.

(** X26. Whatever the text and its tags, a FEN tag included, the moves that
    [parsePGNMoves] returns were played from the initial position: each of
    them is what [calculateMoveFromAlgebraic] decodes, on the position
    reached by the moves before it, from a token of the text (characters of
    the text without white space, one at least) that stands after the token
    of the move before, with the comment that the parser attached;
    [applyMove] throws on none of them, and the position reached holds
    exactly the returned moves as its history.  And a movetext is read in
    full: for tokens without white space or an opening brace at the start
    that are decoded and applied one after the other from the initial
    position, [parsePGNMoves] on the text [1. w1 b1 2. w2 b2 ...] returns
    exactly the moves they are decoded to. *)
Theorem pgn_moves_replay :
  (forall (pgnText : string) (ms : list Move),
     Pgn.parsePGNMoves pgnText = Some (Normal ms) ->
     exists final,
       movesRead pgnText 0 initialBoard ms final
       /\ replay initialBoard ms = Normal final
       /\ final.(moves) = ms)
  /\ (forall (tokens : list string) (ms : list Move),
        forallb plainToken tokens = true ->
        playTokens initialBoard tokens = Some ms ->
        Pgn.parsePGNMoves (movetext 1 tokens) = Some (Normal ms)).
Proof.
  split.
  - exact parsePGNMoves_read.
  - exact parsePGNMoves_movetext.
Qed.

Lemma pgn_moves_replay_witness :
  (exists final,
      movesRead pgnWithFenTag 0 initialBoard [pawnE2E4; pawnE7E5] final
      /\ replay initialBoard [pawnE2E4; pawnE7E5] = Normal final
      /\ final.(moves) = [pawnE2E4; pawnE7E5])
  /\ Pgn.parsePGNMoves (movetext 1 openingTokens)
     = Some (Normal [pawnE2E4; pawnE7E5; knightG1F3]).
Proof.
  split.
  - apply (proj1 pgn_moves_replay pgnWithFenTag [pawnE2E4; pawnE7E5]).
    vm_compute. reflexivity.
  - apply (proj2 pgn_moves_replay openingTokens [pawnE2E4; pawnE7E5; knightG1F3]);
      vm_compute; reflexivity.
Defined.
